(** * nmigen.back.pysim: the Python simulator back end

    A shallow embedding of [nmigen/back/pysim.py]: the signal store
    ([_SignalState], [_SimulatorState]), the value and statement compilers
    ([_RHSValueCompiler], [_LHSValueCompiler], [_StatementCompiler]), the
    two kinds of processes ([_CompiledProcess], [_CoroutineProcess]) and the
    delta cycle of [Simulator].

    Conventions.
    - Python integers are [Z]; [&], [|], [^], [~], [<<], [>>] are [Z.land],
      [Z.lor], [Z.lxor], [Z.lnot], [Z.shiftl], [Z.shiftr]; [//] and [%] are
      [Z.div] and [Z.modulo] (both floor, like Python's).
    - Python objects with identity (slots, processes) live in tables and are
      named by their index: a slot by its ordinal in [slots], a process by
      its position in [processes].
    - [dict]s are association lists in insertion order with unique keys;
      [set]s of slots are [gset nat].
    - The simulator compiles to Python source text and [exec]s it.  Here the
      compilers return Rocq closures over the run-time environment: the
      closure is the meaning of the emitted text.
    - Simulation time is a Python float in the source; only its order and
      addition are used, and it is modelled by [Z] (a number of time units). *)

From stdpp Require Import gmap strings list fin_maps relations.
From Stdlib Require Import ZArith Lia Ascii.

Set Warnings "-register-all".

(** ** Exceptions and results *)

Inductive Exn :=
| NotImplementedError
| TypeError
| ValueError
| NameError
| KeyError
| AssertionError
| ZeroDivisionError
| IndexError
| StopIterationExn
| UserError (tag : nat).

Inductive Res (A : Type) :=
| Ok (a : A)
| Raise (e : Exn).
Arguments Ok {A} a.
Arguments Raise {A} e.

#[global] Instance res_ret : MRet Res := λ A a, Ok a.

#[global] Instance res_bind : MBind Res := λ A B k m,
  match m with
  | Ok a => k a
  | Raise e => Raise e
  end.

(** Code that threads a mutable state and may raise; the state changes made
    before an exception are kept, as in Python. *)
Definition SE (S A : Type) : Type := S → Res A * S.

#[global] Instance se_ret {S} : MRet (SE S) := λ A a s, (Ok a, s).

#[global] Instance se_bind {S} : MBind (SE S) := λ A B k m s,
  match m s with
  | (Ok a, s') => k a s'
  | (Raise e, s') => (Raise e, s')
  end.

Definition se_lift {S A} (r : Res A) : SE S A := λ s, (r, s).

Definition se_do {S A} (f : S → Res A * S) : SE S A := f.

Definition se_raise {S A} (e : Exn) : SE S A := λ s, (Raise e, s).

(** ** Python dictionaries with natural-number keys *)

Section Dict.
Context {V : Type}.

Fixpoint dict_get (k : nat) (d : list (nat * V)) : option V :=
  match d with
  | [] => None
  | (k', v) :: d => if decide (k' = k) then Some v else dict_get k d
  end.

(** [d[k] = v]: overwrite in place, or append a new entry. *)
Fixpoint dict_set (k : nat) (v : V) (d : list (nat * V)) : list (nat * V) :=
  match d with
  | [] => [(k, v)]
  | (k', v') :: d =>
      if decide (k' = k) then (k, v) :: d else (k', v') :: dict_set k v d
  end.

(** [del d[k]]; the caller checks that the key is present. *)
Fixpoint dict_del (k : nat) (d : list (nat * V)) : list (nat * V) :=
  match d with
  | [] => []
  | (k', v') :: d =>
      if decide (k' = k) then d else (k', v') :: dict_del k d
  end.

Definition dict_keys (d : list (nat * V)) : list nat := d.*1.
End Dict.

(** ** Values and statements (the part of [hdl.ast] the compilers visit) *)

Record Signal := {
  sig_id : nat;        (* object identity: the key of a [SignalDict] *)
  sig_reset : Z;
}.

Record Shape := {
  width : nat;
  signed : bool;
}.

Inductive Value :=
| Const (value : Z)
| VSignal (signal : Signal)
| Operator (operator : string) (operands : list Value)
| Slice (value : Value) (start stop : nat)
| Part (value offset : Value) (part_width stride : nat)
| Cat (parts : list Value)
| Repl (value : Value) (count : nat)
| ArrayProxy (elems : list Value) (index : Value)
| ClockSignal
| ResetSignal
| AnyConst
| AnySeq
| Sample
| Initial.

Inductive Statement :=
| Assign (lhs rhs : Value)
| Switch (test : Value) (cases : list (list string * list Statement))
| Assert
| Assume
| Cover.

Inductive ClockEdge := pos_edge | neg_edge.

Record ClockDomain := {
  clk : Signal;
  clk_edge : ClockEdge;
  rst : option Signal;
  async_reset : bool;
}.

(** ** Commands a testbench yields *)

Inductive DomainRef :=
| DomainName (name : string)
| DomainObj (domain : ClockDomain).

Inductive Command :=
| CmdValue (v : Value)
| CmdStatement (s : Statement)
| Tick (domain : DomainRef)
| Settle
| Delay (interval : option Z)
| Passive
| Active
| Unsupported.

(** ** Python integer helpers *)

Definition py_bool (b : bool) : Z := if b then 1%Z else 0%Z.

Definition truthy (z : Z) : bool := negb (z =? 0)%Z.

(** [(1 << n) - 1] *)
Definition mask_of (n : nat) : Z := (Z.shiftl 1 (Z.of_nat n) - 1)%Z.

(** [a << b] and [a >> b] raise [ValueError] on a negative count. *)
Definition py_shl (a b : Z) : Res Z :=
  if (b <? 0)%Z then Raise ValueError else Ok (Z.shiftl a b).

Definition py_shr (a b : Z) : Res Z :=
  if (b <? 0)%Z then Raise ValueError else Ok (Z.shiftr a b).

(** [a // b] and [a % b] raise [ZeroDivisionError] on a zero divisor. *)
Definition py_floordiv (a b : Z) : Res Z :=
  if (b =? 0)%Z then Raise ZeroDivisionError else Ok (a / b)%Z.

Definition py_mod (a b : Z) : Res Z :=
  if (b =? 0)%Z then Raise ZeroDivisionError else Ok (a mod b)%Z.

(** [format(n, 'b').count('1')] for [n >= 0]. *)
Fixpoint count_ones_pos (p : positive) : Z :=
  match p with
  | xH => 1
  | xO p => count_ones_pos p
  | xI p => 1 + count_ones_pos p
  end%Z.

Definition count_ones (n : Z) : Z :=
  match n with
  | Z0 => 0%Z
  | Zpos p => count_ones_pos p
  | Zneg p => count_ones_pos p
  end.

(** [int(s, 2)] on a string of binary digits; anything else is a
    [ValueError].  (Python also accepts a sign, a [0b] prefix, underscores
    and surrounding blanks, none of which occurs in a switch pattern.) *)
Fixpoint int2_digits (acc : Z) (s : string) : Res Z :=
  match s with
  | EmptyString => Ok acc
  | String c s =>
      if Ascii.eqb c "0"%char then int2_digits (2 * acc)%Z s
      else if Ascii.eqb c "1"%char then int2_digits (2 * acc + 1)%Z s
      else Raise ValueError
  end.

Definition int2 (s : string) : Res Z :=
  match s with
  | EmptyString => Raise ValueError
  | _ => int2_digits 0 s
  end.

(** ["".join(f(b) for b in s)] with [f] mapping a character to a character. *)
Fixpoint str_map (f : Ascii.ascii → Ascii.ascii) (s : string) : string :=
  match s with
  | EmptyString => EmptyString
  | String c s => String (f c) (str_map f s)
  end.

(** ["-" in s] *)
Fixpoint str_contains (c : Ascii.ascii) (s : string) : bool :=
  match s with
  | EmptyString => false
  | String c' s => Ascii.eqb c' c || str_contains c s
  end.

(** ** [_ValueCompiler.helpers] *)

(** [lambda value, sign: value | sign if value & sign else value] *)
Definition helper_sign (value sign : Z) : Z :=
  if truthy (Z.land value sign) then Z.lor value sign else value.

(** [lambda lhs, rhs: 0 if rhs == 0 else lhs // rhs] *)
Definition zdiv (lhs rhs : Z) : Res Z :=
  if (rhs =? 0)%Z then Ok 0%Z else py_floordiv lhs rhs.

(** [lambda lhs, rhs: 0 if rhs == 0 else lhs % rhs] *)
Definition zmod (lhs rhs : Z) : Res Z :=
  if (rhs =? 0)%Z then Ok 0%Z else py_mod lhs rhs.

(** ** The signal store: [_SignalState] and [_SimulatorState] *)

Record SignalState := {
  signal : Signal;
  curr : Z;
  next : Z;
  waiters : list (nat * option Z);   (* process -> trigger *)
}.

Record SimulatorState := {
  signals : list (nat * (Signal * nat));  (* SignalDict: identity -> (signal, index) *)
  slots : list SignalState;
  pending : gset nat;
  timestamp : Z;
  deadlines : list (nat * option Z);      (* process -> deadline *)
}.

Definition with_slots (f : list SignalState → list SignalState)
    (st : SimulatorState) : SimulatorState :=
  {| signals := signals st; slots := f (slots st); pending := pending st;
     timestamp := timestamp st; deadlines := deadlines st |}.

Definition with_pending (f : gset nat → gset nat)
    (st : SimulatorState) : SimulatorState :=
  {| signals := signals st; slots := slots st; pending := f (pending st);
     timestamp := timestamp st; deadlines := deadlines st |}.

Definition with_deadlines (f : list (nat * option Z) → list (nat * option Z))
    (st : SimulatorState) : SimulatorState :=
  {| signals := signals st; slots := slots st; pending := pending st;
     timestamp := timestamp st; deadlines := f (deadlines st) |}.

Definition with_timestamp (t : Z) (st : SimulatorState) : SimulatorState :=
  {| signals := signals st; slots := slots st; pending := pending st;
     timestamp := t; deadlines := deadlines st |}.

Definition set_curr (v : Z) (ss : SignalState) : SignalState :=
  {| signal := signal ss; curr := v; next := next ss; waiters := waiters ss |}.

Definition set_next (v : Z) (ss : SignalState) : SignalState :=
  {| signal := signal ss; curr := curr ss; next := v; waiters := waiters ss |}.

Definition set_waiters (ws : list (nat * option Z)) (ss : SignalState) : SignalState :=
  {| signal := signal ss; curr := curr ss; next := next ss; waiters := ws |}.

(** [_SignalState.__init__] followed by its [reset()]. *)
Definition new_slot (s : Signal) : SignalState :=
  {| signal := s; curr := sig_reset s; next := sig_reset s; waiters := [] |}.

(** [_SimulatorState.__init__] *)
Definition init_state : SimulatorState :=
  {| signals := []; slots := []; pending := ∅; timestamp := 0%Z; deadlines := [] |}.

(** [_SignalState.set], on the slot with ordinal [index] (a method of the
    slot object: where there is no slot there is no call). *)
Definition slot_set (index : nat) (value : Z) (st : SimulatorState) : SimulatorState :=
  match slots st !! index with
  | Some ss =>
      if (next ss =? value)%Z then st
      else with_pending (λ p, {[index]} ∪ p)
             (with_slots (λ l, <[index := set_next value ss]> l) st)
  | None => st
  end.

(** [_SignalState.commit] *)
Definition slot_commit (ss : SignalState) : bool * SignalState :=
  if (curr ss =? next ss)%Z then (false, ss)
  else (true, set_curr (next ss) ss).

(** Does a waiter's trigger fire on the slot's (new) current value? *)
Definition triggered (ss : SignalState) (trigger : option Z) : bool :=
  match trigger with
  | None => true
  | Some t => (t =? curr ss)%Z
  end.

(** [_SimulatorState.reset]; every index of the signal table has its slot. *)
Definition state_reset (st : SimulatorState) : SimulatorState :=
  {| signals := signals st;
     slots := foldl (λ l '(_, (s, index)),
                match l !! index with
                | Some ss => <[index := set_next (sig_reset s) (set_curr (sig_reset s) ss)]> l
                | None => l
                end) (slots st) (signals st);
     pending := ∅;
     timestamp := 0%Z;
     deadlines := [] |}.

(** [_SimulatorState.get_signal] *)
Definition get_signal (s : Signal) (st : SimulatorState) : nat * SimulatorState :=
  match dict_get (sig_id s) (signals st) with
  | Some (_, index) => (index, st)
  | None =>
      let index := length (slots st) in
      (index,
       {| signals := dict_set (sig_id s) (s, index) (signals st);
          slots := slots st ++ [new_slot s];
          pending := pending st;
          timestamp := timestamp st;
          deadlines := deadlines st |})
  end.

(** ** Run-time environment of the emitted code *)

(** Variables of the namespace the emitted code runs in: [next_<index>],
    the variables made by [_Emitter.gen_var] (whatever their prefix, they are
    told apart by their suffix), and [result]. *)
Inductive Var :=
| NextVar (index : nat)
| TempVar (suffix : nat)
| ResultVar.

#[global] Instance Var_eq_dec : EqDecision Var.
Proof. solve_decision. Defined.

#[global] Instance Var_countable : Countable Var.
Proof.
  refine (inj_countable'
    (λ v, match v with
          | NextVar i => inl i
          | TempVar k => inr (inl k)
          | ResultVar => inr (inr ())
          end)
    (λ x, match x with
          | inl i => NextVar i
          | inr (inl k) => TempVar k
          | inr (inr _) => ResultVar
          end) _).
  by intros [].
Defined.

Abbreviation Locals := (gmap Var Z).

(** What the emitted code runs against: the simulator state (its [slots]
    list is in the namespace) and the variables. *)
Record Env := {
  env_state : SimulatorState;
  env_locals : Locals;
}.

Definition env_slots (env : Env) : list SignalState := slots (env_state env).

(** An emitted expression. *)
Definition Expr : Type := Env → Res Z.

(** An emitted block of statements. *)
Definition Code : Type := SE Env unit.

Definition e_const (c : Z) : Expr := λ _, Ok c.

(** [slots[index].curr] *)
Definition e_curr (index : nat) : Expr := λ env,
  match env_slots env !! index with
  | Some ss => Ok (curr ss)
  | None => Raise IndexError
  end.

(** [slots[index].next] *)
Definition e_slot_next (index : nat) : Expr := λ env,
  match env_slots env !! index with
  | Some ss => Ok (next ss)
  | None => Raise IndexError
  end.

(** A variable read; an unbound name is a [NameError]. *)
Definition e_var (x : Var) : Expr := λ env,
  match env_locals env !! x with
  | Some v => Ok v
  | None => Raise NameError
  end.

Definition e_un (f : Z → Z) (a : Expr) : Expr := λ env,
  x ← a env; Ok (f x).

Definition e_bin (f : Z → Z → Res Z) (a b : Expr) : Expr := λ env,
  x ← a env; y ← b env; f x y.

Definition e_pure2 (f : Z → Z → Z) : Expr → Expr → Expr :=
  e_bin (λ x y, Ok (f x y)).

(** [(val1 if sel else val0)] *)
Definition e_cond (sel val1 val0 : Expr) : Expr := λ env,
  s ← sel env; if truthy s then val1 env else val0 env.

(** [(p0 | p1 | ...)], or [0] when there is no part. *)
Definition e_join_or (gen_parts : list Expr) : Expr :=
  match gen_parts with
  | [] => e_const 0
  | p :: ps => foldl (e_pure2 Z.lor) p ps
  end.

(** [c0 or c1 or ...]: the first true check decides. *)
Fixpoint e_any (gen_checks : list Expr) : Expr :=
  match gen_checks with
  | [] => e_const 0
  | [c] => c
  | c :: cs => λ env, x ← c env; if truthy x then Ok x else e_any cs env
  end.

(** [x = <arg>] *)
Definition c_assign (x : Var) (arg : Expr) : Code := λ env,
  match arg env with
  | Ok v => (Ok (), {| env_state := env_state env;
                       env_locals := <[x := v]> (env_locals env) |})
  | Raise e => (Raise e, env)
  end.

(** [slots[index].set(next_<index>)] *)
Definition c_set (index : nat) : Code := λ env,
  match env_slots env !! index with
  | Some _ =>
      match e_var (NextVar index) env with
      | Ok v => (Ok (), {| env_state := slot_set index v (env_state env);
                           env_locals := env_locals env |})
      | Raise e => (Raise e, env)
      end
  | None => (Raise IndexError, env)
  end.

Definition c_pass : Code := mret ().

Definition c_seq (a b : Code) : Code := a ≫= λ _, b.

(** [if c0: b0 / elif c1: b1 / ... / else: orelse] *)
Fixpoint c_if (branches : list (Expr * Code)) (orelse : Code) : Code :=
  match branches with
  | [] => orelse
  | (cond, body) :: branches => λ env,
      match cond env with
      | Ok x => if truthy x then body env else c_if branches orelse env
      | Raise e => (Raise e, env)
      end
  end.

(** ** [_Emitter] and [_Compiler] *)

(** The emitter's buffer holds the code appended so far; its indentation
    level is layout and is replaced by nested blocks ([indent] below). *)
Record Emitter := {
  buffer : Code;
  suffix : nat;
}.

Record Compiler := {
  state : SimulatorState;
  emitter : Emitter;
}.

Definition new_emitter : Emitter := {| buffer := c_pass; suffix := 0 |}.

Definition CM (A : Type) : Type := SE Compiler A.

(** [_Emitter.append] *)
Definition append (code : Code) : CM unit := λ c,
  (Ok (), {| state := state c;
             emitter := {| buffer := c_seq (buffer (emitter c)) code;
                           suffix := suffix (emitter c) |} |}).

(** [_Emitter.gen_var] *)
Definition gen_var : CM Var := λ c,
  (Ok (TempVar (suffix (emitter c))),
   {| state := state c;
      emitter := {| buffer := buffer (emitter c);
                    suffix := S (suffix (emitter c)) |} |}).

(** [_Emitter.def_var] *)
Definition def_var (value : Expr) : CM Expr :=
  name ← gen_var; _ ← append (c_assign name value); mret (e_var name).

(** The code appended by [body] under [with self.emitter.indent():],
    taken out of the buffer as one block. *)
Definition indent {A} (body : CM A) : CM (A * Code) := λ c,
  let outer := buffer (emitter c) in
  match body {| state := state c;
                emitter := {| buffer := c_pass; suffix := suffix (emitter c) |} |} with
  | (Ok a, c') =>
      (Ok (a, buffer (emitter c')),
       {| state := state c';
          emitter := {| buffer := outer; suffix := suffix (emitter c') |} |})
  | (Raise e, c') => (Raise e, c')
  end.

(** [self.state.get_signal(signal)] from inside a compiler. *)
Definition c_get_signal (s : Signal) : CM nat := λ c,
  let '(index, st) := get_signal s (state c) in
  (Ok index, {| state := st; emitter := emitter c |}).

Inductive Mode := mode_curr | mode_next.

(** The [if gen_index == 0: ... elif gen_index == 1: ...] conditions. *)
Definition index_branches (gen_index : Expr) (bodies : list Code) : list (Expr * Code) :=
  imap (λ index body,
          (e_un (λ x, py_bool (x =? Z.of_nat index)%Z) gen_index, body)) bodies.

(** ** The value and statement compilers *)

Section Compilers.
(** Shapes and the signals a statement drives are computed by the front
    end ([Value.shape()], [len(value)] and [Statement._lhs_signals()] of
    [hdl.ast]); the compilers only query them. *)
Variable shape : Value → Shape.
Variable lhs_signals : Statement → list Signal.

Definition len (v : Value) : nat := width (shape v).

(** [-1 << (len(value) - 1)]; a negative shift count is a [ValueError]. *)
Definition sign_bit (v : Value) : Res Z :=
  py_shl (-1) (Z.of_nat (len v) - 1).

(** *** [_RHSValueCompiler] *)

Section Operator.
Variable self : Value → CM Expr.

(** [mask(value)] of [on_Operator] *)
Definition op_mask (v : Value) : CM Expr :=
  e ← self v; mret (e_un (λ x, Z.land x (mask_of (len v))) e).

(** [sign(value)] of [on_Operator] *)
Definition op_sign (v : Value) : CM Expr :=
  if signed (shape v) then
    e ← op_mask v;
    s ← se_lift (sign_bit v);
    mret (e_un (λ x, helper_sign x s) e)
  else op_mask v.

Definition op_signed2 (f : Z → Z → Res Z) (lhs rhs : Value) : CM Expr :=
  l ← op_sign lhs; r ← op_sign rhs; mret (e_bin f l r).

Definition op_raw2 (f : Z → Z → Z) (lhs rhs : Value) : CM Expr :=
  l ← self lhs; r ← self rhs; mret (e_pure2 f l r).

Definition on_Operator (operator : string) (operands : list Value) : CM Expr :=
  match operands with
  | [arg] =>
      if (operator =? "~")%string then
        e ← self arg; mret (e_un Z.lnot e)
      else if (operator =? "-")%string then
        e ← self arg; mret (e_un Z.opp e)
      else if (operator =? "b")%string then
        e ← op_mask arg; mret (e_un (λ x, py_bool (truthy x)) e)
      else if (operator =? "r|")%string then
        e ← op_mask arg; mret (e_un (λ x, py_bool (negb (x =? 0)%Z)) e)
      else if (operator =? "r&")%string then
        e ← op_mask arg; mret (e_un (λ x, py_bool (x =? mask_of (len arg))%Z) e)
      else if (operator =? "r^")%string then
        e ← op_mask arg; mret (e_un (λ x, (count_ones x mod 2)%Z) e)
      else if (operator =? "u")%string || (operator =? "s")%string then
        self arg
      else se_raise NotImplementedError
  | [lhs; rhs] =>
      if (operator =? "+")%string then
        op_signed2 (λ x y, Ok (x + y)%Z) lhs rhs
      else if (operator =? "-")%string then
        op_signed2 (λ x y, Ok (x - y)%Z) lhs rhs
      else if (operator =? "*")%string then
        op_signed2 (λ x y, Ok (x * y)%Z) lhs rhs
      else if (operator =? "//")%string then
        op_signed2 zdiv lhs rhs
      else if (operator =? "%")%string then
        op_signed2 zmod lhs rhs
      else if (operator =? "&")%string then
        op_raw2 Z.land lhs rhs
      else if (operator =? "|")%string then
        op_raw2 Z.lor lhs rhs
      else if (operator =? "^")%string then
        op_raw2 Z.lxor lhs rhs
      else if (operator =? "<<")%string then
        op_signed2 py_shl lhs rhs
      else if (operator =? ">>")%string then
        op_signed2 py_shr lhs rhs
      else if (operator =? "==")%string then
        op_signed2 (λ x y, Ok (py_bool (x =? y)%Z)) lhs rhs
      else if (operator =? "!=")%string then
        op_signed2 (λ x y, Ok (py_bool (negb (x =? y)%Z))) lhs rhs
      else if (operator =? "<")%string then
        op_signed2 (λ x y, Ok (py_bool (x <? y)%Z)) lhs rhs
      else if (operator =? "<=")%string then
        op_signed2 (λ x y, Ok (py_bool (x <=? y)%Z)) lhs rhs
      else if (operator =? ">")%string then
        op_signed2 (λ x y, Ok (py_bool (x >? y)%Z)) lhs rhs
      else if (operator =? ">=")%string then
        op_signed2 (λ x y, Ok (py_bool (x >=? y)%Z)) lhs rhs
      else se_raise NotImplementedError
  | [sel; val1; val0] =>
      if (operator =? "m")%string then
        v1 ← self val1; s ← self sel; v0 ← self val0;
        mret (e_cond s v1 v0)
      else se_raise NotImplementedError
  | _ => se_raise NotImplementedError
  end.
End Operator.

(** The loop of [on_Cat] over [value.parts]. *)
Definition rhs_cat_parts (self : Value → CM Expr) : list Value → nat → CM (list Expr) :=
  fix go parts offset :=
    match parts with
    | [] => mret []
    | part :: parts =>
        e ← self part;
        rest ← go parts (offset + len part);
        mret (e_un (λ x, Z.shiftl (Z.land x (mask_of (len part))) (Z.of_nat offset)) e
              :: rest)
    end.

(** The loop of [on_ArrayProxy] over [value.elems]: the indented block of
    each [if]/[elif]. *)
Definition rhs_proxy_elems (self : Value → CM Expr) (gen_value : Var)
    : list Value → CM (list Code) :=
  fix go elems :=
    match elems with
    | [] => mret []
    | elem :: elems =>
        '(_, body) ← indent (e ← self elem; append (c_assign gen_value e));
        rest ← go elems;
        mret (body :: rest)
    end.

(** [(repl << 0) | (repl << n) | ...], [count] copies. *)
Definition repl_parts (gen_part : Expr) (n count : nat) : list Expr :=
  (λ i, e_un (λ x, Z.shiftl x (Z.of_nat (i * n))) gen_part) <$> seq 0 count.

Fixpoint rhs (mode : Mode) (value : Value) {struct value} : CM Expr :=
  match value with
  | Const c => mret (e_const c)
  | VSignal s =>
      (* [inputs], when given, only records the signal *)
      index ← c_get_signal s;
      mret (match mode with
            | mode_curr => e_curr index
            | mode_next => e_var (NextVar index)
            end)
  | Operator operator operands => on_Operator (rhs mode) operator operands
  | Slice v start _ =>
      e ← rhs mode v;
      mret (e_un (λ x, Z.land (Z.shiftr x (Z.of_nat start)) (mask_of (len value))) e)
  | Part v offset part_width stride =>
      o ← rhs mode offset;
      e ← rhs mode v;
      mret (λ env,
        x ← e env;
        y ← o env;
        Ok (Z.land (Z.shiftr x (Z.land y (mask_of (len offset)) * Z.of_nat stride))
                   (mask_of part_width)))
  | Cat parts =>
      gen_parts ← rhs_cat_parts (rhs mode) parts 0;
      mret (e_join_or gen_parts)
  | Repl v count =>
      e ← rhs mode v;
      gen_part ← def_var (e_un (λ x, Z.land x (mask_of (len v))) e);
      mret (e_join_or (repl_parts gen_part (len v) count))
  | ArrayProxy elems index =>
      i ← rhs mode index;
      gen_index ← def_var (e_un (λ x, Z.land x (mask_of (len index))) i);
      gen_value ← gen_var;
      match elems with
      | [] => mret (e_const 0)
      | _ =>
          bodies ← rhs_proxy_elems (rhs mode) gen_value elems;
          (* [else: gen_value = self(value.elems[-1])] emits the code of the
             last element once more *)
          _ ← append (c_if (index_branches gen_index bodies)
                        (List.last bodies c_pass));
          mret (e_var gen_value)
      end
  | ClockSignal | ResetSignal | AnyConst | AnySeq | Sample | Initial =>
      se_raise NotImplementedError
  end.

(** [_RHSValueCompiler.compile]: the code that leaves the value in [result]. *)
Definition rhs_compile (mode : Mode) (value : Value) : SE SimulatorState Code := λ st,
  match (e ← rhs mode value; append (c_assign ResultVar e))
          {| state := st; emitter := new_emitter |} with
  | (Ok _, c) => (Ok (buffer (emitter c)), state c)
  | (Raise e, c) => (Raise e, state c)
  end.

(** *** [_LHSValueCompiler] *)

(** What visiting an lvalue returns: [gen], which emits the code that
    stores the value of the expression [arg]. *)
Definition Gen : Type := Expr → CM unit.

(** The loop of [on_Cat] over [value.parts]. *)
Definition lhs_cat_parts (self : Value → Res Gen) (gen_arg : Expr)
    : list Value → nat → CM unit :=
  fix go parts offset :=
    match parts with
    | [] => mret ()
    | part :: parts =>
        gen ← se_lift (self part);
        _ ← gen (e_un (λ x, Z.land (Z.shiftr x (Z.of_nat offset))
                                   (mask_of (len part))) gen_arg);
        go parts (offset + len part)
    end.

(** The loop of [on_ArrayProxy] over [value.elems]: the indented block of
    each [if]/[elif]. *)
Definition lhs_proxy_elems (self : Value → Res Gen) (arg : Expr)
    : list Value → CM (list Code) :=
  fix go elems :=
    match elems with
    | [] => mret []
    | elem :: elems =>
        '(_, body) ← indent (gen ← se_lift (self elem); gen arg);
        rest ← go elems;
        mret (body :: rest)
    end.

Fixpoint lhs (value : Value) {struct value} : Res Gen :=
  match value with
  | Const _ => Raise TypeError
  | VSignal s =>
      (* [outputs], when given, only records the signal *)
      Ok (λ arg,
        let value_mask := mask_of (len value) in
        value_sign ←
          (if signed (shape value) then
             sb ← se_lift (sign_bit value);
             mret (e_un (λ x, helper_sign (Z.land x value_mask) sb) arg)
           else mret (e_un (λ x, Z.land x value_mask) arg));
        index ← c_get_signal s;
        append (c_assign (NextVar index) value_sign))
  | Operator _ _ => Raise TypeError
  | Slice v start stop =>
      Ok (λ arg,
        width_mask ← se_lift (m ← py_shl 1 (Z.of_nat stop - Z.of_nat start); Ok (m - 1)%Z);
        gen ← se_lift (lhs v);
        r ← rhs mode_next v;
        gen (λ env,
          x ← r env;
          a ← arg env;
          Ok (Z.lor (Z.land x (Z.lnot (Z.shiftl width_mask (Z.of_nat start))))
                    (Z.shiftl (Z.land a width_mask) (Z.of_nat start)))))
  | Part v offset part_width stride =>
      Ok (λ arg,
        let width_mask := mask_of part_width in
        o ← rhs mode_curr offset;
        let gen_offset :=
          e_un (λ y, Z.land y (mask_of (len offset)) * Z.of_nat stride)%Z o in
        gen ← se_lift (lhs v);
        r ← rhs mode_next v;
        gen (λ env,
          x ← r env;
          y ← gen_offset env;
          a ← arg env;
          Ok (Z.lor (Z.land x (Z.lnot (Z.shiftl width_mask y)))
                    (Z.shiftl (Z.land a width_mask) y))))
  | Cat parts =>
      Ok (λ arg,
        gen_arg ← def_var arg;
        lhs_cat_parts lhs gen_arg parts 0)
  | Repl _ _ => Raise TypeError
  | ArrayProxy elems index =>
      Ok (λ arg,
        i ← rhs mode_curr index;
        gen_index ← def_var (e_un (λ x, Z.land x (mask_of (len index))) i);
        match elems with
        | [] => append c_pass
        | _ =>
            bodies ← lhs_proxy_elems lhs arg elems;
            (* [else: self(value.elems[-1])(arg)] emits the code of the last
               element once more *)
            append (c_if (index_branches gen_index bodies) (List.last bodies c_pass))
        end)
  | ClockSignal | ResetSignal | AnyConst | AnySeq | Sample | Initial =>
      Raise NotImplementedError
  end.

(** *** [_StatementCompiler] *)

(** One check of a case of [on_Switch]. *)
Definition gen_check (gen_test : Expr) (pattern : string) : Res Expr :=
  if str_contains "-" pattern then
    mask ← int2 (str_map (λ b, if Ascii.eqb b "-" then "0" else "1")%char pattern);
    value ← int2 (str_map (λ b, if Ascii.eqb b "-" then "0" else b)%char pattern);
    Ok (e_un (λ t, py_bool (Z.land t mask =? value)%Z) gen_test)
  else
    value ← int2 pattern;
    Ok (e_un (λ t, py_bool (t =? value)%Z) gen_test).

Fixpoint gen_checks (gen_test : Expr) (patterns : list string) : Res (list Expr) :=
  match patterns with
  | [] => Ok []
  | pattern :: patterns =>
      c ← gen_check gen_test pattern;
      cs ← gen_checks gen_test patterns;
      Ok (c :: cs)
  end.

Definition case_checks (gen_test : Expr) (patterns : list string) : Res (list Expr) :=
  match patterns with
  | [] => Ok [e_const 1]
  | _ => gen_checks gen_test patterns
  end.

(** [on_statements] *)
Definition on_statements_with (self : Statement → CM unit) : list Statement → CM unit :=
  fix go stmts :=
    match stmts with
    | [] => mret ()
    | s :: stmts => _ ← self s; go stmts
    end.

(** The loop of [on_Switch] over [stmt.cases]: the checks and the indented
    block of each [if]/[elif]. *)
Definition switch_cases (self : Statement → CM unit) (gen_test : Expr)
    : list (list string * list Statement) → CM (list (Expr * Code)) :=
  fix go cases :=
    match cases with
    | [] => mret []
    | (patterns, stmts) :: cases =>
        checks ← se_lift (case_checks gen_test patterns);
        '(_, body) ← indent (on_statements_with self stmts);
        rest ← go cases;
        mret ((e_any checks, body) :: rest)
    end.

Fixpoint stmt (s : Statement) {struct s} : CM unit :=
  match s with
  | Assign l r =>
      gen ← se_lift (lhs l);
      e ← rhs mode_curr r;
      gen e
  | Switch test cases =>
      t ← rhs mode_curr test;
      gen_test ← def_var (e_un (λ x, Z.land x (mask_of (len test))) t);
      branches ← switch_cases stmt gen_test cases;
      append (c_if branches c_pass)
  | Assert | Assume | Cover => se_raise NotImplementedError
  end.

Definition on_statements : list Statement → CM unit := on_statements_with stmt.

Fixpoint get_signals (l : list Signal) : SE SimulatorState (list nat) :=
  match l with
  | [] => mret []
  | s :: l =>
      index ← se_do (λ st, let '(i, st') := get_signal s st in (Ok i, st'));
      rest ← get_signals l;
      mret (index :: rest)
  end.

Fixpoint append_all (f : nat → Code) (indexes : list nat) : CM unit :=
  match indexes with
  | [] => mret ()
  | i :: indexes => _ ← append (f i); append_all f indexes
  end.

(** [_StatementCompiler.compile] *)
Definition stmt_compile (s : Statement) : SE SimulatorState Code := λ st,
  match get_signals (lhs_signals s) st with
  | (Ok output_indexes, st) =>
      match (_ ← append_all (λ i, c_assign (NextVar i) (e_slot_next i)) output_indexes;
             _ ← stmt s;
             append_all c_set output_indexes)
              {| state := st; emitter := new_emitter |} with
      | (Ok _, c) => (Ok (buffer (emitter c)), state c)
      | (Raise e, c) => (Raise e, state c)
      end
  | (Raise e, st) => (Raise e, st)
  end.
End Compilers.

(** ** Generators *)

(** A testbench is a Python generator.  Its body is a state machine given
    from outside: [resume g r] runs the body from the suspension point [g]
    until it yields again, returns or raises; [r] is what the [yield]
    expression evaluates to ([send]) or raises ([throw]). *)
Inductive Resume :=
| Send (response : option Z)
| Throw (exn : Exn).

Inductive Outcome (G : Type) :=
| Yielded (command : option Command) (g : G)
| Returned
| Raised (e : Exn).
Arguments Yielded {G} command g.
Arguments Returned {G}.
Arguments Raised {G} e.

(** A generator object is suspended in its body or has finished. *)
Inductive Generator (G : Type) :=
| Suspended (g : G)
| Finished.
Arguments Suspended {G} g.
Arguments Finished {G}.

(** What a call of [send] or [throw] does to its caller. *)
Inductive Step :=
| Yields (command : option Command)
| RaisesStopIteration
| RaisesExn (e : Exn).

Definition gen_resume {G} (resume : G → Resume → Outcome G)
    (gen : Generator G) (r : Resume) : Step * Generator G :=
  match gen with
  | Suspended g =>
      match resume g r with
      | Yielded command g' => (Yields command, Suspended g')
      | Returned => (RaisesStopIteration, Finished)
      | Raised e => (RaisesExn e, Finished)
      end
  | Finished =>
      match r with
      | Send _ => (RaisesStopIteration, Finished)
      | Throw exn => (RaisesExn exn, Finished)
      end
  end.

(** ** Processes and the simulator *)

Section Simulator.
Variable shape : Value → Shape.
Variable lhs_signals : Statement → list Signal.
(** [Const.normalize] of [hdl.ast] *)
Variable normalize : Z → Shape → Z.
(** The states of the testbench bodies and how they run. *)
Context {G : Type}.
Variable resume : G → Resume → Outcome G.

Inductive ProcessKind :=
| CompiledProcess
    (comb : bool)
    (run : Code)               (* the body of the emitted [def run():] *)
| CoroutineProcess
    (constructor : G)          (* the suspension point of a fresh generator *)
    (default_cmd : option Command)
    (coroutine : option (Generator G))
    (exec_locals : Locals)
    (waits_on : gset nat).

Record Process := {
  runnable : bool;
  passive : bool;
  kind : ProcessKind;
}.

Record Simulator := {
  sim_state : SimulatorState;
  sim_processes : list Process;
  sim_domains : gmap string ClockDomain;
}.

Definition set_runnable (b : bool) (p : Process) : Process :=
  {| runnable := b; passive := passive p; kind := kind p |}.

Definition set_passive (b : bool) (p : Process) : Process :=
  {| runnable := runnable p; passive := b; kind := kind p |}.

Definition set_kind (k : ProcessKind) (p : Process) : Process :=
  {| runnable := runnable p; passive := passive p; kind := k |}.

Definition with_state (f : SimulatorState → SimulatorState) (sim : Simulator) : Simulator :=
  {| sim_state := f (sim_state sim); sim_processes := sim_processes sim;
     sim_domains := sim_domains sim |}.

Definition with_processes (f : list Process → list Process) (sim : Simulator) : Simulator :=
  {| sim_state := sim_state sim; sim_processes := f (sim_processes sim);
     sim_domains := sim_domains sim |}.

Definition update_process (pid : nat) (f : Process → Process) : Simulator → Simulator :=
  with_processes (alter f pid).

(** *** [_SignalState.wakeup] and [_SimulatorState.commit] *)

Definition wakeup (ss : SignalState) (procs : list Process) : bool * list Process :=
  foldl (λ '(awoken_any, procs) '(process, trigger),
           if triggered ss trigger
           then (true, alter (set_runnable true) process procs)
           else (awoken_any, procs))
        (false, procs) (waiters ss).

Definition commit_slot (acc : bool * list SignalState * list Process) (index : nat)
    : bool * list SignalState * list Process :=
  let '(awoken_any, sl, procs) := acc in
  match sl !! index with
  | Some ss =>
      let '(changed, ss') := slot_commit ss in
      if changed then
        let '(awoken, procs') := wakeup ss' procs in
        (if awoken then true else awoken_any, <[index := ss']> sl, procs')
      else acc
  | None => acc
  end.

Definition commit (sim : Simulator) : bool * Simulator :=
  let '(awoken_any, sl, procs) :=
    foldl commit_slot (false, slots (sim_state sim), sim_processes sim)
          (elements (pending (sim_state sim))) in
  (awoken_any,
   {| sim_state := with_pending (λ _, ∅) (with_slots (λ _, sl) (sim_state sim));
      sim_processes := procs;
      sim_domains := sim_domains sim |}).

(** *** [_SimulatorState.advance] *)

Fixpoint nearest (now : Z) (ds : list (nat * option Z))
    (nearest_processes : gset nat) (nearest_deadline : option Z)
    : Res (gset nat * option Z) :=
  match ds with
  | [] => Ok (nearest_processes, nearest_deadline)
  | (process, None) :: _ =>
      let cleared :=
        match nearest_deadline with
        | Some _ => ∅
        | None => nearest_processes
        end in
      Ok (cleared ∪ {[process]}, Some now)
  | (process, Some deadline) :: ds =>
      if match nearest_deadline with
         | None => true
         | Some n => (deadline <=? n)%Z
         end
      then
        if (deadline >=? now)%Z then
          let cleared :=
            match nearest_deadline with
            | Some n => if (deadline <? n)%Z then ∅ else nearest_processes
            | None => nearest_processes
            end in
          nearest now ds (cleared ∪ {[process]}) (Some deadline)
        else Raise AssertionError
      else nearest now ds nearest_processes nearest_deadline
  end.

Definition wake_deadline (sim : Simulator) (process : nat) : Simulator :=
  with_state (with_deadlines (dict_del process))
    (update_process process (set_runnable true) sim).

Definition advance (sim : Simulator) : Res bool * Simulator :=
  match nearest (timestamp (sim_state sim)) (deadlines (sim_state sim)) ∅ None with
  | Raise e => (Raise e, sim)
  | Ok (nearest_processes, nearest_deadline) =>
      if decide (nearest_processes = ∅) then (Ok false, sim)
      else
        let sim := foldl wake_deadline sim (elements nearest_processes) in
        (Ok true,
         with_state (with_timestamp (default (timestamp (sim_state sim)) nearest_deadline))
                    sim)
  end.

(** *** [_CompiledProcess] *)

(** [_CompiledProcess.reset] and [_CoroutineProcess.reset] *)
Definition process_reset (p : Process) : Process :=
  match kind p with
  | CompiledProcess comb run =>
      {| runnable := comb; passive := true; kind := kind p |}
  | CoroutineProcess constructor default_cmd _ _ _ =>
      {| runnable := true; passive := false;
         kind := CoroutineProcess constructor default_cmd
                   (Some (Suspended constructor)) ∅ ∅ |}
  end.

(** Calling the emitted [run()]: its variables are local to the call. *)
Definition compiled_run (run : Code) (sim : Simulator) : Res unit * Simulator :=
  let '(r, env) := run {| env_state := sim_state sim; env_locals := ∅ |} in
  (r, with_state (λ _, env_state env) sim).

(** *** [_CoroutineProcess] *)

Definition set_coroutine (c : option (Generator G)) (p : Process) : Process :=
  match kind p with
  | CoroutineProcess constructor default_cmd _ exec_locals waits_on =>
      set_kind (CoroutineProcess constructor default_cmd c exec_locals waits_on) p
  | _ => p
  end.

Definition set_exec_locals (lo : Locals) (p : Process) : Process :=
  match kind p with
  | CoroutineProcess constructor default_cmd c _ waits_on =>
      set_kind (CoroutineProcess constructor default_cmd c lo waits_on) p
  | _ => p
  end.

Definition set_waits_on (w : gset nat) (p : Process) : Process :=
  match kind p with
  | CoroutineProcess constructor default_cmd c exec_locals _ =>
      set_kind (CoroutineProcess constructor default_cmd c exec_locals w) p
  | _ => p
  end.

Definition get_exec_locals (pid : nat) (sim : Simulator) : Locals :=
  match kind <$> sim_processes sim !! pid with
  | Some (CoroutineProcess _ _ _ exec_locals _) => exec_locals
  | _ => ∅
  end.

Definition get_waits_on (pid : nat) (sim : Simulator) : gset nat :=
  match kind <$> sim_processes sim !! pid with
  | Some (CoroutineProcess _ _ _ _ waits_on) => waits_on
  | _ => ∅
  end.

(** [exec(code, self.exec_locals)] *)
Definition exec (pid : nat) (code : Code) : SE Simulator unit := λ sim,
  let '(r, env) := code {| env_state := sim_state sim;
                           env_locals := get_exec_locals pid sim |} in
  (r, update_process pid (set_exec_locals (env_locals env))
        (with_state (λ _, env_state env) sim)).

(** A compiler classmethod called on [self.state]. *)
Definition on_state {A} (m : SE SimulatorState A) : SE Simulator A := λ sim,
  let '(r, st) := m (sim_state sim) in (r, with_state (λ _, st) sim).

(** [_CoroutineProcess.get_in_signal] *)
Definition get_in_signal (pid : nat) (s : Signal) (trigger : option Z)
    : SE Simulator unit := λ sim,
  (* [signal_state = self.state.for_signal(signal)] *)
  let '(index, st) := get_signal s (sim_state sim) in
  let sim := with_state (λ _, st) sim in
  match slots st !! index with
  | Some ss =>
      match dict_get pid (waiters ss) with
      | Some _ => (Raise AssertionError, sim)
      | None =>
          (Ok (),
           update_process pid (set_waits_on ({[index]} ∪ get_waits_on pid sim))
             (with_state
                (with_slots
                   (λ l, <[index := set_waiters (dict_set pid trigger (waiters ss)) ss]> l))
                sim))
      end
  | None => (Raise IndexError, sim)
  end.

(** The head of [run]: leave the waiter maps of the slots waited on. *)
Definition stop_waiting_on (pid : nat) (acc : Res unit * Simulator) (index : nat)
    : Res unit * Simulator :=
  match acc with
  | (Ok _, sim) =>
      match slots (sim_state sim) !! index with
      | Some ss =>
          match dict_get pid (waiters ss) with
          | Some _ =>
              (Ok (),
               with_state
                 (with_slots (λ l, <[index := set_waiters (dict_del pid (waiters ss)) ss]> l))
                 sim)
          | None => (Raise KeyError, sim)
          end
      | None => (Raise IndexError, sim)
      end
  | (Raise e, sim) => (Raise e, sim)
  end.

Definition stop_waiting (pid : nat) : SE Simulator unit := λ sim,
  match foldl (stop_waiting_on pid) (Ok (), sim) (elements (get_waits_on pid sim)) with
  | (Ok _, sim) => (Ok (), update_process pid (set_waits_on ∅) sim)
  | (Raise e, sim) => (Raise e, sim)
  end.

(** What one pass through the [try] block of [run] ends in. *)
Inductive Next :=
| Continue (response : option Z)   (* go round the [while True] loop *)
| Return.                          (* [return]: the process is suspended *)

(** The body of the [try] block, after the command has been received. *)
Definition dispatch (pid : nat) (command : option Command) : SE Simulator Next :=
  match command with
  | Some (CmdValue v) =>
      code ← on_state (rhs_compile shape mode_curr v);
      _ ← exec pid code;
      se_do (λ sim,
        match get_exec_locals pid sim !! ResultVar with
        | Some result => (Ok (Continue (Some (normalize result (shape v)))), sim)
        | None => (Raise KeyError, sim)
        end)
  | Some (CmdStatement s) =>
      code ← on_state (stmt_compile shape lhs_signals s);
      _ ← exec pid code;
      mret (Continue None)
  | Some (Tick domain) =>
      d ← se_do (λ sim,
             match domain with
             | DomainObj d => (Ok d, sim)
             | DomainName name =>
                 match sim_domains sim !! name with
                 | Some d => (Ok d, sim)
                 | None => (Raise NameError, sim)
                 end
             end);
      _ ← get_in_signal pid (clk d)
            (Some (match clk_edge d with pos_edge => 1 | neg_edge => 0 end)%Z);
      _ ← match rst d with
          | Some r => if async_reset d then get_in_signal pid r (Some 1%Z) else mret ()
          | None => mret ()
          end;
      mret Return
  | Some Settle =>
      λ sim, (Ok Return, with_state (with_deadlines (dict_set pid None)) sim)
  | Some (Delay interval) =>
      λ sim,
        (Ok Return,
         with_state
           (λ st, with_deadlines
                    (dict_set pid
                       (match interval with
                        | None => None
                        | Some i => Some (timestamp st + i)%Z
                        end)) st) sim)
  | Some Passive =>
      λ sim, (Ok (Continue None), update_process pid (set_passive true) sim)
  | Some Active =>
      λ sim, (Ok (Continue None), update_process pid (set_passive false) sim)
  | None => se_raise TypeError
  | Some Unsupported => se_raise TypeError
  end.

Definition get_coroutine (pid : nat) (sim : Simulator) : option (Generator G) :=
  match kind <$> sim_processes sim !! pid with
  | Some (CoroutineProcess _ _ coroutine _ _) => coroutine
  | _ => None
  end.

Definition get_default_cmd (pid : nat) (sim : Simulator) : option Command :=
  match kind <$> sim_processes sim !! pid with
  | Some (CoroutineProcess _ default_cmd _ _ _) => default_cmd
  | _ => None
  end.

(** [self.coroutine.send(response)] and [self.coroutine.throw(exn)]: the
    generator object moves on in place. *)
Definition coroutine_resume (pid : nat) (r : Resume) (sim : Simulator) : Step * Simulator :=
  match get_coroutine pid sim with
  | Some gen =>
      let '(step, gen') := gen_resume resume gen r in
      (step, update_process pid (set_coroutine (Some gen')) sim)
  | None => (RaisesExn TypeError, sim)
  end.

(** The [while True] loop of [run].  [None]: the loop is still going round
    when the fuel is used up. *)
Fixpoint run_loop (fuel : nat) (pid : nat) (response : option Z) (sim : Simulator)
    : option (Res unit * Simulator) :=
  match fuel with
  | O => None
  | S fuel =>
      (* the handler [except Exception as exn: self.coroutine.throw(exn)] *)
      let handler (exn : Exn) (sim : Simulator) :=
        match coroutine_resume pid (Throw exn) sim with
        | (Yields _, sim) => run_loop fuel pid None sim
        | (RaisesStopIteration, sim) => Some (Raise StopIterationExn, sim)
        | (RaisesExn e, sim) => Some (Raise e, sim)
        end in
      match coroutine_resume pid (Send response) sim with
      | (Yields command, sim) =>
          let command :=
            match command with
            | None => get_default_cmd pid sim
            | Some c => Some c
            end in
          match dispatch pid command sim with
          | (Ok (Continue response), sim) => run_loop fuel pid response sim
          | (Ok Return, sim) => Some (Ok (), sim)
          | (Raise exn, sim) => handler exn sim
          end
      | (RaisesStopIteration, sim) =>
          Some (Ok (), update_process pid (λ p, set_coroutine None (set_passive true p)) sim)
      | (RaisesExn exn, sim) => handler exn sim
      end
  end.

(** [_CoroutineProcess.run] *)
Definition coroutine_run (fuel : nat) (pid : nat) (sim : Simulator)
    : option (Res unit * Simulator) :=
  match get_coroutine pid sim with
  | None => Some (Ok (), sim)
  | Some _ =>
      match stop_waiting pid sim with
      | (Ok _, sim) => run_loop fuel pid None sim
      | (Raise e, sim) => Some (Raise e, sim)
      end
  end.

(** [process.run()] *)
Definition process_run (fuel : nat) (pid : nat) (sim : Simulator)
    : option (Res unit * Simulator) :=
  match kind <$> sim_processes sim !! pid with
  | Some (CompiledProcess _ run) => Some (compiled_run run sim)
  | Some (CoroutineProcess _ _ _ _ _) => coroutine_run fuel pid sim
  | None => Some (Raise IndexError, sim)
  end.

(** *** [Simulator] *)

(** [Simulator.reset] *)
Definition reset (sim : Simulator) : Simulator :=
  {| sim_state := state_reset (sim_state sim);
     sim_processes := process_reset <$> sim_processes sim;
     sim_domains := sim_domains sim |}.

(** The loop of [_delta] over the processes, taken in the order of the
    process table. *)
Fixpoint run_processes (fuel : nat) (pids : list nat) (sim : Simulator)
    : option (Res unit * Simulator) :=
  match pids with
  | [] => Some (Ok (), sim)
  | pid :: pids =>
      match runnable <$> sim_processes sim !! pid with
      | Some true =>
          match process_run fuel pid (update_process pid (set_runnable false) sim) with
          | Some (Ok _, sim) => run_processes fuel pids sim
          | other => other
          end
      | _ => run_processes fuel pids sim
      end
  end.

(** [Simulator._delta] *)
Definition delta (fuel : nat) (sim : Simulator) : option (Res bool * Simulator) :=
  match run_processes fuel (seq 0 (length (sim_processes sim))) sim with
  | Some (Ok _, sim) => let '(awoken_any, sim) := commit sim in Some (Ok awoken_any, sim)
  | Some (Raise e, sim) => Some (Raise e, sim)
  | None => None
  end.
End Simulator.

(** * Switch patterns read by bit position *)

(** The number whose bit [i] is set when the character of [pattern] at bit
    position [i] (the last character is position 0) satisfies [f]. *)
Fixpoint pattern_bits (f : ascii → bool) (pattern : string) : Z :=
  match pattern with
  | EmptyString => 0
  | String c s =>
      (if f c then 2 ^ Z.of_nat (String.length s) else 0) + pattern_bits f s
  end%Z.

(** The mask of the positions that are not don't-care, and the fixed bits. *)
Definition care_mask (pattern : string) : Z :=
  pattern_bits (λ c, negb (Ascii.eqb c "-")) pattern.

Definition fixed_bits (pattern : string) : Z :=
  pattern_bits (λ c, Ascii.eqb c "1") pattern.

(** The character of [pattern] at bit position [i]. *)
Definition pattern_char (pattern : string) (i : nat) : option ascii :=
  if decide (i < String.length pattern)
  then String.get (String.length pattern - 1 - i) pattern
  else None.

(** A pattern is made of ["0"], ["1"] and ["-"]. *)
Fixpoint pattern_ok (pattern : string) : bool :=
  match pattern with
  | EmptyString => true
  | String c s =>
      (Ascii.eqb c "0" || Ascii.eqb c "1" || Ascii.eqb c "-") && pattern_ok s
  end.

(** * What a commit wakes, and the invariants of the store *)

(** A slot whose commit wakes a process: its value changes, and one of its
    waiters has no trigger or the new value as its trigger. *)
Definition wakes (ss : SignalState) : Prop :=
  curr ss ≠ next ss ∧
  ∃ process trigger,
    (process, trigger) ∈ waiters ss ∧ (trigger = None ∨ trigger = Some (next ss)).

(** Every slot is listed in the signal table. *)
Definition slots_listed (st : SimulatorState) : Prop :=
  ∀ index ss, slots st !! index = Some ss →
    ∃ k s, (k, (s, index)) ∈ signals st.

(** Every slot whose next value differs from its current value is pending. *)
Definition changes_pending (st : SimulatorState) : Prop :=
  ∀ index ss, slots st !! index = Some ss → curr ss ≠ next ss → index ∈ pending st.

Definition store_ok (st : SimulatorState) : Prop :=
  slots_listed st ∧ changes_pending st.

(** * Emitted code and what it keeps *)

(** One store is got from another by calls of [_SignalState.set] only. *)
Definition sets_only : relation SimulatorState :=
  rtc (λ st st', ∃ index value, st' = slot_set index value st).

(** Code that writes the store through [slots[i].set(...)] only. *)
Definition writes_by_set (code : Code) : Prop :=
  ∀ env, sets_only (env_state env) (env_state (code env).2).

Definition compiler_ok (c : Compiler) : Prop :=
  store_ok (state c) ∧ writes_by_set (buffer (emitter c)).

(** [m] keeps the invariant [I] of the state, whether it returns or raises,
    and what it returns satisfies [Q]. *)
Definition keeps {S A} (I : S → Prop) (Q : A → Prop) (m : SE S A) : Prop :=
  ∀ s, I s → I (m s).2 ∧ ∀ a, (m s).1 = Ok a → Q a.

Abbreviation anything := (λ _, True).

Definition gen_ok (gen : Gen) : Prop := ∀ arg, keeps compiler_ok anything (gen arg).

(** * Runs of processes, and the states a simulation reaches *)

Section Runs.
Variable shape : Value → Shape.
Variable lhs_signals : Statement → list Signal.
Variable normalize : Z → Shape → Z.
Context {G : Type}.
Variable resume : G → Resume → Outcome G.

(** Run the processes of a list one after the other, each with its
    [runnable] attribute cleared just before it runs; an exception or a run
    that does not return stops the sequence. *)
Fixpoint run_each (fuel : nat) (pids : list nat) (sim : @Simulator G)
    : option (Res unit * Simulator) :=
  match pids with
  | [] => Some (Ok (), sim)
  | pid :: pids =>
      match process_run shape lhs_signals normalize resume fuel pid
              (update_process pid (set_runnable false) sim) with
      | Some (Ok _, sim) => run_each fuel pids sim
      | other => other
      end
  end.

(** The processes that are runnable in [sim], each listed once, in the
    order of the process table. *)
Definition runnable_processes (sim : @Simulator G) : list nat :=
  filter (λ pid, runnable <$> sim_processes sim !! pid = Some true)
         (seq 0 (length (sim_processes sim))).

(** One attribute of every process of the table. *)
Definition attrs {X} (f : @Process G → X) (sim : @Simulator G) : list X :=
  f <$> sim_processes sim.

(** The emitted [run] of a compiled process. *)
Definition compiled_code (p : @Process G) : option (bool * Code) :=
  match kind p with
  | CompiledProcess comb run => Some (comb, run)
  | CoroutineProcess _ _ _ _ _ => None
  end.

(** Every compiled process runs code that writes the store through [set]
    only, as the code [_FragmentCompiler] emits does. *)
Definition emitted_processes (sim : @Simulator G) : Prop :=
  ∀ pid comb run,
    attrs compiled_code sim !! pid = Some (Some (comb, run)) → writes_by_set run.

Definition sim_ok (sim : @Simulator G) : Prop := store_ok (sim_state sim).

(** A step that changes the attribute [f] of no process. *)
Definition keeps_attrs {X A} (f : @Process G → X) (m : SE (@Simulator G) A) : Prop :=
  ∀ sim, attrs f (m sim).2 = attrs f sim.

(** The states a simulation reaches from a fresh simulator: by the
    operations that build it (slots created, waiters registered, processes
    added), by runs of its processes, and by [commit], [advance] and
    [reset]. *)
Inductive reachable : @Simulator G → Prop :=
| reach_init procs doms :
    reachable {| sim_state := init_state; sim_processes := procs; sim_domains := doms |}
| reach_get_signal sim s :
    reachable sim → reachable (with_state (λ st, (get_signal s st).2) sim)
| reach_set sim index value :
    reachable sim → reachable (with_state (slot_set index value) sim)
| reach_waiters sim index ws :
    reachable sim →
    reachable (with_state (with_slots (alter (set_waiters ws) index)) sim)
| reach_deadlines sim f :
    reachable sim → reachable (with_state (with_deadlines f) sim)
| reach_processes sim f :
    reachable sim → reachable (with_processes f sim)
| reach_run sim fuel pid r sim' :
    reachable sim →
    emitted_processes sim →
    process_run shape lhs_signals normalize resume fuel pid sim = Some (r, sim') →
    reachable sim'
| reach_commit sim :
    reachable sim → reachable (commit sim).2
| reach_advance sim :
    reachable sim → reachable (advance sim).2
| reach_reset sim :
    reachable sim → reachable (reset sim).
End Runs.

(** * What [advance] leaves behind *)

(** The simulator with the processes of [woken] made runnable and taken out
    of the deadline map, and the engine time set to [t]. *)
Definition woken_at {G : Type} (woken : gset nat) (t : Z) (sim : @Simulator G)
    : @Simulator G :=
  {| sim_state :=
       {| signals := signals (sim_state sim);
          slots := slots (sim_state sim);
          pending := pending (sim_state sim);
          timestamp := t;
          deadlines := filter (λ e, e.1 ∉ woken) (deadlines (sim_state sim)) |};
     sim_processes :=
       imap (λ pid p, if decide (pid ∈ woken) then set_runnable true p else p)
            (sim_processes sim);
     sim_domains := sim_domains sim |}.

(** Deadline maps all of whose entries carry a timestamp not before [now]. *)
Definition concrete_from (now : Z) (ds : list (nat * option Z)) : Prop :=
  Forall (λ e, ∃ d, e.2 = Some d ∧ (now ≤ d)%Z) ds.

(** What the scan has found after the entries [seen], none of which lacks
    a timestamp. *)
Definition scanned (seen : list (nat * option Z)) (np : gset nat) (nd : option Z) : Prop :=
  match nd with
  | None => np = ∅ ∧ seen = []
  | Some m =>
      (∀ q, q ∈ np ↔ (q, Some m) ∈ seen) ∧
      (∃ q, (q, Some m) ∈ seen) ∧
      (∀ q d, (q, Some d) ∈ seen → (m ≤ d)%Z)
  end.

(** * Example designs *)

(** Every value is 4 bits wide, unsigned or signed. *)
Definition unsigned4 (_ : Value) : Shape := {| width := 4; signed := false |}.
Definition signed4 (_ : Value) : Shape := {| width := 4; signed := true |}.


Definition new_compiler (st : SimulatorState) : Compiler :=
  {| state := st; emitter := new_emitter |}.

Definition empty_env : Env := {| env_state := init_state; env_locals := ∅ |}.

(** A switch on a 3-bit signal [sel] with the single case ["1-0"], which
    drives the 1-bit signal [hit] to 1; [hit] resets to 0. *)
Definition sel_signal (v : Z) : Signal := {| sig_id := 0; sig_reset := v |}.
Definition hit_signal : Signal := {| sig_id := 1; sig_reset := 0 |}.

Definition switch_shape (v : Value) : Shape :=
  match v with
  | VSignal s => {| width := if decide (sig_id s = 0) then 3 else 1; signed := false |}
  | _ => {| width := 1; signed := false |}
  end.

Definition switch_stmt (v : Z) : Statement :=
  Switch (VSignal (sel_signal v))
    [(["1-0"%string], [Assign (VSignal hit_signal) (Const 1)])].

(** Compile the switch, run it with [sel] at [v], and read [hit.next]. *)
Definition switch_demo (v : Z) : option Z :=
  let st := (get_signal hit_signal (get_signal (sel_signal v) init_state).2).2 in
  match stmt_compile switch_shape (λ _, [hit_signal]) (switch_stmt v) st with
  | (Ok code, st) =>
      match code {| env_state := st; env_locals := ∅ |} with
      | (Ok _, env) => next <$> env_slots env !! 1
      | _ => None
      end
  | _ => None
  end.

(** Writing 0b00 to bits [1:3) of a 4-bit signal whose [next] is 0b1111:
    compile the assignment, run it, and read [next]. *)
Definition nibble : Signal := {| sig_id := 0; sig_reset := 0 |}.

Definition slice_demo : option Z :=
  let st := slot_set 0 15 (get_signal nibble init_state).2 in
  match stmt_compile unsigned4 (λ _, [nibble])
          (Assign (Slice (VSignal nibble) 1 3) (Const 0)) st with
  | (Ok code, st) =>
      match code {| env_state := st; env_locals := ∅ |} with
      | (Ok _, env) => next <$> env_slots env !! 0
      | _ => None
      end
  | _ => None
  end.

(** A testbench that yields the commands of a list in turn and then
    returns.  It has no [try]: an exception thrown in at a [yield] leaves
    it. *)
Definition script_resume (g : list (option Command)) (r : Resume)
    : Outcome (list (option Command)) :=
  match r with
  | Throw e => Raised e
  | Send _ =>
      match g with
      | [] => Returned
      | command :: g => Yielded command g
      end
  end.

(** The same with every [yield] inside [try: ... except Exception: pass]:
    an exception thrown in is caught and the body goes on to its next
    [yield]. *)
Definition catching_resume (g : list (option Command)) (r : Resume)
    : Outcome (list (option Command)) :=
  match g with
  | [] => Returned
  | command :: g => Yielded command g
  end.

(** A simulator with no design and one testbench, as [add_process] leaves
    it (the wrapper's first [Settle] is part of the script). *)
Definition bench_simulator (script : list (option Command)) : Simulator :=
  {| sim_state := init_state;
     sim_processes :=
       [{| runnable := true; passive := false;
           kind := CoroutineProcess script None (Some (Suspended script)) ∅ ∅ |}];
     sim_domains := ∅ |}.

Definition no_lhs_signals (_ : Statement) : list Signal := [].
Definition no_normalize (v : Z) (_ : Shape) : Z := v.

(** [process.run()] of the testbench, with fuel for 8 commands. *)
Definition bench_run (sim : Simulator) : option (Res unit * Simulator) :=
  coroutine_run unsigned4 no_lhs_signals no_normalize script_resume 8 0 sim.

Definition sync_domain : ClockDomain :=
  {| clk := {| sig_id := 0; sig_reset := 0 |}; clk_edge := pos_edge;
     rst := None; async_reset := false |}.

(** A synchronous testbench waiting for a clock edge. *)
Definition tick_script : list (option Command) :=
  [Some (Tick (DomainObj sync_domain)); Some Settle].

(** A testbench asking for a negative delay. *)
Definition negative_delay_script : list (option Command) :=
  [Some (Delay (Some (-1)%Z))].

(** The simulator a run of the testbench leaves behind. *)
Definition after_run (sim : Simulator) : Simulator :=
  match bench_run sim with
  | Some (_, sim') => sim'
  | None => sim
  end.

Definition after_tick : Simulator := after_run (bench_simulator tick_script).

Definition after_negative_delay : Simulator :=
  after_run (bench_simulator negative_delay_script).

(** A store with one signal, written once ([written]) and then written
    back to its old value ([written_back]); no process. *)
Definition one_signal : @Simulator unit :=
  with_state (λ st, (get_signal nibble st).2)
    {| sim_state := init_state; sim_processes := []; sim_domains := ∅ |}.

Definition written : @Simulator unit := with_state (slot_set 0 1) one_signal.

Definition written_back : @Simulator unit := with_state (slot_set 0 0) written.

(** Two testbenches added with [add_process]: both start with the
    wrapper's [yield Settle()]. *)
Definition bench (script : list (option Command)) : Process :=
  {| runnable := true; passive := false;
     kind := CoroutineProcess script None (Some (Suspended script)) ∅ ∅ |}.

Definition two_benches : Simulator :=
  {| sim_state := init_state;
     sim_processes := [bench [Some Settle]; bench [Some Settle]];
     sim_domains := ∅ |}.

(** The two testbenches after the first delta cycle. *)
Definition two_settled : Simulator :=
  match delta unsigned4 no_lhs_signals no_normalize script_resume 8 two_benches with
  | Some (_, sim) => sim
  | None => two_benches
  end.

(** A generator that returns at once, for simulators without a testbench. *)
Definition no_resume (_ : unit) (_ : Resume) : Outcome unit := Returned.

(** A testbench that drives [nibble] to 1: [yield nibble.eq(1)]. *)
Definition nibble_lhs (_ : Statement) : list Signal := [nibble].

Definition assign_script : list (option Command) :=
  [Some (CmdStatement (Assign (VSignal nibble) (Const 1))); Some Settle].

(** The simulator the run of that testbench leaves behind. *)
Definition assigned : Simulator :=
  match process_run unsigned4 nibble_lhs no_normalize script_resume 8 0
          (bench_simulator assign_script) with
  | Some (_, sim') => sim'
  | None => bench_simulator assign_script
  end.

(** * More of the simulator *)

(** * Invariants of compiling and of running, in general *)

(** A compiler state whose store satisfies [S] and whose buffer holds code
    satisfying [P]. *)
Definition compiler_inv (S : SimulatorState → Prop) (P : Code → Prop)
    (c : Compiler) : Prop :=
  S (state c) ∧ P (buffer (emitter c)).

Definition gen_inv (S : SimulatorState → Prop) (P : Code → Prop) (gen : Gen) : Prop :=
  ∀ arg, keeps (compiler_inv S P) anything (gen arg).

(** Code that leaves the store as it is. *)
Definition reads_only (code : Code) : Prop :=
  ∀ env, env_state (code env).2 = env_state env.

(** One store is got from another by calls of [get_signal] only. *)
Definition gets_only : relation SimulatorState :=
  rtc (λ st st', ∃ s, st' = (get_signal s st).2).

(** * The loops of [Simulator] *)

Section Loops.
Variable shape : Value → Shape.
Variable lhs_signals : Statement → list Signal.
Variable normalize : Z → Shape → Z.
Context {G : Type}.
Variable resume : G → Resume → Outcome G.

(** [Simulator._settle]: [while self._delta(): pass].  [rounds] bounds the
    number of delta cycles; [None]: the loop is still going round when they
    are used up. *)
Fixpoint settle (rounds fuel : nat) (sim : @Simulator G)
    : option (Res unit * Simulator) :=
  match rounds with
  | O => None
  | S rounds =>
      match delta shape lhs_signals normalize resume fuel sim with
      | Some (Ok true, sim) => settle rounds fuel sim
      | Some (Ok false, sim) => Some (Ok (), sim)
      | Some (Raise e, sim) => Some (Raise e, sim)
      | None => None
      end
  end.

(** [any(not process.passive for process in self._processes)] *)
Definition any_active (sim : @Simulator G) : bool :=
  existsb (λ p, negb (passive p)) (sim_processes sim).

(** [Simulator.step] *)
Definition step (rounds fuel : nat) (sim : @Simulator G)
    : option (Res bool * Simulator) :=
  match settle rounds fuel sim with
  | Some (Ok _, sim) =>
      match advance sim with
      | (Ok _, sim) => Some (Ok (any_active sim), sim)
      | (Raise e, sim) => Some (Raise e, sim)
      end
  | Some (Raise e, sim) => Some (Raise e, sim)
  | None => None
  end.

(** [Simulator.run]: [while self.step(): pass] *)
Fixpoint run (steps rounds fuel : nat) (sim : @Simulator G)
    : option (Res unit * Simulator) :=
  match steps with
  | O => None
  | S steps =>
      match step rounds fuel sim with
      | Some (Ok true, sim) => run steps rounds fuel sim
      | Some (Ok false, sim) => Some (Ok (), sim)
      | Some (Raise e, sim) => Some (Raise e, sim)
      | None => None
      end
  end.

(** The loop of [run_until]:
    [while (self.step() or run_passive) and self._state.timestamp < deadline] *)
Fixpoint run_until_loop (steps rounds fuel : nat) (deadline : Z) (run_passive : bool)
    (sim : @Simulator G) : option (Res unit * Simulator) :=
  match steps with
  | O => None
  | S steps =>
      match step rounds fuel sim with
      | Some (Ok active, sim) =>
          if (active || run_passive) && (timestamp (sim_state sim) <? deadline)%Z
          then run_until_loop steps rounds fuel deadline run_passive sim
          else Some (Ok (), sim)
      | Some (Raise e, sim) => Some (Raise e, sim)
      | None => None
      end
  end.

(** [Simulator.run_until] *)
Definition run_until (steps rounds fuel : nat) (deadline : Z) (run_passive : bool)
    (sim : @Simulator G) : option (Res unit * Simulator) :=
  if (timestamp (sim_state sim) <=? deadline)%Z
  then run_until_loop steps rounds fuel deadline run_passive sim
  else Some (Raise AssertionError, sim).

(** The default command of a process. *)
Definition default_of (p : @Process G) : option Command :=
  match kind p with
  | CoroutineProcess _ default_cmd _ _ _ => default_cmd
  | CompiledProcess _ _ => None
  end.
End Loops.

(** A command whose delay, if it is one with an interval, satisfies
    [delay_ok]. *)
Definition command_ok (delay_ok : Z → Prop) (command : option Command) : Prop :=
  match command with
  | Some (Delay (Some interval)) => delay_ok interval
  | _ => True
  end.

(** No deadline of the map is before the engine time. *)
Definition deadlines_ok (st : SimulatorState) : Prop :=
  ∀ p d, (p, Some d) ∈ deadlines st → (timestamp st ≤ d)%Z.

(** What a run keeps, of a whole simulator: the store satisfies [I], the
    compiled processes run emitted code, and no default command is a delay
    that [delay_ok] rules out. *)
Definition sim_inv {G} (I : SimulatorState → Prop) (delay_ok : Z → Prop)
    (sim : @Simulator G) : Prop :=
  I (sim_state sim) ∧ emitted_processes sim ∧
  Forall (command_ok delay_ok) (attrs default_of sim).

(** The store as a run started at time [t0] may have left it: no deadline
    is before the engine time, which is not before [t0]. *)
Definition time_from (t0 : Z) (st : SimulatorState) : Prop :=
  deadlines_ok st ∧ (t0 ≤ timestamp st)%Z.

(** A testbench that waits one time unit [n] times:
    [for _ in range(n): yield Delay(1)]. *)
Definition ticker_resume (n : nat) (r : Resume) : Outcome nat :=
  match r with
  | Throw e => Raised e
  | Send _ =>
      match n with
      | O => Returned
      | S n => Yielded (Some (Delay (Some 1%Z))) n
      end
  end.

Definition ticker (n : nat) : @Simulator nat :=
  {| sim_state := init_state;
     sim_processes :=
       [{| runnable := true; passive := false;
           kind := CoroutineProcess n None (Some (Suspended n)) ∅ ∅ |}];
     sim_domains := ∅ |}.

(** The ticker after its first run, waiting for time 1. *)
Definition ticker_waiting : @Simulator nat :=
  match process_run unsigned4 no_lhs_signals no_normalize ticker_resume 8 0 (ticker 2) with
  | Some (_, sim) => sim
  | None => ticker 2
  end.

(** The ticker run until time 2. *)
Definition ticker_at_2 : @Simulator nat :=
  match run_until unsigned4 no_lhs_signals no_normalize ticker_resume 8 8 8 2 false
          (ticker 2) with
  | Some (_, sim) => sim
  | None => ticker 2
  end.

(** The ticker after its first delta cycle. *)
Definition ticker_delta : @Simulator nat :=
  match delta unsigned4 no_lhs_signals no_normalize ticker_resume 8 (ticker 2) with
  | Some (_, sim) => sim
  | None => ticker 2
  end.

(** The store [st'] has every slot of [st], with the same signal and the
    same current value, every signal of [st] at the same index, and the
    same engine time. *)
Definition same_currents (st st' : SimulatorState) : Prop :=
  (∀ index ss, slots st !! index = Some ss →
     ∃ ss', slots st' !! index = Some ss' ∧ signal ss' = signal ss ∧ curr ss' = curr ss) ∧
  (∀ k e, dict_get k (signals st) = Some e → dict_get k (signals st') = Some e) ∧
  timestamp st' = timestamp st.

(** A testbench that drives [nibble] to 1, in a simulator that already
    knows the signal, and the simulator after the run of the testbench. *)
Definition assign_bench : Simulator :=
  with_state (λ st, (get_signal nibble st).2) (bench_simulator assign_script).

Definition assign_ran : Simulator :=
  match process_run unsigned4 nibble_lhs no_normalize script_resume 8 0 assign_bench with
  | Some (_, sim) => sim
  | None => assign_bench
  end.

(** Nothing is left to do in this delta cycle: no process is runnable and
    no slot is pending. *)
Definition quiescent {G} (sim : @Simulator G) : Prop :=
  Forall (λ p, runnable p = false) (sim_processes sim) ∧ pending (sim_state sim) = ∅.

(** The testbench registered as a waiter of the clock for a rising edge. *)
Definition tick_wait : Simulator :=
  (get_in_signal 0 (clk sync_domain) (Some 1%Z) (bench_simulator tick_script)).2.

(** The store [st'] is [st] with slots appended, one for each signal of
    [added], each at its reset value with nobody waiting; nothing else
    differs but the signal table, where every signal of [st] keeps its
    index. *)
Definition grows (st st' : SimulatorState) : Prop :=
  (∃ added, slots st' = slots st ++ (new_slot <$> added)) ∧
  (∀ k e, dict_get k (signals st) = Some e → dict_get k (signals st') = Some e) ∧
  pending st' = pending st ∧ timestamp st' = timestamp st ∧
  deadlines st' = deadlines st.

(** The store [st'] differs from [st] in next values and in the pending
    set only: the pending set has grown, and every slot whose next value
    differs is pending. *)
Definition only_next (st st' : SimulatorState) : Prop :=
  signals st' = signals st ∧ timestamp st' = timestamp st ∧
  deadlines st' = deadlines st ∧ pending st ⊆ pending st' ∧
  length (slots st') = length (slots st) ∧
  ∀ index ss, slots st !! index = Some ss →
    ∃ ss', slots st' !! index = Some ss' ∧
           signal ss' = signal ss ∧ curr ss' = curr ss ∧ waiters ss' = waiters ss ∧
           (next ss' ≠ next ss → index ∈ pending st').

(** The signal table and the slots list describe each other: every entry
    of the table is keyed by the identity of its signal and points at a
    slot of that signal, and every slot is in the table at its index. *)
Definition table_ok (st : SimulatorState) : Prop :=
  (∀ k s index, (k, (s, index)) ∈ signals st →
     k = sig_id s ∧ ∃ ss, slots st !! index = Some ss ∧ signal ss = s) ∧
  (∀ index ss, slots st !! index = Some ss →
     (sig_id (signal ss), (signal ss, index)) ∈ signals st).

(** The process table [procs'] is [procs] with the processes of [W] made
    runnable and nothing else changed. *)
Definition woken_by {G} (W : nat → Prop) (procs procs' : list (@Process G)) : Prop :=
  length procs' = length procs ∧
  ∀ q p, procs !! q = Some p →
    ∃ p', procs' !! q = Some p' ∧ kind p' = kind p ∧ passive p' = passive p ∧
          (runnable p' = true ↔ runnable p = true ∨ W q).

(** Does the test value [t] match a pattern: at every position that is not
    a don't-care when there is one, and as a whole number when there is
    none. *)
Definition pattern_matchb (pattern : string) (t : Z) : bool :=
  if str_contains "-" pattern
  then (Z.land t (care_mask pattern) =? fixed_bits pattern)%Z
  else (t =? fixed_bits pattern)%Z.

(** Does it match a case: one with no pattern is the default. *)
Definition case_matchb (patterns : list string) (t : Z) : bool :=
  match patterns with
  | [] => true
  | _ => existsb (λ pattern, pattern_matchb pattern t) patterns
  end.

(** The shape of a slice is its extent; every other value is 4 bits wide
    and unsigned. *)
Definition slice_shape (v : Value) : Shape :=
  match v with
  | Slice _ start stop => {| width := stop - start; signed := false |}
  | _ => {| width := 4; signed := false |}
  end.

(** The cases of a switch that drives [hit] to 1 on ["1-0"] and ["101"]
    and to 0 otherwise. *)
Definition hit_cases : list (list string * list Statement) :=
  [(["1-0"; "101"]%string, [Assign (VSignal hit_signal) (Const 1)]);
   ([], [Assign (VSignal hit_signal) (Const 0)])].

(** [next_<index of hit>] after the chain compiled for [hit_cases] has run
    on the test value [t]. *)
Definition hit_after (t : Z) : option Z :=
  match switch_cases (stmt switch_shape) (e_const t) hit_cases (new_compiler init_state) with
  | (Ok branches, _) => env_locals (c_if branches c_pass empty_env).2 !! NextVar 0
  | (Raise _, _) => None
  end.

(** * [_FragmentCompiler] and [Simulator.__init__] *)

(** [assert <test>] *)
Definition c_assert (test : Expr) : Code := λ env,
  match test env with
  | Ok x => if truthy x then (Ok (), env) else (Raise AssertionError, env)
  | Raise e => (Raise e, env)
  end.

(** The part of a prepared [hdl.ir.Fragment] the compiler reads: the signals
    driven from each domain ([None] is the combinational one), the
    statements, the clock domains by name, and the subfragments. *)
Inductive Fragment := {
  drivers : list (option string * list Signal);
  statements : list Statement;
  domains : gmap string ClockDomain;
  subfragments : list Fragment;
}.

(** [_SignalState.wait], on the slot with ordinal [index]. *)
Definition slot_wait (index task : nat) (trigger : option Z)
    : SE SimulatorState unit := λ st,
  match slots st !! index with
  | Some ss =>
      match dict_get task (waiters ss) with
      | Some _ => (Raise AssertionError, st)
      | None =>
          (Ok (), with_slots
                    (λ l, <[index := set_waiters (dict_set task trigger (waiters ss)) ss]> l)
                    st)
      end
  | None => (Raise IndexError, st)
  end.

(** [state.for_signal(signal).wait(task, trigger=trigger)] *)
Definition for_signal_wait (s : Signal) (task : nat) (trigger : option Z)
    : SE SimulatorState unit := λ st,
  let '(index, st) := get_signal s st in slot_wait index task trigger st.

(** The signals the right-hand-side compiler of a [_StatementCompiler] made
    with [inputs=...] adds to [inputs]: [_RHSValueCompiler.on_Signal] adds
    the signal it visits, and the compiler visits every operand. *)
Fixpoint rhs_inputs (value : Value) : list Signal :=
  match value with
  | VSignal s => [s]
  | Operator _ operands => concat (map rhs_inputs operands)
  | Slice v _ _ => rhs_inputs v
  | Part v offset _ _ => rhs_inputs offset ++ rhs_inputs v
  | Cat parts => concat (map rhs_inputs parts)
  | Repl v _ => rhs_inputs v
  | ArrayProxy elems index => rhs_inputs index ++ concat (map rhs_inputs elems)
  | _ => []
  end.

(** The left-hand-side compiler passes to that compiler ([rrhs]) the offset
    of a [Part] and the index of an [ArrayProxy]; what it reads of the
    target itself goes to its own compiler ([lrhs], made without
    [inputs]). *)
Fixpoint lhs_inputs (value : Value) : list Signal :=
  match value with
  | Slice v _ _ => lhs_inputs v
  | Part v offset _ _ => rhs_inputs offset ++ lhs_inputs v
  | Cat parts => concat (map lhs_inputs parts)
  | ArrayProxy elems index => rhs_inputs index ++ concat (map lhs_inputs elems)
  | _ => []
  end.

Fixpoint stmt_inputs (s : Statement) : list Signal :=
  match s with
  | Assign l r => rhs_inputs r ++ lhs_inputs l
  | Switch test cases =>
      rhs_inputs test ++ concat (map (λ case, concat (map stmt_inputs case.2)) cases)
  | _ => []
  end.

(** A [SignalSet] keeps one entry for each signal: the signals of [l] not
    yet [seen], each once. *)
Fixpoint signal_set (seen : list nat) (l : list Signal) : list Signal :=
  match l with
  | [] => []
  | s :: l =>
      if decide (sig_id s ∈ seen) then signal_set seen l
      else s :: signal_set (sig_id s :: seen) l
  end.

(** A step on the store from inside a compiler. *)
Definition c_on_state {A} (m : SE SimulatorState A) : CM A := λ c,
  let '(r, st) := m (state c) in (r, {| state := st; emitter := emitter c |}).

(** [for signal in domain_signals: emitter.append(<code of signal and its index>)] *)
Fixpoint for_signals (code : Signal → nat → Code) (l : list Signal) : CM unit :=
  match l with
  | [] => mret ()
  | s :: l => index ← c_get_signal s; _ ← append (code s index); for_signals code l
  end.

(** [for input in inputs: self.state.for_signal(input).wait(domain_process)] *)
Fixpoint wait_inputs (task : nat) (inputs : list Signal) : CM unit :=
  match inputs with
  | [] => mret ()
  | s :: inputs => _ ← c_on_state (for_signal_wait s task None); wait_inputs task inputs
  end.

(** [slots[index].curr == trigger] *)
Definition trigger_check (index : nat) (trigger : Z) : Expr :=
  e_un (λ x, py_bool (x =? trigger)%Z) (e_curr index).

Definition clk_trigger (domain : ClockDomain) : Z :=
  match clk_edge domain with pos_edge => 1 | neg_edge => 0 end.

(** [domain.rst] when [domain.rst is not None and domain.async_reset]. *)
Definition async_rst (domain : ClockDomain) : option Signal :=
  match rst domain with
  | Some r => if async_reset domain then Some r else None
  | None => None
  end.

Section Fragments.
Variable shape : Value → Shape.
(** [LHSGroupFilter(domain_signals)(fragment.statements)], of [hdl.xfrm]. *)
Variable lhs_group_filter : list Signal → list Statement → list Statement.
Context {G : Type}.

(** The call of a [_StatementCompiler] on the statements of a domain:
    [on_statements]. *)
Definition on_domain_stmts (stmts : list Statement) : CM unit :=
  _ ← on_statements shape stmts;
  match stmts with
  | [] => append c_pass
  | _ => mret ()
  end.

(** The body of the loop of [_FragmentCompiler.__call__] over
    [fragment.drivers], up to [emitter.flush()], for the process [task]. *)
Definition domain_body (fragment_domains : gmap string ClockDomain) (task : nat)
    (domain_name : option string) (domain_signals : list Signal)
    (domain_stmts : list Statement) : CM unit :=
  _ ← match domain_name with
      | None =>
          _ ← for_signals (λ signal index,
                 c_assign (NextVar index) (e_const (sig_reset signal))) domain_signals;
          _ ← on_domain_stmts domain_stmts;
          wait_inputs task (signal_set [] (concat (map stmt_inputs domain_stmts)))
      | Some name =>
          match fragment_domains !! name with
          | None => se_raise KeyError
          | Some domain =>
              _ ← c_on_state (for_signal_wait (clk domain) task (Some (clk_trigger domain)));
              _ ← match async_rst domain with
                  | Some r => c_on_state (for_signal_wait r task (Some 1%Z))
                  | None => mret ()
                  end;
              clk_index ← c_get_signal (clk domain);
              rst_asserts ← match async_rst domain with
                            | Some r =>
                                rst_index ← c_get_signal r;
                                mret [trigger_check rst_index 1]
                            | None => mret []
                            end;
              _ ← append (c_assert
                     (e_any (trigger_check clk_index (clk_trigger domain) :: rst_asserts)));
              _ ← for_signals (λ _ index,
                     c_assign (NextVar index) (e_slot_next index)) domain_signals;
              on_domain_stmts domain_stmts
          end
      end;
  for_signals (λ _ index, c_set index) domain_signals.

(** One turn of that loop.  The processes made so far are kept in the order
    they are made; a process is known to the waiter tables by its place in
    this list.  The names recorded for the waveform writer
    ([add_signal_name]) and the optional dump of the emitted code to a
    file are left out: the simulation reads neither. *)
Definition compile_domain (fragment : Fragment) (entry : option string * list Signal)
    : SE (SimulatorState * list (@Process G)) unit := λ '(st, processes),
  let '(domain_name, domain_signals) := entry in
  let domain_stmts := lhs_group_filter domain_signals (statements fragment) in
  let comb := bool_decide (domain_name = None) in
  match domain_body (domains fragment) (length processes) domain_name domain_signals
          domain_stmts {| state := st; emitter := new_emitter |} with
  | (Ok _, c) =>
      (Ok (), (state c,
               processes ++ [{| runnable := comb; passive := true;
                                kind := CompiledProcess comb (buffer (emitter c)) |}]))
  | (Raise e, c) => (Raise e, (state c, processes))
  end.

Fixpoint compile_domains (fragment : Fragment) (entries : list (option string * list Signal))
    : SE (SimulatorState * list (@Process G)) unit :=
  match entries with
  | [] => mret ()
  | entry :: entries => _ ← compile_domain fragment entry; compile_domains fragment entries
  end.

(** [_FragmentCompiler.__call__] *)
Fixpoint compile_fragment (fragment : Fragment)
    : SE (SimulatorState * list (@Process G)) unit :=
  _ ← compile_domains fragment (drivers fragment);
  (fix go subs :=
     match subs with
     | [] => mret ()
     | subfragment :: subs => _ ← compile_fragment subfragment; go subs
     end) (subfragments fragment).

(** [Simulator.__init__], on the prepared fragment. *)
Definition new_simulator (fragment : Fragment) : Res (@Simulator G) :=
  match compile_fragment fragment (init_state, []) with
  | (Ok _, (st, processes)) =>
      Ok {| sim_state := st; sim_processes := processes;
            sim_domains := domains fragment |}
  | (Raise e, _) => Raise e
  end.

(** [Simulator._add_coroutine_process] *)
Definition add_coroutine_process (constructor : G) (default_cmd : option Command)
    : @Simulator G → @Simulator G :=
  with_processes (λ processes,
    processes ++ [{| runnable := true; passive := false;
                     kind := CoroutineProcess constructor default_cmd
                               (Some (Suspended constructor)) ∅ ∅ |}]).
End Fragments.

(** ** [add_process], [add_sync_process] *)

(** The generator [wrapper] of [add_process] and of [add_sync_process]: not
    started, suspended at its own [yield], or inside [yield from process()]. *)
Inductive Wrapper (G : Type) :=
| WrapperFresh (first : Command) (process : G)
| WrapperFirst (process : G)
| WrapperInside (g : G).
Arguments WrapperFresh {G} first process.
Arguments WrapperFirst {G} process.
Arguments WrapperInside {G} g.

Definition wrapper_resume {G} (resume : G → Resume → Outcome G)
    (w : Wrapper G) (r : Resume) : Outcome (Wrapper G) :=
  let inside (o : Outcome G) : Outcome (Wrapper G) :=
    match o with
    | Yielded command g => Yielded command (WrapperInside g)
    | Returned => Returned
    | Raised e => Raised e
    end in
  match w with
  | WrapperFresh first process =>
      match r with
      | Send _ => Yielded (Some first) (WrapperFirst process)
      | Throw e => Raised e
      end
  | WrapperFirst process =>
      match r with
      | Send _ => inside (resume process (Send None))
      | Throw e => Raised e
      end
  | WrapperInside g => inside (resume g r)
  end.

(** [Simulator.add_process]; the body is a generator by its type, so
    [_check_process] has nothing to refuse. *)
Definition add_process {G} (process : G) : @Simulator (Wrapper G) → @Simulator (Wrapper G) :=
  add_coroutine_process (WrapperFresh Settle process) None.

(** [Tick.__init__] *)
Definition new_Tick (domain : DomainRef) : Res Command :=
  match domain with
  | DomainName name => if String.eqb name "comb" then Raise AssertionError else Ok (Tick domain)
  | DomainObj _ => Ok (Tick domain)
  end.

(** [Simulator.add_sync_process] *)
Definition add_sync_process {G} (process : G) (domain : DomainRef)
    (sim : @Simulator (Wrapper G)) : Res (@Simulator (Wrapper G)) :=
  default_cmd ← new_Tick domain;
  Ok (add_coroutine_process (WrapperFresh default_cmd process) (Some default_cmd) sim).

(** A simulator whose testbenches are all inside their bodies, as the
    simulator of the wrappers sees it: a generator of a body is the
    wrapper's generator inside [yield from]. *)
Definition wrap_gen {G} (gen : Generator G) : Generator (Wrapper G) :=
  match gen with
  | Suspended g => Suspended (WrapperInside g)
  | Finished => Finished
  end.

(** The first command of the wrapper ([Settle] for [add_process], the
    default command [Tick(domain)] for [add_sync_process]). *)
Definition first_of (default_cmd : option Command) : Command :=
  match default_cmd with
  | Some command => command
  | None => Settle
  end.

Definition wrap_process {G} (p : @Process G) : @Process (Wrapper G) :=
  {| runnable := runnable p;
     passive := passive p;
     kind := match kind p with
             | CompiledProcess comb run => CompiledProcess comb run
             | CoroutineProcess constructor default_cmd coroutine exec_locals waits_on =>
                 CoroutineProcess (WrapperFresh (first_of default_cmd) constructor)
                   default_cmd (wrap_gen <$> coroutine) exec_locals waits_on
             end |}.

Definition wrap_simulator {G} (sim : @Simulator G) : @Simulator (Wrapper G) :=
  {| sim_state := sim_state sim;
     sim_processes := wrap_process <$> sim_processes sim;
     sim_domains := sim_domains sim |}.

(** [mw] does in the simulator of the wrappers what [m] does in the
    simulator of the bodies. *)
Definition lifts {G A} (m : SE (@Simulator G) A) (mw : SE (@Simulator (Wrapper G)) A)
    : Prop :=
  ∀ sim, mw (wrap_simulator sim) = ((m sim).1, wrap_simulator (m sim).2).

(** * What compiling a fragment keeps, and what it makes *)

(** A process as [_FragmentCompiler] makes it, with code satisfying [P]. *)
Definition made {G} (P : Code → Prop) (p : @Process G) : Prop :=
  ∃ comb run,
    p = {| runnable := comb; passive := true; kind := CompiledProcess comb run |} ∧ P run.

Definition made_all {G} (S : SimulatorState → Prop) (P : Code → Prop)
    (s : SimulatorState * list (@Process G)) : Prop :=
  S s.1 ∧ Forall (made P) s.2.

(** A store as it is after [reset]: every slot at the reset value of its
    signal, nothing pending, no deadline, time 0. *)
Definition at_reset (st : SimulatorState) : Prop :=
  Forall (λ ss, curr ss = sig_reset (signal ss) ∧ next ss = sig_reset (signal ss))
         (slots st) ∧
  pending st = ∅ ∧ timestamp st = 0%Z ∧ deadlines st = [].

(** The process [task] waits on the signal [s] with [trigger]: the signal
    table sends [s] to a slot whose waiter map has [task ↦ trigger]. *)
Definition waits_for (task : nat) (s : Signal) (trigger : option Z)
    (st : SimulatorState) : Prop :=
  ∃ s0 index ss,
    dict_get (sig_id s) (signals st) = Some (s0, index) ∧
    slots st !! index = Some ss ∧
    dict_get task (waiters ss) = Some trigger.

(** Since the store was [st0], the process [task] has been made a waiter of
    signals of [waited] only, each with its trigger. *)
Definition waits_within (task : nat) (waited : list (Signal * option Z))
    (st0 st : SimulatorState) : Prop :=
  ∀ index ss trigger,
    slots st !! index = Some ss → dict_get task (waiters ss) = Some trigger →
    (∃ ss0, slots st0 !! index = Some ss0 ∧ dict_get task (waiters ss0) = Some trigger) ∨
    (∃ s s0, (s, trigger) ∈ waited ∧ dict_get (sig_id s) (signals st) = Some (s0, index)).

(** The signal table sends [s] to the slot [index]. *)
Definition has_index (s : Signal) (index : nat) (st : SimulatorState) : Prop :=
  ∃ s0, dict_get (sig_id s) (signals st) = Some (s0, index).

(** Code got from [b] by appending to it. *)
Inductive extends (b : Code) : Code → Prop :=
| extends_refl : extends b b
| extends_seq b' code : extends b b' → extends b (c_seq b' code).

(** A compiler step that, when it returns, has only appended to the buffer. *)
Definition appends_only {A} (m : CM A) : Prop :=
  ∀ c a c', m c = (Ok a, c') → extends (buffer (emitter c)) (buffer (emitter c')).

Definition appends_gen (gen : Gen) : Prop := ∀ arg, appends_only (gen arg).

(** ** Example fragments *)

(** [LHSGroupFilter] on a fragment with one domain. *)
Definition keep_all (_ : list Signal) (stmts : list Statement) : list Statement := stmts.

(** [hit] driven combinationally from [nibble]. *)
Definition comb_fragment : Fragment :=
  {| drivers := [(None, [hit_signal])];
     statements := [Assign (VSignal hit_signal) (VSignal nibble)];
     domains := ∅;
     subfragments := [] |}.

(** [hit] driven to 1 in the domain [sync]. *)
Definition sync_fragment : Fragment :=
  {| drivers := [(Some "sync"%string, [hit_signal])];
     statements := [Assign (VSignal hit_signal) (Const 1)];
     domains := {["sync"%string := sync_domain]};
     subfragments := [] |}.

Definition comb_simulator : @Simulator (list (option Command)) :=
  match new_simulator unsigned4 keep_all comb_fragment with
  | Ok sim => sim
  | Raise _ => bench_simulator []
  end.

Definition sync_simulator : @Simulator (list (option Command)) :=
  match new_simulator unsigned4 keep_all sync_fragment with
  | Ok sim => sim
  | Raise _ => bench_simulator []
  end.

(** A store in which the clock of [sync_domain] is low. *)
Definition clock_low : Env :=
  {| env_state := sim_state sync_simulator; env_locals := ∅ |}.

(** * Properties *)

(** ** Division and modulo *)



Lemma se_bind_ok {S A B} (m : SE S A) (k : A → SE S B) s b s' :
  (m ≫= k) s = (Ok b, s') →
  ∃ a s1, m s = (Ok a, s1) ∧ k a s1 = (Ok b, s').
Proof.
  unfold mbind, se_bind. destruct (m s) as [[a|e] s1]; [eauto | discriminate].
Qed.

Lemma op_signed2_ok shape self f vl vr c e c' :
  op_signed2 shape self f vl vr c = (Ok e, c') →
  ∃ l r c1,
    op_sign shape self vl c = (Ok l, c1) ∧
    op_sign shape self vr c1 = (Ok r, c') ∧
    e = e_bin f l r.
Proof.
  unfold op_signed2. intros H.
  apply se_bind_ok in H as (l & c1 & Hl & H).
  apply se_bind_ok in H as (r & c2 & Hr & H).
  injection H as <- <-. eauto 6.
Qed.







(** ** Switch patterns *)

Lemma pattern_bits_bound f s :
  (0 ≤ pattern_bits f s < 2 ^ Z.of_nat (String.length s))%Z.
Proof.
  induction s as [| c s IH]; simpl String.length; simpl pattern_bits; [lia |].
  rewrite Nat2Z.inj_succ, Z.pow_succ_r by lia.
  destruct (f c); lia.
Qed.

Lemma int2_digits_map (g : ascii → ascii) (f : ascii → bool) s acc :
  (∀ c, str_contains c s = true →
        g c = (if f c then "1" else "0")%char) →
  int2_digits acc (str_map g s)
  = Ok (acc * 2 ^ Z.of_nat (String.length s) + pattern_bits f s)%Z.
Proof.
  revert acc. induction s as [| c s IH]; intros acc Hg.
  - simpl. f_equal. lia.
  - simpl str_map. simpl int2_digits.
    assert (Hc : g c = (if f c then "1" else "0")%char).
    { apply Hg. simpl. by rewrite Ascii.eqb_refl. }
    assert (Hs : ∀ c', str_contains c' s = true →
                       g c' = (if f c' then "1" else "0")%char).
    { intros c' Hc'. apply Hg. simpl. rewrite Hc'. apply orb_true_r. }
    rewrite Hc. simpl String.length. simpl pattern_bits.
    rewrite Nat2Z.inj_succ, Z.pow_succ_r by lia.
    destruct (f c); simpl; rewrite (IH _ Hs); f_equal; lia.
Qed.

Lemma str_contains_ok c s :
  pattern_ok s = true → str_contains c s = true →
  c = "0"%char ∨ c = "1"%char ∨ c = "-"%char.
Proof.
  induction s as [| c' s IH]; simpl; [discriminate |].
  intros [Hc Hs]%andb_true_iff [Heq | Hin]%orb_true_iff; [| by apply IH].
  apply Ascii.eqb_eq in Heq as ->.
  repeat (apply orb_true_iff in Hc as [Hc | Hc]);
    apply Ascii.eqb_eq in Hc; auto.
Qed.

Lemma int2_care_mask s :
  s ≠ EmptyString →
  int2 (str_map (λ b, if Ascii.eqb b "-" then "0" else "1")%char s)
  = Ok (care_mask s).
Proof.
  intros Hs. destruct s as [| c s]; [done |].
  unfold int2. simpl str_map. unfold care_mask.
  change (String _ (str_map ?g s)) with (str_map g (String c s)).
  rewrite (int2_digits_map _ (λ c, negb (Ascii.eqb c "-"))); [f_equal; lia |].
  intros c' _. by destruct (Ascii.eqb c' "-").
Qed.

Lemma int2_fixed_bits s :
  s ≠ EmptyString → pattern_ok s = true →
  int2 (str_map (λ b, if Ascii.eqb b "-" then "0" else b)%char s)
  = Ok (fixed_bits s).
Proof.
  intros Hs Hok. destruct s as [| c s]; [done |].
  unfold int2. simpl str_map. unfold fixed_bits.
  change (String _ (str_map ?g s)) with (str_map g (String c s)).
  rewrite (int2_digits_map _ (λ c, Ascii.eqb c "1")); [f_equal; lia |].
  intros c' Hc'.
  destruct (str_contains_ok _ _ Hok Hc') as [-> | [-> | ->]]; reflexivity.
Qed.

Lemma pattern_char_cons c s i :
  pattern_char (String c s) i =
  if decide (i = String.length s) then Some c else pattern_char s i.
Proof.
  unfold pattern_char. simpl String.length.
  destruct (decide (i = String.length s)) as [-> | Hne].
  - rewrite decide_True by lia.
    replace (S (String.length s) - 1 - String.length s) with 0 by lia. done.
  - destruct (decide (i < String.length s)).
    + rewrite decide_True by lia.
      replace (S (String.length s) - 1 - i) with (S (String.length s - 1 - i)) by lia.
      done.
    + rewrite decide_False by lia. done.
Qed.

Lemma pattern_bits_testbit f s i :
  Z.testbit (pattern_bits f s) (Z.of_nat i)
  = match pattern_char s i with Some c => f c | None => false end.
Proof.
  revert i. induction s as [| c s IH]; intros i.
  - simpl. by rewrite Z.testbit_0_l.
  - rewrite pattern_char_cons. simpl pattern_bits.
    assert (Hhigh : ∀ j, String.length s ≤ j →
                         Z.testbit (pattern_bits f s) (Z.of_nat j) = false).
    { intros j Hj. rewrite IH. unfold pattern_char.
      by rewrite decide_False by lia. }
    destruct (f c) eqn:Hfc.
    + rewrite Z.add_nocarry_lor.
      * rewrite Z.lor_spec, Z.pow2_bits_eqb by lia.
        destruct (decide (i = String.length s)) as [-> | Hne].
        -- by rewrite Z.eqb_refl.
        -- rewrite (proj2 (Z.eqb_neq _ _)) by lia. apply IH.
      * apply Z.bits_inj'. intros j Hj.
        rewrite Z.land_spec, Z.bits_0, Z.pow2_bits_eqb by lia.
        destruct (Z.eqb_spec (Z.of_nat (String.length s)) j) as [<- | Hne]; [| done].
        by rewrite Hhigh.
    + rewrite Z.add_0_l.
      destruct (decide (i = String.length s)) as [-> | Hne]; [| apply IH].
      by rewrite Hhigh.
Qed.

Lemma pattern_match_bits s t :
  Z.land t (care_mask s) = fixed_bits s ↔
  ∀ i c, pattern_char s i = Some c →
         c = "-"%char ∨ Z.testbit t (Z.of_nat i) = Ascii.eqb c "1".
Proof.
  unfold care_mask, fixed_bits. split.
  - intros H i c Hc.
    apply (f_equal (λ z, Z.testbit z (Z.of_nat i))) in H.
    rewrite Z.land_spec, !pattern_bits_testbit, Hc in H.
    destruct (Ascii.eqb_spec c "-"); [by left | right].
    simpl in H. by rewrite andb_true_r in H.
  - intros H. apply Z.bits_inj'. intros j Hj.
    rewrite <- (Z2Nat.id j) by done.
    rewrite Z.land_spec, !pattern_bits_testbit.
    destruct (pattern_char s (Z.to_nat j)) as [c |] eqn:Hc.
    + destruct (H _ _ Hc) as [-> | ->]; [by rewrite andb_false_r |].
      destruct (Ascii.eqb_spec c "-") as [-> | _]; [done |].
      apply andb_true_r.
    + apply andb_false_r.
Qed.

Lemma str_contains_nonempty c s : str_contains c s = true → s ≠ EmptyString.
Proof. by destruct s. Qed.

(** C7: for a pattern with don't-care markers, the compiled check succeeds
    on a test value exactly when the value, masked by the mask of the
    positions that are not don't-care, equals the fixed bits of the pattern,
    that is when the value agrees with the pattern at every position that is
    not a don't-care; the pattern [1-0] matches 0b100 and 0b110 and neither
    0b101 nor 0b111. *)
Theorem dont_care_match gen_test pattern :
  pattern_ok pattern = true →
  str_contains "-" pattern = true →
  (∃ check,
     gen_check gen_test pattern = Ok check ∧
     ∀ env t, gen_test env = Ok t →
       check env = Ok (py_bool (Z.land t (care_mask pattern) =? fixed_bits pattern)%Z) ∧
       (check env = Ok 1%Z ↔ Z.land t (care_mask pattern) = fixed_bits pattern) ∧
       (Z.land t (care_mask pattern) = fixed_bits pattern ↔
        ∀ i c, pattern_char pattern i = Some c →
               c = "-"%char ∨ Z.testbit t (Z.of_nat i) = Ascii.eqb c "1")) ∧
  switch_demo 4 = Some 1%Z ∧ switch_demo 6 = Some 1%Z ∧
  switch_demo 5 = Some 0%Z ∧ switch_demo 7 = Some 0%Z.
Proof.
  intros Hok Hdash.
  pose proof (str_contains_nonempty _ _ Hdash) as Hne.
  split; [| by vm_compute].
  unfold gen_check. rewrite Hdash, int2_care_mask, int2_fixed_bits by done.
  simpl. eexists. split; [done |].
  intros env t Ht. unfold e_un. rewrite Ht. simpl.
  split; [done |]. split; [| apply pattern_match_bits].
  destruct (Z.eqb_spec (Z.land t (care_mask pattern)) (fixed_bits pattern));
    simpl; split; congruence.
Qed.

Lemma dont_care_match_witness :
  ∃ check,
    gen_check (e_const 6) "1-0" = Ok check ∧ check empty_env = Ok 1%Z.
Proof.
  destruct (dont_care_match (e_const 6) "1-0" eq_refl eq_refl)
    as [(check & Hc & H) _].
  exists check. split; [done |].
  destruct (H empty_env 6%Z eq_refl) as (_ & Hiff & _).
  by apply Hiff.
Defined.

(** ** Partial writes *)

Lemma mask_of_ones n : mask_of n = Z.ones (Z.of_nat n).
Proof. unfold mask_of, Z.ones. lia. Qed.

Lemma mask_of_testbit n i :
  Z.testbit (mask_of n) (Z.of_nat i) = bool_decide (i < n).
Proof.
  rewrite mask_of_ones, Z.testbit_ones_nonneg by lia.
  case_bool_decide; lia.
Qed.

(** The value a slice setter hands to the setter of the sliced value. *)
Lemma slice_update_testbit old a start k i :
  Z.testbit
    (Z.lor (Z.land old (Z.lnot (Z.shiftl (mask_of k) (Z.of_nat start))))
           (Z.shiftl (Z.land a (mask_of k)) (Z.of_nat start)))
    (Z.of_nat i)
  = if decide (start ≤ i < start + k)
    then Z.testbit a (Z.of_nat (i - start))
    else Z.testbit old (Z.of_nat i).
Proof.
  rewrite Z.lor_spec, Z.land_spec, Z.lnot_spec, !Z.shiftl_spec by lia.
  destruct (decide (start ≤ i)) as [Hle | Hlt].
  - replace (Z.of_nat i - Z.of_nat start)%Z with (Z.of_nat (i - start)) by lia.
    rewrite Z.land_spec, mask_of_testbit.
    case_bool_decide; case_decide; try lia; simpl.
    + by rewrite andb_false_r, andb_true_r.
    + by rewrite andb_true_r, andb_false_r, orb_false_r.
  - rewrite !(Z.testbit_neg_r _ (Z.of_nat i - Z.of_nat start)) by lia.
    rewrite decide_False by lia. simpl.
    by rewrite andb_true_r, orb_false_r.
Qed.

Lemma sign_bit_testbit w i :
  w ≠ 0 →
  Z.testbit (Z.shiftl (-1) (Z.of_nat w - 1)) (Z.of_nat i) = bool_decide (w - 1 ≤ i).
Proof.
  intros Hw. rewrite Z.shiftl_spec by lia.
  case_bool_decide.
  - replace (-1)%Z with (Z.lnot 0) by done.
    rewrite Z.lnot_spec, Z.bits_0 by lia. done.
  - apply Z.testbit_neg_r. lia.
Qed.

(** Masking to the width and sign-extending keeps the bits below the width. *)
Lemma helper_sign_testbit x w i :
  w ≠ 0 → i < w →
  Z.testbit (helper_sign (Z.land x (mask_of w)) (Z.shiftl (-1) (Z.of_nat w - 1)))
            (Z.of_nat i)
  = Z.testbit x (Z.of_nat i).
Proof.
  intros Hw Hi. unfold helper_sign.
  assert (Hm : Z.testbit (Z.land x (mask_of w)) (Z.of_nat i) = Z.testbit x (Z.of_nat i)).
  { rewrite Z.land_spec, mask_of_testbit, bool_decide_true by done. apply andb_true_r. }
  destruct (truthy _) eqn:Ht; [| done].
  rewrite Z.lor_spec, Hm, sign_bit_testbit by done.
  case_bool_decide; [| apply orb_false_r].
  assert (i = w - 1) as -> by lia.
  destruct (Z.testbit x (Z.of_nat (w - 1))) eqn:Hx; [done |].
  exfalso. unfold truthy in Ht. apply negb_true_iff, Z.eqb_neq in Ht. apply Ht.
  apply Z.bits_inj'. intros j Hj. rewrite <- (Z2Nat.id j) by done.
  rewrite !Z.land_spec, mask_of_testbit, sign_bit_testbit, Z.bits_0 by done.
  case_bool_decide; case_bool_decide; rewrite ?andb_false_r; try done.
  assert (Z.to_nat j = w - 1) as -> by lia. by rewrite Hx.
Qed.

Lemma dict_get_set {V} k (v : V) d : dict_get k (dict_set k v d) = Some v.
Proof.
  induction d as [| [k' v'] d IH]; simpl.
  - by rewrite decide_True.
  - destruct (decide (k' = k)) as [-> | Hne]; simpl.
    + by rewrite decide_True.
    + by rewrite decide_False.
Qed.

(** Once a signal has its slot, [get_signal] finds it and changes nothing. *)
Lemma get_signal_again s st :
  get_signal s (get_signal s st).2 = ((get_signal s st).1, (get_signal s st).2).
Proof.
  unfold get_signal at 2 3 4.
  destruct (dict_get (sig_id s) (signals st)) as [[s' index] |] eqn:Hget; simpl.
  - unfold get_signal. by rewrite Hget.
  - unfold get_signal. simpl. by rewrite dict_get_set.
Qed.

Lemma c_get_signal_eq s c :
  c_get_signal s c
  = (Ok (get_signal s (state c)).1,
     {| state := (get_signal s (state c)).2; emitter := emitter c |}).
Proof. unfold c_get_signal. by destruct (get_signal s (state c)). Qed.

(** The setter of a slice of any lvalue [v] hands to the setter of [v] the
    next value of [v] with the bits [start, stop) replaced. *)
Lemma slice_read_modify_write shape v start stop arg c gen_v r c1 :
  start ≤ stop →
  lhs shape v = Ok gen_v →
  rhs shape mode_next v c = (Ok r, c1) →
  ∃ gen arg',
    lhs shape (Slice v start stop) = Ok gen ∧
    gen arg c = gen_v arg' c1 ∧
    ∀ env old a, r env = Ok old → arg env = Ok a →
      ∃ new,
        arg' env = Ok new ∧
        ∀ i, Z.testbit new (Z.of_nat i)
             = if decide (start ≤ i < stop)
               then Z.testbit a (Z.of_nat (i - start))
               else Z.testbit old (Z.of_nat i).
Proof.
  intros Hle Hlhs Hrhs. simpl lhs. eexists _, _. split; [reflexivity |].
  unfold mbind at 1, se_bind at 1, se_lift at 1, py_shl.
  rewrite (proj2 (Z.ltb_ge (Z.of_nat stop - Z.of_nat start) 0)) by lia.
  cbn [mbind res_bind].
  unfold mbind at 1, se_bind at 1, se_lift at 1. rewrite Hlhs.
  unfold mbind at 1, se_bind at 1. rewrite Hrhs.
  split; [reflexivity |].
  intros env old a Hold Ha. cbv beta. rewrite Hold, Ha. simpl.
  eexists. split; [reflexivity |].
  intros i.
  replace (1 ≪ (Z.of_nat stop - Z.of_nat start) - 1)%Z with (mask_of (stop - start))
    by (unfold mask_of; by rewrite Nat2Z.inj_sub).
  rewrite slice_update_testbit.
  repeat case_decide; try lia; done.
Qed.

(** C6: the setter compiled for a bit slice is a read-modify-write of the
    next value of the sliced lvalue: the value it stores has the bits
    [start, stop) replaced by the low bits of the assigned value and every
    other bit as read.  For a slice of a signal it reads the signal's
    [next_] variable and writes it back with only those bits of the signal
    changed; writing 0b00 to bits [1:3) of a 4-bit signal whose next value
    is 0b1111 leaves 0b1001. *)
Theorem slice_write shape s start stop arg c :
  start ≤ stop →
  (signed (shape (VSignal s)) = true → len shape (VSignal s) ≠ 0) →
  (∀ v gen_v r c1,
     lhs shape v = Ok gen_v →
     rhs shape mode_next v c = (Ok r, c1) →
     ∃ gen arg',
       lhs shape (Slice v start stop) = Ok gen ∧
       gen arg c = gen_v arg' c1 ∧
       ∀ env old a, r env = Ok old → arg env = Ok a →
         ∃ new,
           arg' env = Ok new ∧
           ∀ i, Z.testbit new (Z.of_nat i)
                = if decide (start ≤ i < stop)
                  then Z.testbit a (Z.of_nat (i - start))
                  else Z.testbit old (Z.of_nat i)) ∧
  (∃ gen code,
     lhs shape (Slice (VSignal s) start stop) = Ok gen ∧
     gen arg c
     = (Ok (),
        {| state := (get_signal s (state c)).2;
           emitter := {| buffer := c_seq (buffer (emitter c)) code;
                         suffix := suffix (emitter c) |} |}) ∧
     ∀ env old a,
       env_locals env !! NextVar (get_signal s (state c)).1 = Some old →
       arg env = Ok a →
       ∃ new,
         code env
         = (Ok (),
            {| env_state := env_state env;
               env_locals := <[NextVar (get_signal s (state c)).1 := new]>
                               (env_locals env) |}) ∧
         ∀ i, i < len shape (VSignal s) →
           Z.testbit new (Z.of_nat i)
           = if decide (start ≤ i < stop)
             then Z.testbit a (Z.of_nat (i - start))
             else Z.testbit old (Z.of_nat i)) ∧
  slice_demo = Some 9%Z.
Proof.
  intros Hle Hsigned.
  split; [intros v gen_v r c1; by apply slice_read_modify_write |].
  split; [| by vm_compute].
  simpl lhs.
  assert (Hwm : (1 ≪ (Z.of_nat stop - Z.of_nat start) - 1)%Z = mask_of (stop - start)).
  { unfold mask_of. by rewrite Nat2Z.inj_sub. }
  destruct (signed (shape (VSignal s))) eqn:Hs.
  - specialize (Hsigned eq_refl).
    eexists _, _. split; [reflexivity |].
    unfold mbind, se_bind, mret, se_ret, se_lift, py_shl, sign_bit, py_shl, append.
    rewrite (proj2 (Z.ltb_ge (Z.of_nat stop - Z.of_nat start) 0)) by lia.
    rewrite (proj2 (Z.ltb_ge (Z.of_nat (len shape (VSignal s)) - 1) 0)) by lia.
    rewrite !c_get_signal_eq. simpl. rewrite get_signal_again. simpl.
    split; [reflexivity |].
    intros env old a Hold Ha.
    unfold c_assign, e_un, e_var. rewrite Hold, Ha. simpl.
    eexists. split; [reflexivity |].
    intros i Hi. rewrite helper_sign_testbit by done.
    rewrite Hwm, slice_update_testbit.
    repeat case_decide; try lia; done.
  - eexists _, _. split; [reflexivity |].
    unfold mbind, se_bind, mret, se_ret, se_lift, py_shl, append.
    rewrite (proj2 (Z.ltb_ge (Z.of_nat stop - Z.of_nat start) 0)) by lia.
    rewrite !c_get_signal_eq. simpl. rewrite get_signal_again. simpl.
    split; [reflexivity |].
    intros env old a Hold Ha.
    unfold c_assign, e_un, e_var. rewrite Hold, Ha. simpl.
    eexists. split; [reflexivity |].
    intros i Hi.
    rewrite Z.land_spec, mask_of_testbit, bool_decide_true, andb_true_r by done.
    rewrite Hwm, slice_update_testbit.
    repeat case_decide; try lia; done.
Qed.

Lemma slice_write_witness :
  ∃ gen code new,
    lhs signed4 (Slice (VSignal nibble) 1 3) = Ok gen ∧
    (gen (e_const 0) (new_compiler init_state)).1 = Ok () ∧
    (code {| env_state := init_state; env_locals := {[NextVar 0 := 15%Z]} |}).1 = Ok () ∧
    (code {| env_state := init_state; env_locals := {[NextVar 0 := 15%Z]} |}).2
    = {| env_state := init_state;
         env_locals := <[NextVar 0 := new]> {[NextVar 0 := 15%Z]} |} ∧
    Z.testbit new 0 = true ∧ Z.testbit new 1 = false ∧
    Z.testbit new 2 = false ∧ Z.testbit new 3 = true.
Proof.
  destruct (slice_write signed4 nibble 1 3 (e_const 0) (new_compiler init_state))
    as (_ & (gen & code & Hgen & Hrun & Hbits) & _).
  { lia. }
  { intros _. vm_compute. discriminate. }
  destruct (Hbits {| env_state := init_state; env_locals := {[NextVar 0 := 15%Z]} |}
              15%Z 0%Z (lookup_singleton_eq _ _) eq_refl) as (new & Hcode & Hnew).
  exists gen, code, new.
  split; [exact Hgen |]. split; [by rewrite Hrun |].
  rewrite Hcode. split; [done |]. split; [done |].
  split; [exact (Hnew 0 ltac:(vm_compute; lia)) |].
  split; [exact (Hnew 1 ltac:(vm_compute; lia)) |].
  split; [exact (Hnew 2 ltac:(vm_compute; lia)) |].
  exact (Hnew 3 ltac:(vm_compute; lia)).
Defined.

(** ** Testbench commands *)

(** C8, on the testbench [yield Delay(-1)] at time 0: the deadline stored
    for the process is -1, earlier than the engine time 0, and the next
    [advance] fails its own assertion [deadline >= self.timestamp]. *)
Theorem negative_delay_deadline :
  fst <$> bench_run (bench_simulator negative_delay_script) = Some (Ok ()) ∧
  timestamp (sim_state after_negative_delay) = 0%Z ∧
  deadlines (sim_state after_negative_delay) = [(0, Some (-1)%Z)] ∧
  (advance after_negative_delay).1 = Raise AssertionError.
Proof. repeat split; vm_compute; reflexivity. Qed.

(** C3, on a testbench suspended in [yield Tick(domain)]: it is a waiter of
    the clock's slot; after [reset] it still is, although its own
    [waits_on] is empty, and when the restarted testbench reaches its
    [Tick] again, [get_in_signal] fails its assertion
    [self not in signal_state.waiters]. *)
Theorem reset_keeps_waiter :
  fst <$> bench_run (bench_simulator tick_script) = Some (Ok ()) ∧
  waiters <$> slots (sim_state after_tick) = [[(0, Some 1%Z)]] ∧
  get_waits_on 0 after_tick = {[0]} ∧
  waiters <$> slots (sim_state (reset after_tick)) = [[(0, Some 1%Z)]] ∧
  get_waits_on 0 (reset after_tick) = ∅ ∧
  get_coroutine 0 (reset after_tick) = Some (Suspended tick_script) ∧
  fst <$> bench_run (reset after_tick) = Some (Raise AssertionError).
Proof. repeat split; vm_compute; reflexivity. Qed.

Section Scheduler.
Variable shape : Value → Shape.
Variable lhs_signals : Statement → list Signal.
Variable normalize : Z → Shape → Z.
Context {G : Type}.
Variable resume : G → Resume → Outcome G.

Lemma get_coroutine_set pid (sim : @Simulator G) gen c :
  get_coroutine pid sim = Some gen →
  get_coroutine pid (update_process pid (set_coroutine c) sim) = c.
Proof.
  unfold get_coroutine, update_process, with_processes. simpl.
  rewrite list_lookup_alter_eq.
  destruct (sim_processes sim !! pid) as [[r p k] |]; [| done]. simpl.
  destruct k; [done |]. done.
Qed.

Lemma get_default_cmd_set pid (sim : @Simulator G) c :
  get_default_cmd pid (update_process pid (set_coroutine c) sim)
  = get_default_cmd pid sim.
Proof.
  unfold get_default_cmd, update_process, with_processes. simpl.
  rewrite list_lookup_alter_eq.
  destruct (sim_processes sim !! pid) as [[r p k] |]; [| done]. simpl.
  by destruct k.
Qed.

(** C9: when the testbench yields [Tick(name)] and no domain is called
    [name], [run] throws a [NameError] into the testbench at the [yield] it
    is suspended in.  What the body does with it decides how [run] goes on:
    if the body catches it and reaches another [yield], the loop carries on;
    if the body lets it out (or returns), the exception leaves [run]. *)
Theorem tick_unknown_domain fuel pid response (sim : Simulator) g g' name :
  get_coroutine pid sim = Some (Suspended g) →
  resume g (Send response) = Yielded (Some (Tick (DomainName name))) g' →
  sim_domains sim !! name = None →
  run_loop shape lhs_signals normalize resume (S fuel) pid response sim
  = let suspended := update_process pid (set_coroutine (Some (Suspended g'))) sim in
    match resume g' (Throw NameError) with
    | Yielded _ g'' =>
        run_loop shape lhs_signals normalize resume fuel pid None
          (update_process pid (set_coroutine (Some (Suspended g''))) suspended)
    | Returned =>
        Some (Raise StopIterationExn,
              update_process pid (set_coroutine (Some Finished)) suspended)
    | Raised e =>
        Some (Raise e, update_process pid (set_coroutine (Some Finished)) suspended)
    end.
Proof.
  intros Hco Hsend Hdom. simpl.
  unfold coroutine_resume at 1. rewrite Hco. simpl. rewrite Hsend.
  unfold dispatch. unfold mbind at 1, se_bind at 1, se_do at 1. simpl.
  rewrite Hdom.
  unfold coroutine_resume.
  rewrite (get_coroutine_set _ _ _ _ Hco). simpl.
  by destruct (resume g' (Throw NameError)).
Qed.

End Scheduler.

Lemma tick_unknown_domain_witness :
  run_loop unsigned4 no_lhs_signals no_normalize catching_resume 2 0 None
    (bench_simulator [Some (Tick (DomainName "nowhere")); Some Settle; Some Passive])
  = run_loop unsigned4 no_lhs_signals no_normalize catching_resume 1 0 None
      (update_process 0 (set_coroutine (Some (Suspended [Some Passive])))
         (update_process 0
            (set_coroutine (Some (Suspended [Some Settle; Some Passive])))
            (bench_simulator
               [Some (Tick (DomainName "nowhere")); Some Settle; Some Passive]))).
Proof.
  exact (tick_unknown_domain unsigned4 no_lhs_signals no_normalize catching_resume
           1 0 None
           (bench_simulator [Some (Tick (DomainName "nowhere")); Some Settle; Some Passive])
           _ _ "nowhere" eq_refl eq_refl eq_refl).
Defined.

(** ** Commit *)

Section Store.
Context {G : Type}.
Implicit Types (sim : @Simulator G) (procs : list (@Process G)).

Lemma triggered_committed ss trigger :
  triggered (set_curr (next ss) ss) trigger = true ↔
  trigger = None ∨ trigger = Some (next ss).
Proof.
  destruct trigger as [t |]; simpl.
  - rewrite Z.eqb_eq. split; [intros ->; by right | intros [? | [= ->]]; done].
  - split; [by left | done].
Qed.

Lemma wakeup_fold ss ws b procs :
  (foldl (λ '(awoken_any, procs) '(process, trigger),
            if triggered ss trigger
            then (true, alter (set_runnable true) process procs)
            else (awoken_any, procs)) (b, procs) ws).1 = true ↔
  b = true ∨ ∃ process trigger, (process, trigger) ∈ ws ∧ triggered ss trigger = true.
Proof.
  revert b procs. induction ws as [| [p t] ws IH]; intros b procs; simpl.
  - split; [by left | intros [? | (? & ? & []%elem_of_nil & _)]; done].
  - destruct (triggered ss t) eqn:Ht; rewrite IH; split.
    + intros _. right. exists p, t. split; [left | done].
    + by left.
    + intros [? | (p' & t' & Hin & Ht')]; [by left | right].
      exists p', t'. split; [by right | done].
    + intros [? | (p' & t' & Hin & Ht')]; [by left |].
      apply elem_of_cons in Hin as [[= -> ->] | Hin]; [congruence |].
      right. eauto.
Qed.

Lemma wakeup_wakes ss procs :
  curr ss ≠ next ss →
  (wakeup (set_curr (next ss) ss) procs).1 = true ↔ wakes ss.
Proof.
  intros Hne. unfold wakeup, wakes. rewrite wakeup_fold. simpl.
  split.
  - intros [? | (p & t & Hin & Ht)]; [done |].
    split; [done |]. exists p, t. split; [done |]. by apply triggered_committed.
  - intros (_ & p & t & Hin & Ht). right. exists p, t. split; [done |].
    by apply triggered_committed.
Qed.

Lemma slot_commit_eq ss :
  slot_commit ss = (negb (curr ss =? next ss)%Z, set_curr (next ss) ss).
Proof.
  unfold slot_commit. destruct (Z.eqb_spec (curr ss) (next ss)) as [Heq | Hne]; [| done].
  simpl. f_equal. destruct ss. simpl in *. by subst.
Qed.

(** One step of the loop of [commit], as a function of the slot table. *)
Lemma commit_slot_spec b sl procs index :
  ∃ b' procs',
    commit_slot (b, sl, procs) index
    = (b', alter (λ ss, set_curr (next ss) ss) index sl, procs') ∧
    (b' = true ↔ b = true ∨ ∃ ss, sl !! index = Some ss ∧ wakes ss).
Proof.
  unfold commit_slot. destruct (sl !! index) as [ss |] eqn:Hss.
  - rewrite slot_commit_eq.
    assert (Halter : alter (λ ss, set_curr (next ss) ss) index sl
                     = <[index := set_curr (next ss) ss]> sl).
    { apply list_eq. intros j. rewrite list_lookup_alter, list_lookup_insert.
      pose proof (lookup_lt_Some _ _ _ Hss).
      destruct (decide (index = j)) as [<- |].
      - by rewrite decide_True, Hss.
      - by rewrite decide_False by tauto. }
    destruct (Z.eqb_spec (curr ss) (next ss)) as [Heq | Hne]; simpl.
    + exists b, procs. split.
      * f_equal. f_equal. rewrite Halter. symmetry. apply list_insert_id.
        rewrite Hss. f_equal. destruct ss. simpl in *. by subst.
      * split; [by left |]. intros [? | (ss' & [= <-] & Hne & _)]; done.
    + destruct (wakeup (set_curr (next ss) ss) procs) as [awoken procs'] eqn:Hw.
      eexists _, _. split; [by rewrite Halter |].
      pose proof (wakeup_wakes ss procs Hne) as Hiff. rewrite Hw in Hiff. simpl in Hiff.
      destruct awoken.
      * split; [| done]. intros _. right. exists ss. split; [done |]. by apply Hiff.
      * split; [by left |]. intros [? | (ss' & [= <-] & Hwk)]; [done |].
        by apply Hiff in Hwk.
  - exists b, procs. split.
    + f_equal. f_equal. apply list_eq. intros j. rewrite list_lookup_alter.
      destruct (decide (index = j)) as [<- |]; [by rewrite Hss | done].
    + split; [by left |]. intros [? | (ss' & [=] & _)]; done.
Qed.

Lemma commit_fold_spec l b sl procs :
  ∃ b' procs',
    foldl commit_slot (b, sl, procs) l
    = (b', foldl (λ sl index, alter (λ ss, set_curr (next ss) ss) index sl) sl l, procs') ∧
    (b' = true ↔ b = true ∨ ∃ index ss, index ∈ l ∧ sl !! index = Some ss ∧ wakes ss).
Proof.
  revert b sl procs. induction l as [| index l IH]; intros b sl procs; cbn [foldl].
  - exists b, procs. split; [done |].
    split; [by left | intros [? | (? & ? & []%elem_of_nil & _)]; done].
  - destruct (commit_slot_spec b sl procs index) as (b1 & procs1 & -> & Hb1).
    destruct (IH b1 (alter (λ ss, set_curr (next ss) ss) index sl) procs1)
      as (b' & procs' & -> & Hb').
    exists b', procs'. split; [done |].
    rewrite Hb', Hb1. split.
    + intros [[? | (ss & Hss & Hwk)] | (j & ss & Hj & Hss & Hwk)].
      * by left.
      * right. exists index, ss. split; [left | done].
      * right. rewrite list_lookup_alter in Hss.
        destruct (decide (index = j)) as [<- |].
        -- destruct (sl !! index) as [ss0 |]; [| done]. simpl in Hss.
           injection Hss as <-. by destruct Hwk as [[] _].
        -- exists j, ss. split; [by right | done].
    + intros [? | (j & ss & Hj & Hss & Hwk)]; [by left; left |].
      destruct (decide (index = j)) as [<- | Hne].
      * left. right. eauto.
      * apply elem_of_cons in Hj as [-> | Hj]; [done |].
        right. exists j, ss. split; [done |].
        by rewrite list_lookup_alter_ne.
Qed.

Lemma commit_all_lookup (l : list nat) (sl : list SignalState) (j : nat) :
  foldl (λ sl index, alter (λ ss, set_curr (next ss) ss) index sl) sl l !! j
  = if decide (j ∈ l) then (λ ss, set_curr (next ss) ss) <$> sl !! j else sl !! j.
Proof.
  revert sl. induction l as [| index l IH]; intros sl; cbn [foldl].
  - case_decide as Hin; [by apply elem_of_nil in Hin | done].
  - rewrite IH, list_lookup_alter.
    destruct (decide (index = j)) as [<- | Hne].
    + case_decide; case_decide; try done.
      * by destruct (sl !! index).
      * exfalso. apply H0. left.
      * exfalso. apply H0. left.
    + case_decide as H1; case_decide as H2; try done.
      * exfalso. apply H2. by right.
      * apply elem_of_cons in H2 as [-> | ?]; done.
Qed.

(** What [commit] returns and leaves behind. *)
Lemma commit_spec sim :
  ∃ procs,
    (commit sim).2
    = {| sim_state :=
           with_pending (λ _, ∅)
             (with_slots
                (λ sl, foldl (λ sl index, alter (λ ss, set_curr (next ss) ss) index sl)
                             sl (elements (pending (sim_state sim))))
                (sim_state sim));
         sim_processes := procs;
         sim_domains := sim_domains sim |} ∧
    ((commit sim).1 = true ↔
     ∃ index ss,
       index ∈ pending (sim_state sim) ∧
       slots (sim_state sim) !! index = Some ss ∧ wakes ss).
Proof.
  unfold commit.
  destruct (commit_fold_spec (elements (pending (sim_state sim))) false
              (slots (sim_state sim)) (sim_processes sim))
    as (b' & procs' & -> & Hb').
  exists procs'. split; [done |]. simpl. rewrite Hb'.
  split.
  - intros [? | (index & ss & Hin & H)]; [done |].
    exists index, ss. by rewrite <- elem_of_elements.
  - intros (index & ss & Hin & H). right.
    exists index, ss. by rewrite elem_of_elements.
Qed.


(** ** Invariants of the store *)

Lemma dict_set_fresh {V} k (v : V) d :
  dict_get k d = None → dict_set k v d = d ++ [(k, v)].
Proof.
  induction d as [| [k' v'] d IH]; simpl; [done |].
  destruct (decide (k' = k)); [done |]. intros H. by rewrite IH.
Qed.

Lemma get_signal_slots s st :
  (signals (get_signal s st).2 = signals st ∧ slots (get_signal s st).2 = slots st) ∨
  (signals (get_signal s st).2 = signals st ++ [(sig_id s, (s, length (slots st)))] ∧
   slots (get_signal s st).2 = slots st ++ [new_slot s]).
Proof.
  unfold get_signal.
  destruct (dict_get (sig_id s) (signals st)) as [[s' index] |] eqn:Hget; simpl.
  - by left.
  - right. by rewrite dict_set_fresh.
Qed.

Lemma get_signal_pending s st : pending (get_signal s st).2 = pending st.
Proof.
  unfold get_signal. by destruct (dict_get (sig_id s) (signals st)) as [[s' index] |].
Qed.

Lemma slots_listed_get_signal s st :
  slots_listed st → slots_listed (get_signal s st).2.
Proof.
  intros Hl index ss.
  destruct (get_signal_slots s st) as [[-> ->] | [-> ->]]; [apply Hl |].
  intros Hss. destruct (decide (index < length (slots st))) as [Hlt | Hge].
  - rewrite lookup_app_l in Hss by done.
    destruct (Hl _ _ Hss) as (k & s' & Hin). exists k, s'.
    apply elem_of_app. by left.
  - assert (index = length (slots st)) as ->.
    { apply lookup_lt_Some in Hss. rewrite length_app in Hss. simpl in Hss. lia. }
    exists (sig_id s), s. apply elem_of_app. right. by left.
Qed.

Lemma changes_pending_get_signal s st :
  changes_pending st → changes_pending (get_signal s st).2.
Proof.
  intros Hp index ss. rewrite get_signal_pending.
  destruct (get_signal_slots s st) as [[_ ->] | [_ ->]]; [apply Hp |].
  intros Hss. destruct (decide (index < length (slots st))) as [Hlt | Hge].
  - rewrite lookup_app_l in Hss by done. by apply Hp.
  - rewrite lookup_app_r in Hss by lia.
    destruct (index - length (slots st)); [| done].
    injection Hss as <-. done.
Qed.

(** [_SignalState.set] changes [next], and makes the slot pending, only
    when the value differs from [next]. *)
Lemma slot_set_spec index value st ss :
  slots st !! index = Some ss →
  slot_set index value st
  = if (next ss =? value)%Z then st
    else with_pending (λ p, {[index]} ∪ p)
           (with_slots (λ l, <[index := set_next value ss]> l) st).
Proof. intros Hss. unfold slot_set. by rewrite Hss. Qed.

Lemma slots_listed_slot_set index value st :
  slots_listed st → slots_listed (slot_set index value st).
Proof.
  intros Hl. unfold slot_set.
  destruct (slots st !! index) as [ss |] eqn:Hss; [| done].
  destruct (next ss =? value)%Z; [done |].
  intros j ss'. simpl. rewrite list_lookup_insert.
  case_decide as Hj; [| apply Hl].
  destruct Hj as [<- _]. intros _. by apply (Hl index ss).
Qed.

Lemma changes_pending_slot_set index value st :
  changes_pending st → changes_pending (slot_set index value st).
Proof.
  intros Hp. unfold slot_set.
  destruct (slots st !! index) as [ss |] eqn:Hss; [| done].
  destruct (next ss =? value)%Z; [done |].
  intros j ss'. simpl. rewrite list_lookup_insert.
  case_decide as Hj.
  - destruct Hj as [<- _]. intros _ _. set_solver.
  - intros Hss' Hne. apply elem_of_union. right. by apply (Hp j ss').
Qed.

Lemma reset_fold_lookup (l : list (nat * (Signal * nat))) (sl : list SignalState) j ss' :
  foldl (λ l '(_, (s, index)),
           match l !! index with
           | Some ss => <[index := set_next (sig_reset s) (set_curr (sig_reset s) ss)]> l
           | None => l
           end) sl l !! j = Some ss' →
  ∃ ss, sl !! j = Some ss ∧
        ((∃ k s, (k, (s, j)) ∈ l) ∨ curr ss = next ss → curr ss' = next ss').
Proof.
  revert sl. induction l as [| [k [s index]] l IH]; intros sl; cbn [foldl].
  - intros Hss. exists ss'. split; [done |].
    intros [(? & ? & []%elem_of_nil) | ?]; done.
  - intros Hss. apply IH in Hss as (ss1 & Hss1 & Himp).
    destruct (sl !! index) as [ss0 |] eqn:Hss0.
    + rewrite list_lookup_insert in Hss1. case_decide as Hj.
      * destruct Hj as [<- _]. injection Hss1 as <-.
        exists ss0. split; [done |]. intros _. apply Himp. by right.
      * exists ss1. split; [done |].
        intros [(k' & s' & Hin) | Heq]; apply Himp; [left | by right].
        apply elem_of_cons in Hin as [[= -> -> ->] | Hin]; [| eauto].
        apply lookup_lt_Some in Hss0. tauto.
    + exists ss1. split; [done |].
      intros [(k' & s' & Hin) | Heq]; apply Himp; [left | by right].
      apply elem_of_cons in Hin as [[= -> -> ->] | Hin]; [| eauto].
      congruence.
Qed.

Lemma slots_listed_reset st : slots_listed st → slots_listed (state_reset st).
Proof.
  intros Hl index ss Hss. simpl in *.
  apply reset_fold_lookup in Hss as (ss0 & Hss0 & _). by apply (Hl index ss0).
Qed.

(** After [_SimulatorState.reset] no slot has a change left to commit. *)
Lemma state_reset_settled st index ss :
  slots_listed st →
  slots (state_reset st) !! index = Some ss → curr ss = next ss.
Proof.
  intros Hl Hss. simpl in Hss.
  apply reset_fold_lookup in Hss as (ss0 & Hss0 & Himp).
  apply Himp. left. by apply (Hl index ss0).
Qed.

Lemma commit_state sim :
  sim_state (commit sim).2
  = with_pending (λ _, ∅)
      (with_slots
         (λ sl, foldl (λ sl index, alter (λ ss, set_curr (next ss) ss) index sl)
                      sl (elements (pending (sim_state sim))))
         (sim_state sim)).
Proof. destruct (commit_spec sim) as (procs & -> & _). done. Qed.

(** After [commit] no slot has a change left to commit, provided every
    changed slot was pending. *)
Lemma commit_settled sim index ss :
  changes_pending (sim_state sim) →
  slots (sim_state (commit sim).2) !! index = Some ss → curr ss = next ss.
Proof.
  intros Hp. rewrite commit_state. simpl. rewrite commit_all_lookup.
  case_decide as Hin.
  - destruct (slots (sim_state sim) !! index) as [ss0 |]; [| done].
    simpl. by intros [= <-].
  - intros Hss. destruct (decide (curr ss = next ss)) as [| Hne]; [done |].
    exfalso. apply Hin, elem_of_elements. by apply (Hp index ss).
Qed.

Lemma slots_listed_commit sim :
  slots_listed (sim_state sim) → slots_listed (sim_state (commit sim).2).
Proof.
  intros Hl index ss. rewrite commit_state. simpl. rewrite commit_all_lookup.
  case_decide.
  - destruct (slots (sim_state sim) !! index) as [ss0 |] eqn:Hss0; [| done].
    intros _. by apply (Hl index ss0).
  - apply Hl.
Qed.

Lemma wake_deadline_fold (sim : @Simulator G) (l : list nat) :
  ∃ ds,
    sim_state (foldl wake_deadline sim l) = with_deadlines (λ _, ds) (sim_state sim).
Proof.
  revert sim. induction l as [| p l IH]; intros sim; cbn [foldl].
  - exists (deadlines (sim_state sim)). by destruct (sim_state sim).
  - destruct (IH (wake_deadline sim p)) as (ds & ->). by exists ds.
Qed.

Lemma advance_state sim :
  ∃ t ds,
    sim_state (advance sim).2
    = with_timestamp t (with_deadlines (λ _, ds) (sim_state sim)).
Proof.
  unfold advance.
  destruct (nearest _ _ _ _) as [[np nd] | e]; simpl.
  - case_decide; simpl.
    + exists (timestamp (sim_state sim)), (deadlines (sim_state sim)).
      by destruct (sim_state sim).
    + destruct (wake_deadline_fold sim (elements np)) as (ds & ->).
      by eexists _, ds.
  - exists (timestamp (sim_state sim)), (deadlines (sim_state sim)).
    by destruct (sim_state sim).
Qed.

End Store.

(** ** Emitted code writes the store through [set] only *)

Lemma Value_ind_nested (P : Value → Prop) :
  (∀ c, P (Const c)) →
  (∀ s, P (VSignal s)) →
  (∀ operator operands, Forall P operands → P (Operator operator operands)) →
  (∀ v start stop, P v → P (Slice v start stop)) →
  (∀ v offset part_width stride, P v → P offset → P (Part v offset part_width stride)) →
  (∀ parts, Forall P parts → P (Cat parts)) →
  (∀ v count, P v → P (Repl v count)) →
  (∀ elems index, Forall P elems → P index → P (ArrayProxy elems index)) →
  P ClockSignal → P ResetSignal → P AnyConst → P AnySeq → P Sample → P Initial →
  ∀ v, P v.
Proof.
  intros HConst HSignal HOperator HSlice HPart HCat HRepl HArray ? ? ? ? ? ?.
  fix IH 1. intros [c | s | operator operands | v start stop | v offset w stride
                   | parts | v count | elems index | | | | | |]; try assumption.
  - apply HConst.
  - apply HSignal.
  - apply HOperator. induction operands as [| x l IHl]; constructor; [apply IH | apply IHl].
  - apply HSlice, IH.
  - apply HPart; apply IH.
  - apply HCat. induction parts as [| x l IHl]; constructor; [apply IH | apply IHl].
  - apply HRepl, IH.
  - apply HArray; [| apply IH].
    induction elems as [| x l IHl]; constructor; [apply IH | apply IHl].
Qed.

Lemma Statement_ind_nested (P : Statement → Prop) :
  (∀ l r, P (Assign l r)) →
  (∀ test cases, Forall (λ case, Forall P case.2) cases → P (Switch test cases)) →
  P Assert → P Assume → P Cover →
  ∀ s, P s.
Proof.
  intros HAssign HSwitch ? ? ?.
  fix IH 1. intros [l r | test cases | | |]; try assumption.
  - apply HAssign.
  - apply HSwitch. induction cases as [| [patterns stmts] cases IHc]; constructor; [| apply IHc].
    simpl. induction stmts as [| s stmts IHs]; constructor; [apply IH | apply IHs].
Qed.

Lemma writes_by_set_pass : writes_by_set c_pass.
Proof. intros env. apply rtc_refl. Qed.

Lemma writes_by_set_assign x e : writes_by_set (c_assign x e).
Proof. intros env. unfold c_assign. destruct (e env); apply rtc_refl. Qed.

Lemma writes_by_set_set index : writes_by_set (c_set index).
Proof.
  intros env. unfold c_set. destruct (env_slots env !! index); [| apply rtc_refl].
  destruct (e_var _ env); [| apply rtc_refl].
  apply rtc_once. by eexists _, _.
Qed.

Lemma writes_by_set_seq a b :
  writes_by_set a → writes_by_set b → writes_by_set (c_seq a b).
Proof.
  intros Ha Hb env. unfold c_seq, mbind, se_bind.
  specialize (Ha env). destruct (a env) as [[[] | e] env1]; simpl in *; [| done].
  etrans; [exact Ha | apply Hb].
Qed.

Lemma writes_by_set_if branches orelse :
  Forall (λ b, writes_by_set b.2) branches →
  writes_by_set orelse →
  writes_by_set (c_if branches orelse).
Proof.
  intros Hb Ho. induction Hb as [| [cond body] branches Hbody _ IH]; [done |].
  intros env. simpl. destruct (cond env) as [x | e]; [| apply rtc_refl].
  destruct (truthy x); [apply Hbody | apply IH].
Qed.

Lemma writes_by_set_index_branches gen_index bodies :
  Forall writes_by_set bodies →
  Forall (λ b, writes_by_set b.2) (index_branches gen_index bodies).
Proof.
  intros Hb. apply Forall_lookup. intros i [cond body].
  unfold index_branches. rewrite list_lookup_imap.
  destruct (bodies !! i) as [b |] eqn:Hi; [| done]. simpl. intros [= <- <-].
  by eapply (Forall_lookup_1 _ _ _ _ Hb).
Qed.

Lemma writes_by_set_last bodies :
  Forall writes_by_set bodies → writes_by_set (List.last bodies c_pass).
Proof.
  intros Hb. induction Hb as [| b bodies Hb0 Hbs IH]; [apply writes_by_set_pass |].
  simpl. destruct bodies; [done | apply IH].
Qed.

Lemma sets_only_store_ok st st' : sets_only st st' → store_ok st → store_ok st'.
Proof.
  induction 1 as [| st st1 st2 (index & value & ->) _ IH]; [done |].
  intros [Hl Hp]. apply IH.
  split; [by apply slots_listed_slot_set | by apply changes_pending_slot_set].
Qed.

Lemma keeps_ret {S A} (I : S → Prop) (Q : A → Prop) a : Q a → keeps I Q (mret a).
Proof. intros Ha c Hc. split; [done |]. by intros ? [= <-]. Qed.

Lemma keeps_raise {S A} (I : S → Prop) (Q : A → Prop) e : keeps I Q (se_raise e).
Proof. intros c Hc. split; [done |]. by intros ?. Qed.

Lemma keeps_lift {S A} (I : S → Prop) (Q : A → Prop) (r : Res A) :
  (∀ a, r = Ok a → Q a) → keeps I Q (se_lift r).
Proof. intros Hr c Hc. split; [done |]. simpl. exact Hr. Qed.

Lemma keeps_bind {S A B} (I : S → Prop) (Q1 : A → Prop) (Q2 : B → Prop)
    (m : SE S A) (k : A → SE S B) :
  keeps I Q1 m → (∀ a, Q1 a → keeps I Q2 (k a)) → keeps I Q2 (m ≫= k).
Proof.
  intros Hm Hk c Hc. unfold mbind, se_bind.
  destruct (Hm c Hc) as [Hc1 Ha]. destruct (m c) as [[a | e] c1]; simpl in *.
  - by apply Hk; [apply Ha |].
  - split; [done |]. by intros ?.
Qed.

Lemma append_ok code : writes_by_set code → keeps compiler_ok anything (append code).
Proof.
  intros Hcode c [Hst Hbuf]. split; [| done].
  split; [done |]. simpl. by apply writes_by_set_seq.
Qed.

Lemma gen_var_ok : keeps compiler_ok anything gen_var.
Proof. intros c [Hst Hbuf]. split; [| done]. by split. Qed.

Lemma def_var_ok e : keeps compiler_ok anything (def_var e).
Proof.
  unfold def_var. eapply keeps_bind; [apply gen_var_ok |]. intros name _.
  eapply keeps_bind; [apply append_ok, writes_by_set_assign |]. intros _ _.
  by apply keeps_ret.
Qed.

Lemma c_get_signal_ok s : keeps compiler_ok anything (c_get_signal s).
Proof.
  intros c [[Hl Hp] Hbuf]. rewrite c_get_signal_eq. split; [| done].
  split; [| done]. simpl.
  split; [by apply slots_listed_get_signal | by apply changes_pending_get_signal].
Qed.

Lemma indent_ok {A} (Q : A → Prop) (m : CM A) :
  keeps compiler_ok Q m → keeps (A := A * Code) compiler_ok (λ r, Q r.1 ∧ writes_by_set r.2) (indent m).
Proof.
  intros Hm c [Hst Hbuf]. unfold indent.
  destruct (Hm {| state := state c;
                  emitter := {| buffer := c_pass; suffix := suffix (emitter c) |} |})
    as [[Hst' Hbuf'] Ha].
  { split; [done | apply writes_by_set_pass]. }
  destruct (m _) as [[a | e] c']; simpl in *.
  - split; [by split |]. intros r [= <-]. simpl. split; [by apply Ha | done].
  - split; [by split |]. by intros ?.
Qed.

Ltac okc_bind := eapply keeps_bind; [| intros ? ?].

Section CompilerInvariants.
Variable shape : Value → Shape.
Variable lhs_signals : Statement → list Signal.

Section Operator.
Variable self : Value → CM Expr.

Lemma op_mask_okc v : keeps compiler_ok anything (self v) → keeps compiler_ok anything (op_mask shape self v).
Proof. intros Hv. unfold op_mask. okc_bind; [exact Hv |]. by apply keeps_ret. Qed.

Lemma op_sign_okc v : keeps compiler_ok anything (self v) → keeps compiler_ok anything (op_sign shape self v).
Proof.
  intros Hv. unfold op_sign. destruct (signed (shape v)); [| by apply op_mask_okc].
  okc_bind; [by apply op_mask_okc |].
  okc_bind; [by apply (keeps_lift _ anything) |]. by apply keeps_ret.
Qed.

Lemma op_signed2_okc f vl vr :
  keeps compiler_ok anything (self vl) → keeps compiler_ok anything (self vr) → keeps compiler_ok anything (op_signed2 shape self f vl vr).
Proof.
  intros Hl Hr. unfold op_signed2.
  okc_bind; [by apply op_sign_okc |]. okc_bind; [by apply op_sign_okc |].
  by apply keeps_ret.
Qed.

Lemma op_raw2_okc f vl vr :
  keeps compiler_ok anything (self vl) → keeps compiler_ok anything (self vr) → keeps compiler_ok anything (op_raw2 self f vl vr).
Proof.
  intros Hl Hr. unfold op_raw2.
  okc_bind; [done |]. okc_bind; [done |]. by apply keeps_ret.
Qed.

Lemma on_Operator_okc operator operands :
  Forall (λ v, keeps compiler_ok anything (self v)) operands →
  keeps compiler_ok anything (on_Operator shape self operator operands).
Proof.
  intros Hops. unfold on_Operator.
  destruct Hops as [| a ? Ha [| b ? Hb [| c ? Hc [| d ? Hd ?]]]];
    try apply keeps_raise.
  - repeat (match goal with |- keeps compiler_ok _ (if ?b then _ else _) => destruct b end);
      try apply keeps_raise; try done;
      (okc_bind; [first [done | by apply op_mask_okc] |]; by apply keeps_ret).
  - repeat (match goal with |- keeps compiler_ok _ (if ?b then _ else _) => destruct b end);
      try apply keeps_raise;
      first [by apply op_signed2_okc | by apply op_raw2_okc].
  - destruct (_ =? _)%string; [| apply keeps_raise].
    okc_bind; [done |]. okc_bind; [done |]. okc_bind; [done |]. by apply keeps_ret.
Qed.
End Operator.

Lemma rhs_cat_parts_okc self parts offset :
  Forall (λ v, keeps compiler_ok anything (self v)) parts →
  keeps compiler_ok anything (rhs_cat_parts shape self parts offset).
Proof.
  intros Hparts. revert offset.
  induction Hparts as [| part parts Hpart _ IH]; intros offset; simpl.
  - by apply keeps_ret.
  - okc_bind; [exact Hpart |]. okc_bind; [apply IH |]. by apply keeps_ret.
Qed.

Lemma rhs_proxy_elems_okc self gen_value elems :
  Forall (λ v, keeps compiler_ok anything (self v)) elems →
  keeps compiler_ok (Forall writes_by_set) (rhs_proxy_elems self gen_value elems).
Proof.
  induction 1 as [| elem elems Helem _ IH]; simpl.
  - by apply keeps_ret.
  - eapply keeps_bind.
    { apply (indent_ok anything).
      okc_bind; [exact Helem |]. apply append_ok, writes_by_set_assign. }
    intros [[] body] [_ Hbody]. okc_bind; [exact IH |]. simpl in *.
    apply keeps_ret. by constructor.
Qed.

Lemma rhs_okc mode v : keeps compiler_ok anything (rhs shape mode v).
Proof.
  induction v as [c | s | operator operands IH | v start stop IH
                 | v offset w stride IHv IHo | parts IH | v count IH
                 | elems index IHe IHi | | | | | |] using Value_ind_nested;
    cbn [rhs]; try apply keeps_raise.
  - by apply keeps_ret.
  - okc_bind; [apply c_get_signal_ok |]. by apply keeps_ret.
  - by apply on_Operator_okc.
  - okc_bind; [exact IH |]. by apply keeps_ret.
  - okc_bind; [exact IHo |]. okc_bind; [exact IHv |]. by apply keeps_ret.
  - okc_bind; [by apply rhs_cat_parts_okc |]. by apply keeps_ret.
  - okc_bind; [exact IH |]. okc_bind; [apply def_var_ok |]. by apply keeps_ret.
  - okc_bind; [exact IHi |]. okc_bind; [apply def_var_ok |].
    okc_bind; [apply gen_var_ok |].
    destruct elems as [| elem elems]; [by apply keeps_ret |].
    eapply keeps_bind; [by apply rhs_proxy_elems_okc |].
    intros bodies Hbodies. okc_bind; [| by apply keeps_ret].
    apply append_ok, writes_by_set_if;
      [by apply writes_by_set_index_branches | by apply writes_by_set_last].
Qed.

Lemma lhs_cat_parts_okc self gen_arg parts offset :
  Forall (λ v, ∀ gen, self v = Ok gen → gen_ok gen) parts →
  keeps compiler_ok anything (lhs_cat_parts shape self gen_arg parts offset).
Proof.
  intros Hparts. revert offset.
  induction Hparts as [| part parts Hpart _ IH]; intros offset; simpl.
  - by apply keeps_ret.
  - eapply keeps_bind; [apply (keeps_lift _ gen_ok), Hpart |].
    intros gen Hgen. okc_bind; [apply Hgen |]. apply IH.
Qed.

Lemma lhs_proxy_elems_okc self arg elems :
  Forall (λ v, ∀ gen, self v = Ok gen → gen_ok gen) elems →
  keeps compiler_ok (Forall writes_by_set) (lhs_proxy_elems self arg elems).
Proof.
  induction 1 as [| elem elems Helem _ IH]; simpl.
  - by apply keeps_ret.
  - eapply keeps_bind.
    { apply (indent_ok anything).
      eapply keeps_bind; [apply (keeps_lift _ gen_ok), Helem |].
      intros gen Hgen. apply Hgen. }
    intros [[] body] [_ Hbody]. okc_bind; [exact IH |]. simpl in *.
    apply keeps_ret. by constructor.
Qed.

Lemma lhs_okc v gen : lhs shape v = Ok gen → gen_ok gen.
Proof.
  revert gen.
  induction v as [c | s | operator operands IH | v start stop IH
                 | v offset w stride IHv IHo | parts IH | v count IH
                 | elems index IHe IHi | | | | | |] using Value_ind_nested;
    cbn [lhs]; intros gen; try done; intros [= <-] arg.
  - okc_bind.
    + destruct (signed _); [| by apply (keeps_ret _ anything)].
      okc_bind; [by apply (keeps_lift _ anything) |]. by apply (keeps_ret _ anything).
    + okc_bind; [apply c_get_signal_ok |]. apply append_ok, writes_by_set_assign.
  - okc_bind; [by apply (keeps_lift _ anything) |].
    eapply keeps_bind; [apply (keeps_lift _ gen_ok), IH |]. intros gen_v Hgen.
    okc_bind; [apply rhs_okc |]. apply Hgen.
  - okc_bind; [apply rhs_okc |].
    eapply keeps_bind; [apply (keeps_lift _ gen_ok), IHv |]. intros gen_v Hgen.
    okc_bind; [apply rhs_okc |]. apply Hgen.
  - okc_bind; [apply def_var_ok |]. by apply lhs_cat_parts_okc.
  - okc_bind; [apply rhs_okc |]. okc_bind; [apply def_var_ok |].
    destruct elems as [| elem elems]; [apply append_ok, writes_by_set_pass |].
    eapply keeps_bind; [by apply lhs_proxy_elems_okc |].
    intros bodies Hbodies.
    apply append_ok, writes_by_set_if;
      [by apply writes_by_set_index_branches | by apply writes_by_set_last].
Qed.

Lemma on_statements_okc self stmts :
  Forall (λ s, keeps compiler_ok anything (self s)) stmts →
  keeps compiler_ok anything (on_statements_with self stmts).
Proof.
  induction 1 as [| s stmts Hs _ IH]; simpl.
  - by apply keeps_ret.
  - okc_bind; [exact Hs | exact IH].
Qed.

Lemma switch_cases_okc self gen_test cases :
  Forall (λ case, Forall (λ s, keeps compiler_ok anything (self s)) case.2) cases →
  keeps compiler_ok (Forall (λ b, writes_by_set b.2)) (switch_cases self gen_test cases).
Proof.
  induction 1 as [| [patterns stmts] cases Hcase _ IH]; simpl.
  - by apply keeps_ret.
  - okc_bind; [by apply (keeps_lift _ anything) |].
    eapply keeps_bind; [apply (indent_ok anything), on_statements_okc, Hcase |].
    intros [[] body] [_ Hbody]. okc_bind; [exact IH |]. simpl in *.
    apply keeps_ret. by constructor.
Qed.

Lemma stmt_okc s : keeps compiler_ok anything (stmt shape s).
Proof.
  induction s as [l r | test cases IH | | |] using Statement_ind_nested;
    cbn [stmt]; try apply keeps_raise.
  - eapply keeps_bind; [apply (keeps_lift _ gen_ok), lhs_okc |]. intros gen Hgen.
    okc_bind; [apply rhs_okc |]. apply Hgen.
  - okc_bind; [apply rhs_okc |]. okc_bind; [apply def_var_ok |].
    eapply keeps_bind; [by apply switch_cases_okc |].
    intros branches Hbranches.
    by apply append_ok, writes_by_set_if; [| apply writes_by_set_pass].
Qed.

End CompilerInvariants.

(** ** Runs of processes *)

Section Reach.
Variable shape : Value → Shape.
Variable lhs_signals : Statement → list Signal.
Variable normalize : Z → Shape → Z.
Context {G : Type}.
Variable resume : G → Resume → Outcome G.
Implicit Types (sim : @Simulator G).

Lemma new_compiler_ok st : store_ok st → compiler_ok {| state := st; emitter := new_emitter |}.
Proof. intros Hst. split; [done | apply writes_by_set_pass]. Qed.

Lemma rhs_compile_ok mode v : keeps store_ok writes_by_set (rhs_compile shape mode v).
Proof.
  intros st Hst. unfold rhs_compile.
  assert (Hm : keeps compiler_ok anything
                 (e ← rhs shape mode v; append (c_assign ResultVar e))).
  { okc_bind; [apply rhs_okc |]. apply append_ok, writes_by_set_assign. }
  destruct (Hm _ (new_compiler_ok st Hst)) as [[Hst' Hbuf] _].
  destruct (_ ≫= _) as [[[] | e] c]; simpl in *.
  - split; [done |]. by intros code [= <-].
  - split; [done |]. by intros ?.
Qed.

Lemma store_ok_get_signal s st : store_ok st → store_ok (get_signal s st).2.
Proof.
  intros [Hl Hp].
  split; [by apply slots_listed_get_signal | by apply changes_pending_get_signal].
Qed.

Lemma get_signals_ok l : keeps store_ok anything (get_signals l).
Proof.
  induction l as [| s l IH]; simpl.
  - by apply keeps_ret.
  - apply (keeps_bind _ anything); [| intros ? ?].
    + intros st Hst. unfold se_do.
      pose proof (store_ok_get_signal s st Hst) as Hst'.
      destruct (get_signal s st) as [i st']. simpl in *. split; [exact Hst' | done].
    + okc_bind; [exact IH |]. by apply keeps_ret.
Qed.

Lemma append_all_ok f indexes :
  (∀ i, writes_by_set (f i)) → keeps compiler_ok anything (append_all f indexes).
Proof.
  intros Hf. induction indexes as [| i indexes IH]; simpl.
  - by apply keeps_ret.
  - okc_bind; [apply append_ok, Hf | exact IH].
Qed.

Lemma stmt_compile_ok s : keeps store_ok writes_by_set (stmt_compile shape lhs_signals s).
Proof.
  intros st Hst. unfold stmt_compile.
  destruct (get_signals_ok (lhs_signals s) st Hst) as [Hst1 _].
  destruct (get_signals (lhs_signals s) st) as [[output_indexes | e] st1]; simpl in *;
    [| split; [done | by intros ?]].
  assert (Hm : keeps compiler_ok anything
                 (_ ← append_all (λ i, c_assign (NextVar i) (e_slot_next i)) output_indexes;
                  _ ← stmt shape s;
                  append_all c_set output_indexes)).
  { okc_bind; [apply append_all_ok; intros i; apply writes_by_set_assign |].
    okc_bind; [apply stmt_okc |].
    apply append_all_ok. intros i. apply writes_by_set_set. }
  destruct (Hm _ (new_compiler_ok st1 Hst1)) as [[Hst' Hbuf] _].
  destruct (_ ≫= _) as [[[] | e] c]; simpl in *.
  - split; [done |]. by intros code [= <-].
  - split; [done |]. by intros ?.
Qed.

Lemma on_state_ok {A} (Q : A → Prop) (m : SE SimulatorState A) :
  keeps store_ok Q m → keeps sim_ok Q (on_state (G := G) m).
Proof.
  intros Hm sim Hsim. unfold on_state. destruct (Hm _ Hsim) as [Hst HQ].
  by destruct (m (sim_state sim)).
Qed.

Lemma exec_ok pid code : writes_by_set code → keeps sim_ok anything (exec (G := G) pid code).
Proof.
  intros Hcode sim Hsim. unfold exec.
  specialize (Hcode {| env_state := sim_state sim; env_locals := get_exec_locals pid sim |}).
  destruct (code _) as [r env]. simpl in *. split; [| done].
  by apply (sets_only_store_ok _ _ Hcode).
Qed.

Lemma store_ok_set_waiters st index ss ws :
  store_ok st → slots st !! index = Some ss →
  store_ok (with_slots (λ l, <[index := set_waiters ws ss]> l) st).
Proof.
  intros [Hl Hp] Hss. split; intros j ss'; simpl; rewrite list_lookup_insert;
    case_decide as Hj.
  - destruct Hj as [<- _]. intros _. by apply (Hl index ss).
  - apply Hl.
  - destruct Hj as [<- _]. intros [= <-]. by apply (Hp index ss).
  - apply Hp.
Qed.

Lemma get_in_signal_ok pid s trigger :
  keeps sim_ok anything (get_in_signal (G := G) pid s trigger).
Proof.
  intros sim Hsim. unfold get_in_signal.
  pose proof (store_ok_get_signal s _ Hsim) as Hst.
  destruct (get_signal s (sim_state sim)) as [index st]. simpl in Hst.
  destruct (slots st !! index) as [ss |] eqn:Hss; [| by split].
  destruct (dict_get pid (waiters ss)); [by split |].
  split; [| done]. by apply store_ok_set_waiters.
Qed.

Lemma stop_waiting_ok pid : keeps sim_ok anything (stop_waiting (G := G) pid).
Proof.
  intros sim Hsim. unfold stop_waiting.
  assert (Hfold : ∀ l (acc : Res unit * @Simulator G),
            sim_ok acc.2 → sim_ok (foldl (stop_waiting_on pid) acc l).2).
  { induction l as [| index l IH]; intros acc Hacc; cbn [foldl]; [done |].
    apply IH. unfold stop_waiting_on. destruct acc as [[[] | e] sim0]; [| done].
    simpl in Hacc. destruct (slots (sim_state sim0) !! index) as [ss |] eqn:Hss; [| done].
    destruct (dict_get pid (waiters ss)); [| done].
    by apply store_ok_set_waiters. }
  specialize (Hfold (elements (get_waits_on pid sim)) (Ok (), sim) Hsim).
  by destruct (foldl _ _ _) as [[[] | e] sim0].
Qed.

Lemma dispatch_ok pid command :
  keeps sim_ok anything (dispatch (G := G) shape lhs_signals normalize pid command).
Proof.
  unfold dispatch. destruct command as [[v | s | d | | interval | | |] |];
    try (by apply keeps_raise); try (intros sim Hsim; by split).
  - eapply keeps_bind; [apply on_state_ok, rhs_compile_ok |]. intros code Hcode.
    okc_bind; [by apply exec_ok |].
    intros sim Hsim. unfold se_do. by destruct (_ !! ResultVar).
  - eapply keeps_bind; [apply on_state_ok, stmt_compile_ok |]. intros code Hcode.
    okc_bind; [by apply exec_ok |]. by apply keeps_ret.
  - apply (keeps_bind _ anything); [| intros ? ?].
    { intros sim Hsim. unfold se_do. destruct d; [| by split].
      by destruct (_ !! name). }
    okc_bind; [apply get_in_signal_ok |].
    okc_bind; [| by apply keeps_ret].
    destruct (rst a); [| by apply (keeps_ret _ anything)].
    destruct (async_reset a); [apply get_in_signal_ok | by apply (keeps_ret _ anything)].
Qed.

Lemma coroutine_resume_state pid r sim :
  sim_state (coroutine_resume resume pid r sim).2 = sim_state sim.
Proof.
  unfold coroutine_resume. destruct (get_coroutine pid sim); [| done].
  by destruct (gen_resume resume g r).
Qed.

Lemma run_loop_ok fuel pid response sim r sim' :
  sim_ok sim →
  run_loop shape lhs_signals normalize resume fuel pid response sim = Some (r, sim') →
  sim_ok sim'.
Proof.
  revert response sim. induction fuel as [| fuel IH]; intros response sim Hsim; [done |].
  cbn [run_loop].
  assert (Hhandler : ∀ exn sim0,
            sim_ok sim0 →
            match coroutine_resume resume pid (Throw exn) sim0 with
            | (Yields _, sim1) =>
                run_loop shape lhs_signals normalize resume fuel pid None sim1
            | (RaisesStopIteration, sim1) => Some (Raise StopIterationExn, sim1)
            | (RaisesExn e, sim1) => Some (Raise e, sim1)
            end = Some (r, sim') →
            sim_ok sim').
  { intros exn sim0 H0.
    pose proof (coroutine_resume_state pid (Throw exn) sim0) as H1.
    destruct (coroutine_resume resume pid (Throw exn) sim0) as [[c | | e] sim1];
      simpl in H1.
    - apply IH. unfold sim_ok. by rewrite H1.
    - intros [= <- <-]. unfold sim_ok. by rewrite H1.
    - intros [= <- <-]. unfold sim_ok. by rewrite H1. }
  pose proof (coroutine_resume_state pid (Send response) sim) as H1.
  destruct (coroutine_resume resume pid (Send response) sim) as [[c | | e] sim1];
    simpl in H1.
  - assert (Hsim1 : sim_ok sim1) by (unfold sim_ok; by rewrite H1).
    match goal with
    | |- context [dispatch _ _ _ pid ?cmd sim1] =>
        destruct (dispatch_ok pid cmd sim1 Hsim1) as [H2 _];
        destruct (dispatch shape lhs_signals normalize pid cmd sim1)
          as [[[response' |] | exn] sim2]
    end; simpl in H2.
    + by apply IH.
    + by intros [= <- <-].
    + by apply Hhandler.
  - intros [= <- <-]. unfold sim_ok. simpl. by rewrite H1.
  - apply Hhandler. unfold sim_ok. by rewrite H1.
Qed.

Lemma process_run_ok fuel pid sim r sim' :
  sim_ok sim → emitted_processes sim →
  process_run shape lhs_signals normalize resume fuel pid sim = Some (r, sim') →
  sim_ok sim'.
Proof.
  intros Hsim Hem. unfold process_run.
  destruct (sim_processes sim !! pid) as [p |] eqn:Hp; simpl; [| by intros [= <- <-]].
  destruct (kind p) as [comb run | c d co lo w] eqn:Hk.
  - unfold compiled_run.
    assert (Hcode : attrs compiled_code sim !! pid = Some (Some (comb, run))).
    { unfold attrs. rewrite list_lookup_fmap, Hp. simpl. unfold compiled_code.
      by rewrite Hk. }
    pose proof (Hem pid comb run Hcode
                  {| env_state := sim_state sim; env_locals := ∅ |}) as Hrun.
    destruct (run _) as [r0 env]. intros [= <- <-]. simpl in *.
    by apply (sets_only_store_ok _ _ Hrun).
  - unfold coroutine_run. destruct (get_coroutine pid sim); [| by intros [= <- <-]].
    destruct (stop_waiting_ok pid sim Hsim) as [H1 _].
    destruct (stop_waiting pid sim) as [[[] | e] sim1]; simpl in H1.
    + by apply run_loop_ok.
    + by intros [= <- <-].
Qed.


(** *** Attributes of processes that a run leaves alone *)

Section Attributes.
Context {X : Type} (f : @Process G → X).
Hypothesis f_set_coroutine : ∀ c p, f (set_coroutine c p) = f p.
Hypothesis f_set_exec_locals : ∀ lo p, f (set_exec_locals lo p) = f p.
Hypothesis f_set_waits_on : ∀ w p, f (set_waits_on w p) = f p.
Hypothesis f_set_passive : ∀ b p, f (set_passive b p) = f p.

Lemma attrs_update_process pid upd sim :
  (∀ p, f (upd p) = f p) →
  attrs f (update_process pid upd sim) = attrs f sim.
Proof.
  intros Hf. unfold attrs, update_process, with_processes. simpl.
  apply list_eq. intros j. rewrite !list_lookup_fmap, list_lookup_alter.
  case_decide as Hj; [subst j |]; [| done].
  destruct (sim_processes sim !! pid); simpl; [| done]. by rewrite Hf.
Qed.

Lemma keeps_attrs_bind {A B} (m : SE (@Simulator G) A) (k : A → SE (@Simulator G) B) :
  keeps_attrs f m → (∀ a, keeps_attrs f (k a)) → keeps_attrs f (m ≫= k).
Proof.
  intros Hm Hk sim. unfold mbind, se_bind.
  specialize (Hm sim). destruct (m sim) as [[a | e] sim1]; simpl in *.
  - by rewrite Hk.
  - done.
Qed.

Lemma keeps_attrs_ret {A} (a : A) : keeps_attrs f (mret a).
Proof. done. Qed.

Lemma keeps_attrs_raise {A} e : keeps_attrs f (se_raise (A := A) e).
Proof. done. Qed.

Lemma keeps_attrs_on_state {A} (m : SE SimulatorState A) : keeps_attrs f (on_state m).
Proof. intros sim. unfold on_state. by destruct (m (sim_state sim)). Qed.

Lemma keeps_attrs_exec pid code : keeps_attrs f (exec pid code).
Proof.
  intros sim. unfold exec. destruct (code _) as [r env]. simpl.
  rewrite attrs_update_process; [done | apply f_set_exec_locals].
Qed.

Lemma keeps_attrs_get_in_signal pid s trigger :
  keeps_attrs f (get_in_signal pid s trigger).
Proof.
  intros sim. unfold get_in_signal.
  destruct (get_signal s (sim_state sim)) as [index st].
  destruct (slots st !! index) as [ss |]; [| done].
  destruct (dict_get pid (waiters ss)); [done |]. simpl.
  rewrite attrs_update_process; [done | apply f_set_waits_on].
Qed.

Lemma keeps_attrs_dispatch pid command :
  keeps_attrs f (dispatch shape lhs_signals normalize pid command).
Proof.
  unfold dispatch. destruct command as [[v | s | d | | interval | | |] |].
  - apply keeps_attrs_bind; [apply keeps_attrs_on_state |]. intros code.
    apply keeps_attrs_bind; [apply keeps_attrs_exec |]. intros _.
    intros sim. unfold se_do. by destruct (_ !! ResultVar).
  - apply keeps_attrs_bind; [apply keeps_attrs_on_state |]. intros code.
    apply keeps_attrs_bind; [apply keeps_attrs_exec |]. intros _.
    apply keeps_attrs_ret.
  - apply keeps_attrs_bind.
    { intros sim. unfold se_do. destruct d; [| done]. by destruct (_ !! name). }
    intros dom.
    apply keeps_attrs_bind; [apply keeps_attrs_get_in_signal |]. intros _.
    apply keeps_attrs_bind; [| intros _; apply keeps_attrs_ret].
    destruct (rst dom); [| apply keeps_attrs_ret].
    destruct (async_reset dom); [apply keeps_attrs_get_in_signal | apply keeps_attrs_ret].
  - done.
  - done.
  - intros sim. simpl. apply attrs_update_process, f_set_passive.
  - intros sim. simpl. apply attrs_update_process, f_set_passive.
  - done.
  - done.
Qed.

Lemma attrs_coroutine_resume pid r sim :
  attrs f (coroutine_resume resume pid r sim).2 = attrs f sim.
Proof.
  unfold coroutine_resume. destruct (get_coroutine pid sim); [| done].
  destruct (gen_resume resume g r). simpl.
  apply attrs_update_process, f_set_coroutine.
Qed.

Lemma attrs_run_loop fuel pid response sim r sim' :
  run_loop shape lhs_signals normalize resume fuel pid response sim = Some (r, sim') →
  attrs f sim' = attrs f sim.
Proof.
  revert response sim. induction fuel as [| fuel IH]; intros response sim; [done |].
  cbn [run_loop].
  assert (Hhandler : ∀ exn sim0,
            attrs f sim0 = attrs f sim →
            match coroutine_resume resume pid (Throw exn) sim0 with
            | (Yields _, sim1) =>
                run_loop shape lhs_signals normalize resume fuel pid None sim1
            | (RaisesStopIteration, sim1) => Some (Raise StopIterationExn, sim1)
            | (RaisesExn e, sim1) => Some (Raise e, sim1)
            end = Some (r, sim') →
            attrs f sim' = attrs f sim).
  { intros exn sim0 H0.
    pose proof (attrs_coroutine_resume pid (Throw exn) sim0) as H1.
    destruct (coroutine_resume resume pid (Throw exn) sim0) as [[c | | e] sim1];
      simpl in H1.
    - intros H%IH. congruence.
    - intros [= <- <-]. congruence.
    - intros [= <- <-]. congruence. }
  pose proof (attrs_coroutine_resume pid (Send response) sim) as H1.
  destruct (coroutine_resume resume pid (Send response) sim) as [[c | | e] sim1];
    simpl in H1.
  - match goal with
    | |- context [dispatch _ _ _ pid ?cmd sim1] =>
        pose proof (keeps_attrs_dispatch pid cmd sim1) as H2;
        destruct (dispatch shape lhs_signals normalize pid cmd sim1)
          as [[[response' |] | exn] sim2]
    end; simpl in H2.
    + intros H%IH. congruence.
    + intros [= <- <-]. congruence.
    + apply Hhandler. congruence.
  - intros [= <- <-]. rewrite attrs_update_process; [done |].
    intros p. by rewrite f_set_coroutine, f_set_passive.
  - apply Hhandler. congruence.
Qed.

Lemma attrs_stop_waiting pid sim : attrs f (stop_waiting pid sim).2 = attrs f sim.
Proof.
  unfold stop_waiting.
  assert (Hfold : ∀ l (acc : Res unit * @Simulator G),
            attrs f (foldl (stop_waiting_on pid) acc l).2 = attrs f acc.2).
  { induction l as [| index l IH]; intros acc; cbn [foldl]; [done |].
    rewrite IH. unfold stop_waiting_on. destruct acc as [[[] | e] sim0]; [| done].
    simpl. destruct (slots (sim_state sim0) !! index) as [ss |]; [| done].
    by destruct (dict_get pid (waiters ss)). }
  specialize (Hfold (elements (get_waits_on pid sim)) (Ok (), sim)).
  destruct (foldl _ _ _) as [[[] | e] sim0]; simpl in *; [| done].
  rewrite attrs_update_process; [done | apply f_set_waits_on].
Qed.

(** Running a process changes no such attribute. *)
Lemma attrs_process_run fuel pid sim r sim' :
  process_run shape lhs_signals normalize resume fuel pid sim = Some (r, sim') →
  attrs f sim' = attrs f sim.
Proof.
  unfold process_run.
  destruct (kind <$> sim_processes sim !! pid) as [[comb run | c d co lo w] |].
  - unfold compiled_run. destruct (run _) as [r0 env]. by intros [= <- <-].
  - unfold coroutine_run. destruct (get_coroutine pid sim); [| by intros [= <- <-]].
    pose proof (attrs_stop_waiting pid sim) as H1.
    destruct (stop_waiting pid sim) as [[[] | e] sim1]; simpl in H1.
    + intros H%attrs_run_loop. congruence.
    + intros [= <- <-]. done.
  - by intros [= <- <-].
Qed.

End Attributes.

Lemma attrs_update_runnable {X} (f : @Process G → X) pid b sim :
  (∀ p, f (set_runnable b p) = f p) →
  attrs f (update_process pid (set_runnable b) sim) = attrs f sim.
Proof.
  intros Hf. unfold attrs, update_process, with_processes. simpl.
  apply list_eq. intros j. rewrite !list_lookup_fmap, list_lookup_alter.
  case_decide as Hj; [subst j |]; [| done].
  destruct (sim_processes sim !! pid); simpl; [| done]. by rewrite Hf.
Qed.

(** Running a process changes no [runnable] attribute. *)
Lemma flags_process_run fuel pid sim r sim' :
  process_run shape lhs_signals normalize resume fuel pid sim = Some (r, sim') →
  attrs runnable sim' = attrs runnable sim.
Proof.
  apply attrs_process_run.
  - intros c [ru pa []]; done.
  - intros lo [ru pa []]; done.
  - intros w [ru pa []]; done.
  - done.
Qed.

(** Running a process changes the code of no compiled process. *)
Lemma code_process_run fuel pid sim r sim' :
  process_run shape lhs_signals normalize resume fuel pid sim = Some (r, sim') →
  attrs compiled_code sim' = attrs compiled_code sim.
Proof.
  apply attrs_process_run.
  - intros c [ru pa []]; done.
  - intros lo [ru pa []]; done.
  - intros w [ru pa []]; done.
  - done.
Qed.

(** *** The delta cycle *)

Lemma runnable_flags sim pid :
  runnable <$> sim_processes sim !! pid = attrs runnable sim !! pid.
Proof. unfold attrs. by rewrite list_lookup_fmap. Qed.

Lemma filter_ext_elem {A} (P Q : A → Prop)
    `{∀ x, Decision (P x)} `{∀ x, Decision (Q x)} (l : list A) :
  (∀ x, x ∈ l → (P x ↔ Q x)) → filter P l = filter Q l.
Proof.
  induction l as [| x l IH]; intros Hiff; [done |].
  rewrite !filter_cons.
  rewrite IH by (intros y Hy; apply Hiff; by right).
  destruct (decide (P x)) as [HP | HP], (decide (Q x)) as [HQ | HQ]; try done;
    exfalso; apply (Hiff x (list_elem_of_here _ _)) in HP || apply (Hiff x (list_elem_of_here _ _)) in HQ; done.
Qed.

Lemma run_processes_each fuel pids sim :
  NoDup pids →
  run_processes shape lhs_signals normalize resume fuel pids sim
  = run_each shape lhs_signals normalize resume fuel
      (filter (λ pid, runnable <$> sim_processes sim !! pid = Some true) pids) sim.
Proof.
  intros Hnd. revert sim. induction Hnd as [| pid pids Hnotin Hnd IH]; intros sim.
  - done.
  - cbn [run_processes]. rewrite filter_cons.
    destruct (decide (runnable <$> sim_processes sim !! pid = Some true)) as [Hr | Hr].
    + rewrite Hr. cbn [run_each].
      destruct (process_run _ _ _ _ _ _ _) as [[[[] | e] sim1] |] eqn:Hrun; try done.
      rewrite IH. f_equal. apply filter_ext_elem. intros q Hq.
      rewrite !runnable_flags.
      rewrite (flags_process_run _ _ _ _ _ Hrun).
      rewrite <- !runnable_flags.
      unfold update_process, with_processes. simpl.
      rewrite list_lookup_alter_ne; [done |]. intros ->. done.
    + destruct (runnable <$> sim_processes sim !! pid) as [[] |]; [done | | ];
        apply IH.
Qed.

(** C2, amended: one delta cycle runs every process that is runnable at
    its start exactly once, clearing the process's runnable attribute just
    before running it, then commits the store; it returns true exactly when
    the commit woke a process, that is when some pending slot changed its
    current value and has a waiter with no trigger or with the new value as
    its trigger. *)
Theorem delta_spec fuel sim :
  run_processes shape lhs_signals normalize resume fuel
    (seq 0 (length (sim_processes sim))) sim
  = run_each shape lhs_signals normalize resume fuel (runnable_processes sim) sim ∧
  delta shape lhs_signals normalize resume fuel sim
  = match run_each shape lhs_signals normalize resume fuel (runnable_processes sim) sim with
    | Some (Ok _, sim1) => Some (Ok (commit sim1).1, (commit sim1).2)
    | Some (Raise e, sim1) => Some (Raise e, sim1)
    | None => None
    end ∧
  ∀ sim1,
    (commit sim1).1 = true ↔
    ∃ index ss,
      index ∈ pending (sim_state sim1) ∧
      slots (sim_state sim1) !! index = Some ss ∧ wakes ss.
Proof.
  assert (Hrun := run_processes_each fuel (seq 0 (length (sim_processes sim))) sim
                    (NoDup_seq _ _)).
  split; [exact Hrun |]. split.
  - unfold delta. rewrite Hrun. unfold runnable_processes.
    destruct (run_each _ _ _ _ _ _ _) as [[[[] | e] sim1] |]; try done.
    by destruct (commit sim1).
  - intros sim1. destruct (commit_spec sim1) as (procs & _ & Hiff). exact Hiff.
Qed.

(** *** Reachable states *)

(** The store invariants hold in every reachable state. *)
Lemma reachable_store_ok sim :
  reachable shape lhs_signals normalize resume sim → store_ok (sim_state sim).
Proof.
  induction 1 as [procs doms | sim s _ IH | sim index value _ [IHl IHp]
                 | sim index ws _ [IHl IHp] | sim f _ IH | sim f _ IH
                 | sim fuel pid r sim' _ IH Hem Hrun
                 | sim _ [IHl IHp] | sim _ IH | sim _ [IHl IHp]].
  - split; intros index ss; simpl; by rewrite lookup_nil.
  - by apply store_ok_get_signal.
  - split; [by apply slots_listed_slot_set | by apply changes_pending_slot_set].
  - split; intros j ss; simpl; rewrite list_lookup_alter; case_decide as Hj.
    + subst j. destruct (slots (sim_state sim) !! index) as [ss0 |] eqn:Hss0; [| done].
      intros _. by apply (IHl index ss0).
    + apply IHl.
    + subst j. destruct (slots (sim_state sim) !! index) as [ss0 |] eqn:Hss0; [| done].
      simpl. intros [= <-]. by apply (IHp index ss0).
    + apply IHp.
  - done.
  - done.
  - by apply (process_run_ok fuel pid sim r sim').
  - split; [by apply slots_listed_commit |].
    intros index ss Hss Hne. by apply commit_settled in Hss.
  - destruct (advance_state sim) as (t & ds & ->). done.
  - split; [by apply slots_listed_reset |].
    intros index ss Hss Hne. by apply state_reset_settled in Hss.
Qed.

Lemma emitted_processes_attrs sim sim' :
  attrs compiled_code sim' = attrs compiled_code sim →
  emitted_processes sim → emitted_processes sim'.
Proof. intros Heq Hem pid comb run. rewrite Heq. apply Hem. Qed.

(** The processes of a delta cycle run one after the other through
    reachable states. *)
Lemma run_each_reachable fuel pids sim r sim' :
  reachable shape lhs_signals normalize resume sim →
  emitted_processes sim →
  run_each shape lhs_signals normalize resume fuel pids sim = Some (r, sim') →
  reachable shape lhs_signals normalize resume sim' ∧ emitted_processes sim'.
Proof.
  revert sim. induction pids as [| pid pids IH]; intros sim Hreach Hem; cbn [run_each].
  - by intros [= <- <-].
  - assert (Hreach0 : reachable shape lhs_signals normalize resume
                        (update_process pid (set_runnable false) sim))
      by apply reach_processes, Hreach.
    assert (Hem0 : emitted_processes (update_process pid (set_runnable false) sim)).
    { apply (emitted_processes_attrs sim); [| exact Hem].
      by apply attrs_update_runnable. }
    destruct (process_run _ _ _ _ _ _ _) as [[[[] | e] sim1] |] eqn:Hrun; [| | done].
    + apply IH.
      * by eapply reach_run.
      * eapply emitted_processes_attrs; [| exact Hem0].
        by eapply code_process_run.
    + intros [= <- <-]. split.
      * by eapply reach_run.
      * eapply emitted_processes_attrs; [| exact Hem0].
        by eapply code_process_run.
Qed.

Lemma wakeup_attrs {X} (f : @Process G → X) ss procs :
  (∀ b p, f (set_runnable b p) = f p) →
  f <$> (wakeup ss procs).2 = f <$> procs.
Proof.
  intros Hf. unfold wakeup. generalize false. revert procs.
  induction (waiters ss) as [| [p t] ws IH]; intros procs b; simpl; [done |].
  destruct (triggered ss t); rewrite IH; [| done].
  apply list_eq. intros j. rewrite !list_lookup_fmap, list_lookup_alter.
  case_decide as Hj; [subst j |]; [| done].
  destruct (procs !! p); simpl; [| done]. by rewrite Hf.
Qed.

(** [commit] changes only the [runnable] attribute of processes. *)
Lemma commit_attrs {X} (f : @Process G → X) sim :
  (∀ b p, f (set_runnable b p) = f p) →
  attrs f (commit sim).2 = attrs f sim.
Proof.
  intros Hf. unfold commit, attrs.
  assert (H : ∀ l (acc : bool * list SignalState * list (@Process G)),
            f <$> (foldl commit_slot acc l).2 = f <$> acc.2).
  { induction l as [| index l IH]; intros acc; cbn [foldl]; [done |].
    rewrite IH. destruct acc as [[b sl] procs]. unfold commit_slot.
    destruct (sl !! index) as [ss |]; [| done].
    destruct (slot_commit ss) as [changed ss']. destruct changed; [| done].
    pose proof (wakeup_attrs f ss' procs Hf) as Hw.
    by destruct (wakeup ss' procs) as [awoken procs']. }
  specialize (H (elements (pending (sim_state sim)))
                (false, slots (sim_state sim), sim_processes sim)).
  by destruct (foldl _ _ _) as [[b sl] procs].
Qed.

(** A delta cycle leads from a reachable state to a reachable state, and
    leaves the code of the compiled processes as it was. *)
Lemma delta_reachable fuel sim r sim' :
  reachable shape lhs_signals normalize resume sim →
  emitted_processes sim →
  delta shape lhs_signals normalize resume fuel sim = Some (r, sim') →
  reachable shape lhs_signals normalize resume sim' ∧ emitted_processes sim'.
Proof.
  intros Hreach Hem. unfold delta.
  rewrite (run_processes_each fuel _ sim (NoDup_seq _ _)).
  destruct (run_each _ _ _ _ _ _ _) as [[[[] | e] sim1] |] eqn:Hrun; [| | done];
    destruct (run_each_reachable _ _ _ _ _ Hreach Hem Hrun) as [Hreach1 Hem1].
  - pose proof (reach_commit _ _ _ _ _ Hreach1) as Hreach2.
    assert (Hem2 : emitted_processes (commit sim1).2).
    { apply (emitted_processes_attrs sim1); [| exact Hem1]. by apply commit_attrs. }
    destruct (commit sim1) as [b sim2]. simpl in *. by intros [= <- <-].
  - by intros [= <- <-].
Qed.

(** C4, amended: in every reachable state a slot whose next value differs
    from its current value is in the pending set; [set] adds the slot to the
    pending set only when the value differs from the slot's next value; and
    [commit] leaves the pending set empty. *)
Theorem pending_covers_changes sim :
  reachable shape lhs_signals normalize resume sim →
  (∀ index ss, slots (sim_state sim) !! index = Some ss →
     next ss ≠ curr ss → index ∈ pending (sim_state sim)) ∧
  (∀ index value ss, slots (sim_state sim) !! index = Some ss →
     pending (slot_set index value (sim_state sim))
     = if (next ss =? value)%Z then pending (sim_state sim)
       else {[index]} ∪ pending (sim_state sim)) ∧
  pending (sim_state (commit sim).2) = ∅.
Proof.
  intros Hreach. destruct (reachable_store_ok sim Hreach) as [_ Hp].
  split; [| split].
  - intros index ss Hss Hne. apply (Hp index ss Hss). congruence.
  - intros index value ss Hss. rewrite (slot_set_spec _ _ _ _ Hss).
    by destruct (next ss =? value)%Z.
  - by rewrite commit_state.
Qed.

(** C10: right after a commit the pending set is empty and every slot has
    its current value equal to its next value, so a second commit changes
    nothing and returns false. *)
Theorem commit_twice sim :
  reachable shape lhs_signals normalize resume sim →
  pending (sim_state (commit sim).2) = ∅ ∧
  (∀ index ss, slots (sim_state (commit sim).2) !! index = Some ss →
     curr ss = next ss) ∧
  commit (commit sim).2 = (false, (commit sim).2).
Proof.
  intros Hreach. destruct (reachable_store_ok sim Hreach) as [_ Hp].
  split; [by rewrite commit_state |].
  split; [intros index ss; by apply commit_settled |].
  destruct (commit_spec sim) as (procs & Hc & _).
  destruct (commit sim) as [b sim']. simpl in *. subst sim'.
  unfold commit. simpl. rewrite elements_empty. simpl. done.
Qed.

End Reach.

(** ** Examples of reachable states *)

Lemma written_reachable :
  reachable unsigned4 no_lhs_signals no_normalize no_resume written.
Proof. apply reach_set, reach_get_signal, reach_init. Qed.

Lemma written_back_reachable :
  reachable unsigned4 no_lhs_signals no_normalize no_resume written_back.
Proof. apply reach_set, written_reachable. Qed.

(** The store after the testbench has run [yield nibble.eq(1)]. *)
Lemma assigned_reachable :
  reachable unsigned4 nibble_lhs no_normalize script_resume assigned.
Proof.
  apply (reach_run _ _ _ _ (bench_simulator assign_script) 8 0 (Ok ())).
  - apply reach_init.
  - intros [| pid] comb run; [done |]. unfold attrs. simpl. by rewrite lookup_nil.
  - vm_compute. reflexivity.
Qed.

(** C4 as stated fails: a slot written and then written back to its old
    value is still in the pending set, with [next] equal to [curr]. *)
Lemma pending_iff_changed_fails :
  ¬ (∀ sim : @Simulator unit,
       reachable unsigned4 no_lhs_signals no_normalize no_resume sim →
       ∀ index ss, slots (sim_state sim) !! index = Some ss →
         (index ∈ pending (sim_state sim) ↔ next ss ≠ curr ss)).
Proof.
  intros H.
  destruct (H written_back written_back_reachable 0
              {| signal := nibble; curr := 0; next := 0; waiters := [] |} eq_refl)
    as [Hin _].
  apply Hin; [| done].
  apply elem_of_union. left. by apply elem_of_singleton.
Qed.

Lemma pending_covers_changes_witness :
  reachable unsigned4 no_lhs_signals no_normalize no_resume written ∧
  0 ∈ pending (sim_state written) ∧
  pending (slot_set 0 1 (sim_state written)) = pending (sim_state written) ∧
  pending (sim_state (commit written).2) = ∅.
Proof.
  destruct (pending_covers_changes _ _ _ _ written written_reachable)
    as (Hin & Hset & Hcommit).
  split; [exact written_reachable |].
  split; [| split].
  - apply (Hin 0 {| signal := nibble; curr := 0; next := 1; waiters := [] |});
      [reflexivity | discriminate].
  - exact (Hset 0 1%Z {| signal := nibble; curr := 0; next := 1; waiters := [] |} eq_refl).
  - exact Hcommit.
Defined.

Lemma commit_twice_witness :
  reachable unsigned4 nibble_lhs no_normalize script_resume assigned ∧
  (commit assigned).1 = false ∧
  curr <$> slots (sim_state (commit assigned).2) = [1%Z] ∧
  commit (commit assigned).2 = (false, (commit assigned).2).
Proof.
  destruct (commit_twice _ _ _ _ assigned assigned_reachable) as (_ & _ & Hagain).
  split; [exact assigned_reachable |].
  split; [by vm_compute |]. split; [by vm_compute |]. exact Hagain.
Defined.

(** C2 as stated fails: with no runnable process and one pending change of
    a signal nobody waits on, the delta cycle commits the change (the
    current value goes from 0 to 1) and returns false. *)
Lemma delta_changed_iff_fails :
  ¬ (∀ fuel (sim sim' : @Simulator unit) b,
       delta unsigned4 no_lhs_signals no_normalize (λ _ _, Returned) fuel sim
       = Some (Ok b, sim') →
       (b = true ↔
        ∃ index, curr <$> slots (sim_state sim') !! index
                 ≠ curr <$> slots (sim_state sim) !! index)).
Proof.
  intros H.
  destruct (H 1 written (commit written).2 false eq_refl) as [_ Hb].
  discriminate Hb. exists 0. vm_compute. discriminate.
Qed.


(** ** Time advance *)

Lemma nearest_first_none now l1 p l2 np nd :
  concrete_from now l1 →
  (nd = None → np = ∅) →
  nearest now (l1 ++ (p, None) :: l2) np nd = Ok ({[p]}, Some now).
Proof.
  intros Hl1. revert np nd. induction Hl1 as [| [q dq] l1 (d & Hd & Hle) _ IH];
    intros np nd Hnp; simpl in *.
  - destruct nd as [n |].
    + by rewrite (left_id_L ∅ (∪)).
    + by rewrite Hnp, (left_id_L ∅ (∪)).
  - subst dq.
    destruct (match nd with Some n => (d <=? n)%Z | None => true end).
    + rewrite (proj2 (Z.geb_le _ _)) by done. by apply IH.
    + by apply IH.
Qed.

Lemma nearest_concrete now ds seen np nd :
  concrete_from now ds →
  scanned seen np nd →
  ∃ np' nd',
    nearest now ds np nd = Ok (np', nd') ∧ scanned (seen ++ ds) np' nd'.
Proof.
  intros Hds. revert seen np nd.
  induction Hds as [| [q dq] ds (d & Hd & Hle) _ IH]; intros seen np nd Hsc; simpl in *.
  - exists np, nd. by rewrite app_nil_r.
  - subst dq. rewrite (proj2 (Z.geb_le _ _)) by done.
    replace (seen ++ (q, Some d) :: ds) with ((seen ++ [(q, Some d)]) ++ ds)
      by by rewrite <- app_assoc.
    destruct nd as [n |]; simpl in Hsc.
    + destruct Hsc as (Hnp & (q0 & Hq0) & Hmin).
      destruct (Z.leb_spec d n) as [Hdn | Hdn].
      * apply IH. simpl. destruct (Z.ltb_spec d n) as [Hlt | Hge].
        -- split; [| split].
           ++ intros q'. rewrite elem_of_union, elem_of_singleton, elem_of_app,
                list_elem_of_singleton.
              split.
              ** intros [[]%elem_of_empty | ->]. by right.
              ** intros [Hin | [= ->]]; [| by right].
                 apply Hmin in Hin. lia.
           ++ exists q. apply elem_of_app. right. by apply list_elem_of_singleton.
           ++ intros q' d'. rewrite elem_of_app, list_elem_of_singleton.
              intros [Hin | [= -> ->]]; [| lia]. apply Hmin in Hin. lia.
        -- assert (d = n) as -> by lia.
           split; [| split].
           ++ intros q'. rewrite elem_of_union, elem_of_singleton, elem_of_app,
                list_elem_of_singleton, Hnp.
              split; [intros [? | ->]; auto | intros [? | [= ->]]; auto].
           ++ exists q. apply elem_of_app. right. by apply list_elem_of_singleton.
           ++ intros q' d'. rewrite elem_of_app, list_elem_of_singleton.
              intros [Hin | [= -> ->]]; [by apply Hmin in Hin | lia].
      * apply IH. simpl. split; [| split].
        -- intros q'. rewrite elem_of_app, list_elem_of_singleton, Hnp.
           split; [auto |]. intros [? | [= -> ->]]; [done | lia].
        -- exists q0. apply elem_of_app. by left.
        -- intros q' d'. rewrite elem_of_app, list_elem_of_singleton.
           intros [Hin | [= -> ->]]; [by apply Hmin in Hin | lia].
    + destruct Hsc as [-> ->]. apply IH. simpl. split; [| split].
      * intros q'. rewrite elem_of_union, elem_of_singleton, list_elem_of_singleton.
        split; [intros [[]%elem_of_empty | ->]; done | intros [= ->]; by right].
      * exists q. by apply list_elem_of_singleton.
      * intros q' d'. rewrite list_elem_of_singleton. intros [= -> ->]. lia.
Qed.

Lemma filter_all {A} (P : A → Prop) `{∀ x, Decision (P x)} (l : list A) :
  (∀ x, x ∈ l → P x) → filter P l = l.
Proof.
  induction l as [| x l IH]; intros HP; [done |].
  rewrite filter_cons, decide_True by (apply HP; left).
  f_equal. apply IH. intros y Hy. apply HP. by right.
Qed.

Lemma NoDup_keys_filter {V} (P : nat * V → Prop) `{∀ x, Decision (P x)} ds :
  NoDup ds.*1 → NoDup (filter P ds).*1.
Proof.
  intros Hnd. eapply sublist_NoDup; [exact Hnd |].
  apply fmap_sublist, sublist_filter.
Qed.

Lemma dict_del_filter {V} p (ds : list (nat * V)) :
  NoDup ds.*1 → dict_del p ds = filter (λ e, e.1 ≠ p) ds.
Proof.
  induction ds as [| [k v] ds IH]; intros Hnd; simpl; [done |].
  apply NoDup_cons in Hnd as [Hk Hnd]. rewrite filter_cons. simpl.
  destruct (decide (k = p)) as [-> | Hne].
  - rewrite decide_False by (intros Hp; by apply Hp).
    symmetry. apply filter_all. intros [k v'] Hin Heq. simpl in Heq. subst k.
    apply Hk. apply list_elem_of_fmap. by exists (p, v').
  - rewrite decide_True by done. f_equal. by apply IH.
Qed.

Lemma dict_del_all {V} (l : list nat) (ds : list (nat * V)) :
  NoDup ds.*1 →
  foldl (λ d p, dict_del p d) ds l = filter (λ e, e.1 ∉ l) ds.
Proof.
  revert ds. induction l as [| p l IH]; intros ds Hnd; cbn [foldl].
  - symmetry. apply filter_all. intros e _. apply not_elem_of_nil.
  - rewrite dict_del_filter by done.
    rewrite IH by by apply NoDup_keys_filter.
    rewrite list_filter_filter. apply list_filter_iff.
    intros [k v]. simpl. rewrite not_elem_of_cons. tauto.
Qed.

Lemma wake_all {G} (l : list nat) (procs : list (@Process G)) :
  foldl (λ procs p, alter (set_runnable true) p procs) procs l
  = imap (λ pid p, if decide (pid ∈ l) then set_runnable true p else p) procs.
Proof.
  revert procs. induction l as [| q l IH]; intros procs; cbn [foldl].
  - apply list_eq. intros i. rewrite list_lookup_imap.
    destruct (procs !! i); [| done]. cbn [fmap option_fmap option_map].
    case_decide as Hi; [by apply elem_of_nil in Hi | done].
  - rewrite IH. apply list_eq. intros i.
    rewrite !list_lookup_imap, list_lookup_alter.
    destruct (procs !! i) as [p |] eqn:Hp.
    + destruct (decide (q = i)) as [-> | Hne].
      * rewrite Hp. cbn [fmap option_fmap option_map].
        repeat case_decide; try done; exfalso; eauto using list_elem_of_here.
      * cbn [fmap option_fmap option_map].
        repeat case_decide; try done; exfalso.
        -- eauto using list_elem_of_further.
        -- match goal with H : _ ∈ _ :: _ |- _ => apply elem_of_cons in H as [-> | ?] end;
             done.
    + destruct (decide (q = i)) as [-> | Hne]; [by rewrite Hp | done].
Qed.

Lemma wake_deadline_all {G} (l : list nat) (sim : @Simulator G) :
  foldl wake_deadline sim l
  = {| sim_state :=
         with_deadlines (λ ds, foldl (λ d p, dict_del p d) ds l) (sim_state sim);
       sim_processes :=
         foldl (λ procs p, alter (set_runnable true) p procs) (sim_processes sim) l;
       sim_domains := sim_domains sim |}.
Proof.
  revert sim. induction l as [| p l IH]; intros sim; cbn [foldl].
  - by destruct sim as [[] ? ?].
  - by rewrite IH.
Qed.

(** [advance] when it wakes the processes of [woken] at time [t]. *)
Lemma advance_woken {G} (sim : @Simulator G) woken t :
  NoDup (dict_keys (deadlines (sim_state sim))) →
  nearest (timestamp (sim_state sim)) (deadlines (sim_state sim)) ∅ None
  = Ok (woken, Some t) →
  woken ≠ ∅ →
  advance sim = (Ok true, woken_at woken t sim).
Proof.
  intros Hnd Hn Hne. unfold advance. rewrite Hn, decide_False by done.
  f_equal. rewrite wake_deadline_all.
  unfold woken_at, with_state, with_timestamp, with_deadlines. simpl.
  rewrite dict_del_all, wake_all by done.
  f_equal; [f_equal |].
  - apply list_filter_iff. intros e. by rewrite elem_of_elements.
  - apply imap_ext. intros i p _.
    destruct (decide (i ∈ elements woken)) as [Hi | Hi], (decide (i ∈ woken)) as [Hi' | Hi'];
      try done; rewrite elem_of_elements in Hi; done.
Qed.

Lemma first_none_or_concrete (ds : list (nat * option Z)) :
  (∃ l1 p l2, ds = l1 ++ (p, None) :: l2 ∧ ∀ e, e ∈ l1 → e.2 ≠ None) ∨
  (∀ e, e ∈ ds → e.2 ≠ None).
Proof.
  induction ds as [| [p [d |]] ds IH].
  - right. intros e []%elem_of_nil.
  - destruct IH as [(l1 & q & l2 & -> & Hl1) | Hall].
    + left. exists ((p, Some d) :: l1), q, l2. split; [done |].
      intros e [-> | He]%elem_of_cons; [done | by apply Hl1].
    + right. intros e [-> | He]%elem_of_cons; [done | by apply Hall].
  - left. exists [], p, ds. split; [done |]. intros e []%elem_of_nil.
Qed.

Lemma concrete_from_intro now (ds : list (nat * option Z)) :
  (∀ p d, (p, Some d) ∈ ds → (now ≤ d)%Z) →
  (∀ e, e ∈ ds → e.2 ≠ None) →
  concrete_from now ds.
Proof.
  intros Hge Hsome. apply Forall_forall. intros [p [d |]] Hin.
  - exists d. split; [done |]. by apply (Hge p).
  - by destruct (Hsome _ Hin).
Qed.

(** C1 as stated fails: after the first delta cycle of a simulation with
    two testbenches both have a deadline with no timestamp, so both are due
    at the minimum, yet [advance] wakes the first only; the second stays
    not runnable and in the deadline map. *)
Lemma advance_wakes_all_fails :
  ¬ (∀ sim : @Simulator (list (option Command)),
       deadlines (sim_state sim) ≠ [] →
       ∃ sim',
         advance sim = (Ok true, sim') ∧
         ∀ p d, (p, d) ∈ deadlines (sim_state sim) →
           (∀ q d', (q, d') ∈ deadlines (sim_state sim) →
              (default (timestamp (sim_state sim)) d
               ≤ default (timestamp (sim_state sim)) d')%Z) →
           runnable <$> sim_processes sim' !! p = Some true ∧
           p ∉ dict_keys (deadlines (sim_state sim'))).
Proof.
  intros H.
  destruct (H two_settled) as (sim' & Hadv & Hall); [by vm_compute |].
  destruct (Hall 1 None) as [Hrun _].
  - vm_compute. right. left.
  - intros q d' Hin. vm_compute in Hin.
    apply elem_of_cons in Hin as [[= -> ->] | Hin]; [done |].
    apply elem_of_cons in Hin as [[= -> ->] | Hin]; [done |].
    by apply elem_of_nil in Hin.
  - injection Hadv as <-. vm_compute in Hrun. discriminate.
Qed.

(** C1, amended: on a deadline map whose timestamps are not before the
    engine time, [advance] returns false, changing nothing, exactly when the
    map is empty.  Otherwise it returns true and: if some entry has no
    timestamp, only the first such entry (in the order of the map) is made
    runnable and removed, and the engine time stays; if every entry has a
    timestamp, exactly the processes whose deadline is the minimum are made
    runnable and removed, and the engine time becomes that minimum. *)
Theorem advance_spec {G} (sim : @Simulator G) :
  NoDup (dict_keys (deadlines (sim_state sim))) →
  (∀ p d, (p, Some d) ∈ deadlines (sim_state sim) → (timestamp (sim_state sim) ≤ d)%Z) →
  ((advance sim).1 = Ok false ↔ deadlines (sim_state sim) = []) ∧
  (deadlines (sim_state sim) = [] → advance sim = (Ok false, sim)) ∧
  (∀ l1 p l2,
     deadlines (sim_state sim) = l1 ++ (p, None) :: l2 →
     (∀ e, e ∈ l1 → e.2 ≠ None) →
     advance sim = (Ok true, woken_at {[p]} (timestamp (sim_state sim)) sim)) ∧
  (deadlines (sim_state sim) ≠ [] →
   (∀ e, e ∈ deadlines (sim_state sim) → e.2 ≠ None) →
   ∃ woken t,
     advance sim = (Ok true, woken_at woken t sim) ∧
     (∀ p, p ∈ woken ↔ (p, Some t) ∈ deadlines (sim_state sim)) ∧
     (∃ p, (p, Some t) ∈ deadlines (sim_state sim)) ∧
     (∀ p d, (p, Some d) ∈ deadlines (sim_state sim) → (t ≤ d)%Z)).
Proof.
  intros Hnd Hge.
  assert (Hempty : deadlines (sim_state sim) = [] → advance sim = (Ok false, sim)).
  { intros He. unfold advance. rewrite He. simpl. by rewrite decide_True. }
  assert (Hnone : ∀ l1 p l2,
            deadlines (sim_state sim) = l1 ++ (p, None) :: l2 →
            (∀ e, e ∈ l1 → e.2 ≠ None) →
            advance sim = (Ok true, woken_at {[p]} (timestamp (sim_state sim)) sim)).
  { intros l1 p l2 Hds Hl1. apply advance_woken; [done | |].
    - rewrite Hds. apply nearest_first_none; [| done].
      apply concrete_from_intro; [| done].
      intros q d Hin. apply (Hge q). rewrite Hds. apply elem_of_app. by left.
    - intros Hp. assert (p ∈ (∅ : gset nat)) as []%elem_of_empty.
      rewrite <- Hp. by apply elem_of_singleton. }
  assert (Hall : deadlines (sim_state sim) ≠ [] →
            (∀ e, e ∈ deadlines (sim_state sim) → e.2 ≠ None) →
            ∃ woken t,
              advance sim = (Ok true, woken_at woken t sim) ∧
              (∀ p, p ∈ woken ↔ (p, Some t) ∈ deadlines (sim_state sim)) ∧
              (∃ p, (p, Some t) ∈ deadlines (sim_state sim)) ∧
              (∀ p d, (p, Some d) ∈ deadlines (sim_state sim) → (t ≤ d)%Z)).
  { intros Hne Hsome.
    destruct (nearest_concrete (timestamp (sim_state sim)) (deadlines (sim_state sim))
                [] ∅ None) as (np & nd & Hn & Hsc).
    { by apply concrete_from_intro. }
    { done. }
    simpl in Hsc. destruct nd as [t |]; [| by destruct Hsc].
    destruct Hsc as (Hnp & (q & Hq) & Hmin).
    exists np, t. split; [| split; [exact Hnp | split; [by exists q | exact Hmin]]].
    apply advance_woken; [done | done |].
    intros ->. apply Hnp in Hq. by apply elem_of_empty in Hq. }
  split; [| split; [exact Hempty | split; [exact Hnone | exact Hall]]].
  split; [| intros He; by rewrite Hempty].
  intros Hfalse.
  destruct (deadlines (sim_state sim)) as [| e ds] eqn:Hds; [done |].
  destruct (first_none_or_concrete (e :: ds)) as [(l1 & p & l2 & Heq & Hl1) | Hsome].
  - rewrite (Hnone l1 p l2 Heq Hl1) in Hfalse. discriminate.
  - destruct (Hall ltac:(done) Hsome) as (woken & t & Hadv & _).
    rewrite Hadv in Hfalse. discriminate.
Qed.

Lemma advance_spec_witness :
  deadlines (sim_state two_settled) = [(0, None); (1, None)] ∧
  advance two_settled = (Ok true, woken_at {[0]} 0 two_settled).
Proof.
  split; [by vm_compute |].
  assert (Hnd : NoDup (dict_keys (deadlines (sim_state two_settled)))).
  { change (NoDup [0; 1]). apply (bool_decide_unpack _). by vm_compute. }
  assert (Hge : ∀ p d, (p, Some d) ∈ deadlines (sim_state two_settled) →
                       (timestamp (sim_state two_settled) ≤ d)%Z).
  { intros p d Hin. vm_compute in Hin.
    apply elem_of_cons in Hin as [[=] | Hin].
    apply elem_of_cons in Hin as [[=] | Hin].
    by apply elem_of_nil in Hin. }
  destruct (advance_spec two_settled Hnd Hge) as (_ & _ & Hnone & _).
  apply (Hnone [] 0 [(1, None)]); [by vm_compute |].
  intros e He. by apply elem_of_nil in He.
Defined.

(** ** Reset *)

Lemma reset_fold_waiters (l : list (nat * (Signal * nat))) (sl : list SignalState) j :
  waiters <$>
    foldl (λ l '(_, (s, index)),
             match l !! index with
             | Some ss => <[index := set_next (sig_reset s) (set_curr (sig_reset s) ss)]> l
             | None => l
             end) sl l !! j
  = waiters <$> sl !! j.
Proof.
  revert sl. induction l as [| [k [s index]] l IH]; intros sl; cbn [foldl]; [done |].
  rewrite IH. destruct (sl !! index) as [ss |] eqn:Hss; [| done].
  rewrite list_lookup_insert. case_decide as Hj; [| done].
  destruct Hj as [<- _]. by rewrite Hss.
Qed.

(** In every state, [Simulator.reset] leaves every waiter map as it is. *)
Lemma reset_leaves_waiters {G} (sim : @Simulator G) index :
  waiters <$> slots (sim_state (reset sim)) !! index
  = waiters <$> slots (sim_state sim) !! index.
Proof. apply reset_fold_waiters. Qed.

(** * Properties of the rest of the simulator *)

(** ** Compiling keeps what [get_signal] and the code constructors keep *)

Section CompilerInvariant.
Variable shape : Value → Shape.
Variable lhs_signals : Statement → list Signal.
Variable S : SimulatorState → Prop.
Variable P : Code → Prop.
Hypothesis S_get_signal : ∀ s st, S st → S (get_signal s st).2.
Hypothesis P_pass : P c_pass.
Hypothesis P_assign : ∀ x e, P (c_assign x e).
Hypothesis P_seq : ∀ a b, P a → P b → P (c_seq a b).
Hypothesis P_if : ∀ branches orelse,
  Forall (λ b, P b.2) branches → P orelse → P (c_if branches orelse).
Hypothesis P_set : ∀ index, P (c_set index).

Local Abbreviation inv := (compiler_inv S P).

Lemma P_index_branches gen_index bodies :
  Forall P bodies → Forall (λ b, P b.2) (index_branches gen_index bodies).
Proof.
  intros Hb. apply Forall_lookup. intros i [cond body].
  unfold index_branches. rewrite list_lookup_imap.
  destruct (bodies !! i) as [b |] eqn:Hi; [| done]. simpl. intros [= <- <-].
  by eapply (Forall_lookup_1 _ _ _ _ Hb).
Qed.

Lemma P_last bodies : Forall P bodies → P (List.last bodies c_pass).
Proof.
  intros Hb. induction Hb as [| b bodies Hb0 Hbs IH]; [apply P_pass |].
  simpl. destruct bodies; [done | apply IH].
Qed.

Lemma append_inv code : P code → keeps inv anything (append code).
Proof.
  intros Hcode c [Hst Hbuf]. split; [| done].
  split; [done |]. simpl. by apply P_seq.
Qed.

Lemma gen_var_inv : keeps inv anything gen_var.
Proof. intros c [Hst Hbuf]. split; [| done]. by split. Qed.

Lemma def_var_inv e : keeps inv anything (def_var e).
Proof.
  unfold def_var. eapply keeps_bind; [apply gen_var_inv |]. intros name _.
  eapply keeps_bind; [apply append_inv, P_assign |]. intros _ _.
  by apply keeps_ret.
Qed.

Lemma c_get_signal_inv s : keeps inv anything (c_get_signal s).
Proof.
  intros c [Hst Hbuf]. rewrite c_get_signal_eq. split; [| done].
  split; [| done]. simpl. by apply S_get_signal.
Qed.

Lemma indent_inv {A} (Q : A → Prop) (m : CM A) :
  keeps inv Q m →
  keeps (A := A * Code) inv (λ r, Q r.1 ∧ P r.2) (indent m).
Proof.
  intros Hm c [Hst Hbuf]. unfold indent.
  destruct (Hm {| state := state c;
                  emitter := {| buffer := c_pass; suffix := suffix (emitter c) |} |})
    as [[Hst' Hbuf'] Ha].
  { split; [done | apply P_pass]. }
  destruct (m _) as [[a | e] c']; simpl in *.
  - split; [by split |]. intros r [= <-]. simpl. split; [by apply Ha | done].
  - split; [by split |]. by intros ?.
Qed.

Section Operator.
Variable self : Value → CM Expr.

Lemma op_mask_inv v : keeps inv anything (self v) → keeps inv anything (op_mask shape self v).
Proof. intros Hv. unfold op_mask. okc_bind; [exact Hv |]. by apply keeps_ret. Qed.

Lemma op_sign_inv v : keeps inv anything (self v) → keeps inv anything (op_sign shape self v).
Proof.
  intros Hv. unfold op_sign. destruct (signed (shape v)); [| by apply op_mask_inv].
  okc_bind; [by apply op_mask_inv |].
  okc_bind; [by apply (keeps_lift _ anything) |]. by apply keeps_ret.
Qed.

Lemma op_signed2_inv f vl vr :
  keeps inv anything (self vl) → keeps inv anything (self vr) →
  keeps inv anything (op_signed2 shape self f vl vr).
Proof.
  intros Hl Hr. unfold op_signed2.
  okc_bind; [by apply op_sign_inv |]. okc_bind; [by apply op_sign_inv |].
  by apply keeps_ret.
Qed.

Lemma op_raw2_inv f vl vr :
  keeps inv anything (self vl) → keeps inv anything (self vr) →
  keeps inv anything (op_raw2 self f vl vr).
Proof.
  intros Hl Hr. unfold op_raw2.
  okc_bind; [done |]. okc_bind; [done |]. by apply keeps_ret.
Qed.

Lemma on_Operator_inv operator operands :
  Forall (λ v, keeps inv anything (self v)) operands →
  keeps inv anything (on_Operator shape self operator operands).
Proof.
  intros Hops. unfold on_Operator.
  destruct Hops as [| a ? Ha [| b ? Hb [| c ? Hc [| d ? Hd ?]]]];
    try apply keeps_raise.
  - repeat (match goal with |- keeps _ _ (if ?b then _ else _) => destruct b end);
      try apply keeps_raise; try done;
      (okc_bind; [first [done | by apply op_mask_inv] |]; by apply keeps_ret).
  - repeat (match goal with |- keeps _ _ (if ?b then _ else _) => destruct b end);
      try apply keeps_raise;
      first [by apply op_signed2_inv | by apply op_raw2_inv].
  - destruct (_ =? _)%string; [| apply keeps_raise].
    okc_bind; [done |]. okc_bind; [done |]. okc_bind; [done |]. by apply keeps_ret.
Qed.
End Operator.

Lemma rhs_cat_parts_inv self parts offset :
  Forall (λ v, keeps inv anything (self v)) parts →
  keeps inv anything (rhs_cat_parts shape self parts offset).
Proof.
  intros Hparts. revert offset.
  induction Hparts as [| part parts Hpart _ IH]; intros offset; simpl.
  - by apply keeps_ret.
  - okc_bind; [exact Hpart |]. okc_bind; [apply IH |]. by apply keeps_ret.
Qed.

Lemma rhs_proxy_elems_inv self gen_value elems :
  Forall (λ v, keeps inv anything (self v)) elems →
  keeps inv (Forall P) (rhs_proxy_elems self gen_value elems).
Proof.
  induction 1 as [| elem elems Helem _ IH]; simpl.
  - by apply keeps_ret.
  - eapply keeps_bind.
    { apply (indent_inv anything).
      okc_bind; [exact Helem |]. apply append_inv, P_assign. }
    intros [[] body] [_ Hbody]. okc_bind; [exact IH |]. simpl in *.
    apply keeps_ret. by constructor.
Qed.

Lemma rhs_inv mode v : keeps inv anything (rhs shape mode v).
Proof.
  induction v as [c | s | operator operands IH | v start stop IH
                 | v offset w stride IHv IHo | parts IH | v count IH
                 | elems index IHe IHi | | | | | |] using Value_ind_nested;
    cbn [rhs]; try apply keeps_raise.
  - by apply keeps_ret.
  - okc_bind; [apply c_get_signal_inv |]. by apply keeps_ret.
  - by apply on_Operator_inv.
  - okc_bind; [exact IH |]. by apply keeps_ret.
  - okc_bind; [exact IHo |]. okc_bind; [exact IHv |]. by apply keeps_ret.
  - okc_bind; [by apply rhs_cat_parts_inv |]. by apply keeps_ret.
  - okc_bind; [exact IH |]. okc_bind; [apply def_var_inv |]. by apply keeps_ret.
  - okc_bind; [exact IHi |]. okc_bind; [apply def_var_inv |].
    okc_bind; [apply gen_var_inv |].
    destruct elems as [| elem elems]; [by apply keeps_ret |].
    eapply keeps_bind; [by apply rhs_proxy_elems_inv |].
    intros bodies Hbodies. okc_bind; [| by apply keeps_ret].
    apply append_inv, P_if; [by apply P_index_branches | by apply P_last].
Qed.

Lemma lhs_cat_parts_inv self gen_arg parts offset :
  Forall (λ v, ∀ gen, self v = Ok gen → gen_inv S P gen) parts →
  keeps inv anything (lhs_cat_parts shape self gen_arg parts offset).
Proof.
  intros Hparts. revert offset.
  induction Hparts as [| part parts Hpart _ IH]; intros offset; simpl.
  - by apply keeps_ret.
  - eapply keeps_bind; [apply (keeps_lift _ (gen_inv S P)), Hpart |].
    intros gen Hgen. okc_bind; [apply Hgen |]. apply IH.
Qed.

Lemma lhs_proxy_elems_inv self arg elems :
  Forall (λ v, ∀ gen, self v = Ok gen → gen_inv S P gen) elems →
  keeps inv (Forall P) (lhs_proxy_elems self arg elems).
Proof.
  induction 1 as [| elem elems Helem _ IH]; simpl.
  - by apply keeps_ret.
  - eapply keeps_bind.
    { apply (indent_inv anything).
      eapply keeps_bind; [apply (keeps_lift _ (gen_inv S P)), Helem |].
      intros gen Hgen. apply Hgen. }
    intros [[] body] [_ Hbody]. okc_bind; [exact IH |]. simpl in *.
    apply keeps_ret. by constructor.
Qed.

Lemma lhs_inv v gen : lhs shape v = Ok gen → gen_inv S P gen.
Proof.
  revert gen.
  induction v as [c | s | operator operands IH | v start stop IH
                 | v offset w stride IHv IHo | parts IH | v count IH
                 | elems index IHe IHi | | | | | |] using Value_ind_nested;
    cbn [lhs]; intros gen; try done; intros [= <-] arg.
  - okc_bind.
    + destruct (signed _); [| by apply (keeps_ret _ anything)].
      okc_bind; [by apply (keeps_lift _ anything) |]. by apply (keeps_ret _ anything).
    + okc_bind; [apply c_get_signal_inv |]. apply append_inv, P_assign.
  - okc_bind; [by apply (keeps_lift _ anything) |].
    eapply keeps_bind; [apply (keeps_lift _ (gen_inv S P)), IH |]. intros gen_v Hgen.
    okc_bind; [apply rhs_inv |]. apply Hgen.
  - okc_bind; [apply rhs_inv |].
    eapply keeps_bind; [apply (keeps_lift _ (gen_inv S P)), IHv |]. intros gen_v Hgen.
    okc_bind; [apply rhs_inv |]. apply Hgen.
  - okc_bind; [apply def_var_inv |]. by apply lhs_cat_parts_inv.
  - okc_bind; [apply rhs_inv |]. okc_bind; [apply def_var_inv |].
    destruct elems as [| elem elems]; [apply append_inv, P_pass |].
    eapply keeps_bind; [by apply lhs_proxy_elems_inv |].
    intros bodies Hbodies.
    apply append_inv, P_if; [by apply P_index_branches | by apply P_last].
Qed.

Lemma on_statements_inv self stmts :
  Forall (λ s, keeps inv anything (self s)) stmts →
  keeps inv anything (on_statements_with self stmts).
Proof.
  induction 1 as [| s stmts Hs _ IH]; simpl.
  - by apply keeps_ret.
  - okc_bind; [exact Hs | exact IH].
Qed.

Lemma switch_cases_inv self gen_test cases :
  Forall (λ case, Forall (λ s, keeps inv anything (self s)) case.2) cases →
  keeps inv (Forall (λ b, P b.2)) (switch_cases self gen_test cases).
Proof.
  induction 1 as [| [patterns stmts] cases Hcase _ IH]; simpl.
  - by apply keeps_ret.
  - okc_bind; [by apply (keeps_lift _ anything) |].
    eapply keeps_bind; [apply (indent_inv anything), on_statements_inv, Hcase |].
    intros [[] body] [_ Hbody]. okc_bind; [exact IH |]. simpl in *.
    apply keeps_ret. by constructor.
Qed.

Lemma stmt_inv s : keeps inv anything (stmt shape s).
Proof.
  induction s as [l r | test cases IH | | |] using Statement_ind_nested;
    cbn [stmt]; try apply keeps_raise.
  - eapply keeps_bind; [apply (keeps_lift _ (gen_inv S P)), lhs_inv |]. intros gen Hgen.
    okc_bind; [apply rhs_inv |]. apply Hgen.
  - okc_bind; [apply rhs_inv |]. okc_bind; [apply def_var_inv |].
    eapply keeps_bind; [by apply switch_cases_inv |].
    intros branches Hbranches.
    by apply append_inv, P_if; [| apply P_pass].
Qed.

Lemma on_statements_all_inv stmts : keeps inv anything (on_statements shape stmts).
Proof.
  apply on_statements_inv, Forall_forall. intros s _. apply stmt_inv.
Qed.

Lemma rhs_compile_inv mode v : keeps S P (rhs_compile shape mode v).
Proof.
  intros st Hst. unfold rhs_compile.
  assert (Hm : keeps inv anything
                 (e ← rhs shape mode v; append (c_assign ResultVar e))).
  { okc_bind; [apply rhs_inv |]. apply append_inv, P_assign. }
  destruct (Hm {| state := st; emitter := new_emitter |}) as [[Hst' Hbuf] _].
  { split; [done | apply P_pass]. }
  destruct (_ ≫= _) as [[[] | e] c]; simpl in *.
  - split; [done |]. by intros code [= <-].
  - split; [done |]. by intros ?.
Qed.

Lemma get_signals_inv l : keeps S anything (get_signals l).
Proof.
  induction l as [| s l IH]; simpl.
  - by apply keeps_ret.
  - apply (keeps_bind _ anything); [| intros ? ?].
    + intros st Hst. unfold se_do.
      pose proof (S_get_signal s st Hst) as Hst'.
      destruct (get_signal s st) as [i st']. simpl in *. split; [exact Hst' | done].
    + okc_bind; [exact IH |]. by apply keeps_ret.
Qed.

Lemma append_all_inv f indexes :
  (∀ i, P (f i)) → keeps inv anything (append_all f indexes).
Proof.
  intros Hf. induction indexes as [| i indexes IH]; simpl.
  - by apply keeps_ret.
  - okc_bind; [apply append_inv, Hf | exact IH].
Qed.

Lemma stmt_compile_inv s : keeps S P (stmt_compile shape lhs_signals s).
Proof.
  intros st Hst. unfold stmt_compile.
  destruct (get_signals_inv (lhs_signals s) st Hst) as [Hst1 _].
  destruct (get_signals (lhs_signals s) st) as [[output_indexes | e] st1]; simpl in *;
    [| split; [done | by intros ?]].
  assert (Hm : keeps inv anything
                 (_ ← append_all (λ i, c_assign (NextVar i) (e_slot_next i)) output_indexes;
                  _ ← stmt shape s;
                  append_all c_set output_indexes)).
  { okc_bind; [apply append_all_inv; intros i; apply P_assign |].
    okc_bind; [apply stmt_inv |].
    apply append_all_inv. intros i. apply P_set. }
  destruct (Hm {| state := st1; emitter := new_emitter |}) as [[Hst' Hbuf] _].
  { split; [done | apply P_pass]. }
  destruct (_ ≫= _) as [[[] | e] c]; simpl in *.
  - split; [done |]. by intros code [= <-].
  - split; [done |]. by intros ?.
Qed.

End CompilerInvariant.

(** ** Running keeps what the store operations keep *)

Lemma sets_only_inv (I : SimulatorState → Prop) st st' :
  (∀ index value st, I st → I (slot_set index value st)) →
  sets_only st st' → I st → I st'.
Proof.
  intros HI. induction 1 as [| st st1 st2 (index & value & ->) _ IH]; [done |].
  intros Hst. by apply IH, HI.
Qed.

Lemma gets_only_inv (I : SimulatorState → Prop) st st' :
  (∀ s st, I st → I (get_signal s st).2) →
  gets_only st st' → I st → I st'.
Proof.
  intros HI. induction 1 as [| st st1 st2 (s & ->) _ IH]; [done |].
  intros Hst. by apply IH, HI.
Qed.

Section RunInvariant.
Variable shape : Value → Shape.
Variable lhs_signals : Statement → list Signal.
Variable normalize : Z → Shape → Z.
Context {G : Type}.
Variable resume : G → Resume → Outcome G.
Variable I : SimulatorState → Prop.
Variable delay_ok : Z → Prop.
Implicit Types (sim : @Simulator G).

Hypothesis I_get_signal : ∀ s st, I st → I (get_signal s st).2.
Hypothesis I_slot_set : ∀ index value st, I st → I (slot_set index value st).
Hypothesis I_waiters : ∀ st index ss ws,
  I st → slots st !! index = Some ss →
  I (with_slots (λ l, <[index := set_waiters ws ss]> l) st).
Hypothesis I_deadline_none : ∀ st pid,
  I st → I (with_deadlines (dict_set pid None) st).
Hypothesis I_deadline_delay : ∀ st pid interval,
  I st → delay_ok interval →
  I (with_deadlines (dict_set pid (Some (timestamp st + interval)%Z)) st).
Hypothesis resume_ok : ∀ g r command g',
  resume g r = Yielded command g' → command_ok delay_ok command.

Local Abbreviation state_inv := (λ sim : @Simulator G, I (sim_state sim)).

Lemma on_state_inv {A} (Q : A → Prop) (m : SE SimulatorState A) :
  keeps I Q m → keeps state_inv Q (on_state (G := G) m).
Proof.
  intros Hm sim Hsim. unfold on_state. destruct (Hm _ Hsim) as [Hst HQ].
  by destruct (m (sim_state sim)).
Qed.

Lemma exec_inv pid code :
  writes_by_set code → keeps state_inv anything (exec (G := G) pid code).
Proof.
  intros Hcode sim Hsim. unfold exec.
  specialize (Hcode {| env_state := sim_state sim; env_locals := get_exec_locals pid sim |}).
  destruct (code _) as [r env]. simpl in *. split; [| done].
  by apply (sets_only_inv I _ _ I_slot_set Hcode).
Qed.

Lemma get_in_signal_inv pid s trigger :
  keeps state_inv anything (get_in_signal (G := G) pid s trigger).
Proof.
  intros sim Hsim. unfold get_in_signal.
  pose proof (I_get_signal s _ Hsim) as Hst.
  destruct (get_signal s (sim_state sim)) as [index st]. simpl in Hst.
  destruct (slots st !! index) as [ss |] eqn:Hss; [| by split].
  destruct (dict_get pid (waiters ss)); [by split |].
  split; [| done]. by apply I_waiters.
Qed.

Lemma stop_waiting_inv pid : keeps state_inv anything (stop_waiting (G := G) pid).
Proof.
  intros sim Hsim. unfold stop_waiting.
  assert (Hfold : ∀ l (acc : Res unit * @Simulator G),
            I (sim_state acc.2) → I (sim_state (foldl (stop_waiting_on pid) acc l).2)).
  { induction l as [| index l IH]; intros acc Hacc; cbn [foldl]; [done |].
    apply IH. unfold stop_waiting_on. destruct acc as [[[] | e] sim0]; [| done].
    simpl in Hacc. destruct (slots (sim_state sim0) !! index) as [ss |] eqn:Hss; [| done].
    destruct (dict_get pid (waiters ss)); [| done].
    by apply I_waiters. }
  specialize (Hfold (elements (get_waits_on pid sim)) (Ok (), sim) Hsim).
  by destruct (foldl _ _ _) as [[[] | e] sim0].
Qed.

Lemma writes_by_set_closed :
  writes_by_set c_pass ∧
  (∀ x e, writes_by_set (c_assign x e)) ∧
  (∀ a b, writes_by_set a → writes_by_set b → writes_by_set (c_seq a b)) ∧
  (∀ branches orelse,
     Forall (λ b, writes_by_set b.2) branches → writes_by_set orelse →
     writes_by_set (c_if branches orelse)) ∧
  (∀ index, writes_by_set (c_set index)).
Proof.
  split; [apply writes_by_set_pass |]. split; [apply writes_by_set_assign |].
  split; [apply writes_by_set_seq |]. split; [apply writes_by_set_if |].
  apply writes_by_set_set.
Qed.

Lemma dispatch_inv pid command :
  command_ok delay_ok command →
  keeps state_inv anything (dispatch (G := G) shape lhs_signals normalize pid command).
Proof.
  destruct writes_by_set_closed as (Hpass & Hassign & Hseq & Hif & Hset).
  intros Hcmd. unfold dispatch. destruct command as [[v | s | d | | interval | | |] |];
    try (by apply keeps_raise); try (intros sim Hsim; by split).
  - eapply keeps_bind.
    { apply on_state_inv. by apply (rhs_compile_inv shape I writes_by_set). }
    intros code Hcode.
    okc_bind; [by apply exec_inv |].
    intros sim Hsim. unfold se_do. by destruct (_ !! ResultVar).
  - eapply keeps_bind.
    { apply on_state_inv. by apply (stmt_compile_inv shape lhs_signals I writes_by_set). }
    intros code Hcode.
    okc_bind; [by apply exec_inv |]. by apply keeps_ret.
  - apply (keeps_bind _ anything); [| intros ? ?].
    { intros sim Hsim. unfold se_do. destruct d; [| by split].
      by destruct (_ !! name). }
    okc_bind; [apply get_in_signal_inv |].
    okc_bind; [| by apply keeps_ret].
    destruct (rst a); [| by apply (keeps_ret _ anything)].
    destruct (async_reset a); [apply get_in_signal_inv | by apply (keeps_ret _ anything)].
  - intros sim Hsim. split; [| done]. simpl. by apply I_deadline_none.
  - intros sim Hsim. split; [| done]. simpl.
    destruct interval as [i |]; [by apply I_deadline_delay | by apply I_deadline_none].
Qed.

Lemma coroutine_resume_yields pid r sim command sim' :
  coroutine_resume resume pid r sim = (Yields command, sim') →
  command_ok delay_ok command.
Proof.
  unfold coroutine_resume. destruct (get_coroutine pid sim) as [[g |] |]; [| | done].
  - unfold gen_resume. destruct (resume g r) as [c g' | | e] eqn:Hr; [| done | done].
    intros [= <- _]. by eapply resume_ok.
  - simpl. by destruct r.
Qed.

Lemma get_default_cmd_attrs pid sim :
  get_default_cmd pid sim = default (None : option Command) (attrs default_of sim !! pid).
Proof.
  unfold get_default_cmd, attrs, default_of. rewrite list_lookup_fmap.
  destruct (sim_processes sim !! pid) as [p |]; [| done]. simpl.
  by destruct (kind p).
Qed.

Lemma default_of_set_coroutine c (p : @Process G) :
  default_of (set_coroutine c p) = default_of p.
Proof. by destruct p as [ru pa []]. Qed.

Lemma default_of_set_exec_locals lo (p : @Process G) :
  default_of (set_exec_locals lo p) = default_of p.
Proof. by destruct p as [ru pa []]. Qed.

Lemma default_of_set_waits_on w (p : @Process G) :
  default_of (set_waits_on w p) = default_of p.
Proof. by destruct p as [ru pa []]. Qed.

Lemma run_loop_inv fuel pid response sim r sim' :
  I (sim_state sim) →
  command_ok delay_ok (get_default_cmd pid sim) →
  run_loop shape lhs_signals normalize resume fuel pid response sim = Some (r, sim') →
  I (sim_state sim').
Proof.
  revert response sim. induction fuel as [| fuel IH]; intros response sim Hsim Hdef; [done |].
  cbn [run_loop].
  assert (Hstate : ∀ r0 sim0,
            sim_state (coroutine_resume resume pid r0 sim0).2 = sim_state sim0)
    by apply coroutine_resume_state.
  assert (Hdefault : ∀ r0 sim0,
            get_default_cmd pid (coroutine_resume resume pid r0 sim0).2
            = get_default_cmd pid sim0).
  { intros r0 sim0. rewrite !get_default_cmd_attrs.
    by rewrite (attrs_coroutine_resume resume default_of default_of_set_coroutine). }
  assert (Hhandler : ∀ exn sim0,
            I (sim_state sim0) →
            command_ok delay_ok (get_default_cmd pid sim0) →
            match coroutine_resume resume pid (Throw exn) sim0 with
            | (Yields _, sim1) =>
                run_loop shape lhs_signals normalize resume fuel pid None sim1
            | (RaisesStopIteration, sim1) => Some (Raise StopIterationExn, sim1)
            | (RaisesExn e, sim1) => Some (Raise e, sim1)
            end = Some (r, sim') →
            I (sim_state sim')).
  { intros exn sim0 H0 Hd0.
    pose proof (Hstate (Throw exn) sim0) as H1.
    pose proof (Hdefault (Throw exn) sim0) as H2.
    destruct (coroutine_resume resume pid (Throw exn) sim0) as [[c | | e] sim1];
      simpl in H1, H2.
    - apply IH; by rewrite ?H1, ?H2.
    - intros [= <- <-]. by rewrite H1.
    - intros [= <- <-]. by rewrite H1. }
  pose proof (Hstate (Send response) sim) as H1.
  pose proof (Hdefault (Send response) sim) as H2.
  pose proof (coroutine_resume_yields pid (Send response) sim) as H3.
  destruct (coroutine_resume resume pid (Send response) sim) as [[c | | e] sim1];
    simpl in H1, H2.
  - assert (Hsim1 : I (sim_state sim1)) by by rewrite H1.
    assert (Hcmd : command_ok delay_ok
                     match c with
                     | Some c0 => Some c0
                     | None => get_default_cmd pid sim1
                     end).
    { destruct c as [c0 |]; [by apply (H3 (Some c0) sim1) | by rewrite H2]. }
    pose proof (dispatch_inv pid _ Hcmd sim1 Hsim1) as [H4 _].
    pose proof (keeps_attrs_dispatch shape lhs_signals normalize default_of
                  default_of_set_exec_locals default_of_set_waits_on
                  ltac:(done) pid
                  match c with
                  | Some c0 => Some c0
                  | None => get_default_cmd pid sim1
                  end sim1) as H5.
    destruct (dispatch shape lhs_signals normalize pid _ sim1)
      as [[[response' |] | exn] sim2]; simpl in H4, H5.
    + apply IH; [done |]. by rewrite get_default_cmd_attrs, H5, <- get_default_cmd_attrs, H2.
    + by intros [= <- <-].
    + apply Hhandler; [done |].
      by rewrite get_default_cmd_attrs, H5, <- get_default_cmd_attrs, H2.
  - intros [= <- <-]. simpl. by rewrite H1.
  - apply Hhandler; [by rewrite H1 | by rewrite H2].
Qed.

Local Abbreviation whole_inv := (sim_inv (G := G) I delay_ok).

Lemma sim_inv_attrs sim sim' :
  attrs compiled_code sim' = attrs compiled_code sim →
  attrs default_of sim' = attrs default_of sim →
  I (sim_state sim') → whole_inv sim → whole_inv sim'.
Proof.
  intros Hcode Hdef Hst (_ & Hem & Hd). split; [done |]. split.
  - by apply (emitted_processes_attrs sim).
  - by rewrite Hdef.
Qed.

Lemma process_run_inv fuel pid sim r sim' :
  whole_inv sim →
  process_run shape lhs_signals normalize resume fuel pid sim = Some (r, sim') →
  whole_inv sim'.
Proof.
  intros Hinv Hrun. apply (sim_inv_attrs sim); [| | | done].
  - by eapply code_process_run.
  - eapply attrs_process_run; [| | | | exact Hrun]; try done.
    + apply default_of_set_coroutine.
    + apply default_of_set_exec_locals.
    + apply default_of_set_waits_on.
  - destruct Hinv as (Hsim & Hem & Hd). revert Hrun. unfold process_run.
    destruct (sim_processes sim !! pid) as [p |] eqn:Hp; simpl; [| by intros [= <- <-]].
    destruct (kind p) as [comb code | c d co lo w] eqn:Hk.
    + unfold compiled_run.
      assert (Hcode : attrs compiled_code sim !! pid = Some (Some (comb, code))).
      { unfold attrs. rewrite list_lookup_fmap, Hp. simpl. unfold compiled_code.
        by rewrite Hk. }
      pose proof (Hem pid comb code Hcode
                    {| env_state := sim_state sim; env_locals := ∅ |}) as Hsets.
      destruct (code _) as [r0 env]. intros [= <- <-]. simpl in *.
      by apply (sets_only_inv I _ _ I_slot_set Hsets).
    + unfold coroutine_run. destruct (get_coroutine pid sim); [| by intros [= <- <-]].
      destruct (stop_waiting_inv pid sim Hsim) as [H1 _].
      pose proof (attrs_stop_waiting default_of default_of_set_waits_on pid sim) as H2.
      destruct (stop_waiting pid sim) as [[[] | e] sim1]; simpl in H1, H2.
      * apply run_loop_inv; [done |].
        rewrite get_default_cmd_attrs, H2.
        destruct (attrs default_of sim !! pid) as [c0 |] eqn:Hc0; [| done].
        by apply (Forall_lookup_1 _ _ _ _ Hd Hc0).
      * by intros [= <- <-].
Qed.

Lemma run_each_inv fuel pids sim r sim' :
  whole_inv sim →
  run_each shape lhs_signals normalize resume fuel pids sim = Some (r, sim') →
  whole_inv sim'.
Proof.
  revert sim. induction pids as [| pid pids IH]; intros sim Hinv; cbn [run_each].
  - by intros [= <- <-].
  - assert (Hinv0 : whole_inv (update_process pid (set_runnable false) sim)).
    { apply (sim_inv_attrs sim); [| | | done].
      - by apply attrs_update_runnable.
      - by apply attrs_update_runnable.
      - by destruct Hinv. }
    destruct (process_run _ _ _ _ _ _ _) as [[[[] | e] sim1] |] eqn:Hrun; [| | done].
    + apply IH. by eapply process_run_inv.
    + intros [= <- <-]. by eapply process_run_inv.
Qed.

Hypothesis I_commit : ∀ sim, I (sim_state sim) → I (sim_state (commit sim).2).

Lemma delta_inv fuel sim r sim' :
  whole_inv sim →
  delta shape lhs_signals normalize resume fuel sim = Some (r, sim') →
  whole_inv sim'.
Proof.
  intros Hinv. unfold delta.
  rewrite (run_processes_each _ _ _ _ fuel _ sim (NoDup_seq _ _)).
  destruct (run_each _ _ _ _ _ _ _) as [[[[] | e] sim1] |] eqn:Hrun; [| | done];
    pose proof (run_each_inv _ _ _ _ _ Hinv Hrun) as Hinv1.
  - assert (Hinv2 : whole_inv (commit sim1).2).
    { apply (sim_inv_attrs sim1); [by apply commit_attrs | by apply commit_attrs | | done].
      apply I_commit. by destruct Hinv1. }
    destruct (commit sim1) as [b sim2]. by intros [= <- <-].
  - by intros [= <- <-].
Qed.

Lemma settle_inv rounds fuel sim r sim' :
  whole_inv sim →
  settle shape lhs_signals normalize resume rounds fuel sim = Some (r, sim') →
  whole_inv sim'.
Proof.
  revert sim. induction rounds as [| rounds IH]; intros sim Hinv; [done |].
  cbn [settle].
  destruct (delta _ _ _ _ _ _) as [[[[] | e] sim1] |] eqn:Hdelta; [| | | done];
    pose proof (delta_inv _ _ _ _ Hinv Hdelta) as Hinv1.
  - by apply IH.
  - by intros [= <- <-].
  - by intros [= <- <-].
Qed.

Hypothesis I_advance : ∀ sim, I (sim_state sim) → I (sim_state (advance sim).2).

Lemma wake_attrs {X} (f : @Process G → X) (l : list nat) (procs : list (@Process G)) :
  (∀ b p, f (set_runnable b p) = f p) →
  f <$> foldl (λ procs p, alter (set_runnable true) p procs) procs l = f <$> procs.
Proof.
  intros Hf. revert procs. induction l as [| p l IH]; intros procs; cbn [foldl]; [done |].
  rewrite IH. apply list_eq. intros j. rewrite !list_lookup_fmap, list_lookup_alter.
  case_decide as Hj; [subst j |]; [| done].
  destruct (procs !! p); simpl; [| done]. by rewrite Hf.
Qed.

(** [advance] changes only the [runnable] attribute of processes. *)
Lemma advance_attrs {X} (f : @Process G → X) sim :
  (∀ b p, f (set_runnable b p) = f p) →
  attrs f (advance sim).2 = attrs f sim.
Proof.
  intros Hf. unfold advance.
  destruct (nearest _ _ _ _) as [[np nd] | e]; [| done].
  case_decide; [done |]. simpl. rewrite wake_deadline_all. simpl.
  by apply wake_attrs.
Qed.

Lemma advance_inv sim : whole_inv sim → whole_inv (advance sim).2.
Proof.
  intros Hinv.
  apply (sim_inv_attrs sim); [by apply advance_attrs | by apply advance_attrs | | done].
  apply I_advance. by destruct Hinv.
Qed.

Lemma step_inv rounds fuel sim r sim' :
  whole_inv sim →
  step shape lhs_signals normalize resume rounds fuel sim = Some (r, sim') →
  whole_inv sim'.
Proof.
  intros Hinv. unfold step.
  destruct (settle _ _ _ _ _ _ _) as [[[[] | e] sim1] |] eqn:Hsettle; [| | done];
    pose proof (settle_inv _ _ _ _ _ Hinv Hsettle) as Hinv1.
  - pose proof (advance_inv sim1 Hinv1) as Hinv2.
    destruct (advance sim1) as [[b | e] sim2]; by intros [= <- <-].
  - by intros [= <- <-].
Qed.

Lemma run_inv steps rounds fuel sim r sim' :
  whole_inv sim →
  run shape lhs_signals normalize resume steps rounds fuel sim = Some (r, sim') →
  whole_inv sim'.
Proof.
  revert sim. induction steps as [| steps IH]; intros sim Hinv; [done |].
  cbn [run].
  destruct (step _ _ _ _ _ _ _) as [[[[] | e] sim1] |] eqn:Hstep; [| | | done];
    pose proof (step_inv _ _ _ _ _ Hinv Hstep) as Hinv1.
  - by apply IH.
  - by intros [= <- <-].
  - by intros [= <- <-].
Qed.

Lemma run_until_inv steps rounds fuel deadline run_passive sim r sim' :
  whole_inv sim →
  run_until shape lhs_signals normalize resume steps rounds fuel deadline run_passive sim
  = Some (r, sim') →
  whole_inv sim'.
Proof.
  unfold run_until. destruct (_ <=? _)%Z; [| by intros ? [= <- <-]].
  revert sim. induction steps as [| steps IH]; intros sim Hinv; [done |].
  cbn [run_until_loop].
  destruct (step _ _ _ _ _ _ _) as [[[b | e] sim1] |] eqn:Hstep; [| | done];
    pose proof (step_inv _ _ _ _ _ Hinv Hstep) as Hinv1.
  - destruct (_ && _); [by apply IH | by intros [= <- <-]].
  - by intros [= <- <-].
Qed.

End RunInvariant.

(** ** Deadlines and the engine time *)

Lemma elem_of_dict_set {V} k (v : V) d e :
  e ∈ dict_set k v d → e = (k, v) ∨ e ∈ d.
Proof.
  induction d as [| [k' v'] d IH]; simpl.
  - intros ->%list_elem_of_singleton. by left.
  - case_decide.
    + intros [-> | He]%elem_of_cons; [by left | right; by right].
    + intros [-> | He]%elem_of_cons; [right; by left |].
      destruct (IH He) as [-> | Hd]; [by left | right; by right].
Qed.

Lemma elem_of_dict_del {V} k (d : list (nat * V)) e :
  e ∈ dict_del k d → e ∈ d.
Proof.
  induction d as [| [k' v'] d IH]; simpl; [done |].
  case_decide.
  - intros He. by right.
  - intros [-> | He]%elem_of_cons; [by left | right; by apply IH].
Qed.

Lemma elem_of_dict_del_all {V} (l : list nat) (d : list (nat * V)) e :
  e ∈ foldl (λ d p, dict_del p d) d l → e ∈ d.
Proof.
  revert d. induction l as [| p l IH]; intros d; cbn [foldl]; [done |].
  intros He%IH. by eapply elem_of_dict_del.
Qed.

Lemma time_from_get_signal t0 s st : time_from t0 st → time_from t0 (get_signal s st).2.
Proof.
  unfold get_signal. by destruct (dict_get _ _) as [[? ?] |].
Qed.

Lemma time_from_slot_set t0 index value st :
  time_from t0 st → time_from t0 (slot_set index value st).
Proof.
  unfold slot_set. destruct (slots st !! index); [| done]. by destruct (_ =? _)%Z.
Qed.

Lemma time_from_deadline t0 st pid d :
  time_from t0 st →
  (∀ t, d = Some t → (timestamp st ≤ t)%Z) →
  time_from t0 (with_deadlines (dict_set pid d) st).
Proof.
  intros [Hd Ht] Hnew. split; [| done].
  intros p t [[= ? ?] | Hin]%elem_of_dict_set; simpl; [subst; by apply Hnew | by apply (Hd p)].
Qed.

Lemma time_from_commit {G} t0 (sim : @Simulator G) :
  time_from t0 (sim_state sim) → time_from t0 (sim_state (commit sim).2).
Proof. by rewrite commit_state. Qed.

(** The scan of [advance] over a map whose deadlines are not before the
    engine time: it does not raise, and what it finds is not before the
    engine time and not after any deadline of the map. *)
Lemma nearest_ok now ds :
  (∀ p d, (p, Some d) ∈ ds → (now ≤ d)%Z) →
  ∃ np nd,
    nearest now ds ∅ None = Ok (np, nd) ∧
    (np ≠ ∅ → ∃ t, nd = Some t ∧ (now ≤ t)%Z ∧ ∀ p d, (p, Some d) ∈ ds → (t ≤ d)%Z).
Proof.
  intros Hge.
  destruct (first_none_or_concrete ds) as [(l1 & p & l2 & -> & Hl1) | Hsome].
  - exists {[p]}, (Some now). split.
    + apply nearest_first_none; [| done]. apply concrete_from_intro; [| done].
      intros q d Hin. apply (Hge q). apply elem_of_app. by left.
    + intros _. exists now. split; [done |]. split; [lia | exact Hge].
  - destruct (nearest_concrete now ds [] ∅ None) as (np & nd & Hn & Hsc).
    { by apply concrete_from_intro. }
    { done. }
    exists np, nd. split; [done |]. simpl in Hsc.
    destruct nd as [t |]; [| by destruct Hsc as [-> _]].
    destruct Hsc as (_ & (q & Hq) & Hmin).
    intros _. exists t. split; [done |]. split; [by apply (Hge q) | exact Hmin].
Qed.

Lemma advance_time_from {G} t0 (sim : @Simulator G) :
  time_from t0 (sim_state sim) →
  (∃ b, (advance sim).1 = Ok b) ∧
  time_from t0 (sim_state (advance sim).2) ∧
  (timestamp (sim_state sim) ≤ timestamp (sim_state (advance sim).2))%Z ∧
  deadlines (sim_state (advance sim).2) ⊆ deadlines (sim_state sim).
Proof.
  intros [Hd Ht]. unfold advance.
  destruct (nearest_ok _ _ Hd) as (np & nd & -> & Hnd).
  case_decide as Hnp.
  { simpl. split; [by eauto |]. split; [by split |]. split; [lia | done]. }
  destruct (Hnd Hnp) as (t & -> & Hnow & Hmin). simpl.
  rewrite wake_deadline_all. simpl.
  split; [by eauto |]. split; [| split; [done |]].
  - split; [| simpl; lia].
    intros p d Hin. simpl in *. apply elem_of_dict_del_all in Hin. by apply (Hmin p).
  - intros e He. by apply elem_of_dict_del_all in He.
Qed.

(** X1: [advance] keeps the deadlines in the future: when no deadline of
    the map is before the engine time, [advance] does not raise, no
    deadline left is before the engine time it sets, the engine time does
    not go backwards, and every entry left was in the map before. *)
Theorem advance_keeps_deadlines {G} (sim : @Simulator G) :
  deadlines_ok (sim_state sim) →
  (∃ b, (advance sim).1 = Ok b) ∧
  deadlines_ok (sim_state (advance sim).2) ∧
  (timestamp (sim_state sim) ≤ timestamp (sim_state (advance sim).2))%Z ∧
  deadlines (sim_state (advance sim).2) ⊆ deadlines (sim_state sim).
Proof.
  intros Hd.
  destruct (advance_time_from (timestamp (sim_state sim)) sim ltac:(by split))
    as (Hb & [Hd' _] & Hle & Hsub).
  done.
Qed.

Lemma advance_keeps_deadlines_witness :
  deadlines (sim_state ticker_waiting) = [(0, Some 1%Z)] ∧
  timestamp (sim_state ticker_waiting) = 0%Z ∧
  (advance ticker_waiting).1 = Ok true ∧
  timestamp (sim_state (advance ticker_waiting).2) = 1%Z ∧
  deadlines_ok (sim_state (advance ticker_waiting).2).
Proof.
  assert (Hd : deadlines_ok (sim_state ticker_waiting)).
  { intros p d Hin. vm_compute in Hin.
    apply list_elem_of_singleton in Hin as [= ? ?]. subst. by vm_compute. }
  destruct (advance_keeps_deadlines ticker_waiting Hd) as (_ & Hd' & _ & _).
  repeat split; try (vm_compute; reflexivity). exact Hd'.
Defined.

Lemma concrete_from_cons now e l :
  concrete_from now (e :: l) ↔ (∃ d, e.2 = Some d ∧ (now ≤ d)%Z) ∧ concrete_from now l.
Proof. unfold concrete_from. by rewrite Forall_cons. Qed.

(** When the scan of [advance] raises. *)
Lemma nearest_raises now ds np nd e :
  (∀ n, nd = Some n → (now ≤ n)%Z) →
  nearest now ds np nd = Raise e ↔
  e = AssertionError ∧
  ∃ l1 p d l2, ds = l1 ++ (p, Some d) :: l2 ∧ concrete_from now l1 ∧ (d < now)%Z.
Proof.
  revert np nd. induction ds as [| [q [d0 |]] ds IH]; intros np nd Hnd; simpl.
  - split; [done |]. intros (_ & l1 & p & d & l2 & Heq & _). by destruct l1.
  - assert (Hcons : (∃ l1 p d l2, (q, Some d0) :: ds = l1 ++ (p, Some d) :: l2 ∧
                       concrete_from now l1 ∧ (d < now)%Z) ↔
                    (d0 < now)%Z ∨
                    ((now ≤ d0)%Z ∧
                     ∃ l1 p d l2, ds = l1 ++ (p, Some d) :: l2 ∧
                       concrete_from now l1 ∧ (d < now)%Z)).
    { split.
      - intros (l1 & p & d & l2 & Heq & Hl1 & Hd).
        destruct l1 as [| x l1]; simpl in Heq.
        + simplify_eq. by left.
        + simplify_eq.
          apply concrete_from_cons in Hl1 as [(d1 & [= <-] & Hd1) Hl1].
          right. split; [done |]. by exists l1, p, d, l2.
      - intros [Hlt | (Hge & l1 & p & d & l2 & -> & Hl1 & Hd)].
        + exists [], q, d0, ds. split; [done |]. split; [constructor | done].
        + exists ((q, Some d0) :: l1), p, d, l2. split; [done |].
          split; [| done]. apply concrete_from_cons. split; [by exists d0 | done]. }
    rewrite Hcons. clear Hcons.
    destruct (Z.geb_spec d0 now) as [Hge | Hlt].
    + assert (Hiff : ∀ X : Prop, (d0 < now)%Z ∨ (now ≤ d0)%Z ∧ X ↔ X)
        by (intros X; split; [intros [? | [_ ?]]; [lia | done] | right; split; [lia | done]]).
      rewrite Hiff.
      destruct (match nd with Some n => (d0 <=? n)%Z | None => true end).
      * apply IH. intros n [= <-]. lia.
      * by apply IH.
    + assert (Hcond : match nd with Some n => (d0 <=? n)%Z | None => true end = true).
      { destruct nd as [n |]; [| done]. apply Z.leb_le. specialize (Hnd n eq_refl). lia. }
      rewrite Hcond. split; [intros [= <-]; split; [done | by left] | by intros [-> _]].
  - split; [done |]. intros (_ & l1 & p & d & l2 & Heq & Hl1 & _).
    destruct l1 as [| x l1]; simpl in Heq; [done |].
    simplify_eq.
    by apply concrete_from_cons in Hl1 as [(d1 & [=] & _) _].
Qed.

(** X2: [advance] fails its assertion exactly when the scan of the deadline
    map comes to a deadline before the engine time, having passed only
    deadlines that are not; it then leaves everything as it was. *)
Theorem advance_raises {G} (sim : @Simulator G) e :
  ((advance sim).1 = Raise e ↔
   e = AssertionError ∧
   ∃ l1 p d l2,
     deadlines (sim_state sim) = l1 ++ (p, Some d) :: l2 ∧
     concrete_from (timestamp (sim_state sim)) l1 ∧
     (d < timestamp (sim_state sim))%Z) ∧
  ((advance sim).1 = Raise e → (advance sim).2 = sim).
Proof.
  pose proof (nearest_raises (timestamp (sim_state sim)) (deadlines (sim_state sim))
                ∅ None e ltac:(done)) as Hn.
  unfold advance. destruct (nearest _ _ _ _) as [[np nd] | e0].
  - split.
    + rewrite <- Hn. by case_decide.
    + by case_decide.
  - simpl. split; [| done]. rewrite <- Hn. split; by intros [= <-].
Qed.

Section Time.
Variable shape : Value → Shape.
Variable lhs_signals : Statement → list Signal.
Variable normalize : Z → Shape → Z.
Context {G : Type}.
Variable resume : G → Resume → Outcome G.
Implicit Types (sim : @Simulator G).

(** No testbench asks for a negative delay. *)
Hypothesis delays_ok : ∀ g r command g',
  resume g r = Yielded command g' → command_ok (λ interval, 0 ≤ interval)%Z command.

(** The store during a delta cycle started at time [t]. *)
Lemma delta_time t fuel sim r sim' :
  sim_inv (λ st, deadlines_ok st ∧ timestamp st = t) (λ interval, 0 ≤ interval)%Z sim →
  delta shape lhs_signals normalize resume fuel sim = Some (r, sim') →
  sim_inv (λ st, deadlines_ok st ∧ timestamp st = t) (λ interval, 0 ≤ interval)%Z sim'.
Proof.
  apply (delta_inv shape lhs_signals normalize resume
           (λ st, deadlines_ok st ∧ timestamp st = t) (λ interval, 0 ≤ interval)%Z).
  - intros s st. unfold get_signal. by destruct (dict_get _ _) as [[? ?] |].
  - intros index value st. unfold slot_set.
    destruct (slots st !! index); [| done]. by destruct (_ =? _)%Z.
  - done.
  - intros st pid [Hd Ht]. split; [| done].
    intros p d [[=] | Hin]%elem_of_dict_set. by apply (Hd p).
  - intros st pid interval [Hd Ht] Hi. split; [| done].
    intros p d [[= ? ?] | Hin]%elem_of_dict_set; simpl; [subst; lia | by apply (Hd p)].
  - exact delays_ok.
  - intros sim0. by rewrite commit_state.
Qed.

Lemma time_from_closed t0 :
  (∀ s st, time_from t0 st → time_from t0 (get_signal s st).2) ∧
  (∀ index value st, time_from t0 st → time_from t0 (slot_set index value st)) ∧
  (∀ st index ss ws,
     time_from t0 st → slots st !! index = Some ss →
     time_from t0 (with_slots (λ l, <[index := set_waiters ws ss]> l) st)) ∧
  (∀ st pid, time_from t0 st → time_from t0 (with_deadlines (dict_set pid None) st)) ∧
  (∀ st pid interval,
     time_from t0 st → (0 ≤ interval)%Z →
     time_from t0 (with_deadlines (dict_set pid (Some (timestamp st + interval)%Z)) st)) ∧
  (∀ sim, time_from t0 (sim_state sim) → time_from t0 (sim_state (commit sim).2)) ∧
  (∀ sim, time_from t0 (sim_state sim) → time_from t0 (sim_state (advance sim).2)).
Proof.
  split; [apply time_from_get_signal |]. split; [apply time_from_slot_set |].
  split; [done |].
  split; [intros st pid Hst; by apply time_from_deadline |].
  split; [intros st pid interval Hst Hi; apply time_from_deadline; [done |];
          intros t [= <-]; lia |].
  split; [intros sim; apply time_from_commit |].
  intros sim Hst. by destruct (advance_time_from t0 sim Hst) as (_ & ? & _).
Qed.

Lemma step_time t0 rounds fuel sim r sim' :
  sim_inv (time_from t0) (λ interval, 0 ≤ interval)%Z sim →
  step shape lhs_signals normalize resume rounds fuel sim = Some (r, sim') →
  sim_inv (time_from t0) (λ interval, 0 ≤ interval)%Z sim'.
Proof.
  destruct (time_from_closed t0) as (H1 & H2 & H3 & H4 & H5 & H6 & H7).
  by apply (step_inv shape lhs_signals normalize resume (time_from t0)
              (λ interval, 0 ≤ interval)%Z).
Qed.

Lemma run_until_loop_exit steps rounds fuel deadline run_passive sim sim' :
  run_until_loop shape lhs_signals normalize resume steps rounds fuel deadline
    run_passive sim = Some (Ok (), sim') →
  (deadline ≤ timestamp (sim_state sim'))%Z ∨
  (run_passive = false ∧ any_active sim' = false).
Proof.
  revert sim. induction steps as [| steps IH]; intros sim; [done |].
  cbn [run_until_loop].
  destruct (step _ _ _ _ _ _ _) as [[[active | e] sim1] |] eqn:Hstep; [| done | done].
  destruct ((active || run_passive) && _) eqn:Hgo; [apply IH |].
  intros [= <-]. apply andb_false_iff in Hgo as [Hidle | Hlate].
  - right. apply orb_false_iff in Hidle as [-> ->]. split; [done |].
    revert Hstep. unfold step.
    destruct (settle _ _ _ _ _ _ _) as [[[[] | e] sim2] |]; [| done | done].
    destruct (advance sim2) as [[b | e] sim3]; [| done].
    by intros [= Ha <-].
  - left. by apply Z.ltb_ge.
Qed.

(** X3: a delta cycle takes no time: it leaves the engine time as it is
    and, when no testbench asks for a negative delay, every deadline in the
    future. *)
Theorem delta_takes_no_time fuel sim r sim' :
  deadlines_ok (sim_state sim) →
  emitted_processes sim →
  Forall (command_ok (λ interval, 0 ≤ interval)%Z) (attrs default_of sim) →
  delta shape lhs_signals normalize resume fuel sim = Some (r, sim') →
  timestamp (sim_state sim') = timestamp (sim_state sim) ∧
  deadlines_ok (sim_state sim').
Proof.
  intros Hd Hem Hdef Hdelta.
  destruct (delta_time (timestamp (sim_state sim)) fuel sim r sim') as ([? ?] & _); done.
Qed.

(** X4: [run_until] fails its assertion, changing nothing, when the deadline
    is before the engine time; otherwise, when it returns, the engine time
    has not gone backwards, every deadline is still in the future, and
    either the engine time has reached the deadline or [run_passive] is off
    and no process is active. *)
Theorem run_until_spec steps rounds fuel deadline run_passive sim :
  deadlines_ok (sim_state sim) →
  emitted_processes sim →
  Forall (command_ok (λ interval, 0 ≤ interval)%Z) (attrs default_of sim) →
  ((deadline < timestamp (sim_state sim))%Z →
   run_until shape lhs_signals normalize resume steps rounds fuel deadline run_passive sim
   = Some (Raise AssertionError, sim)) ∧
  (∀ r sim',
     run_until shape lhs_signals normalize resume steps rounds fuel deadline run_passive sim
     = Some (r, sim') →
     (timestamp (sim_state sim) ≤ timestamp (sim_state sim'))%Z ∧
     deadlines_ok (sim_state sim') ∧
     (r = Ok () →
      (deadline ≤ timestamp (sim_state sim'))%Z ∨
      (run_passive = false ∧ any_active sim' = false))).
Proof.
  intros Hd Hem Hdef. split.
  - intros Hlt. unfold run_until. by rewrite (proj2 (Z.leb_gt _ _)).
  - intros r sim' Hrun.
    destruct (time_from_closed (timestamp (sim_state sim)))
      as (H1 & H2 & H3 & H4 & H5 & H6 & H7).
    destruct (run_until_inv shape lhs_signals normalize resume
                (time_from (timestamp (sim_state sim))) (λ interval, 0 ≤ interval)%Z
                H1 H2 H3 H4 H5 delays_ok H6 H7
                steps rounds fuel deadline run_passive sim r sim')
      as ([Hd' Ht'] & _); [| done |].
    { split; [split; [done | lia] | done]. }
    split; [done |]. split; [done |].
    intros ->. revert Hrun. unfold run_until.
    destruct (_ <=? _)%Z; [apply run_until_loop_exit | done].
Qed.

(** X5: [step] returns whether a process is active in the state it leaves,
    and [run] returns only when none is; neither lets the engine time go
    backwards. *)
Theorem run_spec steps rounds fuel sim :
  deadlines_ok (sim_state sim) →
  emitted_processes sim →
  Forall (command_ok (λ interval, 0 ≤ interval)%Z) (attrs default_of sim) →
  (∀ active sim',
     step shape lhs_signals normalize resume rounds fuel sim = Some (Ok active, sim') →
     active = any_active sim' ∧
     (timestamp (sim_state sim) ≤ timestamp (sim_state sim'))%Z) ∧
  (∀ sim',
     run shape lhs_signals normalize resume steps rounds fuel sim = Some (Ok (), sim') →
     any_active sim' = false ∧
     (timestamp (sim_state sim) ≤ timestamp (sim_state sim'))%Z).
Proof.
  intros Hd Hem Hdef.
  destruct (time_from_closed (timestamp (sim_state sim)))
    as (H1 & H2 & H3 & H4 & H5 & H6 & H7).
  assert (Hinv : sim_inv (time_from (timestamp (sim_state sim)))
                   (λ interval, 0 ≤ interval)%Z sim).
  { split; [split; [done | lia] | done]. }
  split.
  - intros active sim' Hstep.
    destruct (step_time _ _ _ _ _ _ Hinv Hstep) as ([_ Ht] & _). split; [| done].
    revert Hstep. unfold step.
    destruct (settle _ _ _ _ _ _ _) as [[[[] | e] sim2] |]; [| done | done].
    destruct (advance sim2) as [[b | e] sim3]; [| done].
    by intros [= <- <-].
  - intros sim' Hrun.
    destruct (run_inv shape lhs_signals normalize resume
                (time_from (timestamp (sim_state sim))) (λ interval, 0 ≤ interval)%Z
                H1 H2 H3 H4 H5 delays_ok H6 H7 steps rounds fuel sim (Ok ()) sim' Hinv Hrun)
      as ([_ Ht] & _).
    split; [| done]. clear Hinv Ht H1 H2 H3 H4 H5 H6 H7. revert sim Hd Hem Hdef Hrun.
    induction steps as [| n IH]; intros sim Hd Hem Hdef; [done |]. cbn [run].
    destruct (step _ _ _ _ _ _ _) as [[[[] | e] sim1] |] eqn:Hstep; [| | done | done].
    + assert (Hinv : sim_inv (time_from (timestamp (sim_state sim)))
                       (λ interval, 0 ≤ interval)%Z sim).
      { split; [split; [done | lia] | done]. }
      destruct (step_time _ _ _ _ _ _ Hinv Hstep) as ([Hd1 _] & Hem1 & Hdef1).
      by apply IH.
    + intros [= <-]. revert Hstep. unfold step.
      destruct (settle _ _ _ _ _ _ _) as [[[[] | e] sim2] |]; [| done | done].
      destruct (advance sim2) as [[b | e] sim3]; [| done].
      by intros [= Ha <-].
Qed.

End Time.

Lemma ticker_delays g r command g' :
  ticker_resume g r = Yielded command g' →
  command_ok (λ interval, 0 ≤ interval)%Z command.
Proof. destruct r, g; simpl; try done. intros [= <- _]. simpl. lia. Qed.

Lemma ticker_emitted n : emitted_processes (ticker n).
Proof.
  intros [| pid] comb code; [done |]. unfold attrs. simpl. by rewrite lookup_nil.
Qed.

Lemma ticker_defaults n :
  Forall (command_ok (λ interval, 0 ≤ interval)%Z) (attrs default_of (ticker n)).
Proof. by repeat constructor. Qed.

Lemma ticker_deadlines n : deadlines_ok (sim_state (ticker n)).
Proof. intros p d Hin. by apply elem_of_nil in Hin. Qed.

Lemma delta_takes_no_time_witness :
  delta unsigned4 no_lhs_signals no_normalize ticker_resume 8 (ticker 2)
  = Some (Ok false, ticker_delta) ∧
  deadlines (sim_state ticker_delta) = [(0, Some 1%Z)] ∧
  timestamp (sim_state ticker_delta) = timestamp (sim_state (ticker 2)) ∧
  deadlines_ok (sim_state ticker_delta).
Proof.
  assert (Hdelta : delta unsigned4 no_lhs_signals no_normalize ticker_resume 8 (ticker 2)
                   = Some (Ok false, ticker_delta)) by (vm_compute; reflexivity).
  split; [exact Hdelta |]. split; [vm_compute; reflexivity |].
  exact (delta_takes_no_time unsigned4 no_lhs_signals no_normalize ticker_resume
           ticker_delays 8 (ticker 2) (Ok false) ticker_delta
           (ticker_deadlines 2) (ticker_emitted 2) (ticker_defaults 2) Hdelta).
Defined.

Lemma run_until_spec_witness :
  run_until unsigned4 no_lhs_signals no_normalize ticker_resume 8 8 8 2 false (ticker 2)
  = Some (Ok (), ticker_at_2) ∧
  timestamp (sim_state ticker_at_2) = 2%Z ∧
  deadlines (sim_state ticker_at_2) = [] ∧
  deadlines_ok (sim_state ticker_at_2) ∧
  ((2 ≤ timestamp (sim_state ticker_at_2))%Z ∨ any_active ticker_at_2 = false).
Proof.
  assert (Hrun : run_until unsigned4 no_lhs_signals no_normalize ticker_resume 8 8 8 2
                   false (ticker 2) = Some (Ok (), ticker_at_2))
    by (vm_compute; reflexivity).
  destruct (run_until_spec unsigned4 no_lhs_signals no_normalize ticker_resume
              ticker_delays 8 8 8 2 false (ticker 2)
              (ticker_deadlines 2) (ticker_emitted 2) (ticker_defaults 2))
    as [_ Hret].
  destruct (Hret (Ok ()) ticker_at_2 Hrun) as (_ & Hd & Hexit).
  split; [exact Hrun |]. split; [vm_compute; reflexivity |].
  split; [vm_compute; reflexivity |]. split; [exact Hd |].
  destruct (Hexit eq_refl) as [Hle | [_ Hidle]]; [by left | by right].
Defined.

Lemma run_spec_witness :
  ∃ sim',
    run unsigned4 no_lhs_signals no_normalize ticker_resume 8 8 8 (ticker 2)
    = Some (Ok (), sim') ∧
    any_active sim' = false ∧ timestamp (sim_state sim') = 2%Z.
Proof.
  destruct (run_spec unsigned4 no_lhs_signals no_normalize ticker_resume
              ticker_delays 8 8 8 (ticker 2)
              (ticker_deadlines 2) (ticker_emitted 2) (ticker_defaults 2))
    as [_ Hrun].
  destruct (run unsigned4 no_lhs_signals no_normalize ticker_resume 8 8 8 (ticker 2))
    as [[[[] | e] sim'] |] eqn:Heq; try (vm_compute in Heq; discriminate).
  exists sim'. split; [done |]. destruct (Hrun sim' eq_refl) as [Hidle _].
  split; [exact Hidle |]. vm_compute in Heq. by injection Heq as <-.
Defined.

(** ** What running processes leaves alone *)

Lemma dict_get_set_ne {V} k k' (v : V) d :
  k ≠ k' → dict_get k (dict_set k' v d) = dict_get k d.
Proof.
  intros Hne. induction d as [| [k0 v0] d IH]; simpl.
  - by rewrite decide_False by done.
  - destruct (decide (k0 = k')) as [-> | Hk0]; simpl.
    + by rewrite !decide_False by done.
    + case_decide; [done | exact IH].
Qed.

Lemma same_currents_refl st : same_currents st st.
Proof. split; [| done]. intros index ss Hss. by exists ss. Qed.

Lemma same_currents_get_signal st0 s st :
  same_currents st0 st → same_currents st0 (get_signal s st).2.
Proof.
  intros (Hsl & Hsig & Ht). unfold get_signal.
  destruct (dict_get (sig_id s) (signals st)) as [[s' i] |] eqn:Hget; [done |].
  split; [| split; [| done]]; simpl.
  - intros index ss Hss. destruct (Hsl index ss Hss) as (ss' & Hss' & ?).
    exists ss'. split; [| done]. by apply lookup_app_l_Some.
  - intros k e He. apply Hsig in He.
    rewrite dict_get_set_ne; [done |]. intros ->. congruence.
Qed.

Lemma same_currents_slot_set st0 index value st :
  same_currents st0 st → same_currents st0 (slot_set index value st).
Proof.
  intros (Hsl & Hsig & Ht). unfold slot_set.
  destruct (slots st !! index) as [ss1 |] eqn:Hss1; [| done].
  destruct (_ =? _)%Z; [done |].
  split; [| done]. simpl. intros j ss Hss. destruct (Hsl j ss Hss) as (ss' & Hss' & Hs & Hc).
  rewrite list_lookup_insert. case_decide as Hj; [| by exists ss'].
  destruct Hj as [<- _]. eexists. split; [done |]. simpl. by simplify_eq.
Qed.

Lemma same_currents_waiters st0 st index ss ws :
  same_currents st0 st → slots st !! index = Some ss →
  same_currents st0 (with_slots (λ l, <[index := set_waiters ws ss]> l) st).
Proof.
  intros (Hsl & Hsig & Ht) Hss1.
  split; [| done]. simpl. intros j ss0 Hss0.
  destruct (Hsl j ss0 Hss0) as (ss' & Hss' & Hs & Hc).
  rewrite list_lookup_insert. case_decide as Hj; [| by exists ss'].
  destruct Hj as [<- _]. eexists. split; [done |]. simpl. by simplify_eq.
Qed.

Lemma any_command_ok command : command_ok (λ _, True) command.
Proof. by destruct command as [[| | | | [] | | |] |]. Qed.

Section Frame.
Variable shape : Value → Shape.
Variable lhs_signals : Statement → list Signal.
Variable normalize : Z → Shape → Z.
Context {G : Type}.
Variable resume : G → Resume → Outcome G.
Implicit Types (sim : @Simulator G).

Lemma sim_inv_same_currents sim :
  emitted_processes sim →
  sim_inv (same_currents (sim_state sim)) (λ _, True) sim.
Proof.
  intros Hem. split; [apply same_currents_refl |]. split; [done |].
  apply Forall_forall. intros c _. apply any_command_ok.
Qed.

(** X6: while processes run nothing changes a current value: after the run
    of a process, and after the runs of all the processes of a delta cycle,
    every slot there was still holds the same signal with the same current
    value, every signal is still at the same index, and the engine time is
    the same. *)
Theorem runs_keep_currents fuel sim :
  emitted_processes sim →
  (∀ pid r sim',
     process_run shape lhs_signals normalize resume fuel pid sim = Some (r, sim') →
     same_currents (sim_state sim) (sim_state sim')) ∧
  (∀ r sim',
     run_processes shape lhs_signals normalize resume fuel
       (seq 0 (length (sim_processes sim))) sim = Some (r, sim') →
     same_currents (sim_state sim) (sim_state sim')).
Proof.
  intros Hem. pose proof (sim_inv_same_currents sim Hem) as Hinv. split.
  - intros pid r sim' Hrun.
    eapply (process_run_inv shape lhs_signals normalize resume
              (same_currents (sim_state sim)) (λ _, True)); try exact Hrun; try exact Hinv.
    + apply same_currents_get_signal.
    + intros index value st. apply same_currents_slot_set.
    + intros st index ss ws. apply same_currents_waiters.
    + done.
    + done.
    + intros g r0 command g' _. apply any_command_ok.
  - intros r sim'. rewrite (run_processes_each _ _ _ _ fuel _ sim (NoDup_seq _ _)).
    intros Hrun.
    eapply (run_each_inv shape lhs_signals normalize resume
              (same_currents (sim_state sim)) (λ _, True)); try exact Hrun; try exact Hinv.
    + apply same_currents_get_signal.
    + intros index value st. apply same_currents_slot_set.
    + intros st index ss ws. apply same_currents_waiters.
    + done.
    + done.
    + intros g r0 command g' _. apply any_command_ok.
Qed.

End Frame.

Lemma bench_emitted script st :
  emitted_processes (with_state st (bench_simulator script)).
Proof.
  intros [| pid] comb code; [done |]. unfold attrs. simpl. by rewrite lookup_nil.
Qed.

Lemma runs_keep_currents_witness :
  process_run unsigned4 nibble_lhs no_normalize script_resume 8 0 assign_bench
  = Some (Ok (), assign_ran) ∧
  next <$> slots (sim_state assign_ran) = [1%Z] ∧
  curr <$> slots (sim_state assign_ran) = [0%Z] ∧
  same_currents (sim_state assign_bench) (sim_state assign_ran).
Proof.
  assert (Hrun : process_run unsigned4 nibble_lhs no_normalize script_resume 8 0
                   assign_bench = Some (Ok (), assign_ran)) by (vm_compute; reflexivity).
  split; [exact Hrun |]. split; [vm_compute; reflexivity |].
  split; [vm_compute; reflexivity |].
  destruct (runs_keep_currents unsigned4 nibble_lhs no_normalize script_resume 8
              assign_bench (bench_emitted _ _)) as [Hone _].
  exact (Hone 0 (Ok ()) assign_ran Hrun).
Defined.

(** ** Settling *)

Lemma wakeup_none {G} ss (procs : list (@Process G)) :
  (wakeup ss procs).1 = false → (wakeup ss procs).2 = procs.
Proof.
  unfold wakeup.
  assert (H : ∀ (ws : list (nat * option Z)) (procs : list (@Process G)) b,
            let r := foldl (λ '(awoken_any, procs) '(process, trigger),
                              if triggered ss trigger
                              then (true, alter (set_runnable true) process procs)
                              else (awoken_any, procs)) (b, procs) ws in
            r.1 = false → r = (b, procs)).
  { clear procs. induction ws as [| [p t] ws IH]; intros procs b; simpl; [by destruct b |].
    destruct (triggered ss t); [| apply IH].
    intros Hfalse. pose proof (IH _ _ Hfalse) as Heq. simpl in Heq.
    rewrite Heq in Hfalse. done. }
  intros Hfalse. by rewrite (H _ _ _ Hfalse).
Qed.

Lemma commit_fold_none {G} l b sl (procs : list (@Process G)) :
  (foldl commit_slot (b, sl, procs) l).1.1 = false →
  (foldl commit_slot (b, sl, procs) l).2 = procs.
Proof.
  revert b sl procs. induction l as [| index l IH]; intros b sl procs; cbn [foldl]; [done |].
  intros Hfalse.
  assert (Hb : b = false ∧ (commit_slot (b, sl, procs) index).1.1 = false).
  { destruct (commit_slot_spec b sl procs index) as (b1 & procs1 & Heq & Hb1).
    rewrite Heq in Hfalse |- *.
    destruct (commit_fold_spec l b1 (alter (λ ss, set_curr (next ss) ss) index sl) procs1)
      as (b' & procs' & Heq' & Hb').
    rewrite Heq' in Hfalse. simpl in Hfalse. subst b'.
    destruct b1; [by pose proof (proj2 Hb' (or_introl eq_refl)) |].
    split; [| done]. destruct b; [| done]. by pose proof (proj2 Hb1 (or_introl eq_refl)). }
  destruct Hb as [-> Hstep].
  assert (Hprocs : (commit_slot (false, sl, procs) index).2 = procs).
  { revert Hstep. unfold commit_slot. destruct (sl !! index) as [ss |]; [| done].
    destruct (slot_commit ss) as [[] ss']; [| done].
    pose proof (wakeup_none ss' procs) as Hw.
    destruct (wakeup ss' procs) as [[] procs']; [done |]. simpl. intros _. by apply Hw. }
  destruct (commit_slot (false, sl, procs) index) as [[b1 sl1] procs1].
  simpl in Hstep, Hprocs. subst. by apply IH.
Qed.

Lemma commit_none {G} (sim : @Simulator G) :
  (commit sim).1 = false → sim_processes (commit sim).2 = sim_processes sim.
Proof.
  unfold commit.
  pose proof (commit_fold_none (elements (pending (sim_state sim))) false
                (slots (sim_state sim)) (sim_processes sim)) as H.
  destruct (foldl _ _ _) as [[b sl] procs]. simpl in *. exact H.
Qed.

Lemma clear_all (l : list bool) (pids : list nat) q :
  foldl (λ l pid, <[pid := false]> l) l pids !! q
  = if decide (q ∈ pids) then (λ _, false) <$> l !! q else l !! q.
Proof.
  revert l. induction pids as [| pid pids IH]; intros l; cbn [foldl].
  - rewrite decide_False by apply not_elem_of_nil. done.
  - rewrite IH. rewrite list_lookup_insert.
    destruct (decide (pid = q ∧ pid < length l)) as [[-> Hlt] | Hq].
    + apply lookup_lt_is_Some in Hlt as [b Hb].
      destruct (decide (q ∈ q :: pids)) as [_ | Hn];
        [| destruct Hn; apply list_elem_of_here].
      rewrite Hb. by destruct (decide (q ∈ pids)).
    + destruct (decide (q ∈ pids)) as [Hin | Hnotin].
      * destruct (decide (q ∈ pid :: pids)) as [_ | Hn];
          [done | destruct Hn; by apply list_elem_of_further].
      * destruct (decide (q ∈ pid :: pids)) as [[-> | ?]%elem_of_cons | ?]; [| done | done].
        destruct (l !! pid) as [b |] eqn:Hb; [| done].
        exfalso. apply Hq. split; [done |]. by apply lookup_lt_Some in Hb.
Qed.

Section Settle.
Variable shape : Value → Shape.
Variable lhs_signals : Statement → list Signal.
Variable normalize : Z → Shape → Z.
Context {G : Type}.
Variable resume : G → Resume → Outcome G.
Implicit Types (sim : @Simulator G).

Lemma flags_clear pid sim :
  attrs runnable (update_process pid (set_runnable false) sim)
  = <[pid := false]> (attrs runnable sim).
Proof.
  unfold attrs, update_process, with_processes. simpl.
  apply list_eq. intros j. rewrite list_lookup_insert, !list_lookup_fmap, list_lookup_alter.
  rewrite length_fmap.
  case_decide as Hj.
  - subst j. case_decide as Hj.
    + destruct Hj as [_ Hlt]. apply lookup_lt_is_Some in Hlt as [p ->]. done.
    + destruct (sim_processes sim !! pid) as [p |] eqn:Hp; [| done].
      exfalso. apply Hj. split; [done |]. by apply lookup_lt_Some in Hp.
  - case_decide as Hj'; [by destruct Hj' | done].
Qed.

Lemma run_each_flags fuel pids sim sim' :
  run_each shape lhs_signals normalize resume fuel pids sim = Some (Ok (), sim') →
  attrs runnable sim' = foldl (λ l pid, <[pid := false]> l) (attrs runnable sim) pids.
Proof.
  revert sim. induction pids as [| pid pids IH]; intros sim; cbn [run_each foldl].
  - by intros [= <-].
  - destruct (process_run _ _ _ _ _ _ _) as [[[[] | e] sim1] |] eqn:Hrun; [| done | done].
    intros Hrest%IH. rewrite Hrest.
    by rewrite (flags_process_run _ _ _ _ _ _ _ _ _ Hrun), flags_clear.
Qed.

Lemma run_each_quiet fuel sim sim' :
  run_each shape lhs_signals normalize resume fuel (runnable_processes sim) sim
  = Some (Ok (), sim') →
  Forall (λ p, runnable p = false) (sim_processes sim').
Proof.
  intros Hflags%run_each_flags. apply Forall_lookup. intros q p Hp. simpl.
  assert (Hq : attrs runnable sim' !! q = Some (runnable p)).
  { unfold attrs. by rewrite list_lookup_fmap, Hp. }
  rewrite Hflags, clear_all in Hq.
  case_decide as Hin.
  - destruct (attrs runnable sim !! q); by simplify_eq/=.
  - destruct (runnable p) eqn:Hr; [| done]. exfalso. apply Hin.
    unfold runnable_processes. apply list_elem_of_filter.
    split; [by rewrite runnable_flags |].
    apply elem_of_seq. split; [lia |]. simpl.
    apply lookup_lt_Some in Hq. unfold attrs in Hq. by rewrite length_fmap in Hq.
Qed.

Lemma run_processes_quiet fuel pids sim :
  Forall (λ p, runnable p = false) (sim_processes sim) →
  run_processes shape lhs_signals normalize resume fuel pids sim = Some (Ok (), sim).
Proof.
  intros Hq. induction pids as [| pid pids IH]; [done |]. cbn [run_processes].
  destruct (sim_processes sim !! pid) as [p |] eqn:Hp; simpl; [| exact IH].
  rewrite (Forall_lookup_1 _ _ _ _ Hq Hp). exact IH.
Qed.

Lemma commit_quiet sim : pending (sim_state sim) = ∅ → commit sim = (false, sim).
Proof.
  intros Hp. unfold commit. rewrite Hp, elements_empty. simpl.
  destruct sim as [[] ? ?]. simpl in *. by subst.
Qed.

Lemma delta_quiet fuel sim : quiescent sim →
  delta shape lhs_signals normalize resume fuel sim = Some (Ok false, sim).
Proof.
  intros [Hq Hp]. unfold delta. rewrite run_processes_quiet by done.
  by rewrite commit_quiet.
Qed.

Lemma delta_false fuel sim sim' :
  delta shape lhs_signals normalize resume fuel sim = Some (Ok false, sim') →
  quiescent sim'.
Proof.
  unfold delta. rewrite (run_processes_each _ _ _ _ fuel _ sim (NoDup_seq _ _)).
  fold (runnable_processes sim).
  destruct (run_each _ _ _ _ _ _ _) as [[[[] | e] sim1] |] eqn:Hrun; [| done | done].
  apply run_each_quiet in Hrun.
  pose proof (commit_none sim1) as Hprocs. pose proof (commit_state sim1) as Hstate.
  destruct (commit sim1) as [b sim2]. intros [= -> <-]. simpl in *.
  split; [by rewrite Hprocs | by rewrite Hstate].
Qed.

(** X7: a delta cycle that returns false leaves nothing to do: no process
    is runnable and no slot is pending, and every further delta cycle
    returns false and changes nothing.  So when [_settle] returns, the
    simulator is at a fixed point of [_delta]. *)
Theorem settle_fixed_point rounds fuel sim sim' :
  (delta shape lhs_signals normalize resume fuel sim = Some (Ok false, sim') ∨
   settle shape lhs_signals normalize resume rounds fuel sim = Some (Ok (), sim')) →
  quiescent sim' ∧
  (∀ fuel', delta shape lhs_signals normalize resume fuel' sim' = Some (Ok false, sim')) ∧
  (∀ rounds' fuel',
     settle shape lhs_signals normalize resume (S rounds') fuel' sim' = Some (Ok (), sim')).
Proof.
  intros H.
  assert (Hq : quiescent sim').
  { destruct H as [Hdelta | Hsettle]; [by eapply delta_false |].
    revert sim Hsettle. induction rounds as [| rounds IH]; intros sim; [done |].
    cbn [settle].
    destruct (delta _ _ _ _ _ _) as [[[[] | e] sim1] |] eqn:Hdelta; [| | done | done].
    - apply IH.
    - intros [= <-]. by eapply delta_false. }
  split; [done |]. split.
  - intros fuel'. by apply delta_quiet.
  - intros rounds' fuel'. cbn [settle]. by rewrite delta_quiet.
Qed.

End Settle.

Lemma settle_fixed_point_witness :
  delta unsigned4 no_lhs_signals no_normalize ticker_resume 8 (ticker 2)
  = Some (Ok false, ticker_delta) ∧
  quiescent ticker_delta ∧
  delta unsigned4 no_lhs_signals no_normalize ticker_resume 3 ticker_delta
  = Some (Ok false, ticker_delta).
Proof.
  assert (Hdelta : delta unsigned4 no_lhs_signals no_normalize ticker_resume 8 (ticker 2)
                   = Some (Ok false, ticker_delta)) by (vm_compute; reflexivity).
  destruct (settle_fixed_point unsigned4 no_lhs_signals no_normalize ticker_resume
              0 8 (ticker 2) ticker_delta (or_introl Hdelta)) as (Hq & Hd & _).
  split; [exact Hdelta |]. split; [exact Hq | exact (Hd 3)].
Defined.

(** ** Waiting on a signal, and leaving the wait *)

Lemma dict_del_set {V} k (v : V) d :
  dict_get k d = None → dict_del k (dict_set k v d) = d.
Proof.
  induction d as [| [k' v'] d IH]; simpl.
  - by rewrite decide_True.
  - destruct (decide (k' = k)) as [-> | Hne]; [done |]. simpl.
    rewrite decide_False by done. intros Hd. by rewrite IH.
Qed.

Section Waits.
Context {G : Type}.
Implicit Types (sim : @Simulator G).

(** X8: a wait registered by [get_in_signal] is taken back by the head of
    the next [run]: for a coroutine process that waits on nothing, the
    slot's waiter map gets the process with its trigger and the process
    remembers the slot; leaving the wait then gives back the waiter maps as
    they were and the process as it was. *)
Theorem wait_round_trip pid s trigger sim sim1 constructor default_cmd coroutine exec_locals p :
  sim_processes sim !! pid = Some p →
  kind p = CoroutineProcess constructor default_cmd coroutine exec_locals ∅ →
  get_in_signal pid s trigger sim = (Ok (), sim1) →
  let index := (get_signal s (sim_state sim)).1 in
  (∃ ss, slots (get_signal s (sim_state sim)).2 !! index = Some ss ∧
         dict_get pid (waiters ss) = None ∧
         slots (sim_state sim1) !! index
         = Some (set_waiters (dict_set pid trigger (waiters ss)) ss)) ∧
  get_waits_on pid sim1 = {[index]} ∧
  stop_waiting pid sim1
  = (Ok (), with_state (λ _, (get_signal s (sim_state sim)).2) sim).
Proof.
  intros Hp Hk. unfold get_in_signal.
  destruct (get_signal s (sim_state sim)) as [index st] eqn:Hget. simpl.
  destruct (slots st !! index) as [ss |] eqn:Hss; [| done].
  destruct (dict_get pid (waiters ss)) eqn:Hw; [done |].
  intros [= <-].
  assert (Hwaits : ∀ sim0 : @Simulator G,
            sim_processes sim0 = sim_processes sim → get_waits_on pid sim0 = ∅).
  { intros sim0 Hprocs. unfold get_waits_on. by rewrite Hprocs, Hp; simpl; rewrite Hk. }
  assert (Hwaits1 : ∀ sim0 : @Simulator G,
            sim_processes sim0 = sim_processes sim →
            get_waits_on pid (update_process pid (set_waits_on ({[index]} ∪ ∅)) sim0)
            = {[index]}).
  { intros sim0 Hprocs. unfold get_waits_on, update_process, with_processes. simpl.
    rewrite Hprocs, list_lookup_alter_eq, Hp. simpl. unfold set_waits_on. rewrite Hk.
    simpl. by rewrite (right_id_L ∅ (∪)). }
  split; [| split].
  - exists ss. split; [done |]. split; [done |]. simpl.
    rewrite list_lookup_insert_eq; [done |]. by apply lookup_lt_Some in Hss.
  - rewrite (Hwaits (with_state (λ _, st) sim)) by done. by apply Hwaits1.
  - unfold stop_waiting. rewrite (Hwaits (with_state (λ _, st) sim)) by done.
    rewrite Hwaits1 by done. rewrite elements_singleton. cbn [foldl].
    unfold stop_waiting_on. simpl.
    rewrite list_lookup_insert_eq by by apply lookup_lt_Some in Hss.
    simpl. rewrite dict_get_set, dict_del_set by done.
    f_equal. unfold update_process, with_processes, with_state, with_slots. simpl.
    f_equal.
    + rewrite list_insert_insert_eq.
      replace (set_waiters (waiters ss) (set_waiters (dict_set pid trigger (waiters ss)) ss))
        with ss by by destruct ss.
      rewrite list_insert_id by done. by destruct st.
    + apply list_eq. intros j. destruct (decide (pid = j)) as [<- | Hne].
      * rewrite !list_lookup_alter_eq, Hp. simpl. f_equal.
        destruct p as [ru pa k]. simpl in Hk. subst k. done.
      * by rewrite !list_lookup_alter_ne.
Qed.

End Waits.

Lemma wait_round_trip_witness :
  waiters <$> slots (sim_state tick_wait) = [[(0, Some 1%Z)]] ∧
  get_waits_on 0 tick_wait = {[0]} ∧
  stop_waiting 0 tick_wait
  = (Ok (),
     with_state (λ _, (get_signal (clk sync_domain) init_state).2)
       (bench_simulator tick_script)).
Proof.
  assert (Hwait : get_in_signal 0 (clk sync_domain) (Some 1%Z) (bench_simulator tick_script)
                  = (Ok (), tick_wait)) by (vm_compute; reflexivity).
  destruct (wait_round_trip 0 (clk sync_domain) (Some 1%Z) (bench_simulator tick_script)
              tick_wait tick_script None (Some (Suspended tick_script)) ∅ _
              eq_refl eq_refl Hwait) as (_ & Hw & Hstop).
  split; [vm_compute; reflexivity |]. split; [exact Hw | exact Hstop].
Defined.

(** ** What compiling does to the store, and what the emitted code does *)

Lemma grows_refl st : grows st st.
Proof. split; [| done]. exists []. by rewrite app_nil_r. Qed.

Lemma grows_get_signal st0 s st : grows st0 st → grows st0 (get_signal s st).2.
Proof.
  intros ((added & Hsl) & Hsig & Hp & Ht & Hd). unfold get_signal.
  destruct (dict_get (sig_id s) (signals st)) as [[s' i] |] eqn:Hget.
  - split; [by exists added | done].
  - split; [| split; [| done]]; simpl.
    + exists (added ++ [s]). by rewrite Hsl, fmap_app, app_assoc.
    + intros k e He. apply Hsig in He.
      rewrite dict_get_set_ne; [done |]. intros ->. congruence.
Qed.

Lemma reads_only_pass : reads_only c_pass.
Proof. done. Qed.

Lemma reads_only_assign x e : reads_only (c_assign x e).
Proof. intros env. unfold c_assign. by destruct (e env). Qed.

Lemma reads_only_seq a b : reads_only a → reads_only b → reads_only (c_seq a b).
Proof.
  intros Ha Hb env. unfold c_seq, mbind, se_bind.
  specialize (Ha env). destruct (a env) as [[[] | e] env1]; simpl in *; [| done].
  by rewrite Hb.
Qed.

Lemma reads_only_if branches orelse :
  Forall (λ b, reads_only b.2) branches → reads_only orelse →
  reads_only (c_if branches orelse).
Proof.
  intros Hb Ho. induction Hb as [| [cond body] branches Hbody _ IH]; [done |].
  intros env. simpl. destruct (cond env) as [x | e]; [| done].
  destruct (truthy x); [apply Hbody | apply IH].
Qed.

Lemma only_next_refl st : only_next st st.
Proof.
  do 5 (split; [done |]). intros index ss Hss. exists ss. by repeat split.
Qed.

Lemma only_next_slot_set st0 index value st :
  only_next st0 st → only_next st0 (slot_set index value st).
Proof.
  intros (Hsig & Ht & Hd & Hp & Hlen & Hsl). unfold slot_set.
  destruct (slots st !! index) as [ss1 |] eqn:Hss1; [| done].
  destruct (Z.eqb_spec (next ss1) value) as [Heq | Hne]; [done |].
  do 3 (split; [done |]). split; [simpl; set_solver |].
  split; [simpl; by rewrite length_insert |].
  simpl. intros j ss Hss. destruct (Hsl j ss Hss) as (ss' & Hss' & Hs & Hc & Hw & Hn).
  rewrite list_lookup_insert. case_decide as Hj.
  - destruct Hj as [<- _]. eexists. split; [done |]. simpl.
    simplify_eq. repeat split; try done. intros _. set_solver.
  - exists ss'. repeat split; try done. intros Hn'. set_solver.
Qed.

Lemma sets_only_only_next st st' : sets_only st st' → only_next st st'.
Proof.
  intros Hsets.
  apply (sets_only_inv (only_next st) st st'); [| done | apply only_next_refl].
  intros index value st1. apply only_next_slot_set.
Qed.

Section Compiled.
Variable shape : Value → Shape.
Variable lhs_signals : Statement → list Signal.

(** X9: compiling reads the store and allocates: whether it succeeds or
    raises, [_RHSValueCompiler.compile] and [_StatementCompiler.compile]
    leave every slot there was as it is, append slots at their reset
    values for signals not seen before, keep every signal at its index,
    and touch neither the pending set nor the time nor the deadlines. *)
Theorem compile_only_allocates mode v s st :
  grows st (rhs_compile shape mode v st).2 ∧
  grows st (stmt_compile shape lhs_signals s st).2.
Proof.
  split.
  - assert (H : keeps (grows st) (λ _ : Code, True) (rhs_compile shape mode v)).
    { apply rhs_compile_inv; try done. apply grows_get_signal. }
    exact (proj1 (H st (grows_refl st))).
  - assert (H : keeps (grows st) (λ _ : Code, True) (stmt_compile shape lhs_signals s)).
    { apply stmt_compile_inv; try done. apply grows_get_signal. }
    exact (proj1 (H st (grows_refl st))).
Qed.

(** X10: the code compiled for a value only reads: run in any environment,
    whether it finishes or raises, it leaves the store as it is. *)
Theorem value_code_reads_only mode v st code env :
  (rhs_compile shape mode v st).1 = Ok code →
  env_state (code env).2 = env_state env.
Proof.
  intros Hcode.
  assert (H : keeps (λ _, True) reads_only (rhs_compile shape mode v)).
  { apply rhs_compile_inv; try done.
    - apply reads_only_assign.
    - apply reads_only_seq.
    - apply reads_only_if. }
  by apply (proj2 (H st I) code Hcode).
Qed.

(** X11: the code compiled for a statement writes next values only: run in
    any environment, whether it finishes or raises, it leaves every
    current value, every waiter map, the signal table, the time and the
    deadlines as they are, and every slot whose next value it changes is
    pending afterwards. *)
Theorem statement_code_only_next s st code env :
  (stmt_compile shape lhs_signals s st).1 = Ok code →
  only_next (env_state env) (env_state (code env).2).
Proof.
  intros Hcode.
  assert (H : keeps (λ _, True) writes_by_set (stmt_compile shape lhs_signals s)).
  { destruct writes_by_set_closed as (Hpass & Hassign & Hseq & Hif & Hset).
    by apply stmt_compile_inv. }
  apply sets_only_only_next. by apply (proj2 (H st I) code Hcode).
Qed.

End Compiled.

Lemma value_code_reads_only_witness :
  ∃ code,
    (rhs_compile unsigned4 mode_curr (Operator "+" [VSignal nibble; Const 1]) init_state).1
    = Ok code ∧
    env_state (code {| env_state := (get_signal nibble init_state).2;
                       env_locals := ∅ |}).2
    = (get_signal nibble init_state).2.
Proof.
  eexists. split; [reflexivity |].
  exact (value_code_reads_only unsigned4 mode_curr
           (Operator "+" [VSignal nibble; Const 1]) init_state _
           {| env_state := (get_signal nibble init_state).2; env_locals := ∅ |} eq_refl).
Defined.

Lemma statement_code_only_next_witness :
  ∃ code,
    (stmt_compile unsigned4 nibble_lhs (Assign (VSignal nibble) (Const 1)) init_state).1
    = Ok code ∧
    only_next (get_signal nibble init_state).2
      (env_state (code {| env_state := (get_signal nibble init_state).2;
                          env_locals := ∅ |}).2).
Proof.
  eexists. split; [reflexivity |].
  exact (statement_code_only_next unsigned4 nibble_lhs
           (Assign (VSignal nibble) (Const 1)) init_state _
           {| env_state := (get_signal nibble init_state).2; env_locals := ∅ |} eq_refl).
Defined.

(** ** The signal table *)

Lemma dict_get_elem {V} k (v : V) d : dict_get k d = Some v → (k, v) ∈ d.
Proof.
  induction d as [| [k' v'] d IH]; simpl; [done |].
  case_decide as Hk.
  - intros [= ->]. subst. apply list_elem_of_here.
  - intros Hd. apply list_elem_of_further. by apply IH.
Qed.

Lemma dict_get_None {V} k (v : V) d : dict_get k d = None → (k, v) ∉ d.
Proof.
  induction d as [| [k' v'] d IH]; simpl; [intros _; apply not_elem_of_nil |].
  case_decide as Hk; [done |].
  intros Hd [[= ? ?] | Hin]%elem_of_cons; [by subst | by apply IH].
Qed.

Lemma elem_of_dict_set_fresh {V} k (v : V) d e :
  dict_get k d = None → e ∈ dict_set k v d ↔ e = (k, v) ∨ e ∈ d.
Proof.
  intros Hk. split; [apply elem_of_dict_set |].
  induction d as [| [k' v'] d IH]; simpl in *.
  - intros [-> | []%elem_of_nil]. apply list_elem_of_here.
  - case_decide as Hk'; [done |].
    intros [-> | [-> | Hin]%elem_of_cons].
    + apply list_elem_of_further. apply IH; [done | by left].
    + apply list_elem_of_here.
    + apply list_elem_of_further. apply IH; [done | by right].
Qed.

Lemma get_signal_entry s st :
  ∃ s', dict_get (sig_id s) (signals (get_signal s st).2) = Some (s', (get_signal s st).1).
Proof.
  unfold get_signal.
  destruct (dict_get (sig_id s) (signals st)) as [[s' i] |] eqn:Hget; simpl.
  - by exists s'.
  - exists s. by rewrite dict_get_set.
Qed.

(** X12: [get_signal] gives a signal one slot for good: asked again for the
    same signal it returns the same index and changes nothing, and the
    table then has the signal at that index.  A signal of the table gets
    its index and the store stays as it is; a new one gets the number of
    slots as index and a slot at its reset value is appended.  Every
    signal of the table keeps its index, and nothing else of the store
    changes. *)
Theorem get_signal_spec s st :
  get_signal s (get_signal s st).2 = get_signal s st ∧
  (∃ s', dict_get (sig_id s) (signals (get_signal s st).2) = Some (s', (get_signal s st).1)) ∧
  (∀ e, dict_get (sig_id s) (signals st) = Some e → get_signal s st = (e.2, st)) ∧
  (dict_get (sig_id s) (signals st) = None →
   (get_signal s st).1 = length (slots st) ∧
   slots (get_signal s st).2 = slots st ++ [new_slot s]) ∧
  (∀ s0 e, dict_get (sig_id s0) (signals st) = Some e →
     get_signal s0 (get_signal s st).2 = (e.2, (get_signal s st).2)) ∧
  grows st (get_signal s st).2.
Proof.
  split; [| split; [| split; [| split; [| split]]]].
  - unfold get_signal at 2 3.
    destruct (dict_get (sig_id s) (signals st)) as [[s' i] |] eqn:Hget; simpl.
    + unfold get_signal. by rewrite Hget.
    + unfold get_signal. simpl. by rewrite dict_get_set.
  - apply get_signal_entry.
  - intros [s' i] He. unfold get_signal. by rewrite He.
  - intros Hnone. unfold get_signal. by rewrite Hnone.
  - intros s0 [s' i] He.
    pose proof (grows_get_signal st s st (grows_refl st)) as (_ & Hsig & _).
    apply Hsig in He. unfold get_signal at 1. by rewrite He.
  - apply grows_get_signal, grows_refl.
Qed.

(** ** Invariants of every reachable state *)

Lemma alter_insert {A} (f : A → A) (l : list A) i x :
  l !! i = Some x → alter f i l = <[i := f x]> l.
Proof.
  intros Hx. apply list_eq. intros j. rewrite list_lookup_alter, list_lookup_insert.
  pose proof (lookup_lt_Some _ _ _ Hx).
  destruct (decide (i = j)) as [<- |].
  - by rewrite decide_True, Hx.
  - by rewrite decide_False by tauto.
Qed.

Section ReachableInvariant.
Variable shape : Value → Shape.
Variable lhs_signals : Statement → list Signal.
Variable normalize : Z → Shape → Z.
Context {G : Type}.
Variable resume : G → Resume → Outcome G.
Variable I : SimulatorState → Prop.
Implicit Types (sim : @Simulator G).

Hypothesis I_init : I init_state.
Hypothesis I_get_signal : ∀ s st, I st → I (get_signal s st).2.
Hypothesis I_slot_set : ∀ index value st, I st → I (slot_set index value st).
Hypothesis I_waiters : ∀ st index ws,
  I st → I (with_slots (alter (set_waiters ws) index) st).
Hypothesis I_deadlines : ∀ st f, I st → I (with_deadlines f st).
Hypothesis I_commit : ∀ sim, I (sim_state sim) → I (sim_state (commit sim).2).
Hypothesis I_timestamp : ∀ st t, I st → I (with_timestamp t st).
Hypothesis I_reset : ∀ st, I st → I (state_reset st).

Lemma reachable_inv sim :
  reachable shape lhs_signals normalize resume sim → I (sim_state sim).
Proof.
  induction 1 as [procs doms | sim s _ IH | sim index value _ IH
                 | sim index ws _ IH | sim f _ IH | sim f _ IH
                 | sim fuel pid r sim' _ IH Hem Hrun
                 | sim _ IH | sim _ IH | sim _ IH]; simpl.
  - exact I_init.
  - by apply I_get_signal.
  - by apply I_slot_set.
  - by apply I_waiters.
  - by apply I_deadlines.
  - done.
  - assert (Hinv : sim_inv I (λ _, True) sim).
    { split; [done |]. split; [done |].
      apply Forall_forall. intros c _. apply any_command_ok. }
    eapply (process_run_inv shape lhs_signals normalize resume I (λ _, True));
      try exact Hrun; try exact Hinv; try done.
    + intros st index ss ws Hst Hss.
      replace (with_slots (λ l, <[index := set_waiters ws ss]> l) st)
        with (with_slots (alter (set_waiters ws) index) st); [by apply I_waiters |].
      unfold with_slots. f_equal. by apply alter_insert.
    + intros st pid0 Hst. by apply I_deadlines.
    + intros st pid0 interval Hst _. by apply I_deadlines.
    + intros g r0 command g' _. apply any_command_ok.
  - by apply I_commit.
  - destruct (advance_state sim) as (t & ds & ->).
    apply I_timestamp. by apply (I_deadlines _ (λ _, ds)).
  - by apply I_reset.
Qed.

End ReachableInvariant.

Lemma table_ok_init : table_ok init_state.
Proof.
  split.
  - intros k s index []%elem_of_nil.
  - intros index ss. simpl. by rewrite lookup_nil.
Qed.

Lemma table_ok_get_signal s st : table_ok st → table_ok (get_signal s st).2.
Proof.
  intros [Htab Hsl]. unfold get_signal.
  destruct (dict_get (sig_id s) (signals st)) as [[s' i] |] eqn:Hget; [done |].
  split; simpl.
  - intros k s0 index [[= -> -> ->] | Hin]%elem_of_dict_set.
    + split; [done |]. exists (new_slot s). split; [| done].
      by rewrite lookup_app_r, Nat.sub_diag.
    + destruct (Htab k s0 index Hin) as (-> & ss & Hss & <-).
      split; [done |]. exists ss. split; [| done]. by apply lookup_app_l_Some.
  - intros index ss Hss. apply elem_of_dict_set_fresh; [done |].
    apply lookup_app_Some in Hss as [Hss | [Hlen Hss]].
    + right. by apply Hsl.
    + left. destruct (index - length (slots st)) as [| n] eqn:Hn; [| done].
      simpl in Hss. injection Hss as <-. simpl.
      do 2 f_equal. lia.
Qed.

(** A change of the slots that keeps the signal of each. *)
Lemma table_ok_slots st (f : list SignalState → list SignalState) :
  (∀ index, signal <$> f (slots st) !! index = signal <$> slots st !! index) →
  table_ok st → table_ok (with_slots f st).
Proof.
  intros Hf [Htab Hsl]. split; simpl.
  - intros k s index Hin. destruct (Htab k s index Hin) as (-> & ss & Hss & <-).
    split; [done |]. specialize (Hf index). rewrite Hss in Hf.
    destruct (f (slots st) !! index) as [ss' |]; [| done].
    exists ss'. split; [done |]. by injection Hf.
  - intros index ss Hss. specialize (Hf index). rewrite Hss in Hf.
    destruct (slots st !! index) as [ss0 |] eqn:Hss0; [| done].
    injection Hf as ->. by apply Hsl.
Qed.

Lemma table_ok_slot_set index value st : table_ok st → table_ok (slot_set index value st).
Proof.
  intros Hst. unfold slot_set.
  destruct (slots st !! index) as [ss |] eqn:Hss; [| done].
  destruct (_ =? _)%Z; [done |].
  apply (table_ok_slots (with_pending _ st)); [| done].
  intros j. simpl. rewrite list_lookup_insert. case_decide as Hj; [| done].
  destruct Hj as [<- _]. by rewrite Hss.
Qed.

Lemma table_ok_alter (g : SignalState → SignalState) index st :
  (∀ ss, signal (g ss) = signal ss) →
  table_ok st → table_ok (with_slots (alter g index) st).
Proof.
  intros Hg. apply table_ok_slots. intros j. rewrite list_lookup_alter.
  case_decide as Hj; [subst j | done].
  destruct (slots st !! index); [| done]. simpl. by rewrite Hg.
Qed.

Lemma table_ok_commit {G} (sim : @Simulator G) :
  table_ok (sim_state sim) → table_ok (sim_state (commit sim).2).
Proof.
  intros Hst. rewrite commit_state.
  assert (H : table_ok
                (with_slots
                   (λ sl, foldl (λ sl index, alter (λ ss, set_curr (next ss) ss) index sl)
                                sl (elements (pending (sim_state sim))))
                   (sim_state sim))); [| exact H].
  apply table_ok_slots; [| done].
  intros j. rewrite commit_all_lookup. case_decide; [| done].
  by destruct (slots (sim_state sim) !! j).
Qed.

Lemma reset_fold_signal (l : list (nat * (Signal * nat))) (sl : list SignalState) j :
  signal <$>
    foldl (λ l '(_, (s, index)),
             match l !! index with
             | Some ss => <[index := set_next (sig_reset s) (set_curr (sig_reset s) ss)]> l
             | None => l
             end) sl l !! j
  = signal <$> sl !! j.
Proof.
  revert sl. induction l as [| [k [s index]] l IH]; intros sl; cbn [foldl]; [done |].
  rewrite IH. destruct (sl !! index) as [ss |] eqn:Hss; [| done].
  rewrite list_lookup_insert. case_decide as Hj; [| done].
  destruct Hj as [<- _]. by rewrite Hss.
Qed.

Lemma table_ok_reset st : table_ok st → table_ok (state_reset st).
Proof.
  intros [Htab Hsl]. split; simpl.
  - intros k s index Hin. destruct (Htab k s index Hin) as (-> & ss & Hss & <-).
    split; [done |]. pose proof (reset_fold_signal (signals st) (slots st) index) as Hf.
    rewrite Hss in Hf. destruct (foldl _ _ _ !! index) as [ss' |]; [| done].
    exists ss'. split; [done |]. by injection Hf.
  - intros index ss Hss.
    pose proof (reset_fold_signal (signals st) (slots st) index) as Hf.
    rewrite Hss in Hf. destruct (slots st !! index) as [ss0 |] eqn:Hss0; [| done].
    injection Hf as ->. by apply Hsl.
Qed.

Section Table.
Variable shape : Value → Shape.
Variable lhs_signals : Statement → list Signal.
Variable normalize : Z → Shape → Z.
Context {G : Type}.
Variable resume : G → Resume → Outcome G.
Implicit Types (sim : @Simulator G).

Lemma reachable_table_ok sim :
  reachable shape lhs_signals normalize resume sim → table_ok (sim_state sim).
Proof.
  apply (reachable_inv shape lhs_signals normalize resume table_ok).
  - apply table_ok_init.
  - apply table_ok_get_signal.
  - apply table_ok_slot_set.
  - intros st index ws. by apply table_ok_alter.
  - done.
  - apply table_ok_commit.
  - done.
  - apply table_ok_reset.
Qed.

End Table.

(** ** Reset *)

Lemma reset_fold_value (l : list (nat * (Signal * nat))) (sl : list SignalState) j ss' :
  foldl (λ l '(_, (s, index)),
           match l !! index with
           | Some ss => <[index := set_next (sig_reset s) (set_curr (sig_reset s) ss)]> l
           | None => l
           end) sl l !! j = Some ss' →
  ∃ ss, sl !! j = Some ss ∧ signal ss' = signal ss ∧ waiters ss' = waiters ss ∧
        if decide (j ∈ l.*2.*2)
        then (∀ k s, (k, (s, j)) ∈ l → s = signal ss) →
             curr ss' = sig_reset (signal ss) ∧ next ss' = sig_reset (signal ss)
        else ss' = ss.
Proof.
  revert sl. induction l as [| [k [s index]] l IH]; intros sl; cbn [foldl].
  - intros Hss. exists ss'. by rewrite decide_False by apply not_elem_of_nil.
  - intros Hss. apply IH in Hss as (ss1 & Hss1 & Hsig & Hw & Hval).
    assert (Hstep : ∃ ss, sl !! j = Some ss ∧ signal ss1 = signal ss ∧
                          waiters ss1 = waiters ss ∧
                          if decide (j = index)
                          then ss1 = set_next (sig_reset s) (set_curr (sig_reset s) ss)
                          else ss1 = ss).
    { destruct (sl !! index) as [ss0 |] eqn:Hss0.
      - destruct (decide (index = j)) as [<- | Hj].
        + rewrite list_lookup_insert_eq in Hss1 by by apply lookup_lt_Some in Hss0.
          simplify_eq. exists ss0. by rewrite decide_True.
        + rewrite list_lookup_insert_ne in Hss1 by done.
          exists ss1. by rewrite decide_False by done.
      - exists ss1. rewrite decide_False; [done |]. intros ->. congruence. }
    destruct Hstep as (ss & Hss & Hsig1 & Hw1 & Hstep).
    exists ss. split; [done |]. split; [congruence |]. split; [congruence |].
    cbn [fmap list_fmap]. simpl.
    destruct (decide (j ∈ l.*2.*2)) as [Hin | Hnotin].
    + rewrite decide_True by by apply list_elem_of_further.
      intros Hall. rewrite <- Hsig1. apply Hval.
      intros k' s' Hin'. rewrite Hsig1. apply (Hall k'). by apply list_elem_of_further.
    + subst ss'. destruct (decide (j = index)) as [-> | Hne].
      * rewrite decide_True by apply list_elem_of_here.
        intros Hall. subst ss1. simpl.
        by rewrite (Hall k s (list_elem_of_here _ _)).
      * subst ss1. rewrite decide_False; [done |].
        intros [? | ?]%elem_of_cons; done.
Qed.

Lemma reset_fold_length (l : list (nat * (Signal * nat))) (sl : list SignalState) :
  length (foldl (λ l '(_, (s, index)),
                   match l !! index with
                   | Some ss =>
                       <[index := set_next (sig_reset s) (set_curr (sig_reset s) ss)]> l
                   | None => l
                   end) sl l) = length sl.
Proof.
  revert sl. induction l as [| [k [s index]] l IH]; intros sl; cbn [foldl]; [done |].
  rewrite IH. destruct (sl !! index); [by rewrite length_insert | done].
Qed.

Section Reset.
Variable shape : Value → Shape.
Variable lhs_signals : Statement → list Signal.
Variable normalize : Z → Shape → Z.
Context {G : Type}.
Variable resume : G → Resume → Outcome G.
Implicit Types (sim : @Simulator G).

(** X13: in every reachable state [Simulator.reset] puts every slot at the
    reset value of its signal, as current and as next value, keeping the
    slot's signal and its waiter map; it empties the pending set and the
    deadline map, sets the engine time to 0, keeps the signal table, and
    resets every process: a compiled process is runnable exactly when it
    is combinatorial and is passive, a coroutine process is runnable and
    active, with a fresh coroutine and nothing it waits on. *)
Theorem reset_spec sim :
  reachable shape lhs_signals normalize resume sim →
  (∀ index ss', slots (sim_state (reset sim)) !! index = Some ss' →
     curr ss' = sig_reset (signal ss') ∧ next ss' = sig_reset (signal ss') ∧
     ∃ ss, slots (sim_state sim) !! index = Some ss ∧
           signal ss' = signal ss ∧ waiters ss' = waiters ss) ∧
  length (slots (sim_state (reset sim))) = length (slots (sim_state sim)) ∧
  signals (sim_state (reset sim)) = signals (sim_state sim) ∧
  pending (sim_state (reset sim)) = ∅ ∧
  deadlines (sim_state (reset sim)) = [] ∧
  timestamp (sim_state (reset sim)) = 0%Z ∧
  length (sim_processes (reset sim)) = length (sim_processes sim) ∧
  (∀ pid p', sim_processes (reset sim) !! pid = Some p' →
     match kind p' with
     | CompiledProcess comb _ => runnable p' = comb ∧ passive p' = true
     | CoroutineProcess constructor _ coroutine _ waits_on =>
         runnable p' = true ∧ passive p' = false ∧
         coroutine = Some (Suspended constructor) ∧ waits_on = ∅
     end).
Proof.
  intros [Htab Hsl]%reachable_table_ok.
  split; [| split; [apply reset_fold_length |]].
  - intros index ss' Hss'. simpl in Hss'.
    apply reset_fold_value in Hss' as (ss & Hss & Hsig & Hw & Hval).
    rewrite decide_True in Hval.
    + rewrite Hsig. split; [| split; [| by exists ss]]; apply Hval;
        intros k s Hin; destruct (Htab k s index Hin) as (_ & ss0 & Hss0 & <-); congruence.
    + apply list_elem_of_fmap. exists (signal ss, index). split; [done |].
      apply list_elem_of_fmap. eexists. split; [| by apply Hsl]. done.
  - do 4 (split; [done |]). split; [simpl; by rewrite length_fmap |].
    intros pid p'. simpl. rewrite list_lookup_fmap.
    destruct (sim_processes sim !! pid) as [p |]; [| done]. simpl. intros [= <-].
    unfold process_reset. by destruct (kind p).
Qed.

End Reset.

Lemma reset_spec_witness :
  (curr <$> slots (sim_state assigned), next <$> slots (sim_state assigned)) = ([0%Z], [1%Z]) ∧
  pending (sim_state assigned) = {[0]} ∧
  ∀ index ss', slots (sim_state (reset assigned)) !! index = Some ss' →
    curr ss' = sig_reset (signal ss') ∧ next ss' = sig_reset (signal ss').
Proof.
  split; [vm_compute; reflexivity |]. split; [vm_compute; reflexivity |].
  intros index ss' Hss'.
  destruct (reset_spec unsigned4 nibble_lhs no_normalize script_resume assigned
              assigned_reachable) as (Hslots & _).
  destruct (Hslots index ss' Hss') as (Hc & Hn & _). by split.
Defined.

(** ** Which processes a commit wakes *)

Section Woken.
Context {G : Type}.
Implicit Types (procs : list (@Process G)).

Lemma woken_by_refl procs : woken_by (λ _, False) procs procs.
Proof.
  split; [done |]. intros q p Hp. exists p. repeat split; try done; [by left | tauto].
Qed.

Lemma woken_by_iff (W W' : nat → Prop) procs procs' :
  (∀ q, W q ↔ W' q) → woken_by W procs procs' → woken_by W' procs procs'.
Proof.
  intros Hiff [Hlen H]. split; [done |]. intros q p Hp.
  destruct (H q p Hp) as (p' & Hp' & Hk & Hpa & Hr).
  exists p'. repeat split; try done; rewrite Hr, Hiff; tauto.
Qed.

Lemma woken_by_trans (W1 W2 : nat → Prop) procs1 procs2 procs3 :
  woken_by W1 procs1 procs2 → woken_by W2 procs2 procs3 →
  woken_by (λ q, W1 q ∨ W2 q) procs1 procs3.
Proof.
  intros [Hlen1 H1] [Hlen2 H2]. split; [congruence |]. intros q p Hp.
  destruct (H1 q p Hp) as (p2 & Hp2 & Hk2 & Hpa2 & Hr2).
  destruct (H2 q p2 Hp2) as (p3 & Hp3 & Hk3 & Hpa3 & Hr3).
  exists p3. split; [done |]. split; [congruence |]. split; [congruence |].
  rewrite Hr3, Hr2. tauto.
Qed.

Lemma woken_by_alter procs pid :
  woken_by (λ q, q = pid) procs (alter (set_runnable true) pid procs).
Proof.
  split; [by rewrite length_alter |]. intros q p Hp.
  destruct (decide (pid = q)) as [<- | Hne].
  - exists (set_runnable true p). rewrite list_lookup_alter_eq, Hp. simpl.
    repeat split; try done. by right.
  - exists p. rewrite list_lookup_alter_ne by done. repeat split; try done; [by left |].
    intros [? | ?]; [done | congruence].
Qed.

Lemma wakeup_woken ss procs :
  woken_by (λ q, ∃ t, (q, t) ∈ waiters ss ∧ triggered ss t = true)
           procs (wakeup ss procs).2.
Proof.
  unfold wakeup.
  assert (H : ∀ (ws : list (nat * option Z)) procs b,
            woken_by (λ q, ∃ t, (q, t) ∈ ws ∧ triggered ss t = true) procs
              (foldl (λ '(awoken_any, procs) '(process, trigger),
                        if triggered ss trigger
                        then (true, alter (set_runnable true) process procs)
                        else (awoken_any, procs)) (b, procs) ws).2);
    [| by apply H].
  clear procs. induction ws as [| [p t] ws IH]; intros procs b; simpl.
  - apply (woken_by_iff (λ _, False)); [| apply woken_by_refl].
    intros q. split; [done |]. by intros (t & []%elem_of_nil & _).
  - destruct (triggered ss t) eqn:Ht.
    + eapply woken_by_iff; [| exact (woken_by_trans _ _ _ _ _ (woken_by_alter procs p) (IH _ _))].
      intros q. simpl. split.
      * intros [-> | (t' & Hin & Ht')]; [exists t | exists t'];
          (split; [| done]); [apply list_elem_of_here | by apply list_elem_of_further].
      * intros (t' & [[= -> ->] | Hin]%elem_of_cons & Ht'); [by left | right; eauto].
    + eapply woken_by_iff; [| exact (IH procs b)].
      intros q. simpl. split.
      * intros (t' & Hin & Ht'). exists t'. split; [by apply list_elem_of_further | done].
      * intros (t' & [[= -> ->] | Hin]%elem_of_cons & Ht'); [congruence | eauto].
Qed.

Lemma commit_slot_woken b sl procs index :
  woken_by (λ q, ∃ ss t, sl !! index = Some ss ∧ curr ss ≠ next ss ∧
                         (q, t) ∈ waiters ss ∧ (t = None ∨ t = Some (next ss)))
           procs (commit_slot (b, sl, procs) index).2.
Proof.
  unfold commit_slot. destruct (sl !! index) as [ss |] eqn:Hss.
  - rewrite slot_commit_eq.
    destruct (Z.eqb_spec (curr ss) (next ss)) as [Heq | Hne]; simpl.
    + apply (woken_by_iff (λ _, False)); [| apply woken_by_refl].
      intros q. split; [done |]. intros (ss' & t & [= <-] & Hne & _). done.
    + pose proof (wakeup_woken (set_curr (next ss) ss) procs) as Hw.
      destruct (wakeup (set_curr (next ss) ss) procs) as [awoken procs']. simpl in *.
      eapply woken_by_iff; [| exact Hw]. intros q. simpl. split.
      * intros (t & Hin & Ht). exists ss, t. repeat split; try done.
        by apply triggered_committed.
      * intros (ss' & t & [= <-] & _ & Hin & Ht). exists t. split; [done |].
        by apply triggered_committed.
  - apply (woken_by_iff (λ _, False)); [| apply woken_by_refl].
    intros q. split; [done |]. by intros (ss' & t & [=] & _).
Qed.

Lemma commit_fold_woken l b sl procs :
  NoDup l →
  woken_by (λ q, ∃ index ss t, index ∈ l ∧ sl !! index = Some ss ∧ curr ss ≠ next ss ∧
                               (q, t) ∈ waiters ss ∧ (t = None ∨ t = Some (next ss)))
           procs (foldl commit_slot (b, sl, procs) l).2.
Proof.
  intros Hnd. revert b sl procs.
  induction Hnd as [| index l Hnotin Hnd IH]; intros b sl procs; cbn [foldl].
  - apply (woken_by_iff (λ _, False)); [| apply woken_by_refl].
    intros q. split; [done |]. by intros (index & ss & t & []%elem_of_nil & _).
  - pose proof (commit_slot_woken b sl procs index) as Hstep.
    destruct (commit_slot_spec b sl procs index) as (b1 & procs1 & Heq & _).
    rewrite Heq in Hstep |- *. simpl in Hstep.
    eapply woken_by_iff; [| exact (woken_by_trans _ _ _ _ _ Hstep (IH _ _ _))].
    intros q. simpl. split.
    + intros [(ss & t & Hss & H) | (j & ss & t & Hj & Hss & H)].
      * exists index, ss, t. split; [apply list_elem_of_here | done].
      * exists j, ss, t. split; [by apply list_elem_of_further |].
        rewrite list_lookup_alter_ne in Hss; [done |]. intros ->. done.
    + intros (j & ss & t & [-> | Hj]%elem_of_cons & Hss & H).
      * left. by exists ss, t.
      * right. exists j, ss, t. split; [done |].
        rewrite list_lookup_alter_ne; [done |]. intros ->. done.
Qed.

(** X14: [commit] makes runnable exactly the processes that wait, with no
    trigger or with the new value as trigger, on a pending slot whose value
    changes; it makes no process not runnable and changes nothing else of
    any process. *)
Theorem commit_wakes (sim : @Simulator G) :
  woken_by (λ q, ∃ index ss t,
                   index ∈ pending (sim_state sim) ∧
                   slots (sim_state sim) !! index = Some ss ∧ curr ss ≠ next ss ∧
                   (q, t) ∈ waiters ss ∧ (t = None ∨ t = Some (next ss)))
           (sim_processes sim) (sim_processes (commit sim).2).
Proof.
  unfold commit.
  pose proof (commit_fold_woken (elements (pending (sim_state sim))) false
                (slots (sim_state sim)) (sim_processes sim) (NoDup_elements _)) as H.
  destruct (foldl _ _ _) as [[b sl] procs]. simpl in *.
  eapply woken_by_iff; [| exact H]. intros q. simpl.
  split; intros (index & ss & t & Hin & Hrest); exists index, ss, t;
    (split; [| done]); by apply elem_of_elements.
Qed.

End Woken.

(** ** Sign extension *)

Lemma testbit_above_range (y : Z) (k : nat) :
  (∀ i, k ≤ i → Z.testbit y (Z.of_nat i) = false) → (0 ≤ y < 2 ^ Z.of_nat k)%Z.
Proof.
  intros Hhigh.
  assert (Hmod : y = (y mod 2 ^ Z.of_nat k)%Z).
  { apply Z.bits_inj'. intros j Hj. rewrite <- (Z2Nat.id j) by done.
    destruct (decide (Z.to_nat j < k)) as [Hlt | Hge].
    - by rewrite Z.mod_pow2_bits_low by lia.
    - rewrite Z.mod_pow2_bits_high by lia. apply Hhigh. lia. }
  rewrite Hmod. apply Z.mod_pos_bound. lia.
Qed.

Lemma testbit_mod_pow2 (x y : Z) (w : nat) :
  (∀ i, i < w → Z.testbit y (Z.of_nat i) = Z.testbit x (Z.of_nat i)) →
  (y mod 2 ^ Z.of_nat w = x mod 2 ^ Z.of_nat w)%Z.
Proof.
  intros Hlow. apply Z.bits_inj'. intros j Hj. rewrite <- (Z2Nat.id j) by done.
  destruct (decide (Z.to_nat j < w)) as [Hlt | Hge].
  - rewrite !Z.mod_pow2_bits_low by lia. by apply Hlow.
  - by rewrite !Z.mod_pow2_bits_high by lia.
Qed.

(** Every bit of the sign-extended value. *)
Lemma helper_sign_bits x w i :
  w ≠ 0 →
  Z.testbit (helper_sign (Z.land x (mask_of w)) (Z.shiftl (-1) (Z.of_nat w - 1)))
            (Z.of_nat i)
  = Z.testbit x (Z.of_nat (i `min` (w - 1))).
Proof.
  intros Hw. destruct (decide (i < w)) as [Hi | Hi].
  { rewrite helper_sign_testbit by done. f_equal. lia. }
  replace (i `min` (w - 1)) with (w - 1) by lia.
  pose proof (helper_sign_testbit x w (w - 1) Hw ltac:(lia)) as Hsign.
  revert Hsign. unfold helper_sign. destruct (truthy _) eqn:Ht.
  - rewrite !Z.lor_spec, !sign_bit_testbit by done.
    rewrite !Z.land_spec, !mask_of_testbit.
    rewrite (bool_decide_true (w - 1 ≤ w - 1)) by lia.
    rewrite (bool_decide_true (w - 1 ≤ i)) by lia.
    rewrite !orb_true_r. done.
  - rewrite !Z.land_spec, !mask_of_testbit.
    rewrite (bool_decide_true (w - 1 < w)) by lia.
    rewrite (bool_decide_false (i < w)) by lia.
    rewrite andb_true_r, andb_false_r. intros _.
    destruct (Z.testbit x (Z.of_nat (w - 1))) eqn:Hx; [| done].
    exfalso. unfold truthy in Ht. apply negb_false_iff, Z.eqb_eq in Ht.
    assert (Hbit : Z.testbit (Z.land (Z.land x (mask_of w)) (Z.shiftl (-1) (Z.of_nat w - 1)))
                     (Z.of_nat (w - 1)) = true).
    { rewrite !Z.land_spec, mask_of_testbit, sign_bit_testbit, Hx by done.
      rewrite !bool_decide_true by lia. done. }
    rewrite Ht, Z.bits_0 in Hbit. done.
Qed.

Section Sign.
Variable shape : Value → Shape.

(** X15: what [sign] makes of a value of a signed shape of width [w]: the
    two's complement reading of its low [w] bits.  The bits below [w] are
    kept and every bit from [w - 1] up is the bit [w - 1], so the result is
    the number of [-2^(w-1), 2^(w-1))] congruent to the value modulo [2^w];
    for a width of 0 the shift count is negative and there is no sign bit
    but a [ValueError]. *)
Theorem sign_extends v x :
  (len shape v = 0 → sign_bit shape v = Raise ValueError) ∧
  (len shape v ≠ 0 →
   ∃ sb,
     sign_bit shape v = Ok sb ∧
     let y := helper_sign (Z.land x (mask_of (len shape v))) sb in
     (∀ i, Z.testbit y (Z.of_nat i)
           = Z.testbit x (Z.of_nat (i `min` (len shape v - 1)))) ∧
     (- 2 ^ (Z.of_nat (len shape v) - 1) ≤ y < 2 ^ (Z.of_nat (len shape v) - 1))%Z ∧
     (y mod 2 ^ Z.of_nat (len shape v) = x mod 2 ^ Z.of_nat (len shape v))%Z).
Proof.
  unfold sign_bit, py_shl. split.
  - intros ->. done.
  - intros Hw. rewrite (proj2 (Z.ltb_ge _ 0)) by lia.
    eexists. split; [done |].
    set (w := len shape v) in *.
    set (y := helper_sign _ _).
    assert (Hbits : ∀ i, Z.testbit y (Z.of_nat i) = Z.testbit x (Z.of_nat (i `min` (w - 1))))
      by (intros i; by apply helper_sign_bits).
    split; [exact Hbits |]. split.
    + replace (Z.of_nat w - 1)%Z with (Z.of_nat (w - 1)) by lia.
      destruct (Z.testbit x (Z.of_nat (w - 1))) eqn:Hx.
      * assert (0 ≤ Z.lnot y < 2 ^ Z.of_nat (w - 1))%Z as Hr.
        { apply testbit_above_range. intros i Hi.
          rewrite Z.lnot_spec, Hbits by lia.
          replace (i `min` (w - 1)) with (w - 1) by lia. by rewrite Hx. }
        unfold Z.lnot in Hr. lia.
      * assert (0 ≤ y < 2 ^ Z.of_nat (w - 1))%Z as Hr.
        { apply testbit_above_range. intros i Hi. rewrite Hbits.
          replace (i `min` (w - 1)) with (w - 1) by lia. done. }
        lia.
    + apply testbit_mod_pow2. intros i Hi. rewrite Hbits. f_equal. lia.
Qed.

End Sign.

Lemma sign_extends_witness :
  ∃ sb,
    sign_bit signed4 (Const 0) = Ok sb ∧
    helper_sign (Z.land 13 (mask_of 4)) sb = (-3)%Z ∧
    (- 2 ^ 3 ≤ helper_sign (Z.land 13 (mask_of 4)) sb < 2 ^ 3)%Z.
Proof.
  destruct (sign_extends signed4 (Const 0) 13) as [_ H].
  destruct (H ltac:(vm_compute; lia)) as (sb & Hsb & _ & Hrange & _).
  exists sb. split; [exact Hsb |].
  injection Hsb as <-. split; [vm_compute; reflexivity | exact Hrange].
Defined.

(** ** Assigning to a signal, and reading one *)

Section Assign.
Variable shape : Value → Shape.
Variable lhs_signals : Statement → list Signal.

(** X16: the statement [s.eq(c)], compiled and run: the compiler allocates
    the slot of [s] if there is none, and the code sets the slot's next
    value, through [set], to [c] wrapped to the shape of [s]: the low bits
    of [c], sign-extended when the shape is signed.  The slot's current
    value stays. *)
Theorem assign_const s c st :
  lhs_signals (Assign (VSignal s) (Const c)) = [s] →
  (signed (shape (VSignal s)) = true → len shape (VSignal s) ≠ 0) →
  ∃ code v,
    stmt_compile shape lhs_signals (Assign (VSignal s) (Const c)) st
    = (Ok code, (get_signal s st).2) ∧
    (∀ i, Z.testbit v (Z.of_nat i)
          = if signed (shape (VSignal s))
            then Z.testbit c (Z.of_nat (i `min` (len shape (VSignal s) - 1)))
            else bool_decide (i < len shape (VSignal s)) && Z.testbit c (Z.of_nat i)) ∧
    ∀ env ss,
      slots (env_state env) !! (get_signal s st).1 = Some ss →
      (code env).1 = Ok () ∧
      env_state (code env).2 = slot_set (get_signal s st).1 v (env_state env) ∧
      slots (env_state (code env).2) !! (get_signal s st).1 = Some (set_next v ss).
Proof.
  intros Hlhs Hsigned. unfold stmt_compile. rewrite Hlhs. cbn [get_signals].
  unfold mbind at 1, se_bind at 1, se_do at 1.
  destruct (get_signal s st) as [index st1] eqn:Hget.
  assert (Hagain : get_signal s st1 = (index, st1)).
  { pose proof (get_signal_again s st) as H. by rewrite Hget in H. }
  cbn [mbind se_bind mret se_ret fst snd append_all stmt lhs rhs].
  unfold mbind, se_bind, mret, se_ret, se_lift, append, sign_bit, py_shl.
  cbn [append_all]. unfold mbind, se_bind, mret, se_ret, append.
  cbn [state emitter buffer suffix new_emitter].
  destruct (signed (shape (VSignal s))) eqn:Hs.
  - specialize (Hsigned eq_refl).
    rewrite (proj2 (Z.ltb_ge (Z.of_nat (len shape (VSignal s)) - 1) 0)) by lia.
    rewrite !c_get_signal_eq. cbn [state emitter buffer suffix]. rewrite Hagain.
    cbn [fst snd state emitter buffer suffix].
    eexists _, (helper_sign (Z.land c (mask_of (len shape (VSignal s))))
                  (Z.shiftl (-1) (Z.of_nat (len shape (VSignal s)) - 1))).
    split; [reflexivity |]. split; [intros i; by apply helper_sign_bits |].
    intros env ss Hss.
    unfold c_seq, c_pass, c_assign, c_set, e_slot_next, e_un, e_const, e_var, env_slots,
      mbind, se_bind, mret, se_ret.
    cbn [env_state env_locals]. rewrite Hss. cbn [mbind res_bind env_state env_locals].
    rewrite Hss, lookup_insert_eq. cbn [fst snd env_state].
    split; [done |]. split; [done |].
    unfold slot_set. rewrite Hss.
    destruct (Z.eqb_spec (next ss) (helper_sign (Z.land c (mask_of (len shape (VSignal s))))
                (Z.shiftl (-1) (Z.of_nat (len shape (VSignal s)) - 1)))) as [Heq | Hne].
    + rewrite Hss. f_equal. destruct ss. simpl in *. by subst.
    + cbn [slots with_pending with_slots].
      apply list_lookup_insert_eq. by apply lookup_lt_Some in Hss.
  - rewrite !c_get_signal_eq. cbn [state emitter buffer suffix]. rewrite Hagain.
    cbn [fst snd state emitter buffer suffix].
    eexists _, (Z.land c (mask_of (len shape (VSignal s)))).
    split; [reflexivity |].
    split; [intros i; rewrite Z.land_spec, mask_of_testbit; apply andb_comm |].
    intros env ss Hss.
    unfold c_seq, c_pass, c_assign, c_set, e_slot_next, e_un, e_const, e_var, env_slots,
      mbind, se_bind, mret, se_ret.
    cbn [env_state env_locals]. rewrite Hss. cbn [mbind res_bind env_state env_locals].
    rewrite Hss, lookup_insert_eq. cbn [fst snd env_state].
    split; [done |]. split; [done |].
    unfold slot_set. rewrite Hss.
    destruct (Z.eqb_spec (next ss) (Z.land c (mask_of (len shape (VSignal s)))))
      as [Heq | Hne].
    + rewrite Hss. f_equal. destruct ss. simpl in *. by subst.
    + cbn [slots with_pending with_slots].
      apply list_lookup_insert_eq. by apply lookup_lt_Some in Hss.
Qed.

End Assign.

Lemma assign_const_witness :
  ∃ code v,
    stmt_compile signed4 nibble_lhs (Assign (VSignal nibble) (Const 13)) init_state
    = (Ok code, (get_signal nibble init_state).2) ∧
    slots (env_state (code {| env_state := (get_signal nibble init_state).2;
                              env_locals := ∅ |}).2) !! 0
    = Some {| signal := nibble; curr := 0; next := v; waiters := [] |} ∧
    Z.testbit v 0 = true ∧ Z.testbit v 1 = false ∧ Z.testbit v 2 = true ∧
    Z.testbit v 3 = true ∧ Z.testbit v 4 = true.
Proof.
  destruct (assign_const signed4 nibble_lhs nibble 13 init_state eq_refl)
    as (code & v & Hcode & Hbits & Hrun).
  { intros _. vm_compute. discriminate. }
  destruct (Hrun {| env_state := (get_signal nibble init_state).2; env_locals := ∅ |}
              (new_slot nibble) eq_refl) as (_ & _ & Hslot).
  exists code, v. split; [exact Hcode |]. split; [exact Hslot |].
  split; [exact (Hbits 0) |]. split; [exact (Hbits 1) |]. split; [exact (Hbits 2) |].
  split; [exact (Hbits 3) | exact (Hbits 4)].
Defined.

Section Read.
Variable shape : Value → Shape.
Variable lhs_signals : Statement → list Signal.
Variable normalize : Z → Shape → Z.
Context {G : Type}.
Implicit Types (sim : @Simulator G).

Lemma rhs_compile_signal s st :
  rhs_compile shape mode_curr (VSignal s) st
  = (Ok (c_seq c_pass (c_assign ResultVar (e_curr (get_signal s st).1))),
     (get_signal s st).2).
Proof.
  unfold rhs_compile. cbn [rhs]. unfold mbind, se_bind.
  rewrite c_get_signal_eq. reflexivity.
Qed.

(** X17: a testbench that yields a signal is sent the signal's current
    value, normalized to the signal's shape: not the next value, which a
    write of the same delta cycle may have changed.  The read allocates the
    signal's slot if there is none and changes nothing else in the store. *)
Theorem read_signal pid s sim p constructor default_cmd coroutine exec_locals waits_on ss :
  sim_processes sim !! pid = Some p →
  kind p = CoroutineProcess constructor default_cmd coroutine exec_locals waits_on →
  slots (get_signal s (sim_state sim)).2 !! (get_signal s (sim_state sim)).1 = Some ss →
  ∃ sim',
    dispatch shape lhs_signals normalize pid (Some (CmdValue (VSignal s))) sim
    = (Ok (Continue (Some (normalize (curr ss) (shape (VSignal s))))), sim') ∧
    sim_state sim' = (get_signal s (sim_state sim)).2 ∧
    get_exec_locals pid sim' = <[ResultVar := curr ss]> exec_locals.
Proof.
  intros Hp Hk Hss. unfold dispatch, on_state.
  unfold mbind, se_bind. rewrite rhs_compile_signal.
  unfold exec, se_do.
  assert (Hlocals : ∀ st, get_exec_locals pid (with_state (λ _, st) sim) = exec_locals).
  { intros st. unfold get_exec_locals. simpl. by rewrite Hp; simpl; rewrite Hk. }
  rewrite Hlocals.
  unfold c_seq, c_pass, c_assign, e_curr, env_slots, mbind, se_bind, mret, se_ret.
  cbn [env_state env_locals sim_state with_state]. rewrite Hss.
  cbn [env_state env_locals].
  assert (Hafter : get_exec_locals pid
            (update_process pid (set_exec_locals (<[ResultVar := curr ss]> exec_locals))
               (with_state (λ _, (get_signal s (sim_state sim)).2)
                  (with_state (λ _, (get_signal s (sim_state sim)).2) sim)))
            = <[ResultVar := curr ss]> exec_locals).
  { unfold get_exec_locals, update_process, with_processes. simpl.
    rewrite list_lookup_alter_eq, Hp. simpl. unfold set_exec_locals. by rewrite Hk. }
  rewrite Hafter, lookup_insert_eq.
  eexists. split; [reflexivity |]. split; [done | exact Hafter].
Qed.

End Read.

Lemma read_signal_witness :
  ∃ sim',
    dispatch unsigned4 nibble_lhs no_normalize 0 (Some (CmdValue (VSignal nibble))) assign_ran
    = (Ok (Continue (Some 0%Z)), sim') ∧
    next <$> slots (sim_state sim') = [1%Z].
Proof.
  destruct (read_signal unsigned4 nibble_lhs no_normalize 0 nibble assign_ran
              _ _ _ _ _ _ {| signal := nibble; curr := 0; next := 1; waiters := [] |}
              eq_refl eq_refl eq_refl) as (sim' & Hd & Hst & _).
  exists sim'. split; [exact Hd |]. rewrite Hst. vm_compute. reflexivity.
Defined.

(** ** Reading a slice *)

Section SliceRead.
Variable shape : Value → Shape.

(** X18: the expression compiled for a bit slice reads the bits
    [start, start + n) of the sliced value, [n] being the width of the
    slice: bit [i] of the result is bit [start + i] of the value for
    [i < n] and 0 above, so the result is in [0, 2^n).  It reads back what
    a write to the slice has stored: on a value whose bits [start, stop)
    are the low bits of [a], it gives [a] masked to the width. *)
Theorem slice_read mode v start stop c e' c' :
  rhs shape mode (Slice v start stop) c = (Ok e', c') →
  ∃ e,
    rhs shape mode v c = (Ok e, c') ∧
    ∀ env x, e env = Ok x →
      ∃ y, e' env = Ok y ∧
           (∀ i, Z.testbit y (Z.of_nat i)
                 = bool_decide (i < len shape (Slice v start stop))
                   && Z.testbit x (Z.of_nat (start + i))) ∧
           (0 ≤ y < 2 ^ Z.of_nat (len shape (Slice v start stop)))%Z ∧
           (∀ a, len shape (Slice v start stop) = stop - start →
                 (∀ i, start ≤ i < stop →
                       Z.testbit x (Z.of_nat i) = Z.testbit a (Z.of_nat (i - start))) →
                 y = Z.land a (mask_of (stop - start))).
Proof.
  cbn [rhs]. intros H. apply se_bind_ok in H as (e & c1 & He & H).
  injection H as <- <-. exists e. split; [done |].
  intros env x Hx. unfold e_un. rewrite Hx. cbn [mbind res_bind].
  eexists. split; [done |].
  assert (Hbits : ∀ i, Z.testbit (Z.land (Z.shiftr x (Z.of_nat start))
                                   (mask_of (len shape (Slice v start stop))))
                        (Z.of_nat i)
                 = bool_decide (i < len shape (Slice v start stop))
                   && Z.testbit x (Z.of_nat (start + i))).
  { intros i. rewrite Z.land_spec, mask_of_testbit, Z.shiftr_spec by lia.
    rewrite andb_comm. do 2 f_equal. lia. }
  split; [exact Hbits |]. split.
  - rewrite mask_of_ones, Z.land_ones by lia. apply Z.mod_pos_bound. lia.
  - intros a Hlen Ha. apply Z.bits_inj'. intros j Hj.
    rewrite <- (Z2Nat.id j) by done. rewrite Hbits, Z.land_spec, mask_of_testbit, Hlen.
    rewrite andb_comm. case_bool_decide as Hlt; [| by rewrite !andb_false_r].
    rewrite !andb_true_r, Ha by lia. f_equal. lia.
Qed.

End SliceRead.

Lemma slice_read_witness :
  ∃ e' c',
    rhs slice_shape mode_curr (Slice (Const 13) 1 3) (new_compiler init_state)
    = (Ok e', c') ∧
    e' empty_env = Ok 2%Z.
Proof.
  eexists _, _. split; [reflexivity |].
  destruct (slice_read slice_shape mode_curr (Const 13) 1 3 (new_compiler init_state)
              _ _ eq_refl) as (e & He & H).
  injection He as <-.
  destruct (H empty_env 13%Z eq_refl) as (y & Hy & _ & _ & Hback).
  rewrite Hy. f_equal. rewrite (Hback 6%Z eq_refl); [reflexivity |].
  intros i Hi. assert (i = 1 ∨ i = 2) as [-> | ->] by lia; reflexivity.
Defined.

(** ** The cases of a switch *)

Lemma str_map_no_dash s :
  str_contains "-" s = false →
  str_map (λ b, if Ascii.eqb b "-" then "0" else b)%char s = s.
Proof.
  induction s as [| c s IH]; simpl; [done |].
  intros [Hc Hs]%orb_false_iff. by rewrite Hc, IH.
Qed.

(** What one check computes. *)
Lemma gen_check_spec gen_test pattern :
  pattern ≠ EmptyString → pattern_ok pattern = true →
  ∃ check,
    gen_check gen_test pattern = Ok check ∧
    ∀ env t, gen_test env = Ok t → check env = Ok (py_bool (pattern_matchb pattern t)).
Proof.
  intros Hne Hok. unfold gen_check, pattern_matchb.
  destruct (str_contains "-" pattern) eqn:Hdash.
  - rewrite int2_care_mask, int2_fixed_bits by done. simpl.
    eexists. split; [done |]. intros env t Ht. unfold e_un. by rewrite Ht.
  - pose proof (int2_fixed_bits pattern Hne Hok) as Hint.
    rewrite str_map_no_dash in Hint by done. rewrite Hint. simpl.
    eexists. split; [done |]. intros env t Ht. unfold e_un. by rewrite Ht.
Qed.

Lemma gen_checks_spec gen_test patterns :
  Forall (λ pattern, pattern ≠ EmptyString ∧ pattern_ok pattern = true) patterns →
  ∃ checks,
    gen_checks gen_test patterns = Ok checks ∧
    length checks = length patterns ∧
    ∀ env t, gen_test env = Ok t →
      Forall2 (λ check pattern, check env = Ok (py_bool (pattern_matchb pattern t)))
              checks patterns.
Proof.
  induction 1 as [| pattern patterns [Hne Hok] _ (checks & Hchecks & Hlen & Hall)]; simpl.
  - exists []. split; [done |]. split; [done |]. intros env t _. constructor.
  - destruct (gen_check_spec gen_test pattern Hne Hok) as (check & -> & Hcheck).
    rewrite Hchecks. simpl. exists (check :: checks).
    split; [done |]. split; [simpl; by rewrite Hlen |].
    intros env t Ht. constructor; [by apply Hcheck | by apply Hall].
Qed.

Lemma existsb_fmap {A} (f : A → bool) (l : list A) :
  existsb id (f <$> l) = existsb f l.
Proof. induction l as [| x l IH]; [done |]. cbn. by rewrite IH. Qed.

Lemma truthy_py_bool b : truthy (py_bool b) = b.
Proof. by destruct b. Qed.

Lemma e_any_spec checks (bs : list bool) env :
  Forall2 (λ check b, check env = Ok (py_bool b)) checks bs →
  checks ≠ [] →
  e_any checks env = Ok (py_bool (existsb id bs)).
Proof.
  induction 1 as [| check b checks bs Hcheck Hall IH]; [done |]. intros _.
  destruct Hall as [| check' b' checks bs Hcheck' Hall].
  - simpl. rewrite Hcheck. by destruct b.
  - change (e_any (check :: check' :: checks) env)
      with (x ← check env; if truthy x then Ok x else e_any (check' :: checks) env).
    rewrite Hcheck. cbn [mbind res_bind]. rewrite truthy_py_bool.
    destruct b; [done |]. rewrite IH by done. done.
Qed.

(** What the checks of a case compute together. *)
Lemma case_checks_spec gen_test patterns :
  Forall (λ pattern, pattern ≠ EmptyString ∧ pattern_ok pattern = true) patterns →
  ∃ checks,
    case_checks gen_test patterns = Ok checks ∧
    ∀ env t, gen_test env = Ok t →
      e_any checks env = Ok (py_bool (case_matchb patterns t)).
Proof.
  intros Hok. unfold case_checks, case_matchb.
  destruct patterns as [| pattern patterns]; [by exists [e_const 1] |].
  destruct (gen_checks_spec gen_test _ Hok) as (checks & -> & Hlen & Hall).
  exists checks. split; [done |]. intros env t Ht.
  rewrite (e_any_spec checks ((λ p, pattern_matchb p t) <$> pattern :: patterns)).
  - by rewrite existsb_fmap.
  - apply Forall2_fmap_r. by apply Hall.
  - by destruct checks.
Qed.

Lemma se_lift_ok {S A} (r : Res A) (s : S) a s' :
  se_lift r s = (Ok a, s') → r = Ok a ∧ s' = s.
Proof. unfold se_lift. by intros [= -> ->]. Qed.

Section Switch.
Variable self : Statement → CM unit.

(** The chain runs the block of the first case that matches. *)
Lemma switch_cases_run gen_test cases c branches c' :
  Forall (λ case, Forall (λ pattern, pattern ≠ EmptyString ∧ pattern_ok pattern = true)
                         case.1) cases →
  switch_cases self gen_test cases c = (Ok branches, c') →
  length branches = length cases ∧
  (∀ env t orelse,
     gen_test env = Ok t →
     c_if branches orelse env
     = match list_find (λ case, case_matchb case.1 t = true) cases with
       | Some (k, _) => default c_pass (snd <$> branches !! k) env
       | None => orelse env
       end) ∧
  (∀ patterns t,
     case_matchb patterns t = true ↔
     patterns = [] ∨
     ∃ pattern, pattern ∈ patterns ∧
       if str_contains "-" pattern
       then Z.land t (care_mask pattern) = fixed_bits pattern
       else t = fixed_bits pattern).
Proof.
  intros Hok Hcases. split; [| split].
  - clear Hok. revert c c' branches Hcases.
    induction cases as [| [patterns stmts] cases IH]; intros c c' branches; simpl.
    + by intros [= <- _].
    + intros H. apply se_bind_ok in H as (checks & c1 & _ & H).
      apply se_bind_ok in H as ([[] body] & c2 & _ & H).
      apply se_bind_ok in H as (rest & c3 & Hrest & H).
      injection H as <- _. simpl. f_equal. apply (IH _ _ _ Hrest).
  - revert c c' branches Hcases.
    induction Hok as [| [patterns stmts] cases Hpatterns Hok IH]; intros c c' branches; simpl.
    + by intros [= <- _].
    + intros H env t orelse Ht.
      apply se_bind_ok in H as (checks & c1 & Hchecks & H).
      apply se_lift_ok in Hchecks as [Hchecks ->].
      apply se_bind_ok in H as ([[] body] & c2 & _ & H).
      apply se_bind_ok in H as (rest & c3 & Hrest & H).
      injection H as <- _.
      destruct (case_checks_spec gen_test patterns Hpatterns) as (checks' & Heq & Hany).
      rewrite Hchecks in Heq. injection Heq as <-.
      cbn [c_if]. rewrite (Hany env t Ht), truthy_py_bool.
      unfold list_find at 1. cbn [fst]. fold (list_find (λ case : list string * list Statement, case_matchb case.1 t = true) cases).
      destruct (case_matchb patterns t) eqn:Hm.
      * by rewrite decide_True.
      * rewrite decide_False by done.
        rewrite (IH _ _ _ Hrest env t orelse Ht).
        by destruct (list_find _ cases) as [[k case] |].
  - intros patterns t. unfold case_matchb.
    destruct patterns as [| pattern patterns].
    { split; [by left | done]. }
    rewrite existsb_exists. split.
    + intros (p & Hin%list_elem_of_In & Hp). right. exists p. split; [done |].
      revert Hp. unfold pattern_matchb.
      destruct (str_contains "-" p); by intros ?%Z.eqb_eq.
    + intros [? | (p & Hin & Hp)]; [done |]. exists p.
      split; [by apply list_elem_of_In |].
      revert Hp. unfold pattern_matchb.
      destruct (str_contains "-" p); by intros ?%Z.eqb_eq.
Qed.


(** The block of the case [k] is what the statements of the case compile
    to, inside [with self.emitter.indent()], after the cases before it. *)
Lemma switch_cases_block gen_test cases c branches c' k patterns stmts :
  switch_cases self gen_test cases c = (Ok branches, c') →
  cases !! k = Some (patterns, stmts) →
  ∃ body ck,
    indent (on_statements_with self stmts)
      (switch_cases self gen_test (take k cases) c).2 = (Ok ((), body), ck) ∧
    snd <$> branches !! k = Some body.
Proof.
  revert c c' branches k. induction cases as [| [patterns0 stmts0] cases IH];
    intros c c' branches k; [by rewrite lookup_nil |].
  cbn [switch_cases]. intros H Hk.
  apply se_bind_ok in H as (checks & c1 & Hchecks & H).
  pose proof Hchecks as Hlift. apply se_lift_ok in Hlift as [_ ->].
  apply se_bind_ok in H as ([[] body] & c2 & Hbody & H).
  apply se_bind_ok in H as (rest & c3 & Hrest & H).
  injection H as <- _.
  destruct k as [| k].
  - injection Hk as <- <-. by exists body, c2.
  - simpl in Hk. destruct (IH c2 c3 rest k Hrest Hk) as (bodyk & ck & Hblock & Hbranch).
    exists bodyk, ck. split; [| done].
    replace (switch_cases self gen_test (take (S k) ((patterns0, stmts0) :: cases)) c).2
      with (switch_cases self gen_test (take k cases) c2).2; [done |].
    cbn [take switch_cases]. unfold mbind at 1, se_bind at 1. rewrite Hchecks.
    unfold mbind at 1, se_bind at 1. rewrite Hbody.
    unfold mbind, se_bind.
    by destruct (switch_cases self gen_test (take k cases) c2) as [[rest' | e] c4].
Qed.

(** X19: the [if]/[elif] chain compiled for the cases of a switch runs the
    block of the first case that matches the test value and no other, and
    nothing when no case matches.  The block of a case is what its
    statements compile to, inside [with self.emitter.indent()], in the
    compiler state the cases before it leave.  A case matches when it has
    no pattern (the default) or one of its patterns matches; a pattern
    with don't-care positions matches when the value agrees with it at
    every other position, a pattern without any when the value is the
    number it spells. *)
Theorem switch_first_match gen_test cases c branches c' :
  Forall (λ case, Forall (λ pattern, pattern ≠ EmptyString ∧ pattern_ok pattern = true)
                         case.1) cases →
  switch_cases self gen_test cases c = (Ok branches, c') →
  length branches = length cases ∧
  (∀ k patterns stmts, cases !! k = Some (patterns, stmts) →
     ∃ checks body ck,
       case_checks gen_test patterns = Ok checks ∧
       indent (on_statements_with self stmts)
         (switch_cases self gen_test (take k cases) c).2 = (Ok ((), body), ck) ∧
       branches !! k = Some (e_any checks, body)) ∧
  (∀ env t orelse,
     gen_test env = Ok t →
     match list_find (λ case, case_matchb case.1 t = true) cases with
     | Some (k, (_, stmts)) =>
         ∃ body ck,
           indent (on_statements_with self stmts)
             (switch_cases self gen_test (take k cases) c).2 = (Ok ((), body), ck) ∧
           c_if branches orelse env = body env
     | None => c_if branches orelse env = orelse env
     end) ∧
  (∀ patterns t,
     case_matchb patterns t = true ↔
     patterns = [] ∨
     ∃ pattern, pattern ∈ patterns ∧
       if str_contains "-" pattern
       then Z.land t (care_mask pattern) = fixed_bits pattern
       else t = fixed_bits pattern).
Proof.
  intros Hok Hcases.
  destruct (switch_cases_run gen_test cases c branches c' Hok Hcases)
    as (Hlen & Hrun & Hmatch).
  split; [done |]. split; [| split; [| done]].
  - intros k patterns stmts Hk.
    destruct (switch_cases_block _ _ _ _ _ _ _ _ Hcases Hk) as (body & ck & Hblock & Hbody).
    assert (Hcheck : ∃ checks, case_checks gen_test patterns = Ok checks ∧
                               fst <$> branches !! k = Some (e_any checks)).
    { clear Hok Hlen Hrun Hmatch Hblock Hbody body ck. revert c c' branches k Hcases Hk.
      induction cases as [| [patterns0 stmts0] cases IH]; intros c c' branches k;
        [by rewrite lookup_nil |].
      cbn [switch_cases]. intros H Hk.
      apply se_bind_ok in H as (checks & c1 & Hchecks & H).
      apply se_lift_ok in Hchecks as [Hchecks ->].
      apply se_bind_ok in H as ([[] body] & c2 & _ & H).
      apply se_bind_ok in H as (rest & c3 & Hrest & H).
      injection H as <- _.
      destruct k as [| k]; [injection Hk as <- <-; by exists checks |].
      exact (IH c2 c3 rest k Hrest Hk). }
    destruct Hcheck as (checks & Hchecks & Hfst).
    exists checks, body, ck. split; [done |]. split; [done |].
    destruct (branches !! k) as [[check0 body0] |]; [| done].
    simpl in Hfst, Hbody. by simplify_eq.
  - intros env t orelse Ht. rewrite (Hrun env t orelse Ht).
    destruct (list_find _ cases) as [[k [patterns stmts]] |] eqn:Hfind; [| done].
    apply list_find_Some in Hfind as (Hk & _).
    destruct (switch_cases_block _ _ _ _ _ _ _ _ Hcases Hk) as (body & ck & Hblock & Hbody).
    exists body, ck. split; [done |]. by rewrite Hbody.
Qed.

End Switch.

Lemma switch_first_match_witness :
  hit_after 5 = Some 1%Z ∧ hit_after 4 = Some 1%Z ∧ hit_after 7 = Some 0%Z ∧
  ∃ branches c' body ck,
    switch_cases (stmt switch_shape) (e_const 5) hit_cases (new_compiler init_state)
    = (Ok branches, c') ∧
    indent (on_statements_with (stmt switch_shape) [Assign (VSignal hit_signal) (Const 1)])
      (new_compiler init_state) = (Ok ((), body), ck) ∧
    c_if branches c_pass empty_env = body empty_env.
Proof.
  split; [vm_compute; reflexivity |]. split; [vm_compute; reflexivity |].
  split; [vm_compute; reflexivity |].
  assert (Hok : Forall (λ case : list string * list Statement,
                          Forall (λ pattern, pattern ≠ EmptyString ∧ pattern_ok pattern = true)
                                 case.1) hit_cases)
    by (repeat constructor; done).
  destruct (switch_cases (stmt switch_shape) (e_const 5) hit_cases (new_compiler init_state))
    as [[branches | e] c'] eqn:Hcases; [| vm_compute in Hcases; discriminate].
  destruct (switch_first_match (stmt switch_shape) (e_const 5) hit_cases
              (new_compiler init_state) branches c' Hok Hcases) as (_ & _ & Hrun & _).
  specialize (Hrun empty_env 5%Z c_pass eq_refl).
  destruct Hrun as (body & ck & Hblock & Hrun).
  by exists branches, c', body, ck.
Defined.

(** ** Indexing an array *)

Lemma index_branches_from gen_index (bodies : list Code) orelse env i off :
  gen_index env = Ok i →
  c_if (imap (λ k body,
                (e_un (λ x, py_bool (x =? Z.of_nat (off + k))%Z) gen_index, body)) bodies)
       orelse env
  = match (if decide (Z.of_nat off ≤ i)%Z then bodies !! (Z.to_nat i - off) else None) with
    | Some body => body env
    | None => orelse env
    end.
Proof.
  intros Hi. revert off. induction bodies as [| body bodies IH]; intros off.
  - simpl. by case_decide.
  - cbn [imap c_if]. unfold e_un at 1. rewrite Hi. cbn [mbind res_bind].
    rewrite Nat.add_0_r, truthy_py_bool.
    destruct (Z.eqb_spec i (Z.of_nat off)) as [-> | Hne].
    + rewrite decide_True by lia. by rewrite Nat2Z.id, Nat.sub_diag.
    + erewrite imap_ext; [rewrite (IH (S off)) |].
      * destruct (decide (Z.of_nat off ≤ i)%Z) as [Hle | Hgt].
        -- rewrite decide_True by lia.
           replace (Z.to_nat i - off) with (S (Z.to_nat i - S off)) by lia. done.
        -- by rewrite decide_False by lia.
      * intros k b _. simpl. by rewrite Nat.add_succ_r.
Qed.

Lemma index_branches_run gen_index (bodies : list Code) orelse env i :
  gen_index env = Ok i →
  c_if (index_branches gen_index bodies) orelse env
  = match (if decide (0 ≤ i)%Z then bodies !! Z.to_nat i else None) with
    | Some body => body env
    | None => orelse env
    end.
Proof.
  intros Hi. unfold index_branches.
  pose proof (index_branches_from gen_index bodies orelse env i 0 Hi) as H.
  cbn [Nat.add] in H. rewrite H. by rewrite Nat.sub_0_r.
Qed.

Lemma last_fmap_lookup {A B} (f : A → B) (l : list A) (d : B) x :
  l !! (length l - 1) = Some x → List.last (f <$> l) d = f x.
Proof.
  induction l as [| y l IH]; [done |].
  destruct l as [| z l]; [by intros [= ->] |].
  intros Hx. apply IH. simpl in *. by rewrite Nat.sub_0_r in *.
Qed.

Section Proxy.
Variable shape : Value → Shape.

Lemma rhs_proxy_consts mode gen_value cs c :
  rhs_proxy_elems (rhs shape mode) gen_value (Const <$> cs) c
  = (Ok ((λ x, c_seq c_pass (c_assign gen_value (e_const x))) <$> cs), c).
Proof.
  induction cs as [| x cs IH]; [done |].
  cbn [fmap list_fmap rhs_proxy_elems]. unfold mbind at 1, se_bind at 1.
  unfold indent. cbn [rhs]. unfold mbind at 1, se_bind at 1, mret at 1, se_ret at 1, append.
  cbn [state emitter buffer suffix].
  unfold mbind, se_bind. fold (rhs_proxy_elems (rhs shape mode) gen_value).
  replace {| state := state c;
             emitter := {| buffer := buffer (emitter c); suffix := suffix (emitter c) |} |}
    with c by by destruct c as [st [b n]].
  change (list_fmap Z Value Const cs) with (Const <$> cs). by rewrite IH.
Qed.

(** X20: an array of constants read at an index: the code compiled for the
    proxy keeps the index, masked to its width, in a variable, and leaves
    in another the element at that index, or the last element when the
    index is not below the number of elements. *)
Theorem proxy_reads_last mode cs index c ei c1 :
  cs ≠ [] →
  rhs shape mode index c = (Ok ei, c1) →
  ∃ select pick,
    rhs shape mode (ArrayProxy (Const <$> cs) index) c
    = (Ok (e_var (TempVar (S (suffix (emitter c1))))),
       {| state := state c1;
          emitter := {| buffer := c_seq (c_seq (buffer (emitter c1)) select) pick;
                        suffix := S (S (suffix (emitter c1))) |} |}) ∧
    ∀ env i, ei env = Ok i →
      let k := Z.to_nat (Z.land i (mask_of (len shape index))) in
      ∃ x,
        cs !! (if decide (k < length cs) then k else length cs - 1) = Some x ∧
        c_seq select pick env
        = (Ok (),
           {| env_state := env_state env;
              env_locals :=
                <[TempVar (S (suffix (emitter c1))) := x]>
                  (<[TempVar (suffix (emitter c1)) :=
                       Z.land i (mask_of (len shape index))]> (env_locals env)) |}).
Proof.
  intros Hne Hindex. cbn [rhs]. unfold mbind at 1, se_bind at 1. rewrite Hindex.
  unfold def_var, gen_var, append, mbind, se_bind, mret, se_ret.
  cbn [state emitter buffer suffix].
  destruct cs as [| x0 cs0] eqn:Hcs; [done |]. rewrite <- Hcs in *.
  destruct (Const <$> cs) as [| v vs] eqn:Hvs; [by rewrite Hcs in Hvs |].
  rewrite <- Hvs. rewrite rhs_proxy_consts. cbn [state emitter buffer suffix].
  eexists _, _. split; [reflexivity |].
  intros env i Hi. set (k := Z.to_nat (Z.land i (mask_of (len shape index)))).
  assert (Hk : (0 ≤ Z.land i (mask_of (len shape index)))%Z).
  { rewrite mask_of_ones, Z.land_ones by lia. apply Z.mod_pos_bound. lia. }
  assert (Hlen : length cs ≠ 0) by (rewrite Hcs; simpl; lia).
  assert (Hsel : ∃ x, cs !! (if decide (k < length cs) then k else length cs - 1) = Some x).
  { apply lookup_lt_is_Some. case_decide; lia. }
  destruct Hsel as (x & Hx). exists x. split; [exact Hx |].
  unfold c_seq at 1. unfold mbind, se_bind. unfold c_assign at 1. unfold e_un.
  rewrite Hi. cbn [mbind res_bind].
  rewrite (index_branches_run _ _ _ _ (Z.land i (mask_of (len shape index))));
    [| unfold e_var; cbn [env_locals]; by rewrite lookup_insert_eq].
  rewrite decide_True by done. fold k. rewrite list_lookup_fmap.
  destruct (decide (k < length cs)) as [Hlt | Hge].
  - by rewrite Hx.
  - rewrite (proj2 (lookup_ge_None _ _)) by lia. cbn [fmap option_fmap option_map].
    by rewrite (last_fmap_lookup _ _ _ x Hx).
Qed.

End Proxy.

Lemma proxy_reads_last_witness :
  ∃ select pick,
    rhs unsigned4 mode_curr (ArrayProxy (Const <$> [10; 20; 30]%Z) (Const 7))
      (new_compiler init_state)
    = (Ok (e_var (TempVar 1)),
       {| state := init_state;
          emitter := {| buffer := c_seq (c_seq c_pass select) pick; suffix := 2 |} |}) ∧
    (c_seq select pick empty_env).1 = Ok () ∧
    env_locals (c_seq select pick empty_env).2 !! TempVar 1 = Some 30%Z.
Proof.
  destruct (proxy_reads_last unsigned4 mode_curr [10; 20; 30]%Z (Const 7)
              (new_compiler init_state) _ _ ltac:(done) eq_refl)
    as (select & pick & Hrhs & Hrun).
  destruct (Hrun empty_env 7%Z eq_refl) as (x & Hx & Heq).
  vm_compute in Hx. injection Hx as <-.
  exists select, pick. split; [exact Hrhs |]. rewrite Heq.
  split; [done |]. apply lookup_insert_eq.
Defined.

(** ** How a testbench ends, and what it may not yield *)

Section Ends.
Variable shape : Value → Shape.
Variable lhs_signals : Statement → list Signal.
Variable normalize : Z → Shape → Z.
Context {G : Type}.
Variable resume : G → Resume → Outcome G.
Implicit Types (sim : @Simulator G).

Lemma get_coroutine_update pid sim gen c (f : @Process G → @Process G) :
  get_coroutine pid sim = Some gen →
  (∀ p, kind (f p) = kind p) →
  get_coroutine pid (update_process pid (λ p, set_coroutine c (f p)) sim) = c.
Proof.
  intros Hco Hf. unfold get_coroutine, update_process, with_processes in *. simpl.
  rewrite list_lookup_alter_eq.
  destruct (sim_processes sim !! pid) as [p |]; [| done]. simpl in *.
  unfold set_coroutine. rewrite Hf. destruct (kind p); [done |]. done.
Qed.

Lemma coroutine_kind pid sim gen :
  get_coroutine pid sim = Some gen →
  ∃ p constructor default_cmd exec_locals waits_on,
    sim_processes sim !! pid = Some p ∧
    kind p = CoroutineProcess constructor default_cmd (Some gen) exec_locals waits_on.
Proof.
  unfold get_coroutine. destruct (sim_processes sim !! pid) as [p |]; [| done]. simpl.
  destruct (kind p) as [| c d co lo w] eqn:Hk; [done |]. intros ->. by eexists _, _, _, _, _.
Qed.

(** X21: when the body of a testbench returns, [run] returns with the
    process passive and its coroutine gone, the store untouched, and every
    later run of the process does nothing.  When the body raises, the
    exception is thrown back into the finished generator, which raises it
    again, and it leaves [run]. *)
Theorem testbench_ends fuel pid response sim g :
  get_coroutine pid sim = Some (Suspended g) →
  (resume g (Send response) = Returned →
   ∃ sim',
     run_loop shape lhs_signals normalize resume (S fuel) pid response sim
     = Some (Ok (), sim') ∧
     get_coroutine pid sim' = None ∧
     passive <$> sim_processes sim' !! pid = Some true ∧
     sim_state sim' = sim_state sim ∧
     ∀ fuel', process_run shape lhs_signals normalize resume fuel' pid sim'
              = Some (Ok (), sim')) ∧
  (∀ e, resume g (Send response) = Raised e →
   ∃ sim',
     run_loop shape lhs_signals normalize resume (S fuel) pid response sim
     = Some (Raise e, sim') ∧
     get_coroutine pid sim' = Some Finished ∧
     sim_state sim' = sim_state sim).
Proof.
  intros Hco. destruct (coroutine_kind pid sim _ Hco) as (p & c & d & lo & w & Hp & Hk).
  split.
  - intros Hret. cbn [run_loop]. unfold coroutine_resume at 1. rewrite Hco.
    unfold gen_resume. rewrite Hret. eexists. split; [reflexivity |].
    assert (Hco1 : get_coroutine pid
                     (update_process pid (set_coroutine (Some Finished)) sim)
                   = Some Finished)
      by exact (get_coroutine_update pid sim _ (Some Finished) id Hco (λ _, eq_refl)).
    split; [| split; [| split; [done |]]].
    + exact (get_coroutine_update pid _ _ None (set_passive true) Hco1 (λ _, eq_refl)).
    + unfold update_process, with_processes. simpl.
      rewrite !list_lookup_alter_eq, Hp. simpl.
      unfold set_coroutine. simpl. rewrite Hk. simpl. done.
    + intros fuel'. unfold process_run, coroutine_run.
      rewrite (get_coroutine_update pid _ _ None (set_passive true) Hco1 (λ _, eq_refl)).
      unfold update_process, with_processes. simpl.
      rewrite !list_lookup_alter_eq, Hp. simpl.
      unfold set_coroutine. simpl. rewrite Hk. simpl. done.
  - intros e Hraise. cbn [run_loop]. unfold coroutine_resume at 1. rewrite Hco.
    unfold gen_resume at 1. rewrite Hraise.
    assert (Hco1 : get_coroutine pid
                     (update_process pid (set_coroutine (Some Finished)) sim)
                   = Some Finished)
      by exact (get_coroutine_update pid sim _ (Some Finished) id Hco (λ _, eq_refl)).
    unfold coroutine_resume. rewrite Hco1. simpl.
    eexists. split; [reflexivity |]. split; [| done].
    exact (get_coroutine_update pid _ _ (Some Finished) id Hco1 (λ _, eq_refl)).
Qed.

(** X22: a command that is neither a value, a statement nor one of the
    simulator's commands, or a bare [yield] of a process that has no
    default command, makes [run] throw a [TypeError] into the testbench at
    the [yield] it is suspended in.  If the body catches it and yields
    again, what it yields there is dropped and the loop goes on; if the
    body lets the exception out or returns, the exception ([StopIteration]
    for a return) leaves [run]. *)
Theorem bad_command fuel pid response sim g g' command :
  get_coroutine pid sim = Some (Suspended g) →
  resume g (Send response) = Yielded command g' →
  command = Some Unsupported ∨ (command = None ∧ get_default_cmd pid sim = None) →
  run_loop shape lhs_signals normalize resume (S fuel) pid response sim
  = let suspended := update_process pid (set_coroutine (Some (Suspended g'))) sim in
    match resume g' (Throw TypeError) with
    | Yielded _ g'' =>
        run_loop shape lhs_signals normalize resume fuel pid None
          (update_process pid (set_coroutine (Some (Suspended g''))) suspended)
    | Returned =>
        Some (Raise StopIterationExn,
              update_process pid (set_coroutine (Some Finished)) suspended)
    | Raised e =>
        Some (Raise e, update_process pid (set_coroutine (Some Finished)) suspended)
    end.
Proof.
  intros Hco Hsend Hcmd. cbn [run_loop].
  unfold coroutine_resume at 1. rewrite Hco. simpl. rewrite Hsend.
  assert (Hdispatch :
            dispatch shape lhs_signals normalize pid
              match command with
              | Some c => Some c
              | None =>
                  get_default_cmd pid
                    (update_process pid (set_coroutine (Some (Suspended g'))) sim)
              end
              (update_process pid (set_coroutine (Some (Suspended g'))) sim)
            = (Raise TypeError,
               update_process pid (set_coroutine (Some (Suspended g'))) sim)).
  { destruct Hcmd as [-> | [-> Hdef]]; [done |].
    by rewrite get_default_cmd_set, Hdef. }
  rewrite Hdispatch. unfold coroutine_resume.
  rewrite (get_coroutine_set _ _ _ _ Hco). simpl.
  by destruct (resume g' (Throw TypeError)).
Qed.

End Ends.

Lemma testbench_ends_witness :
  ∃ sim',
    run_loop unsigned4 no_lhs_signals no_normalize script_resume 1 0 None (bench_simulator [])
    = Some (Ok (), sim') ∧
    get_coroutine 0 sim' = None ∧
    passive <$> sim_processes sim' !! 0 = Some true ∧
    process_run unsigned4 no_lhs_signals no_normalize script_resume 5 0 sim'
    = Some (Ok (), sim').
Proof.
  destruct (testbench_ends unsigned4 no_lhs_signals no_normalize script_resume
              0 0 None (bench_simulator []) [] eq_refl) as [Hret _].
  destruct (Hret eq_refl) as (sim' & Hrun & Hco & Hpassive & _ & Hagain).
  exists sim'. split; [exact Hrun |]. split; [exact Hco |].
  split; [exact Hpassive | exact (Hagain 5)].
Defined.

Lemma bad_command_witness :
  run_loop unsigned4 no_lhs_signals no_normalize catching_resume 2 0 None
    (bench_simulator [None; Some Settle; Some Passive])
  = run_loop unsigned4 no_lhs_signals no_normalize catching_resume 1 0 None
      (update_process 0 (set_coroutine (Some (Suspended [Some Passive])))
         (update_process 0
            (set_coroutine (Some (Suspended [Some Settle; Some Passive])))
            (bench_simulator [None; Some Settle; Some Passive]))).
Proof.
  exact (bad_command unsigned4 no_lhs_signals no_normalize catching_resume
           1 0 None (bench_simulator [None; Some Settle; Some Passive])
           _ _ None eq_refl eq_refl (or_intror (conj eq_refl eq_refl))).
Defined.

(** ** What compiling a fragment keeps *)

Lemma Fragment_ind_nested (Q : Fragment → Prop) :
  (∀ fragment, Forall Q (subfragments fragment) → Q fragment) →
  ∀ fragment, Q fragment.
Proof.
  intros H. fix IH 1. intros [ds stmts doms subs]. apply H. simpl.
  induction subs as [| sub subs IHsubs]; constructor; [apply IH | exact IHsubs].
Qed.

Section FragmentInvariant.
Variable shape : Value → Shape.
Variable lhs_group_filter : list Signal → list Statement → list Statement.
Context {G : Type}.
Variable S : SimulatorState → Prop.
Variable P : Code → Prop.
Hypothesis S_get_signal : ∀ s st, S st → S (get_signal s st).2.
Hypothesis S_waiters : ∀ index ss ws st,
  S st → slots st !! index = Some ss →
  S (with_slots (λ l, <[index := set_waiters ws ss]> l) st).
Hypothesis P_pass : P c_pass.
Hypothesis P_assign : ∀ x e, P (c_assign x e).
Hypothesis P_seq : ∀ a b, P a → P b → P (c_seq a b).
Hypothesis P_if : ∀ branches orelse,
  Forall (λ b, P b.2) branches → P orelse → P (c_if branches orelse).
Hypothesis P_set : ∀ index, P (c_set index).
Hypothesis P_assert : ∀ test, P (c_assert test).

Local Abbreviation domain_inv := (compiler_inv S P).

Lemma slot_wait_inv index task trigger : keeps S anything (slot_wait index task trigger).
Proof.
  intros st Hst. unfold slot_wait.
  destruct (slots st !! index) as [ss |] eqn:Hss; [| done].
  destruct (dict_get task (waiters ss)); [done |]. simpl. split; [| done].
  by apply S_waiters.
Qed.

Lemma for_signal_wait_inv s task trigger :
  keeps S anything (for_signal_wait s task trigger).
Proof.
  intros st Hst. unfold for_signal_wait.
  pose proof (S_get_signal s st Hst) as Hst'.
  destruct (get_signal s st) as [index st']. by apply slot_wait_inv.
Qed.

Lemma c_on_state_inv {A} (m : SE SimulatorState A) :
  keeps S anything m → keeps domain_inv anything (c_on_state m).
Proof.
  intros Hm c [Hst Hbuf]. unfold c_on_state.
  destruct (Hm (state c) Hst) as [Hst' _]. destruct (m (state c)) as [r st'].
  by split.
Qed.

Lemma for_signals_inv code l :
  (∀ s index, P (code s index)) → keeps domain_inv anything (for_signals code l).
Proof.
  intros Hcode. induction l as [| s l IH]; simpl.
  - by apply keeps_ret.
  - okc_bind; [by apply c_get_signal_inv |].
    okc_bind; [by apply append_inv |]. exact IH.
Qed.

Lemma wait_inputs_inv task inputs : keeps domain_inv anything (wait_inputs task inputs).
Proof.
  induction inputs as [| s inputs IH]; simpl.
  - by apply keeps_ret.
  - okc_bind; [apply c_on_state_inv, for_signal_wait_inv | exact IH].
Qed.

Lemma on_domain_stmts_inv stmts : keeps domain_inv anything (on_domain_stmts shape stmts).
Proof.
  unfold on_domain_stmts. okc_bind; [by apply on_statements_all_inv |].
  destruct stmts; [by apply append_inv | by apply keeps_ret].
Qed.

Lemma domain_body_inv doms task domain_name domain_signals domain_stmts :
  keeps domain_inv anything (domain_body shape doms task domain_name domain_signals domain_stmts).
Proof.
  unfold domain_body. okc_bind; [| by apply for_signals_inv].
  destruct domain_name as [name |].
  - destruct (doms !! name) as [domain |]; [| apply keeps_raise].
    okc_bind; [apply c_on_state_inv, for_signal_wait_inv |].
    okc_bind.
    { destruct (async_rst domain);
        [apply c_on_state_inv, for_signal_wait_inv | by apply keeps_ret]. }
    okc_bind; [by apply c_get_signal_inv |].
    okc_bind.
    { destruct (async_rst domain); [| by apply (keeps_ret _ anything)].
      okc_bind; [by apply c_get_signal_inv |]. by apply (keeps_ret _ anything). }
    okc_bind; [by apply append_inv |].
    okc_bind; [by apply for_signals_inv |].
    apply on_domain_stmts_inv.
  - okc_bind; [by apply for_signals_inv |].
    okc_bind; [apply on_domain_stmts_inv |]. apply wait_inputs_inv.
Qed.

Lemma compile_domain_inv fragment entry :
  keeps (made_all S P) anything (compile_domain (G := G) shape lhs_group_filter fragment entry).
Proof.
  intros [st processes] [Hst Hprocs]. destruct entry as [domain_name domain_signals].
  unfold compile_domain. simpl in Hst, Hprocs.
  match goal with |- context [domain_body ?a ?b ?c ?d ?e ?f ?g] =>
    destruct (domain_body_inv b c d e f g) as [[Hst' Hbuf] _];
      [by split; [| apply P_pass] |];
    destruct (domain_body a b c d e f g) as [[[] | e0] c0] end; simpl in *.
  - split; [| done]. split; [done |]. simpl.
    apply Forall_app. split; [done |]. constructor; [| done]. by eexists _, _.
  - by split.
Qed.

Lemma compile_domains_inv fragment entries :
  keeps (made_all S P) anything (compile_domains (G := G) shape lhs_group_filter fragment entries).
Proof.
  induction entries as [| entry entries IH]; simpl.
  - by apply keeps_ret.
  - okc_bind; [apply compile_domain_inv | exact IH].
Qed.

Lemma compile_fragment_inv fragment :
  keeps (made_all S P) anything (compile_fragment (G := G) shape lhs_group_filter fragment).
Proof.
  induction fragment as [fragment IH] using Fragment_ind_nested.
  destruct fragment as [ds stmts doms subs]. cbn [compile_fragment]. simpl in IH.
  okc_bind; [apply compile_domains_inv |].
  induction IH as [| sub subs Hsub _ IHsubs]; [by apply keeps_ret |].
  okc_bind; [exact Hsub | exact IHsubs].
Qed.
End FragmentInvariant.

(** ** A simulator as it is built *)

Lemma writes_by_set_assert test : writes_by_set (c_assert test).
Proof.
  intros env. unfold c_assert. destruct (test env) as [x | e]; [| done].
  by destruct (truthy x).
Qed.

Lemma foldl_fixed {A B} (f : A → B → A) (a : A) (l : list B) :
  (∀ x, x ∈ l → f a x = a) → foldl f a l = a.
Proof.
  induction l as [| x l IH]; [done |]. intros Hf. cbn [foldl].
  rewrite Hf by apply list_elem_of_here. apply IH. intros y Hy.
  by apply Hf, list_elem_of_further.
Qed.

Lemma state_reset_at_reset st : table_ok st → at_reset st → state_reset st = st.
Proof.
  intros [Htab _] (Hslots & Hp & Ht & Hd). unfold state_reset.
  rewrite foldl_fixed.
  - destruct st. simpl in *. by subst.
  - intros [k [s index]] Hin. destruct (Htab k s index Hin) as (_ & ss & Hss & <-).
    rewrite Hss. apply list_insert_id. rewrite Hss. f_equal.
    destruct (Forall_lookup_1 _ _ _ _ Hslots Hss) as [Hc Hn].
    destruct ss. simpl in *. unfold set_next, set_curr. simpl. by subst.
Qed.

Lemma at_reset_get_signal s st : at_reset st → at_reset (get_signal s st).2.
Proof.
  intros (Hslots & Hp & Ht & Hd). unfold get_signal.
  destruct (dict_get _ _) as [[s' i] |]; [done |]. split; [| done]. simpl.
  apply Forall_app. split; [done |]. by constructor.
Qed.

Lemma at_reset_waiters index ss ws st :
  at_reset st → slots st !! index = Some ss →
  at_reset (with_slots (λ l, <[index := set_waiters ws ss]> l) st).
Proof.
  intros (Hslots & Hp & Ht & Hd) Hss. split; [| done]. simpl.
  apply Forall_insert; [done |]. exact (Forall_lookup_1 _ _ _ _ Hslots Hss).
Qed.

Lemma table_ok_waiters index ss ws st :
  table_ok st → slots st !! index = Some ss →
  table_ok (with_slots (λ l, <[index := set_waiters ws ss]> l) st).
Proof.
  intros Hst Hss.
  replace (with_slots (λ l, <[index := set_waiters ws ss]> l) st)
    with (with_slots (alter (set_waiters ws) index) st); [by apply table_ok_alter |].
  unfold with_slots. f_equal. by apply alter_insert.
Qed.

Section Built.
Variable shape : Value → Shape.
Variable lhs_signals : Statement → list Signal.
Variable normalize : Z → Shape → Z.
Variable lhs_group_filter : list Signal → list Statement → list Statement.
Context {G : Type}.
Variable resume : G → Resume → Outcome G.
Implicit Types (sim : @Simulator G).

Lemma new_simulator_inv (S : SimulatorState → Prop) (P : Code → Prop) fragment sim :
  (∀ s st, S st → S (get_signal s st).2) →
  (∀ index ss ws st, S st → slots st !! index = Some ss →
     S (with_slots (λ l, <[index := set_waiters ws ss]> l) st)) →
  P c_pass → (∀ x e, P (c_assign x e)) → (∀ a b, P a → P b → P (c_seq a b)) →
  (∀ branches orelse, Forall (λ b, P b.2) branches → P orelse → P (c_if branches orelse)) →
  (∀ index, P (c_set index)) → (∀ test, P (c_assert test)) →
  S init_state →
  new_simulator shape lhs_group_filter fragment = Ok sim →
  S (sim_state sim) ∧ Forall (made P) (sim_processes sim) ∧
  sim_domains sim = domains fragment.
Proof.
  intros H1 H2 H3 H4 H5 H6 H7 H8 Hinit. unfold new_simulator.
  destruct (compile_fragment_inv (G := G) shape lhs_group_filter S P H1 H2 H3 H4 H5 H6 H7 H8
              fragment (init_state, [])) as [[Hst Hprocs] _]; [by split |].
  destruct (compile_fragment _ _ _ _) as [[[] | e] [st processes]]; [| done].
  by intros [= <-].
Qed.

(** X23: a simulator built from a fragment is in a reachable state, its
    processes are compiled ones that are passive and runnable exactly when
    combinational, their code writes the store through set only, and its
    domains are the fragment's; adding testbenches keeps the state
    reachable and the compiled code as it is. *)
Theorem new_simulator_reachable fragment sim benches :
  new_simulator shape lhs_group_filter fragment = Ok sim →
  let sim' := foldl (λ sim '(constructor, default_cmd),
                       add_coroutine_process constructor default_cmd sim) sim benches in
  reachable shape lhs_signals normalize resume sim' ∧
  emitted_processes sim' ∧
  sim_domains sim' = domains fragment ∧
  Forall (λ p, passive p = true ∧
               ∃ comb run, kind p = CompiledProcess comb run ∧ runnable p = comb)
         (sim_processes sim).
Proof.
  intros Hnew.
  assert (Hbuilt : reachable shape lhs_signals normalize resume sim ∧
                   Forall (made writes_by_set) (sim_processes sim) ∧
                   sim_domains sim = domains fragment).
  { destruct (new_simulator_inv
                (λ st, reachable shape lhs_signals normalize resume
                         {| sim_state := st; sim_processes := [];
                            sim_domains := domains fragment |})
                writes_by_set fragment sim) as (Hr & Hprocs & Hdoms); try done.
    - intros s st Hst. exact (reach_get_signal _ _ _ _ _ s Hst).
    - intros index ss ws st Hst Hss.
      replace (with_slots (λ l, <[index := set_waiters ws ss]> l) st)
        with (with_slots (alter (set_waiters ws) index) st).
      + exact (reach_waiters _ _ _ _ _ index ws Hst).
      + unfold with_slots. f_equal. by apply alter_insert.
    - apply writes_by_set_pass.
    - apply writes_by_set_assign.
    - apply writes_by_set_seq.
    - apply writes_by_set_if.
    - apply writes_by_set_set.
    - apply writes_by_set_assert.
    - apply reach_init.
    - split; [| done].
      apply (reach_processes _ _ _ _ _ (λ _, sim_processes sim)) in Hr.
      destruct sim. simpl in *. by subst. }
  destruct Hbuilt as (Hr & Hprocs & Hdoms). intros sim'.
  assert (Hsim' : reachable shape lhs_signals normalize resume sim' ∧
                  emitted_processes sim' ∧ sim_domains sim' = domains fragment).
  { subst sim'. rewrite <- Hdoms. clear Hnew Hdoms.
    assert (Hem : emitted_processes sim).
    { intros pid comb run. unfold attrs. rewrite list_lookup_fmap.
      destruct (sim_processes sim !! pid) as [p |] eqn:Hp; [| done].
      destruct (Forall_lookup_1 _ _ _ _ Hprocs Hp) as (comb' & run' & -> & Hrun).
      simpl. by intros [= _ <-]. }
    clear Hprocs. generalize (eq_refl (sim_domains sim)).
    generalize (sim_domains sim) at 1 3. intros doms Hd.
    revert sim Hr Hem Hd. induction benches as [| [constructor default_cmd] benches IH];
      intros sim Hr Hem Hd; [done |].
    cbn [foldl]. apply IH.
    - by apply reach_processes.
    - intros pid comb run. unfold attrs, add_coroutine_process. simpl.
      rewrite list_lookup_fmap, lookup_app.
      destruct (sim_processes sim !! pid) as [p |] eqn:Hp.
      + intros Hc. apply (Hem pid comb run). unfold attrs.
        by rewrite list_lookup_fmap, Hp.
      + by destruct (pid - length (sim_processes sim)) as [| n].
    - done. }
  destruct Hsim' as (? & ? & ?). do 3 (split; [done |]).
  eapply Forall_impl; [exact Hprocs |].
  intros p (comb & run & -> & _). split; [done |]. by exists comb, run.
Qed.

(** X24: [Simulator.reset] changes nothing in a simulator that has just
    been built, with whatever testbenches have been added to it. *)
Theorem reset_new_simulator fragment sim benches :
  new_simulator shape lhs_group_filter fragment = Ok sim →
  let sim' := foldl (λ sim '(constructor, default_cmd),
                       add_coroutine_process constructor default_cmd sim) sim benches in
  reset sim' = sim'.
Proof.
  intros Hnew.
  destruct (new_simulator_inv (λ st, table_ok st ∧ at_reset st) anything fragment sim)
    as ([Htab Hreset] & Hprocs & _); try done.
  { intros s st [? ?]. split; [by apply table_ok_get_signal | by apply at_reset_get_signal]. }
  { intros index ss ws st [? ?] Hss.
    split; [by apply table_ok_waiters | by apply at_reset_waiters]. }
  { split; [apply table_ok_init |]. by split; [constructor |]. }
  intros sim'.
  assert (Hsim' : sim_state sim' = sim_state sim ∧
                  process_reset <$> sim_processes sim' = sim_processes sim').
  { subst sim'.
    assert (Hfresh : process_reset <$> sim_processes sim = sim_processes sim).
    { apply list_eq. intros pid. rewrite list_lookup_fmap.
      destruct (sim_processes sim !! pid) as [p |] eqn:Hp; [| done].
      by destruct (Forall_lookup_1 _ _ _ _ Hprocs Hp) as (comb & run & -> & _). }
    clear Hnew Hprocs. generalize (eq_refl (sim_state sim)).
    generalize (sim_state sim) at 1 3. intros st0 Hst0. clear Htab Hreset.
    revert sim Hfresh Hst0.
    induction benches as [| [constructor default_cmd] benches IH]; intros sim Hfresh Hst0;
      [done |].
    cbn [foldl]. apply IH; [| done].
    unfold add_coroutine_process. simpl. by rewrite fmap_app, Hfresh. }
  destruct Hsim' as [Hst Hprocs']. unfold reset.
  rewrite Hprocs', Hst, state_reset_at_reset by done. rewrite <- Hst. by destruct sim'.
Qed.

End Built.

(** ** The compilers only append to the buffer *)

Lemma extends_trans a b c : extends a b → extends b c → extends a c.
Proof. intros Hab. induction 1; [done | by constructor]. Qed.

Lemma extends_raise b b' env e env' :
  extends b b' → b env = (Raise e, env') → b' env = (Raise e, env').
Proof.
  induction 1 as [| b' code _ IH]; [done |]. intros Hb.
  unfold c_seq, mbind, se_bind. by rewrite (IH Hb).
Qed.

Lemma appends_ret {A} (a : A) : appends_only (mret a).
Proof. intros c a' c' [= _ <-]. constructor. Qed.

Lemma appends_raise {A} e : appends_only (A := A) (se_raise e).
Proof. by intros c a c'. Qed.

Lemma appends_lift {A} (r : Res A) : appends_only (se_lift r).
Proof. intros c a c' [= _ <-]. constructor. Qed.

Lemma appends_bind {A B} (m : CM A) (k : A → CM B) :
  appends_only m → (∀ a, appends_only (k a)) → appends_only (m ≫= k).
Proof.
  intros Hm Hk c b c' H. apply se_bind_ok in H as (a & c1 & Ha & Hb).
  eapply extends_trans; [by eapply Hm | by eapply Hk].
Qed.

(** A step whose continuation is known only for the value it returns. *)
Lemma appends_lift_bind {A B} (r : Res A) (k : A → CM B) :
  (∀ a, r = Ok a → appends_only (k a)) → appends_only (se_lift r ≫= k).
Proof.
  intros Hk c b c' H. apply se_bind_ok in H as (a & c1 & Ha & Hb).
  injection Ha as -> <-. by eapply Hk.
Qed.

Lemma appends_append code : appends_only (append code).
Proof. intros c a c' [= _ <-]. simpl. apply extends_seq, extends_refl. Qed.

Lemma appends_gen_var : appends_only gen_var.
Proof. intros c a c' [= _ <-]. constructor. Qed.

Lemma appends_def_var e : appends_only (def_var e).
Proof.
  unfold def_var. apply appends_bind; [apply appends_gen_var |]. intros name.
  apply appends_bind; [apply appends_append |]. intros _. apply appends_ret.
Qed.

Lemma appends_get_signal s : appends_only (c_get_signal s).
Proof.
  intros c a c'. unfold c_get_signal. destruct (get_signal s (state c)).
  intros [= _ <-]. constructor.
Qed.

Lemma appends_on_state {A} (m : SE SimulatorState A) : appends_only (c_on_state m).
Proof.
  intros c a c'. unfold c_on_state. destruct (m (state c)).
  intros [= _ <-]. constructor.
Qed.

(** A block leaves the buffer it is nested in as it was. *)
Lemma appends_indent {A} (body : CM A) : appends_only (indent body).
Proof.
  intros c a c'. unfold indent. destruct (body _) as [[a' | e] c1]; [| done].
  intros [= _ <-]. constructor.
Qed.

Ltac appends_step :=
  first [ assumption
        | apply appends_ret | apply appends_raise | apply appends_lift
        | apply appends_append | apply appends_gen_var | apply appends_def_var
        | apply appends_get_signal | apply appends_on_state | apply appends_indent
        | apply appends_bind; [| intros ?]
        | match goal with
          | |- appends_only (if ?b then _ else _) => destruct b
          | |- appends_only (match ?x with _ => _ end) => destruct x
          end ].

Section Appends.
Variable shape : Value → Shape.

Section Operator.
Variable self : Value → CM Expr.

Lemma appends_on_Operator operator operands :
  Forall (λ v, appends_only (self v)) operands →
  appends_only (on_Operator shape self operator operands).
Proof.
  intros Hops. unfold on_Operator, op_signed2, op_raw2, op_sign, op_mask.
  destruct Hops as [| a ? Ha [| b ? Hb [| c ? Hc [| d ? Hd ?]]]];
    repeat appends_step.
Qed.
End Operator.

Lemma appends_rhs_cat_parts self parts offset :
  Forall (λ v, appends_only (self v)) parts →
  appends_only (rhs_cat_parts shape self parts offset).
Proof.
  intros Hparts. revert offset.
  induction Hparts as [| part parts Hpart _ IH]; intros offset; simpl;
    repeat appends_step. apply IH.
Qed.

Lemma appends_rhs_proxy_elems self gen_value elems :
  appends_only (rhs_proxy_elems self gen_value elems).
Proof. induction elems as [| elem elems IH]; simpl; repeat appends_step. Qed.

Lemma appends_rhs mode v : appends_only (rhs shape mode v).
Proof.
  induction v as [c | s | operator operands IH | v start stop IH
                 | v offset w stride IHv IHo | parts IH | v count IH
                 | elems index IHe IHi | | | | | |] using Value_ind_nested;
    cbn [rhs]; try apply appends_raise.
  - appends_step.
  - repeat appends_step.
  - by apply appends_on_Operator.
  - repeat appends_step.
  - repeat appends_step.
  - appends_step; [by apply appends_rhs_cat_parts |]. repeat appends_step.
  - repeat appends_step.
  - do 3 (appends_step; [by repeat appends_step |]).
    destruct elems as [| elem elems]; [appends_step |].
    appends_step; [apply appends_rhs_proxy_elems |]. repeat appends_step.
Qed.

Lemma appends_lhs_cat_parts self gen_arg parts offset :
  Forall (λ v, ∀ gen, self v = Ok gen → appends_gen gen) parts →
  appends_only (lhs_cat_parts shape self gen_arg parts offset).
Proof.
  intros Hparts. revert offset.
  induction Hparts as [| part parts Hpart _ IH]; intros offset; simpl.
  - appends_step.
  - apply appends_lift_bind. intros gen Hgen.
    appends_step; [by apply Hpart | apply IH].
Qed.

Lemma appends_lhs_proxy_elems self arg elems :
  appends_only (lhs_proxy_elems self arg elems).
Proof. induction elems as [| elem elems IH]; simpl; repeat appends_step. Qed.

Lemma appends_lhs v gen : lhs shape v = Ok gen → appends_gen gen.
Proof.
  revert gen.
  induction v as [c | s | operator operands IH | v start stop IH
                 | v offset w stride IHv IHo | parts IH | v count IH
                 | elems index IHe IHi | | | | | |] using Value_ind_nested;
    cbn [lhs]; intros gen; try done; intros [= <-] arg.
  - repeat appends_step.
  - appends_step; [appends_step |].
    apply appends_lift_bind. intros gen_v Hgen.
    appends_step; [apply appends_rhs | by apply IH].
  - appends_step; [apply appends_rhs |].
    apply appends_lift_bind. intros gen_v Hgen.
    appends_step; [apply appends_rhs | by apply IHv].
  - appends_step; [appends_step |]. by apply appends_lhs_cat_parts.
  - appends_step; [apply appends_rhs |]. appends_step; [appends_step |].
    destruct elems as [| elem elems]; [appends_step |].
    appends_step; [apply appends_lhs_proxy_elems |]. appends_step.
Qed.

Lemma appends_on_statements_with self stmts :
  Forall (λ s, appends_only (self s)) stmts →
  appends_only (on_statements_with self stmts).
Proof. induction 1 as [| s stmts Hs _ IH]; simpl; repeat appends_step. Qed.

Lemma appends_switch_cases self gen_test cases :
  appends_only (switch_cases self gen_test cases).
Proof. induction cases as [| [patterns stmts] cases IH]; simpl; repeat appends_step. Qed.

Lemma appends_stmt s : appends_only (stmt shape s).
Proof.
  destruct s as [l r | test cases | | |]; cbn [stmt]; try apply appends_raise.
  - apply appends_lift_bind. intros gen Hgen.
    appends_step; [apply appends_rhs | by apply (appends_lhs l)].
  - appends_step; [apply appends_rhs |]. appends_step; [appends_step |].
    appends_step; [apply appends_switch_cases | appends_step].
Qed.

Lemma appends_on_domain_stmts stmts : appends_only (on_domain_stmts shape stmts).
Proof.
  unfold on_domain_stmts. appends_step.
  - apply appends_on_statements_with, Forall_forall. intros s _. apply appends_stmt.
  - destruct stmts; appends_step.
Qed.

Lemma appends_for_signals code l : appends_only (for_signals code l).
Proof. induction l as [| s l IH]; simpl; repeat appends_step. Qed.

Lemma appends_wait_inputs task inputs : appends_only (wait_inputs task inputs).
Proof. induction inputs as [| s inputs IH]; simpl; repeat appends_step. Qed.

End Appends.

(** ** What the processes of a fragment wait for *)

Lemma waits_for_get_signal task s trigger s' st :
  waits_for task s trigger st → waits_for task s trigger (get_signal s' st).2.
Proof.
  intros (s0 & index & ss & Hget & Hss & Hw).
  destruct (grows_get_signal st s' st (grows_refl st)) as ([added Hslots] & Hsig & _).
  exists s0, index, ss. split; [by apply Hsig |]. split; [| done].
  rewrite Hslots. by apply lookup_app_l_Some.
Qed.

Lemma waits_for_slot_wait task s trigger index' task' trigger' st :
  waits_for task s trigger st →
  waits_for task s trigger (slot_wait index' task' trigger' st).2.
Proof.
  intros (s0 & index & ss & Hget & Hss & Hw). unfold slot_wait.
  destruct (slots st !! index') as [ss' |] eqn:Hss'; [| by exists s0, index, ss].
  destruct (dict_get task' (waiters ss')) as [t |] eqn:Hw'; [by exists s0, index, ss |].
  simpl. destruct (decide (index' = index)) as [-> | Hne].
  - assert (ss' = ss) as -> by congruence.
    exists s0, index, (set_waiters (dict_set task' trigger' (waiters ss)) ss).
    split; [done |]. split.
    + simpl. apply list_lookup_insert_eq. by apply lookup_lt_Some in Hss.
    + simpl. rewrite dict_get_set_ne; [done |]. intros ->. congruence.
  - exists s0, index, ss. split; [done |]. split; [| done].
    simpl. by rewrite list_lookup_insert_ne.
Qed.

Lemma waits_for_for_signal_wait task s trigger s' task' trigger' st :
  waits_for task s trigger st →
  waits_for task s trigger (for_signal_wait s' task' trigger' st).2.
Proof.
  intros Hw. unfold for_signal_wait.
  pose proof (waits_for_get_signal task s trigger s' st Hw) as Hw'.
  destruct (get_signal s' st) as [index st']. by apply waits_for_slot_wait.
Qed.

Lemma for_signal_wait_waits s task trigger st st' :
  for_signal_wait s task trigger st = (Ok (), st') → waits_for task s trigger st'.
Proof.
  unfold for_signal_wait.
  destruct (get_signal_entry s st) as [s0 Hget].
  destruct (get_signal s st) as [index st1]. simpl in Hget. unfold slot_wait.
  destruct (slots st1 !! index) as [ss |] eqn:Hss; [| done].
  destruct (dict_get task (waiters ss)); [done |]. intros [= <-].
  exists s0, index, (set_waiters (dict_set task trigger (waiters ss)) ss).
  split; [done |]. split.
  - simpl. apply list_lookup_insert_eq. by apply lookup_lt_Some in Hss.
  - simpl. apply dict_get_set.
Qed.

Lemma signal_set_covers seen l s :
  s ∈ l → sig_id s ∉ seen →
  ∃ s0, s0 ∈ signal_set seen l ∧ sig_id s0 = sig_id s.
Proof.
  revert seen. induction l as [| x l IH]; intros seen; [by intros []%elem_of_nil |].
  intros [-> | Hin]%elem_of_cons Hseen; simpl.
  - rewrite decide_False by done. exists x. split; [apply list_elem_of_here | done].
  - destruct (decide (sig_id x ∈ seen)) as [Hx | Hx]; [by apply IH |].
    destruct (decide (sig_id s = sig_id x)) as [Heq | Hne].
    + exists x. split; [apply list_elem_of_here | done].
    + destruct (IH (sig_id x :: seen) Hin) as (s0 & Hs0 & Hid).
      { intros [? | ?]%elem_of_cons; done. }
      exists s0. split; [by apply list_elem_of_further | done].
Qed.

Lemma waits_for_sig_id task s s' trigger st :
  sig_id s = sig_id s' → waits_for task s trigger st → waits_for task s' trigger st.
Proof. intros Hid (s0 & index & ss & Hget & H). exists s0, index, ss. by rewrite <- Hid. Qed.

Lemma waits_within_refl task waited st : waits_within task waited st st.
Proof. intros index ss trigger Hss Hw. left. by exists ss. Qed.

Lemma waits_within_get_signal task waited st0 s st :
  waits_within task waited st0 st → waits_within task waited st0 (get_signal s st).2.
Proof.
  intros Hin index ss trigger Hss Hw.
  destruct (grows_get_signal st s st (grows_refl st)) as ([added Hslots] & Hsig & _).
  rewrite Hslots in Hss. apply lookup_app_Some in Hss as [Hss | [_ Hss]].
  - destruct (Hin index ss trigger Hss Hw) as [? | (s1 & s0 & ? & Hget)]; [by left |].
    right. exists s1, s0. split; [done | by apply Hsig].
  - rewrite list_lookup_fmap in Hss.
    destruct (added !! _) as [s1 |]; [| done]. injection Hss as <-. done.
Qed.

Lemma waits_within_wait task waited st0 s trigger st :
  (s, trigger) ∈ waited →
  waits_within task waited st0 st →
  waits_within task waited st0 (for_signal_wait s task trigger st).2.
Proof.
  intros Hs Hin. unfold for_signal_wait.
  pose proof (waits_within_get_signal task waited st0 s st Hin) as Hin1.
  destruct (get_signal_entry s st) as [s0 Hget].
  destruct (get_signal s st) as [index st1]. simpl in Hget, Hin1. unfold slot_wait.
  destruct (slots st1 !! index) as [ss |] eqn:Hss; [| done].
  destruct (dict_get task (waiters ss)) eqn:Hw; [done |]. simpl.
  intros j ssj t Hssj Hwj. simpl in Hssj.
  destruct (decide (index = j)) as [<- | Hne].
  - rewrite list_lookup_insert_eq in Hssj by by apply lookup_lt_Some in Hss.
    injection Hssj as <-. simpl in Hwj. rewrite dict_get_set in Hwj.
    injection Hwj as <-. right. by exists s, s0.
  - rewrite list_lookup_insert_ne in Hssj by done. by apply (Hin1 j ssj t).
Qed.

Lemma keeps_run {S A} (I : S → Prop) (Q : A → Prop) (m : SE S A) s r s' :
  keeps I Q m → I s → m s = (r, s') → I s'.
Proof. intros Hm Hs Hrun. destruct (Hm s Hs) as [Hs' _]. by rewrite Hrun in Hs'. Qed.

Lemma c_on_state_run {A} (m : SE SimulatorState A) c r c' :
  c_on_state m c = (r, c') → m (state c) = (r, state c') ∧ emitter c' = emitter c.
Proof. unfold c_on_state. destruct (m (state c)) as [r0 st]. by intros [= <- <-]. Qed.

Lemma has_index_get_signal s index s' st :
  has_index s index st → has_index s index (get_signal s' st).2.
Proof.
  intros [s0 Hget].
  destruct (grows_get_signal st s' st (grows_refl st)) as (_ & Hsig & _).
  exists s0. by apply Hsig.
Qed.

Lemma has_index_slot_wait s index index' task trigger st :
  has_index s index st → has_index s index (slot_wait index' task trigger st).2.
Proof.
  intros H. unfold slot_wait. destruct (slots st !! index'); [| done].
  by destruct (dict_get _ _).
Qed.

Lemma has_index_for_signal_wait s index s' task trigger st :
  has_index s index st → has_index s index (for_signal_wait s' task trigger st).2.
Proof.
  intros H. unfold for_signal_wait.
  pose proof (has_index_get_signal s index s' st H) as H'.
  destruct (get_signal s' st) as [i st']. by apply has_index_slot_wait.
Qed.

Lemma has_index_get s index st : has_index s index st → get_signal s st = (index, st).
Proof. intros [s0 Hget]. unfold get_signal. by rewrite Hget. Qed.

Lemma waits_for_has_index task s trigger st :
  waits_for task s trigger st → ∃ index, has_index s index st.
Proof. intros (s0 & index & ss & Hget & _). by exists index, s0. Qed.

Lemma trigger_check_fails index trigger env ss :
  env_slots env !! index = Some ss → curr ss ≠ trigger →
  trigger_check index trigger env = Ok 0%Z.
Proof.
  intros Hss Hne. unfold trigger_check, e_un, e_curr. rewrite Hss. simpl.
  by rewrite (proj2 (Z.eqb_neq _ _) Hne).
Qed.

Lemma signal_set_subset seen l s : s ∈ signal_set seen l → s ∈ l.
Proof.
  revert seen. induction l as [| x l IH]; intros seen; simpl; [done |].
  destruct (decide _).
  - intros ?. apply list_elem_of_further. by eapply IH.
  - intros [-> | ?]%elem_of_cons; [apply list_elem_of_here |].
    apply list_elem_of_further. by eapply IH.
Qed.

Section Domains.
Variable shape : Value → Shape.
Variable lhs_group_filter : list Signal → list Statement → list Statement.
Context {G : Type}.

Lemma wait_inputs_keeps (S : SimulatorState → Prop) task inputs :
  (∀ s, s ∈ inputs → ∀ st, S st → S (for_signal_wait s task None st).2) →
  keeps (compiler_inv S anything) anything (wait_inputs task inputs).
Proof.
  induction inputs as [| s inputs IH]; intros HS; simpl.
  - by apply keeps_ret.
  - okc_bind.
    + apply c_on_state_inv. intros st Hst. split; [| done].
      apply HS; [apply list_elem_of_here | done].
    + apply IH. intros s' Hs'. by apply HS, list_elem_of_further.
Qed.

Lemma wait_inputs_waits task inputs c c' :
  wait_inputs task inputs c = (Ok (), c') →
  ∀ s, s ∈ inputs → waits_for task s None (state c').
Proof.
  revert c. induction inputs as [| s0 inputs IH]; intros c; simpl;
    [by intros _ s []%elem_of_nil |].
  intros H. apply se_bind_ok in H as ([] & c1 & H1 & H2).
  apply c_on_state_run in H1 as [H1 _]. apply for_signal_wait_waits in H1.
  intros s [-> | Hs]%elem_of_cons; [| by eapply IH].
  assert (Hk : compiler_inv (waits_for task s0 None) anything c').
  { eapply keeps_run; [| | exact H2].
    - apply wait_inputs_keeps. intros s' _ st. apply waits_for_for_signal_wait.
    - by split. }
  apply Hk.
Qed.

(** What compiling does to the store ([get_signal] only) keeps [S]. *)
Lemma compile_keeps (S : SimulatorState → Prop) :
  (∀ s st, S st → S (get_signal s st).2) →
  (∀ code l, keeps (compiler_inv S anything) anything (for_signals code l)) ∧
  (∀ stmts, keeps (compiler_inv S anything) anything (on_domain_stmts shape stmts)) ∧
  (∀ s, keeps (compiler_inv S anything) anything (c_get_signal s)) ∧
  (∀ code, keeps (compiler_inv S anything) anything (append code)).
Proof.
  intros HS. split; [| split; [| split]].
  - intros code l. by apply for_signals_inv.
  - intros stmts. by apply on_domain_stmts_inv.
  - intros s. by apply c_get_signal_inv.
  - intros code. by apply append_inv.
Qed.

(** X25: the process made for the combinational domain of a fragment is
    runnable and passive, and has been made a waiter, without trigger, of
    every signal its statements read, and of no other signal. *)
Theorem comb_waits_on_inputs fragment domain_signals st processes st' processes' :
  compile_domain (G := G) shape lhs_group_filter fragment (None, domain_signals)
    (st, processes) = (Ok (), (st', processes')) →
  let inputs := concat (map stmt_inputs
                          (lhs_group_filter domain_signals (statements fragment))) in
  (∃ run, processes' = processes ++
            [{| runnable := true; passive := true; kind := CompiledProcess true run |}]) ∧
  (∀ s, s ∈ inputs → waits_for (length processes) s None st') ∧
  waits_within (length processes) ((λ s, (s, None)) <$> inputs) st st'.
Proof.
  unfold compile_domain. set (stmts := lhs_group_filter _ _).
  destruct (domain_body _ _ _ _ _ _ _) as [[[] | e] c] eqn:Hbody; [| done].
  intros [= <- <-]. set (inputs := concat _). split; [by eexists |].
  unfold domain_body in Hbody.
  apply se_bind_ok in Hbody as ([] & c3 & Hbody & H4).
  apply se_bind_ok in Hbody as ([] & c1 & H1 & Hbody).
  apply se_bind_ok in Hbody as ([] & c2 & H2 & H3).
  set (task := length processes) in *.
  set (c0 := {| state := st; emitter := new_emitter |}) in *.
  split.
  - intros s Hs.
    destruct (signal_set_covers [] inputs s Hs) as (s0 & Hs0 & Hid);
      [apply not_elem_of_nil |].
    apply (waits_for_sig_id task s0 s None _ Hid).
    pose proof (wait_inputs_waits task _ c2 c3 H3 s0 Hs0) as Hw.
    destruct (compile_keeps (waits_for task s0 None)) as (Hfor & _);
      [intros ? ?; apply waits_for_get_signal |].
    assert (Hk : compiler_inv (waits_for task s0 None) anything c);
      [| apply Hk].
    eapply keeps_run; [apply Hfor | | exact H4]. by split.
  - set (waited := (λ s, (s, None)) <$> inputs).
    destruct (compile_keeps (waits_within task waited st)) as (Hfor & Hstmts & _);
      [intros ? ?; apply waits_within_get_signal |].
    assert (Hk : compiler_inv (waits_within task waited st) anything c);
      [| apply Hk].
    eapply keeps_run; [apply Hfor | | exact H4].
    eapply keeps_run; [| | exact H3].
    { apply wait_inputs_keeps. intros s Hs st1. apply waits_within_wait.
      apply list_elem_of_fmap. exists s. split; [done |].
      by eapply signal_set_subset. }
    eapply keeps_run; [apply Hstmts | | exact H2].
    eapply keeps_run; [apply Hfor | | exact H1].
    split; [apply waits_within_refl | done].
Qed.

Lemma has_index_agree s index index' st :
  has_index s index st → has_index s index' st → index = index'.
Proof. intros [s0 H0] [s1 H1]. congruence. Qed.

(** The three last steps of the loop body: they keep what [get_signal]
    keeps and append to the buffer. *)
Lemma body_tail (S : SimulatorState → Prop) code domain_signals stmts c c' :
  (∀ s st, S st → S (get_signal s st).2) →
  (_ ← (_ ← for_signals code domain_signals; on_domain_stmts shape stmts);
   for_signals (λ _ index, c_set index) domain_signals) c = (Ok (), c') →
  (S (state c) → S (state c')) ∧ extends (buffer (emitter c)) (buffer (emitter c')).
Proof.
  intros HS H. split.
  - intros Hc. destruct (compile_keeps S HS) as (Hfor & Hstmts & _).
    assert (Hk : compiler_inv S anything c'); [| apply Hk].
    refine (keeps_run _ anything _ _ _ _ _ (conj Hc I) H).
    okc_bind; [| apply Hfor]. okc_bind; [apply Hfor | apply Hstmts].
  - refine ((_ : appends_only _) c () c' H).
    apply appends_bind; [| intros _; apply appends_for_signals].
    apply appends_bind; [apply appends_for_signals |].
    intros _. apply appends_on_domain_stmts.
Qed.

(** X26: the process made for a clocked domain of a fragment is passive
    and not runnable; it has been made a waiter of the domain's clock, for
    the value 1 if the domain is clocked by the positive edge and 0
    otherwise, and, if the domain has an asynchronous reset, of the reset
    for the value 1, and of no other signal.  Its code begins by asserting
    that one of these signals is at that value: run when none is, it
    raises AssertionError and changes nothing. *)
Theorem sync_process_guard fragment name domain domain_signals st processes st' processes' :
  compile_domain (G := G) shape lhs_group_filter fragment (Some name, domain_signals)
    (st, processes) = (Ok (), (st', processes')) →
  domains fragment !! name = Some domain →
  let task := length processes in
  let waited := (clk domain, Some (clk_trigger domain)) ::
                match async_rst domain with
                | Some r => [(r, Some 1%Z)]
                | None => []
                end in
  ∃ run,
    processes' = processes ++
      [{| runnable := false; passive := true; kind := CompiledProcess false run |}] ∧
    (∀ s trigger, (s, trigger) ∈ waited → waits_for task s trigger st') ∧
    waits_within task waited st st' ∧
    ∀ env,
      (∀ s trigger, (s, trigger) ∈ waited →
         ∃ index ss, has_index s index st' ∧ env_slots env !! index = Some ss ∧
                     Some (curr ss) ≠ trigger) →
      run env = (Raise AssertionError, env).
Proof.
  unfold compile_domain. set (stmts := lhs_group_filter _ _).
  destruct (domain_body _ _ _ _ _ _ _) as [[[] | e] c] eqn:Hbody; [| done].
  intros [= <- <-] Hdom. exists (buffer (emitter c)). split; [done |].
  set (task := length processes) in *.
  unfold domain_body in Hbody. rewrite Hdom in Hbody.
  set (c0 := {| state := st; emitter := new_emitter |}) in *.
  set (trig := clk_trigger domain) in *.
  apply se_bind_ok in Hbody as ([] & c7 & Hbody & H8).
  apply se_bind_ok in Hbody as ([] & c1 & H1 & Hbody).
  apply se_bind_ok in Hbody as ([] & c2 & H2 & Hbody).
  apply se_bind_ok in Hbody as (clk_index & c3 & H3 & Hbody).
  apply se_bind_ok in Hbody as (rst_asserts & c4 & H4 & Hbody).
  apply se_bind_ok in Hbody as ([] & c5 & H5 & Hbody).
  apply se_bind_ok in Hbody as ([] & c6 & H6 & H7).
  assert (Htail : (_ ← (_ ← for_signals (λ _ index, c_assign (NextVar index) (e_slot_next index))
                           domain_signals;
                        on_domain_stmts shape stmts);
                   for_signals (λ _ index, c_set index) domain_signals) c5 = (Ok (), c)).
  { unfold mbind, se_bind. rewrite H6. by rewrite H7. }
  clear H6 H7 H8 c6 c7.
  apply c_on_state_run in H1 as [H1 He1]. simpl in H1.
  pose proof (for_signal_wait_waits _ _ _ _ _ H1) as Hclk1.
  assert (Hin1 : waits_within task
                   ((clk domain, Some trig) ::
                    match async_rst domain with Some r => [(r, Some 1%Z)] | None => [] end)
                   st (state c1)).
  { pose proof (waits_within_wait task
                  ((clk domain, Some trig) ::
                   match async_rst domain with Some r => [(r, Some 1%Z)] | None => [] end)
                  st (clk domain) (Some trig) st (list_elem_of_here _ _)
                  (waits_within_refl _ _ _)) as H.
    by rewrite H1 in H. }
  destruct (async_rst domain) as [r |] eqn:Hasync.
  - apply c_on_state_run in H2 as [H2 He2].
    pose proof (for_signal_wait_waits _ _ _ _ _ H2) as Hrst2.
    pose proof (waits_for_for_signal_wait task (clk domain) (Some trig) r task (Some 1%Z)
                  (state c1) Hclk1) as Hclk2. rewrite H2 in Hclk2. simpl in Hclk2.
    pose proof (waits_within_wait task [(clk domain, Some trig); (r, Some 1%Z)]
                  st r (Some 1%Z) (state c1)
                  (list_elem_of_further _ _ _ (list_elem_of_here _ _)) Hin1) as Hin2.
    rewrite H2 in Hin2. simpl in Hin2.
    destruct (waits_for_has_index _ _ _ _ Hclk2) as [i Hi].
    destruct (waits_for_has_index _ _ _ _ Hrst2) as [j Hj].
    rewrite c_get_signal_eq, (has_index_get _ _ _ Hi) in H3. simpl in H3.
    injection H3 as <- <-.
    apply se_bind_ok in H4 as (rst_index & c3' & H4 & Hret).
    rewrite c_get_signal_eq in H4. simpl in H4.
    rewrite (has_index_get _ _ _ Hj) in H4. simpl in H4.
    injection H4 as <- <-. injection Hret as <- <-.
    injection H5 as <-.
    destruct (body_tail (λ st, waits_for task (clk domain) (Some trig) st) _ _ _ _ _
                (λ s st, waits_for_get_signal _ _ _ s st) Htail) as [Hk1 Hext].
    destruct (body_tail (λ st, waits_for task r (Some 1%Z) st) _ _ _ _ _
                (λ s st, waits_for_get_signal _ _ _ s st) Htail) as [Hk2 _].
    destruct (body_tail (has_index (clk domain) i) _ _ _ _ _
                (λ s st, has_index_get_signal _ _ s st) Htail) as [Hk4 _].
    destruct (body_tail (has_index r j) _ _ _ _ _
                (λ s st, has_index_get_signal _ _ s st) Htail) as [Hk5 _].
    destruct (body_tail (waits_within task [(clk domain, Some trig); (r, Some 1%Z)] st)
                _ _ _ _ _
                (λ s st0, waits_within_get_signal _ _ _ s st0) Htail) as [Hk6 _].
    simpl in *. split; [| split; [by apply Hk6 |]].
    + intros s trigger [[= -> ->] | [[= -> ->] | []%elem_of_nil]%elem_of_cons]%elem_of_cons;
        [by apply Hk1 | by apply Hk2].
    + intros env Henv. eapply extends_raise; [exact Hext |].
      destruct (Henv (clk domain) (Some trig) (list_elem_of_here _ _))
        as (i' & ss & Hi' & Hss & Hne).
      destruct (Henv r (Some 1%Z) (list_elem_of_further _ _ _ (list_elem_of_here _ _)))
        as (j' & ssr & Hj' & Hssr & Hner).
      rewrite <- (has_index_agree _ _ _ _ (Hk4 Hi) Hi') in Hss.
      rewrite <- (has_index_agree _ _ _ _ (Hk5 Hj) Hj') in Hssr.
      rewrite He2, He1. simpl. unfold c_seq, c_pass, mbind, se_bind, mret, se_ret, c_assert.
      cbn [e_any].
      rewrite (trigger_check_fails _ _ _ _ Hss) by congruence. simpl.
      by rewrite (trigger_check_fails _ _ _ _ Hssr) by congruence.
  - injection H2 as <-.
    destruct (waits_for_has_index _ _ _ _ Hclk1) as [i Hi].
    rewrite c_get_signal_eq, (has_index_get _ _ _ Hi) in H3. simpl in H3.
    injection H3 as <- <-. injection H4 as <- <-. injection H5 as <-.
    destruct (body_tail (λ st, waits_for task (clk domain) (Some trig) st) _ _ _ _ _
                (λ s st, waits_for_get_signal _ _ _ s st) Htail) as [Hk1 Hext].
    destruct (body_tail (has_index (clk domain) i) _ _ _ _ _
                (λ s st, has_index_get_signal _ _ s st) Htail) as [Hk4 _].
    destruct (body_tail (waits_within task [(clk domain, Some trig)] st)
                _ _ _ _ _
                (λ s st0, waits_within_get_signal _ _ _ s st0) Htail) as [Hk6 _].
    simpl in *. split; [| split; [by apply Hk6 |]].
    + intros s trigger [[= -> ->] | []%elem_of_nil]%elem_of_cons. by apply Hk1.
    + intros env Henv. eapply extends_raise; [exact Hext |].
      destruct (Henv (clk domain) (Some trig) (list_elem_of_here _ _))
        as (i' & ss & Hi' & Hss & Hne).
      rewrite <- (has_index_agree _ _ _ _ (Hk4 Hi) Hi') in Hss.
      rewrite He1. simpl. unfold c_seq, c_pass, mbind, se_bind, mret, se_ret, c_assert.
      cbn [e_any].
      by rewrite (trigger_check_fails _ _ _ _ Hss) by congruence.
Qed.

End Domains.

(** ** The wrappers of [add_process] and [add_sync_process] *)

Section Wrappers.
Variable shape : Value → Shape.
Variable lhs_signals : Statement → list Signal.
Variable normalize : Z → Shape → Z.
Context {G : Type}.
Variable resume : G → Resume → Outcome G.
Implicit Types (sim : @Simulator G).

Lemma wrap_kind pid sim :
  kind <$> sim_processes (wrap_simulator sim) !! pid
  = (λ p, kind (wrap_process p)) <$> sim_processes sim !! pid.
Proof. simpl. rewrite list_lookup_fmap. by destruct (sim_processes sim !! pid). Qed.

Lemma get_coroutine_wrap pid sim :
  get_coroutine pid (wrap_simulator sim) = fmap wrap_gen (get_coroutine pid sim).
Proof.
  unfold get_coroutine. rewrite wrap_kind.
  destruct (sim_processes sim !! pid) as [p |]; [| done]. simpl. by destruct (kind p).
Qed.

Lemma get_default_cmd_wrap pid sim :
  get_default_cmd pid (wrap_simulator sim) = get_default_cmd pid sim.
Proof.
  unfold get_default_cmd. rewrite wrap_kind.
  destruct (sim_processes sim !! pid) as [p |]; [| done]. simpl. by destruct (kind p).
Qed.

Lemma get_exec_locals_wrap pid sim :
  get_exec_locals pid (wrap_simulator sim) = get_exec_locals pid sim.
Proof.
  unfold get_exec_locals. rewrite wrap_kind.
  destruct (sim_processes sim !! pid) as [p |]; [| done]. simpl. by destruct (kind p).
Qed.

Lemma get_waits_on_wrap pid sim :
  get_waits_on pid (wrap_simulator sim) = get_waits_on pid sim.
Proof.
  unfold get_waits_on. rewrite wrap_kind.
  destruct (sim_processes sim !! pid) as [p |]; [| done]. simpl. by destruct (kind p).
Qed.

Lemma update_wrap pid (f : @Process G → @Process G)
    (fw : @Process (Wrapper G) → @Process (Wrapper G)) sim :
  (∀ p, wrap_process (f p) = fw (wrap_process p)) →
  update_process pid fw (wrap_simulator sim) = wrap_simulator (update_process pid f sim).
Proof.
  intros Hf. unfold update_process, with_processes, wrap_simulator. simpl. f_equal.
  symmetry. apply list_fmap_alter, Forall_forall. intros p _. apply Hf.
Qed.

Lemma wrap_set_coroutine (c : option (Generator G)) (p : @Process G) :
  wrap_process (set_coroutine c p) = set_coroutine (wrap_gen <$> c) (wrap_process p).
Proof. by destruct p as [ru pa []]. Qed.

Lemma wrap_set_exec_locals lo (p : @Process G) :
  wrap_process (set_exec_locals lo p) = set_exec_locals lo (wrap_process p).
Proof. by destruct p as [ru pa []]. Qed.

Lemma wrap_set_waits_on w (p : @Process G) :
  wrap_process (set_waits_on w p) = set_waits_on w (wrap_process p).
Proof. by destruct p as [ru pa []]. Qed.

Lemma wrap_set_passive b (p : @Process G) :
  wrap_process (set_passive b p) = set_passive b (wrap_process p).
Proof. done. Qed.

Lemma lifts_ret {A} (a : A) : lifts (G := G) (mret a) (mret a).
Proof. done. Qed.

Lemma lifts_raise {A} e : lifts (G := G) (A := A) (se_raise e) (se_raise e).
Proof. done. Qed.

Lemma lifts_bind {A B} (m : SE (@Simulator G) A) mw (k : A → SE (@Simulator G) B) kw :
  lifts m mw → (∀ a, lifts (k a) (kw a)) → lifts (m ≫= k) (mw ≫= kw).
Proof.
  intros Hm Hk sim. unfold mbind, se_bind. rewrite Hm.
  destruct (m sim) as [[a | e] sim1]; simpl; [apply Hk | done].
Qed.

Lemma lifts_on_state {A} (m : SE SimulatorState A) : lifts (G := G) (on_state m) (on_state m).
Proof. intros sim. unfold on_state. simpl. by destruct (m (sim_state sim)). Qed.

Lemma lifts_exec pid code : lifts (G := G) (exec pid code) (exec pid code).
Proof.
  intros sim. unfold exec. rewrite get_exec_locals_wrap. simpl.
  destruct (code _) as [r env]. simpl. f_equal.
  apply (update_wrap pid (set_exec_locals (env_locals env)) _
           (with_state (λ _, env_state env) sim)).
  apply wrap_set_exec_locals.
Qed.

Lemma lifts_get_in_signal pid s trigger :
  lifts (G := G) (get_in_signal pid s trigger) (get_in_signal pid s trigger).
Proof.
  intros sim. unfold get_in_signal. simpl.
  destruct (get_signal s (sim_state sim)) as [index st]. simpl.
  destruct (slots st !! index) as [ss |]; [| done].
  destruct (dict_get pid (waiters ss)); [done |]. simpl. f_equal.
  rewrite <- (get_waits_on_wrap pid (with_state (λ _, st) sim)).
  apply (update_wrap pid (set_waits_on _) _
           (with_state (with_slots _) (with_state (λ _, st) sim))).
  apply wrap_set_waits_on.
Qed.

Lemma stop_waiting_fold_wrap pid l r sim :
  foldl (stop_waiting_on pid) (r, wrap_simulator sim) l
  = ((foldl (stop_waiting_on pid) (r, sim) l).1,
     wrap_simulator (foldl (stop_waiting_on pid) (r, sim) l).2).
Proof.
  revert r sim. induction l as [| index l IH]; intros r sim; [done |]. cbn [foldl].
  assert (Hstep : stop_waiting_on pid (r, wrap_simulator sim) index
                  = ((stop_waiting_on pid (r, sim) index).1,
                     wrap_simulator (stop_waiting_on pid (r, sim) index).2)).
  { unfold stop_waiting_on. destruct r as [[] | e]; [| done]. simpl.
    destruct (slots (sim_state sim) !! index) as [ss |]; [| done].
    by destruct (dict_get pid (waiters ss)). }
  rewrite Hstep. destruct (stop_waiting_on pid (r, sim) index) as [r1 sim1]. apply IH.
Qed.

Lemma lifts_stop_waiting pid : lifts (G := G) (stop_waiting pid) (stop_waiting pid).
Proof.
  intros sim. unfold stop_waiting. rewrite get_waits_on_wrap, stop_waiting_fold_wrap.
  destruct (foldl _ _ _) as [[[] | e] sim1]; [| done]. simpl. f_equal.
  apply update_wrap, wrap_set_waits_on.
Qed.

Lemma lifts_dispatch pid command :
  lifts (G := G) (dispatch shape lhs_signals normalize pid command)
        (dispatch shape lhs_signals normalize pid command).
Proof.
  destruct command as [[v | s | domain | | interval | | |] |]; cbn [dispatch];
    try apply lifts_raise; try done.
  - apply lifts_bind; [apply lifts_on_state |]. intros code.
    apply lifts_bind; [apply lifts_exec |]. intros _.
    intros sim. unfold se_do. rewrite get_exec_locals_wrap.
    by destruct (_ !! ResultVar).
  - apply lifts_bind; [apply lifts_on_state |]. intros code.
    apply lifts_bind; [apply lifts_exec |]. intros _. apply lifts_ret.
  - apply lifts_bind.
    { intros sim. unfold se_do. destruct domain as [name | d]; [| done]. simpl.
      by destruct (sim_domains sim !! name). }
    intros d. apply lifts_bind; [apply lifts_get_in_signal |]. intros _.
    apply lifts_bind; [| intros _; apply lifts_ret].
    destruct (rst d) as [r |]; [| apply lifts_ret].
    destruct (async_reset d); [apply lifts_get_in_signal | apply lifts_ret].
  - intros sim. simpl. f_equal. apply update_wrap, wrap_set_passive.
  - intros sim. simpl. f_equal. apply update_wrap, wrap_set_passive.
Qed.

Lemma coroutine_resume_wrap pid r sim :
  coroutine_resume (wrapper_resume resume) pid r (wrap_simulator sim)
  = ((coroutine_resume resume pid r sim).1,
     wrap_simulator (coroutine_resume resume pid r sim).2).
Proof.
  unfold coroutine_resume. rewrite get_coroutine_wrap.
  destruct (get_coroutine pid sim) as [[g |] |]; simpl; [| | done].
  - destruct (resume g r) as [command g' | | e]; simpl; f_equal;
      by rewrite <- (update_wrap pid (set_coroutine _) _ sim (wrap_set_coroutine _)).
  - destruct r; simpl; f_equal;
      by rewrite <- (update_wrap pid (set_coroutine _) _ sim (wrap_set_coroutine _)).
Qed.

Lemma run_loop_wrap fuel pid response sim :
  run_loop shape lhs_signals normalize (wrapper_resume resume) fuel pid response
    (wrap_simulator sim)
  = prod_map id wrap_simulator
      <$> run_loop shape lhs_signals normalize resume fuel pid response sim.
Proof.
  revert response sim. induction fuel as [| fuel IH]; intros response sim; [done |].
  cbn [run_loop].
  assert (Hhandler : ∀ exn sim0,
    match coroutine_resume (wrapper_resume resume) pid (Throw exn) (wrap_simulator sim0) with
    | (Yields _, s) =>
        run_loop shape lhs_signals normalize (wrapper_resume resume) fuel pid None s
    | (RaisesStopIteration, s) => Some (Raise StopIterationExn, s)
    | (RaisesExn e, s) => Some (Raise e, s)
    end
    = prod_map id wrap_simulator <$>
      match coroutine_resume resume pid (Throw exn) sim0 with
      | (Yields _, s) => run_loop shape lhs_signals normalize resume fuel pid None s
      | (RaisesStopIteration, s) => Some (Raise StopIterationExn, s)
      | (RaisesExn e, s) => Some (Raise e, s)
      end).
  { intros exn sim0. rewrite coroutine_resume_wrap.
    destruct (coroutine_resume resume pid (Throw exn) sim0) as [[command | | e] s];
      simpl; [apply IH | done | done]. }
  rewrite coroutine_resume_wrap.
  destruct (coroutine_resume resume pid (Send response) sim) as [[command | | e] sim1];
    simpl; [| | apply Hhandler].
  - rewrite get_default_cmd_wrap, lifts_dispatch.
    destruct (dispatch _ _ _ _ _ sim1) as [[[response' |] | exn] sim2]; simpl;
      [apply IH | done | apply Hhandler].
  - do 2 f_equal. apply update_wrap. intros p.
    by rewrite wrap_set_coroutine, wrap_set_passive.
Qed.

(** X27: a run of a testbench that is inside its body does in the
    simulator of the wrappers exactly what the run of the body does. *)
Theorem wrapper_transparent fuel pid sim :
  process_run shape lhs_signals normalize (wrapper_resume resume) fuel pid
    (wrap_simulator sim)
  = prod_map id wrap_simulator
      <$> process_run shape lhs_signals normalize resume fuel pid sim.
Proof.
  unfold process_run. rewrite wrap_kind.
  destruct (sim_processes sim !! pid) as [p |] eqn:Hp; [| done]. simpl.
  destruct (kind p) as [comb run | constructor default_cmd coroutine lo w] eqn:Hk.
  - simpl. unfold compiled_run. simpl. by destruct (run _).
  - simpl. unfold coroutine_run. rewrite get_coroutine_wrap.
    destruct (get_coroutine pid sim); [| done]. simpl.
    rewrite lifts_stop_waiting. destruct (stop_waiting pid sim) as [[[] | e] sim1]; [| done].
    apply run_loop_wrap.
Qed.

Lemma update_last {H : Type} f (q : @Process H) l (s : @Simulator H) :
  sim_processes s = l ++ [q] →
  update_process (length l) f s = with_processes (λ _, l ++ [f q]) s.
Proof.
  intros Hs. unfold update_process, with_processes. f_equal. rewrite Hs.
  rewrite <- (Nat.add_0_r (length l)). by rewrite alter_app_r.
Qed.

Lemma kind_last {H : Type} (q : @Process H) l (s : @Simulator H) :
  sim_processes s = l ++ [q] → kind <$> sim_processes s !! length l = Some (kind q).
Proof. intros ->. by rewrite lookup_app_r, Nat.sub_diag. Qed.

(** The run of a process that waits on nothing, up to the loop. *)
Lemma coroutine_run_last {H : Type} (res : H → Resume → Outcome H) fuel
    (s : @Simulator H) l constructor default_cmd gen lo :
  sim_processes s
  = l ++ [{| runnable := true; passive := false;
             kind := CoroutineProcess constructor default_cmd (Some gen) lo ∅ |}] →
  process_run shape lhs_signals normalize res fuel (length l) s
  = run_loop shape lhs_signals normalize res fuel (length l) None s.
Proof.
  intros Hs. unfold process_run. rewrite (kind_last _ _ _ Hs). simpl.
  unfold coroutine_run, get_coroutine. rewrite (kind_last _ _ _ Hs). simpl.
  unfold stop_waiting, get_waits_on. rewrite (kind_last _ _ _ Hs). simpl.
  rewrite elements_empty. simpl. rewrite (update_last _ _ _ _ Hs). simpl.
  replace (with_processes _ s) with s; [done |].
  destruct s. unfold with_processes. simpl in *. by rewrite Hs.
Qed.

Lemma coroutine_resume_last {H : Type} (res : H → Resume → Outcome H) r
    (s : @Simulator H) l constructor default_cmd gen lo w :
  let q c := {| runnable := true; passive := false;
                kind := CoroutineProcess constructor default_cmd (Some c) lo w |} in
  sim_processes s = l ++ [q gen] →
  coroutine_resume res (length l) r s
  = ((gen_resume res gen r).1,
     with_processes (λ _, l ++ [q (gen_resume res gen r).2]) s).
Proof.
  intros q Hs. unfold coroutine_resume, get_coroutine. rewrite (kind_last _ _ _ Hs). simpl.
  destruct (gen_resume res gen r) as [step gen']. simpl. f_equal.
  by rewrite (update_last _ _ _ _ Hs).
Qed.

(** X28: a testbench added with [add_process] does nothing at its first
    run but ask to be run again once the design has settled: the run
    leaves the body unstarted and stores a deadline without a time for
    the process.  Its second run is the first run of the body: it does in
    the simulator of the wrappers what the first run of the body, added
    as it is, does in the simulator of the bodies. *)
Theorem add_process_starts_after_settle fuel body sim :
  let pid := length (sim_processes sim) in
  let first := with_state (with_deadlines (dict_set pid None))
                 (update_process pid (set_coroutine (Some (Suspended (WrapperFirst body))))
                    (add_process body (wrap_simulator sim))) in
  process_run shape lhs_signals normalize (wrapper_resume resume) (S fuel) pid
    (add_process body (wrap_simulator sim)) = Some (Ok (), first) ∧
  process_run shape lhs_signals normalize (wrapper_resume resume) fuel pid first
  = prod_map id wrap_simulator
      <$> process_run shape lhs_signals normalize resume fuel pid
            (with_state (with_deadlines (dict_set pid None))
               (add_coroutine_process body None sim)).
Proof.
  intros pid first.
  set (l := wrap_process <$> sim_processes sim).
  assert (Hlen : length l = pid) by apply length_fmap.
  set (q := λ c, {| runnable := true; passive := false;
                    kind := CoroutineProcess (WrapperFresh Settle body) None
                              (Some c) ∅ ∅ |} : @Process (Wrapper G)).
  assert (Hadd : sim_processes (add_process body (wrap_simulator sim))
                 = l ++ [q (Suspended (WrapperFresh Settle body))]) by done.
  assert (Hfirst : sim_processes first = l ++ [q (Suspended (WrapperFirst body))]).
  { unfold first. simpl. fold l. rewrite <- Hlen.
    rewrite <- (Nat.add_0_r (length l)). by rewrite alter_app_r. }
  split.
  - rewrite <- Hlen.
    rewrite (coroutine_run_last _ _ _ _ _ _ _ _ Hadd). cbn [run_loop].
    rewrite (coroutine_resume_last _ _ _ _ _ _ _ _ _ Hadd). simpl.
    do 2 f_equal. unfold first, with_state, with_processes, update_process. simpl.
    rewrite Hlen. f_equal. fold l. rewrite <- Hlen.
    rewrite <- (Nat.add_0_r (length l)). by rewrite alter_app_r.
  - set (bodies := with_state _ (add_coroutine_process body None sim)).
    assert (Hbodies : sim_processes bodies
                      = sim_processes sim
                        ++ [{| runnable := true; passive := false;
                               kind := CoroutineProcess body None
                                         (Some (Suspended body)) ∅ ∅ |}]) by done.
    unfold pid at 2. rewrite (coroutine_run_last _ _ _ _ _ _ _ _ Hbodies).
    fold pid. rewrite <- run_loop_wrap.
    set (second := wrap_simulator bodies).
    assert (Hsecond : sim_processes second = l ++ [q (Suspended (WrapperInside body))]).
    { unfold second. simpl. by rewrite fmap_app. }
    rewrite <- Hlen.
    rewrite (coroutine_run_last _ _ _ _ _ _ _ _ Hfirst).
    destruct fuel as [| fuel]; [done |]. cbn [run_loop].
    rewrite (coroutine_resume_last _ _ _ _ _ _ _ _ _ Hfirst).
    rewrite (coroutine_resume_last _ _ _ _ _ _ _ _ _ Hsecond). simpl.
    replace (with_processes (λ _, l ++ [q (gen_resume (wrapper_resume resume)
                                              (Suspended (WrapperInside body)) (Send None)).2])
               second)
      with (with_processes (λ _, l ++ [q (gen_resume (wrapper_resume resume)
                                              (Suspended (WrapperInside body)) (Send None)).2])
               first); [done |].
    unfold first, second, with_processes, with_state, wrap_simulator. simpl. done.
Qed.

End Wrappers.

Section SyncWrapper.
Variable shape : Value → Shape.
Variable lhs_signals : Statement → list Signal.
Variable normalize : Z → Shape → Z.
Context {G : Type}.
Variable resume : G → Resume → Outcome G.

Lemma dispatch_tick_returns {H : Type} pid domain (s : @Simulator H) r s' :
  dispatch shape lhs_signals normalize pid (Some (Tick domain)) s = (Ok r, s') →
  r = Return.
Proof.
  cbn [dispatch]. intros Hd.
  apply se_bind_ok in Hd as (d & s1 & _ & Hd).
  apply se_bind_ok in Hd as ([] & s2 & _ & Hd).
  apply se_bind_ok in Hd as ([] & s3 & _ & Hd).
  by injection Hd as <- _.
Qed.

Lemma get_coroutine_dispatch {H : Type} pid command (s : @Simulator H) :
  get_coroutine pid (dispatch shape lhs_signals normalize pid command s).2
  = get_coroutine pid s.
Proof.
  pose proof (keeps_attrs_dispatch shape lhs_signals normalize
                (λ p : @Process H,
                   match kind p with
                   | CoroutineProcess _ _ coroutine _ _ => coroutine
                   | CompiledProcess _ _ => None
                   end)) as Hk.
  assert (Hget : ∀ s0 : @Simulator H,
            get_coroutine pid s0
            = mjoin (attrs (λ p : @Process H,
                              match kind p with
                              | CoroutineProcess _ _ coroutine _ _ => coroutine
                              | CompiledProcess _ _ => None
                              end) s0 !! pid)).
  { intros s0. unfold get_coroutine, attrs. rewrite list_lookup_fmap.
    destruct (sim_processes s0 !! pid) as [p |]; [| done]. simpl. by destruct (kind p). }
  rewrite !Hget. f_equal. f_equal. apply Hk; by intros ? [ru pa []].
Qed.

(** X29: [add_sync_process] refuses the domain ["comb"] with the
    AssertionError of [Tick]; for any other domain it adds a testbench
    whose default command is [Tick(domain)], and the first run of that
    testbench does not start the body: it carries out the [Tick] of the
    wrapper, and returns with the process waiting for the clock if that
    succeeds; if it fails (the domain is not known, say), the exception
    is thrown into the wrapper, which does not catch it, and leaves
    [run] with the generator finished. *)
Theorem add_sync_process_spec fuel body domain sim :
  (domain = DomainName "comb" →
   add_sync_process body domain (wrap_simulator sim) = Raise AssertionError) ∧
  (domain ≠ DomainName "comb" →
   let pid := length (sim_processes sim) in
   let added := add_coroutine_process (WrapperFresh (Tick domain) body)
                  (Some (Tick domain)) (wrap_simulator sim) in
   let first := update_process pid
                  (set_coroutine (Some (Suspended (WrapperFirst body)))) added in
   add_sync_process body domain (wrap_simulator sim) = Ok added ∧
   get_default_cmd pid added = Some (Tick domain) ∧
   process_run shape lhs_signals normalize (wrapper_resume resume) (S fuel) pid added
   = match dispatch shape lhs_signals normalize pid (Some (Tick domain)) first with
     | (Ok _, waiting) => Some (Ok (), waiting)
     | (Raise exn, failed) =>
         Some (Raise exn, update_process pid (set_coroutine (Some Finished)) failed)
     end).
Proof.
  split.
  - by intros ->.
  - intros Hne pid added first.
    set (l := wrap_process <$> sim_processes sim).
    assert (Hlen : length l = pid) by apply length_fmap.
    set (q := λ c, {| runnable := true; passive := false;
                      kind := CoroutineProcess (WrapperFresh (Tick domain) body)
                                (Some (Tick domain)) (Some c) ∅ ∅ |}
                   : @Process (Wrapper G)).
    assert (Hadd : sim_processes added
                   = l ++ [q (Suspended (WrapperFresh (Tick domain) body))]) by done.
    assert (Hstep : coroutine_resume (wrapper_resume resume) pid (Send None) added
                    = (Yields (Some (Tick domain)), first)).
    { unfold first. rewrite <- Hlen.
      rewrite (coroutine_resume_last _ _ _ _ _ _ _ _ _ Hadd).
      by rewrite (update_last _ _ _ _ Hadd). }
    split; [| split].
    + unfold add_sync_process, new_Tick. destruct domain as [name | d]; [| done].
      destruct (String.eqb_spec name "comb") as [-> | _]; done.
    + unfold get_default_cmd. by rewrite <- Hlen, (kind_last _ _ _ Hadd).
    + rewrite <- Hlen at 1.
      rewrite (coroutine_run_last _ _ _ _ _ _ _ _ _ _ _ Hadd). cbn [run_loop].
      rewrite Hlen, Hstep.
      pose proof (get_coroutine_dispatch pid (Some (Tick domain)) first) as Hco.
      destruct (dispatch _ _ _ _ _ first) as [[r | exn] s] eqn:Hd.
      * apply dispatch_tick_returns in Hd as ->. done.
      * simpl in Hco. unfold coroutine_resume. rewrite Hco.
        assert (Hfirst_co : get_coroutine pid first
                            = Some (Suspended (WrapperFirst body))).
        { unfold first, get_coroutine. rewrite <- Hlen.
          rewrite (update_last _ _ _ _ Hadd). simpl.
          by rewrite lookup_app_r, Nat.sub_diag. }
        by rewrite Hfirst_co.
Qed.

End SyncWrapper.

Lemma add_sync_process_spec_witness :
  add_sync_process ([] : list (option Command)) (DomainName "comb")
    (wrap_simulator (bench_simulator [])) = Raise AssertionError ∧
  ∃ added,
    add_sync_process ([] : list (option Command)) (DomainObj sync_domain)
      (wrap_simulator (bench_simulator [])) = Ok added ∧
    get_default_cmd 1 added = Some (Tick (DomainObj sync_domain)).
Proof.
  destruct (add_sync_process_spec unsigned4 no_lhs_signals no_normalize script_resume
              0 [] (DomainName "comb") (bench_simulator [])) as [Hcomb _].
  destruct (add_sync_process_spec unsigned4 no_lhs_signals no_normalize script_resume
              0 [] (DomainObj sync_domain) (bench_simulator [])) as [_ Hsync].
  destruct (Hsync ltac:(done)) as (Hadd & Hdefault & _).
  split; [exact (Hcomb eq_refl) |]. eexists. split; [exact Hadd | exact Hdefault].
Defined.

Lemma comb_simulator_built :
  new_simulator unsigned4 keep_all comb_fragment = Ok comb_simulator.
Proof. vm_compute. reflexivity. Qed.

Lemma new_simulator_reachable_witness :
  reachable unsigned4 no_lhs_signals no_normalize script_resume
    (add_coroutine_process [Some Settle] None comb_simulator) ∧
  emitted_processes (add_coroutine_process [Some Settle] None comb_simulator).
Proof.
  destruct (new_simulator_reachable unsigned4 no_lhs_signals no_normalize keep_all
              script_resume comb_fragment comb_simulator [([Some Settle], None)]
              comb_simulator_built) as (Hr & Hem & _).
  by split.
Defined.

Lemma reset_new_simulator_witness :
  reset (add_coroutine_process [Some Settle] None comb_simulator)
  = add_coroutine_process [Some Settle] None comb_simulator.
Proof.
  exact (reset_new_simulator unsigned4 keep_all comb_fragment comb_simulator
           [([Some Settle], None)] comb_simulator_built).
Defined.

Lemma comb_domain_compiled :
  compile_domain (G := list (option Command)) unsigned4 keep_all comb_fragment
    (None, [hit_signal]) (init_state, [])
  = (Ok (), (sim_state comb_simulator, sim_processes comb_simulator)).
Proof. vm_compute. reflexivity. Qed.

Lemma comb_waits_on_inputs_witness :
  waits_for 0 nibble None (sim_state comb_simulator).
Proof.
  destruct (comb_waits_on_inputs unsigned4 keep_all comb_fragment [hit_signal]
              init_state [] _ _ comb_domain_compiled) as (_ & Hw & _).
  apply Hw. vm_compute. apply list_elem_of_here.
Defined.

Lemma sync_domain_compiled :
  compile_domain (G := list (option Command)) unsigned4 keep_all sync_fragment
    (Some "sync"%string, [hit_signal]) (init_state, [])
  = (Ok (), (sim_state sync_simulator, sim_processes sync_simulator)).
Proof. vm_compute. reflexivity. Qed.

Lemma sync_process_guard_witness :
  ∃ run,
    sim_processes sync_simulator
    = [{| runnable := false; passive := true; kind := CompiledProcess false run |}] ∧
    waits_for 0 (clk sync_domain) (Some 1%Z) (sim_state sync_simulator) ∧
    run clock_low = (Raise AssertionError, clock_low).
Proof.
  destruct (sync_process_guard unsigned4 keep_all sync_fragment "sync" sync_domain
              [hit_signal] init_state [] _ _ sync_domain_compiled eq_refl)
    as (run & Hprocs & Hw & _ & Hguard).
  exists run. split; [exact Hprocs |]. split.
  - apply Hw. apply list_elem_of_here.
  - apply Hguard. intros s trigger [[= -> ->] | []%elem_of_nil]%elem_of_cons.
    exists 0, (set_waiters [(0, Some 1%Z)] (new_slot (clk sync_domain))).
    split; [by exists (clk sync_domain) |]. split; [| done].
    vm_compute. reflexivity.
Defined.
